(** * The markdown-input editing model of iow-termed-ui

    A shallow embedding of the classes [Model], [Paragraph], [Link], [Text],
    [Point], [Selection], [LinkableSelection] and [LinkedSelection] of the
    markdown input component.  The classes form a mutable object graph with
    parent back-references, so the embedding is an arena: every object lives
    in a list indexed by its handle, [new] appends to the list, a field
    assignment overwrites the slot, and JavaScript's [===] on objects is
    equality of handles.  Methods are computations in a state-and-fault
    monad over the arena. *)

From Stdlib Require Import ZArith Lia String Ascii.
From stdpp Require Import base option list.

Open Scope Z_scope.

(** ** JavaScript strings *)

(** A string is its sequence of UTF-16 code units. *)
Definition jsstring := list N.

Definition lit (s : string) : jsstring :=
  map N_of_ascii (list_ascii_of_string s).

Definition jslength (s : jsstring) : Z := Z.of_nat (length s).

(** [String.prototype.substring]: both indices are clamped to
    [0, length] and swapped when they come in the wrong order. *)
Definition clamp (len : nat) (i : Z) : nat :=
  Z.to_nat (Z.min (Z.max i 0) (Z.of_nat len)).

Definition substring (s : jsstring) (a b : Z) : jsstring :=
  let a' := clamp (length s) a in
  let b' := clamp (length s) b in
  take (Nat.max a' b' - Nat.min a' b') (drop (Nat.min a' b') s).

(** One-argument [substring(a)]: the end defaults to the length. *)
Definition substringFrom (s : jsstring) (a : Z) : jsstring :=
  substring s a (jslength s).

(** ** Numbers

    An offset is a [number], a double.  The integers among the numbers
    are modelled by [Z]: every integer up to [2^53] in absolute value is a
    number, and beyond that only the multiples of the unit in the last
    place, which doubles with every power of two. *)

(** The number nearest to the integer [z]; at a tie the one with the even
    significand. *)
Definition roundNumber (z : Z) : Z :=
  let a := Z.abs z in
  if a <=? 2 ^ 53 then z
  else
    let ulp := 2 ^ (Z.log2 a - 52) in
    let q := a / ulp in
    let r := a mod ulp in
    let q' := if 2 * r <? ulp then q
              else if ulp <? 2 * r then q + 1
              else if Z.even q then q else q + 1 in
    Z.sgn z * (q' * ulp).

(** [a + b] on integer-valued numbers: the sum, rounded. *)
Definition numAdd (a b : Z) : Z := roundNumber (a + b).

(** ECMAScript WhiteSpace and LineTerminator code units, the ones
    [String.prototype.trim] strips. *)
Definition isWhiteSpace (c : N) : bool :=
  bool_decide (c ∈ [9; 10; 11; 12; 13; 32; 160; 5760; 8192; 8193; 8194; 8195;
                    8196; 8197; 8198; 8199; 8200; 8201; 8202; 8232; 8233;
                    8239; 8287; 12288; 65279]%N).

Fixpoint trimStart (s : jsstring) : jsstring :=
  match s with
  | c :: s' => if isWhiteSpace c then trimStart s' else s
  | [] => []
  end.

Definition trim (s : jsstring) : jsstring :=
  rev (trimStart (rev (trimStart s))).

Definition isEmpty (s : jsstring) : bool :=
  match s with [] => true | _ => false end.

(** [value || ' '] *)
Definition orSpace (value : jsstring) : jsstring :=
  if isEmpty value then lit " " else value.

(** ** Objects *)

Inductive Parent := InParagraph (p : nat) | InLink (l : nat).

Record Text := { t_parent : Parent; t_content : jsstring }.

Record Link := { l_parent : nat; l_text : nat; l_target : jsstring }.

(** An element of [Paragraph.content : (Link|Text)[]]. *)
Inductive Content := CText (t : nat) | CLink (l : nat).

Record Paragraph := { p_content : list Content }.

Record Point := { pt_text : nat; pt_offset : Z }.

Record LinkableSelection :=
  { ls_text : nat; ls_start : Z; ls_end : Z; ls_cursor : Z }.

Record LinkedSelection := { lk_link : nat; lk_cursor : Z }.

(** The arena together with the fields of the single [Model] object.
    [cursor] records the last caret placement requested from the editing
    surface. *)
Record Model := {
  texts : list Text;
  links : list Link;
  paragraphs : list Paragraph;
  content : list nat;
  linkableSelection : option LinkableSelection;
  linkedSelection : option LinkedSelection;
  cursor : option Point
}.

#[global] Instance Parent_eq_dec : EqDecision Parent.
Proof. solve_decision. Defined.
#[global] Instance Content_eq_dec : EqDecision Content.
Proof. solve_decision. Defined.
#[global] Instance Point_eq_dec : EqDecision Point.
Proof. solve_decision. Defined.

Definition emptyModel : Model :=
  {| texts := []; links := []; paragraphs := []; content := [];
     linkableSelection := None; linkedSelection := None; cursor := None |}.

(** ** Faults and the monad *)

(** The [Error]s the source throws, by message, the [TypeError] of a
    method call on [undefined] or [null], the DOM's [NotFoundError], and
    [Diverges] for a loop that does not come to an end. *)
Inductive Fault :=
| IllegalState
| IllegalArgument
| NotADocument
| NotAParagraph
| NotAText
| NotASingleChild
| RemoveRangeNotInBounds
| NoContentInParagraph
| TypeError
| NotFoundError
| Diverges.

Inductive Res (A : Type) :=
| Ok (a : A)
| Err (f : Fault).
Arguments Ok {A} a.
Arguments Err {A} f.

#[global] Instance Fault_eq_dec : EqDecision Fault.
Proof. solve_decision. Defined.

(** A throw keeps every mutation made before it, so the state is returned
    on both outcomes. *)
Definition M (A : Type) := Model → Res A * Model.

Definition ret {A} (a : A) : M A := λ st, (Ok a, st).

Definition throw {A} (f : Fault) : M A := λ st, (Err f, st).

Definition bind {A B} (m : M A) (k : A → M B) : M B :=
  λ st, match m st with
        | (Ok a, st') => k a st'
        | (Err f, st') => (Err f, st')
        end.

Notation "x <- m ;; k" := (bind m (λ x, k))
  (at level 100, m at next level, right associativity).
Notation "m ;;; k" := (bind m (λ _, k))
  (at level 100, right associativity).

Definition get : M Model := λ st, (Ok st, st).

Definition modify (f : Model → Model) : M unit := λ st, (Ok tt, f st).

Definition whenM (b : bool) (m : M unit) : M unit :=
  if b then m else ret tt.

(** [for (const x of xs) body(x)] over the array as it is on entry. *)
Fixpoint forOf {A} (xs : list A) (body : A → M unit) : M unit :=
  match xs with
  | [] => ret tt
  | x :: xs' => body x ;;; forOf xs' body
  end.

(** ** State updates *)

Definition set_texts (f : list Text → list Text) (st : Model) : Model :=
  {| texts := f (texts st); links := links st; paragraphs := paragraphs st;
     content := content st; linkableSelection := linkableSelection st;
     linkedSelection := linkedSelection st; cursor := cursor st |}.

Definition set_links (f : list Link → list Link) (st : Model) : Model :=
  {| texts := texts st; links := f (links st); paragraphs := paragraphs st;
     content := content st; linkableSelection := linkableSelection st;
     linkedSelection := linkedSelection st; cursor := cursor st |}.

Definition set_paragraphs (f : list Paragraph → list Paragraph)
    (st : Model) : Model :=
  {| texts := texts st; links := links st; paragraphs := f (paragraphs st);
     content := content st; linkableSelection := linkableSelection st;
     linkedSelection := linkedSelection st; cursor := cursor st |}.

Definition set_content (f : list nat → list nat) (st : Model) : Model :=
  {| texts := texts st; links := links st; paragraphs := paragraphs st;
     content := f (content st); linkableSelection := linkableSelection st;
     linkedSelection := linkedSelection st; cursor := cursor st |}.

Definition set_selections (a : option LinkableSelection)
    (b : option LinkedSelection) (st : Model) : Model :=
  {| texts := texts st; links := links st; paragraphs := paragraphs st;
     content := content st; linkableSelection := a;
     linkedSelection := b; cursor := cursor st |}.

Definition set_cursor (c : option Point) (st : Model) : Model :=
  {| texts := texts st; links := links st; paragraphs := paragraphs st;
     content := content st; linkableSelection := linkableSelection st;
     linkedSelection := linkedSelection st; cursor := c |}.

(** Reading through a handle.  Every handle the program holds is allocated,
    so the [TypeError] branch is there only to make the functions total. *)
Definition getText (t : nat) : M Text :=
  λ st, match texts st !! t with
        | Some o => (Ok o, st)
        | None => (Err TypeError, st)
        end.

Definition getLink (l : nat) : M Link :=
  λ st, match links st !! l with
        | Some o => (Ok o, st)
        | None => (Err TypeError, st)
        end.

Definition getParagraph (p : nat) : M Paragraph :=
  λ st, match paragraphs st !! p with
        | Some o => (Ok o, st)
        | None => (Err TypeError, st)
        end.

Definition setParagraphContent (p : nat) (cs : list Content) : M unit :=
  modify (set_paragraphs (λ ps, <[p := {| p_content := cs |}]> ps)).

(** ** Helpers of utils/array, utils/string and utils/dom *)

(** Modelled from the spec: utils/array is not among the sources.
    [insertBefore arr item ref] puts [item] directly before [ref]; [None]
    stands for a [ref] that is not in the array.  Each array edit comes
    paired with the same edit of the DOM children, which throws
    [NotFoundError] for a reference that is not a child; the pair is taken
    as one atomic tree edit (section 5 of the spec), so an absent reference
    faults and changes nothing. *)
Fixpoint insertBefore {A} `{EqDecision A} (arr : list A) (item ref : A)
    : option (list A) :=
  match arr with
  | [] => None
  | a :: arr' =>
      if decide (a = ref) then Some (item :: a :: arr')
      else cons a <$> insertBefore arr' item ref
  end.

(** Modelled from the spec: utils/array [remove], the first occurrence of
    the item is taken out. *)
Fixpoint remove {A} `{EqDecision A} (arr : list A) (item : A) : list A :=
  match arr with
  | [] => []
  | a :: arr' => if decide (a = item) then arr' else a :: remove arr' item
  end.

(** Modelled from the spec: utils/array [previousOfMapped] and
    [nextOfMapped], the neighbour of the first element whose image is the
    item, [None] at either end or when there is no such element. *)
Fixpoint previousFrom {A B} `{EqDecision B} (prev : option A)
    (arr : list A) (mapper : A → B) (item : B) : option A :=
  match arr with
  | [] => None
  | a :: arr' =>
      if decide (mapper a = item) then prev
      else previousFrom (Some a) arr' mapper item
  end.

Definition previousOfMapped {A B} `{EqDecision B} (arr : list A)
    (mapper : A → B) (item : B) : option A :=
  previousFrom None arr mapper item.

Fixpoint nextOfMapped {A B} `{EqDecision B} (arr : list A)
    (mapper : A → B) (item : B) : option A :=
  match arr with
  | [] => None
  | a :: arr' =>
      if decide (mapper a = item) then head arr'
      else nextOfMapped arr' mapper item
  end.

Definition previousOf {A} `{EqDecision A} (arr : list A) (item : A)
    : option A := previousOfMapped arr id item.

Definition nextOf {A} `{EqDecision A} (arr : list A) (item : A)
    : option A := nextOfMapped arr id item.

(** Modelled from the spec: utils/string [wordAtOffset], the maximal run of
    non-whitespace characters around the offset (section 4.6). *)
Fixpoint wordLength (s : jsstring) : nat :=
  match s with
  | c :: s' => if isWhiteSpace c then 0%nat else S (wordLength s')
  | [] => 0%nat
  end.

Definition wordAtOffset (s : jsstring) (offset : Z) : option (Z * Z) :=
  let o := clamp (length s) offset in
  let back := wordLength (rev (take o s)) in
  let forth := wordLength (drop o s) in
  if (back + forth =? 0)%nat then None
  else Some (Z.of_nat (o - back), Z.of_nat (o + forth)).

(** Modelled from the spec: utils/dom.  A [DomPoint] is the address of a
    text node (child indices from the editable root) and a character
    offset; a [DomSelection] is what the editing surface reports when it is
    asked (section 6). *)
Record DomPoint := { dp_path : list nat; dp_offset : Z }.

Record DomSelection := { ds_start : DomPoint; ds_end : DomPoint }.

(** Modelled from the spec: utils/dom [moveCursor], a fire-and-forget
    request to place the caret (section 6). *)
Definition moveCursor (text : nat) (offset : Z) : M unit :=
  modify (set_cursor (Some {| pt_text := text; pt_offset := offset |})).

(** ** class Text: construction and content *)

(** [new Text(parent, content)]; the constructor goes through the setter. *)
Definition Text_new (parent : Parent) (value : jsstring) : M nat :=
  st <- get;;
  modify (set_texts (λ ts,
    ts ++ [{| t_parent := parent; t_content := orSpace value |}]));;;
  ret (length (texts st)).

(** [set content(value) { this._content = value || ' '; ... }] *)
Definition Text_setContent (t : nat) (value : jsstring) : M unit :=
  o <- getText t;;
  modify (set_texts (λ ts,
    <[t := {| t_parent := t_parent o; t_content := orSpace value |}]> ts)).

Definition Text_content (t : nat) : M jsstring :=
  o <- getText t;; ret (t_content o).

Definition Text_length (t : nat) : M Z :=
  c <- Text_content t;; ret (jslength c).

Definition Text_append (t : nat) (text : jsstring) : M unit :=
  c <- Text_content t;; Text_setContent t (c ++ text).

Definition Text_isInLink (t : nat) : M bool :=
  o <- getText t;;
  ret (match t_parent o with InLink _ => true | InParagraph _ => false end).

Definition Text_containingParagraph (t : nat) : M nat :=
  o <- getText t;;
  match t_parent o with
  | InParagraph p => ret p
  | InLink l => lo <- getLink l;; ret (l_parent lo)
  end.

Definition Text_copyToParent (t : nat) (parent : nat) : M nat :=
  c <- Text_content t;; Text_new (InParagraph parent) c.

(** ** class Link: construction and content *)

(** [new Link(parent, text, target)] creates its own text run. *)
Definition Link_new (parent : nat) (text target : jsstring) : M nat :=
  st <- get;;
  let l := length (links st) in
  t <- Text_new (InLink l) text;;
  modify (set_links (λ ls,
    ls ++ [{| l_parent := parent; l_text := t; l_target := target |}]));;;
  ret l.

Definition Link_text (l : nat) : M nat :=
  lo <- getLink l;; ret (l_text lo).

Definition Link_content (l : nat) : M jsstring :=
  t <- Link_text l;; Text_content t.

Definition Link_copyToParent (l : nat) (parent : nat) : M nat :=
  c <- Link_content l;;
  lo <- getLink l;;
  Link_new parent c (l_target lo).

(** ** Members shared by [Text] and [Link] as paragraph content *)

(** [content.text] *)
Definition Content_text (c : Content) : M nat :=
  match c with
  | CText t => ret t
  | CLink l => Link_text l
  end.

(** [content.content] *)
Definition Content_content (c : Content) : M jsstring :=
  t <- Content_text c;; Text_content t.

(** [content.content = value] *)
Definition Content_setContent (c : Content) (value : jsstring) : M unit :=
  t <- Content_text c;; Text_setContent t value.

Definition Content_copyToParent (c : Content) (parent : nat) : M Content :=
  match c with
  | CText t => t' <- Text_copyToParent t parent;; ret (CText t')
  | CLink l => l' <- Link_copyToParent l parent;; ret (CLink l')
  end.

(** [c => c.text] as the mapper handed to [previousOfMapped] and
    [nextOfMapped]. *)
Definition textOf (st : Model) (c : Content) : option nat :=
  match c with
  | CText t => Some t
  | CLink l => l_text <$> links st !! l
  end.

(** ** class Model: the paragraph array *)

Definition Model_addParagraph (paragraph : nat) : M unit :=
  modify (set_content (λ c, c ++ [paragraph])).

Definition Model_insertParagraphBefore (newParagraph ref : nat) : M unit :=
  st <- get;;
  match insertBefore (content st) newParagraph ref with
  | Some c => modify (set_content (λ _, c))
  | None => throw NotFoundError
  end.

(** [this.node.removeChild(paragraph.node); remove(this.content, paragraph)] *)
Definition Model_removeContent (paragraph : nat) : M unit :=
  st <- get;;
  if decide (paragraph ∈ content st)
  then modify (set_content (λ c, remove c paragraph))
  else throw NotFoundError.

(** ** class Paragraph: content array *)

Definition Paragraph_new : M nat :=
  st <- get;;
  modify (set_paragraphs (λ ps, ps ++ [{| p_content := [] |}]));;;
  ret (length (paragraphs st)).

Definition Paragraph_content (p : nat) : M (list Content) :=
  po <- getParagraph p;; ret (p_content po).

Definition Paragraph_addContent (p : nat) (c : Content) : M unit :=
  cs <- Paragraph_content p;; setParagraphContent p (cs ++ [c]).

Definition Paragraph_addContentBefore (p : nat) (c ref : Content) : M unit :=
  cs <- Paragraph_content p;;
  match insertBefore cs c ref with
  | Some cs' => setParagraphContent p cs'
  | None => throw NotFoundError
  end.

Definition Paragraph_empty (p : nat) : M bool :=
  cs <- Paragraph_content p;; ret (bool_decide (length cs = 0%nat)).

Definition Paragraph_remove (p : nat) : M unit := Model_removeContent p.

Definition Paragraph_removeContent (p : nat) (c : Content) : M unit :=
  cs <- Paragraph_content p;;
  if decide (length cs = 1%nat) then Model_removeContent p
  else if decide (c ∈ cs) then setParagraphContent p (remove cs c)
  else throw NotFoundError.

Definition Paragraph_lastContent (p : nat) : M Content :=
  cs <- Paragraph_content p;;
  match last cs with
  | Some c => ret c
  | None => throw NoContentInParagraph
  end.

Definition Paragraph_lastText (p : nat) : M nat :=
  c <- Paragraph_lastContent p;; Content_text c.

Definition Paragraph_firstContent (p : nat) : M Content :=
  cs <- Paragraph_content p;;
  match head cs with
  | Some c => ret c
  | None => throw NoContentInParagraph
  end.

Definition Paragraph_firstText (p : nat) : M nat :=
  c <- Paragraph_firstContent p;; Content_text c.

(** ** Adjacency *)

Definition Model_getPrecedingText (paragraph : nat) : M (option nat) :=
  st <- get;;
  match previousOf (content st) paragraph with
  | Some previous => t <- Paragraph_lastText previous;; ret (Some t)
  | None => ret None
  end.

Definition Model_getFollowingText (paragraph : nat) : M (option nat) :=
  st <- get;;
  match nextOf (content st) paragraph with
  | Some next => t <- Paragraph_firstText next;; ret (Some t)
  | None => ret None
  end.

Definition Paragraph_getPrecedingText (p : nat) (text : nat)
    : M (option nat) :=
  cs <- Paragraph_content p;;
  st <- get;;
  match previousOfMapped cs (textOf st) (Some text) with
  | Some previous => t <- Content_text previous;; ret (Some t)
  | None => Model_getPrecedingText p
  end.

Definition Paragraph_getFollowingText (p : nat) (text : nat)
    : M (option nat) :=
  cs <- Paragraph_content p;;
  st <- get;;
  match nextOfMapped cs (textOf st) (Some text) with
  | Some next => t <- Content_text next;; ret (Some t)
  | None => Model_getFollowingText p
  end.

Definition Link_getPrecedingText (l : nat) : M (option nat) :=
  lo <- getLink l;; Paragraph_getPrecedingText (l_parent lo) (l_text lo).

Definition Link_getFollowingText (l : nat) : M (option nat) :=
  lo <- getLink l;; Paragraph_getFollowingText (l_parent lo) (l_text lo).

Definition Text_getPrecedingText (t : nat) : M (option nat) :=
  o <- getText t;;
  match t_parent o with
  | InParagraph p => Paragraph_getPrecedingText p t
  | InLink l => Link_getPrecedingText l
  end.

Definition Text_getFollowingText (t : nat) : M (option nat) :=
  o <- getText t;;
  match t_parent o with
  | InParagraph p => Paragraph_getFollowingText p t
  | InLink l => Link_getFollowingText l
  end.

(** ** Removal *)

Definition Link_remove (l : nat) : M unit :=
  lo <- getLink l;; Paragraph_removeContent (l_parent lo) (CLink l).

Definition Link_removeContent (l : nat) (text : nat) : M unit :=
  lo <- getLink l;;
  if decide (text = l_text lo) then Link_remove l
  else throw IllegalArgument.

Definition Text_remove (t : nat) : M (option Point) :=
  previous <- Text_getPrecedingText t;;
  o <- getText t;;
  match t_parent o with
  | InParagraph p => Paragraph_removeContent p (CText t)
  | InLink l => Link_removeContent l t
  end;;;
  match previous with
  | Some pr =>
      len <- Text_length pr;;
      ret (Some {| pt_text := pr; pt_offset := len |})
  | None => ret None
  end.

(** [content.remove()] for an element of a paragraph; the [Point] a text
    run returns is dropped by the callers that go through here. *)
Definition Content_remove (c : Content) : M unit :=
  match c with
  | CText t => Text_remove t ;;; ret tt
  | CLink l => Link_remove l
  end.

Definition Text_removeRange (t : nat) (start end_ : Z) : M (option Point) :=
  c <- Text_content t;;
  if (start <? 0) || (jslength c <? end_)
  then throw RemoveRangeNotInBounds
  else if (start =? 0) && (end_ =? jslength c)
  then Text_remove t
  else
    Text_setContent t (substring c 0 start ++ substringFrom c end_);;;
    ret (Some {| pt_text := t; pt_offset := start |}).

Definition Text_removeAfter (t : nat) (offset : Z) : M (option Point) :=
  len <- Text_length t;; Text_removeRange t offset len.

Definition Text_removeBefore (t : nat) (offset : Z) : M (option Point) :=
  Text_removeRange t 0 offset.

Definition Text_removeLastCharacter (t : nat) : M (option Point) :=
  len <- Text_length t;;
  if len <=? 1 then Text_remove t
  else Text_removeRange t (len - 1) len.

Definition Text_removeFirstCharacter (t : nat) : M (option Point) :=
  len <- Text_length t;;
  if len <=? 1 then Text_remove t
  else Text_removeRange t 0 1.

(** [insertChar(char, offset)].  The sum [offset + 1] is one of numbers.
    For an offset within the run it is exact, the length of a string
    being below [2^53]; the model, whose lists are not bounded, takes the
    integer sum there ([numAdd_within] has the agreement) and the sum of
    numbers beyond the run. *)
Definition Text_insertChar (t : nat) (char : jsstring) (offset : Z)
    : M Point :=
  c <- Text_content t;;
  let start := substring c 0 offset in
  let end_ := substring c offset (jslength c) in
  Text_setContent t (start ++ char ++ end_);;;
  ret {| pt_text := t;
         pt_offset := if (0 <=? offset) && (offset <=? jslength c)
                      then offset + 1 else numAdd offset 1 |}.

(** ** Paragraph merge and split *)

(** The body of the [for] loop of [combineWith]; [firstChild] is the
    loop's flag. *)
Fixpoint combineLoop (this : nat) (lastOfThis : Content) (firstChild : bool)
    (cs : list Content) : M unit :=
  match cs with
  | [] => ret tt
  | content :: cs' =>
      match firstChild, lastOfThis, content with
      | true, CText lt, CText ct =>
          lc <- Text_content lt;;
          cc <- Text_content ct;;
          if isEmpty (trim lc) then Text_setContent lt cc
          else Text_append lt cc
      | _, _, _ =>
          c' <- Content_copyToParent content this;;
          Paragraph_addContent this c'
      end;;;
      combineLoop this lastOfThis false cs'
  end.

Definition Paragraph_combineWith (this paragraph : nat) : M (option Point) :=
  if decide (paragraph = this) then ret None
  else
    cs <- Paragraph_content this;;
    match last cs with
    | None => throw TypeError
    | Some lastOfThis =>
        lt <- Content_text lastOfThis;;
        lastContentBeforeChanges <- Text_content lt;;
        others <- Paragraph_content paragraph;;
        combineLoop this lastOfThis true others;;;
        Paragraph_remove paragraph;;;
        lt' <- Content_text lastOfThis;;
        ret (Some {| pt_text := lt';
                     pt_offset :=
                       if isEmpty (trim lastContentBeforeChanges) then 0
                       else jslength lastContentBeforeChanges |})
    end.

Definition Paragraph_appendText (p : nat) (text : jsstring) : M unit :=
  cs <- Paragraph_content p;;
  match last cs with
  | Some (CText t) => Text_append t text
  | _ =>
      t <- Text_new (InParagraph p) text;;
      Paragraph_addContent p (CText t)
  end.

(** The first [for] loop of [splitTo]; the result is [contentToRemove].
    The loop runs over the content of [this] while it adds to
    [prependingParagraph], which the caller has just created. *)
Fixpoint splitLoop (prependingParagraph fromText : nat) (fromOffset : Z)
    (cs contentToRemove : list Content) : M (list Content) :=
  match cs with
  | [] => ret contentToRemove
  | content :: cs' =>
      ct <- Content_text content;;
      if decide (ct = fromText) then
        contentText <- Content_content content;;
        Paragraph_appendText prependingParagraph
          (substring contentText 0 fromOffset);;;
        len <- Text_length fromText;;
        Content_setContent content (substring contentText fromOffset len);;;
        ret contentToRemove
      else
        c' <- Content_copyToParent content prependingParagraph;;
        Paragraph_addContent prependingParagraph c';;;
        splitLoop prependingParagraph fromText fromOffset cs'
          (contentToRemove ++ [content])
  end.

Definition Paragraph_splitTo (this prependingParagraph fromText : nat)
    (fromOffset : Z) : M Point :=
  cs <- Paragraph_content this;;
  contentToRemove <- splitLoop prependingParagraph fromText fromOffset cs [];;
  forOf contentToRemove Content_remove;;;
  empty <- Paragraph_empty prependingParagraph;;
  whenM empty (
    t <- Text_new (InParagraph prependingParagraph) [];;
    Paragraph_addContent prependingParagraph (CText t));;;
  ft <- Paragraph_firstText this;;
  ret {| pt_text := ft; pt_offset := 0 |}.

(** The [while] loop of [mergeConsecutiveTexts].  In a paragraph whose
    text runs point back to it every round either advances [i] or shortens
    the content, so the loop is over within [length content] rounds; the
    fuel is that bound. *)
Fixpoint mergeLoop (fuel : nat) (p : nat) (cursor : Point) (i : nat)
    (cursorAfterMerging : Point) : M Point :=
  match fuel with
  | O => throw Diverges
  | S fuel' =>
      cs <- Paragraph_content p;;
      if (i <? length cs)%nat then
        match cs !! (i - 1)%nat, cs !! i with
        | Some (CText previous), Some (CText current) =>
            previousLengthBeforeAppending <- Text_length previous;;
            cc <- Text_content current;;
            Text_append previous cc;;;
            let cursorAfterMerging' :=
              if decide (pt_text cursor = current)
              then {| pt_text := previous;
                      pt_offset := previousLengthBeforeAppending
                                   + pt_offset cursorAfterMerging |}
              else cursorAfterMerging in
            Text_remove current;;;
            mergeLoop fuel' p cursor i cursorAfterMerging'
        | _, _ => mergeLoop fuel' p cursor (i + 1)%nat cursorAfterMerging
        end
      else ret cursorAfterMerging
  end.

Definition Paragraph_mergeConsecutiveTexts (p : nat) (cursor : Point)
    : M unit :=
  cs <- Paragraph_content p;;
  cursorAfterMerging <-
    (if (length cs <? 2)%nat then ret cursor
     else mergeLoop (S (length cs)) p cursor 1%nat cursor);;
  moveCursor (pt_text cursorAfterMerging) (pt_offset cursorAfterMerging).

(** ** Character deletion across runs *)

Definition Text_removeNextChar (t : nat) (offset : Z) : M (option Point) :=
  len <- Text_length t;;
  if len <=? offset then
    next <- Text_getFollowingText t;;
    match next with
    | Some n =>
        np <- Text_containingParagraph n;;
        tp <- Text_containingParagraph t;;
        if decide (np = tp) then Text_removeFirstCharacter n
        else Paragraph_combineWith tp np
    | None => ret None
    end
  else Text_removeRange t offset (offset + 1).

Definition Text_removePreviousChar (t : nat) (offset : Z)
    : M (option Point) :=
  if offset <=? 0 then
    previous <- Text_getPrecedingText t;;
    match previous with
    | Some pr =>
        pp <- Text_containingParagraph pr;;
        tp <- Text_containingParagraph t;;
        if decide (pp = tp) then Text_removeLastCharacter pr
        else Paragraph_combineWith pp tp
    | None => ret None
    end
  else Text_removeRange t (offset - 1) offset.

(** ** class Selection *)

Record Selection := {
  sel_start : Point;
  sel_end : Point;
  sel_textBetween : list nat
}.

(** The [for] loop of the constructor: walk back from the run before the
    end until the start run is met.  A walk that reaches the start of the
    document calls [getPrecedingText] on [null].  Every round visits one
    more run before the end, so the number of runs bounds the rounds. *)
Fixpoint betweenLoop (fuel : nat) (startText : nat) (t : option nat)
    (textBetween : list nat) : M (list nat) :=
  match fuel with
  | O => throw Diverges
  | S fuel' =>
      if decide (t = Some startText) then ret textBetween
      else
        match t with
        | None => throw TypeError
        | Some t' =>
            t'' <- Text_getPrecedingText t';;
            betweenLoop fuel' startText t'' (textBetween ++ [t'])
        end
  end.

Definition Selection_new (start end_ : Point) : M Selection :=
  if decide (pt_text start = pt_text end_)
  then ret {| sel_start := start; sel_end := end_; sel_textBetween := [] |}
  else
    st <- get;;
    t <- Text_getPrecedingText (pt_text end_);;
    between <- betweenLoop (S (length (texts st))) (pt_text start) t [];;
    ret {| sel_start := start; sel_end := end_; sel_textBetween := between |}.

(** [findTextForPath] of [Text], [Link], [Paragraph] and [Model]:
    [shift()] takes the head of the path, [undefined] when there is none,
    and indexing with it yields [undefined]. *)
Definition Content_findTextForPath (c : Content) (indicesFromRoot : list nat)
    : M nat :=
  match c with
  | CText t =>
      match indicesFromRoot with
      | [] => ret t
      | _ => throw IllegalState
      end
  | CLink l =>
      match indicesFromRoot with
      | [O] => Link_text l
      | _ => throw IllegalState
      end
  end.

Definition Paragraph_findTextForPath (p : nat) (indicesFromRoot : list nat)
    : M nat :=
  cs <- Paragraph_content p;;
  match indicesFromRoot with
  | index :: rest =>
      match cs !! index with
      | Some c => Content_findTextForPath c rest
      | None => throw TypeError
      end
  | [] => throw TypeError
  end.

Definition Model_findTextForPath (indicesFromRoot : list nat) : M nat :=
  st <- get;;
  match indicesFromRoot with
  | index :: rest =>
      match content st !! index with
      | Some p => Paragraph_findTextForPath p rest
      | None => throw TypeError
      end
  | [] => throw TypeError
  end.

Definition createPoint (domPoint : DomPoint) : M Point :=
  text <- Model_findTextForPath (dp_path domPoint);;
  ret {| pt_text := text; pt_offset := dp_offset domPoint |}.

Definition Selection_ofDomSelection (domSelection : DomSelection)
    : M Selection :=
  start <- createPoint (ds_start domSelection);;
  end_ <- createPoint (ds_end domSelection);;
  Selection_new start end_.

Definition Selection_isRange (s : Selection) : bool :=
  negb (bool_decide (pt_text (sel_start s) = pt_text (sel_end s)))
  || negb (bool_decide (pt_offset (sel_start s) = pt_offset (sel_end s))).

Definition Selection_isLinkable (s : Selection) : M bool :=
  if decide (pt_text (sel_start s) = pt_text (sel_end s))
  then inLink <- Text_isInLink (pt_text (sel_start s));; ret (negb inLink)
  else ret false.

Definition Selection_isLink (s : Selection) : M bool :=
  if decide (pt_text (sel_start s) = pt_text (sel_end s))
  then Text_isInLink (pt_text (sel_start s))
  else ret false.

Definition Selection_link (s : Selection) : M (option LinkedSelection) :=
  isLink <- Selection_isLink s;;
  if isLink then
    o <- getText (pt_text (sel_end s));;
    match t_parent o with
    | InLink l =>
        ret (Some {| lk_link := l; lk_cursor := pt_offset (sel_end s) |})
    | InParagraph _ => throw TypeError
    end
  else ret None.

Definition Selection_linkable (s : Selection)
    : M (option LinkableSelection) :=
  isLinkable <- Selection_isLinkable s;;
  if isLinkable then
    if Selection_isRange s then
      ret (Some {| ls_text := pt_text (sel_start s);
                   ls_start := pt_offset (sel_start s);
                   ls_end := pt_offset (sel_end s);
                   ls_cursor := pt_offset (sel_end s) |})
    else
      c <- Text_content (pt_text (sel_start s));;
      match wordAtOffset c (pt_offset (sel_start s)) with
      | Some (wstart, wend) =>
          ret (Some {| ls_text := pt_text (sel_start s);
                       ls_start := wstart; ls_end := wend;
                       ls_cursor := pt_offset (sel_end s) |})
      | None => ret None
      end
  else ret None.

Definition Selection_remove (s : Selection) : M (option Point) :=
  let start := sel_start s in
  let end_ := sel_end s in
  if decide (pt_text start = pt_text end_)
  then Text_removeRange (pt_text start) (pt_offset start) (pt_offset end_)
  else
    forOf (sel_textBetween s) (λ text, Text_remove text ;;; ret tt);;;
    Text_removeAfter (pt_text start) (pt_offset start);;;
    Text_removeBefore (pt_text end_) (pt_offset end_);;;
    sp <- Text_containingParagraph (pt_text start);;
    ep <- Text_containingParagraph (pt_text end_);;
    Paragraph_combineWith sp ep;;;
    ret (Some start).

(** ** class Model: the edit operations *)

(** [Model.moveCursor(point)] *)
Definition Model_moveCursor (point : option Point) : M unit :=
  match point with
  | Some pt => moveCursor (pt_text pt) (pt_offset pt)
  | None => ret tt
  end.

(** [getSelection()]; the host selection the editing surface reports at
    this moment is the argument. *)
Definition Model_getSelection (dom : DomSelection) : M Selection :=
  st <- get;;
  whenM (bool_decide (length (content st) = 0%nat)) (
    newParagraph <- Paragraph_new;;
    newText <- Text_new (InParagraph newParagraph) [];;
    Paragraph_addContent newParagraph (CText newText);;;
    Model_addParagraph newParagraph;;;
    Model_moveCursor (Some {| pt_text := newText; pt_offset := 0 |}));;;
  Selection_ofDomSelection dom.

Definition Model_updateSelection (dom : DomSelection) : M unit :=
  selection <- Model_getSelection dom;;
  linkable <- Selection_linkable selection;;
  modify (λ st, set_selections linkable (linkedSelection st) st);;;
  link <- Selection_link selection;;
  modify (λ st, set_selections (linkableSelection st) link st).

Definition Model_removeLinkSelections : M unit :=
  modify (set_selections None None).

Definition Model_insertNewParagraph (dom : DomSelection) : M unit :=
  selection <- Model_getSelection dom;;
  whenM (Selection_isRange selection) (Selection_remove selection ;;; ret tt);;;
  let text := pt_text (sel_start selection) in
  let offset := pt_offset (sel_start selection) in
  newParagraph <- Paragraph_new;;
  ref <- Text_containingParagraph text;;
  Model_insertParagraphBefore newParagraph ref;;;
  this <- Text_containingParagraph text;;
  pt <- Paragraph_splitTo this newParagraph text offset;;
  Model_moveCursor (Some pt).

Definition Model_insertChar (char : jsstring) (dom : DomSelection) : M unit :=
  selection <- Model_getSelection dom;;
  whenM (Selection_isRange selection) (Selection_remove selection ;;; ret tt);;;
  pt <- Text_insertChar (pt_text (sel_start selection)) char
          (pt_offset (sel_start selection));;
  Model_moveCursor (Some pt).

Definition Model_removeNextChar (dom : DomSelection) : M unit :=
  selection <- Model_getSelection dom;;
  if Selection_isRange selection then
    pt <- Selection_remove selection;; Model_moveCursor pt
  else
    pt <- Text_removeNextChar (pt_text (sel_start selection))
            (pt_offset (sel_start selection));;
    Model_moveCursor pt.

Definition Model_removePreviousChar (dom : DomSelection) : M unit :=
  selection <- Model_getSelection dom;;
  if Selection_isRange selection then
    pt <- Selection_remove selection;; Model_moveCursor pt
  else
    pt <- Text_removePreviousChar (pt_text (sel_start selection))
            (pt_offset (sel_start selection));;
    Model_moveCursor pt.

(** [link(target)]; [dom] is the host selection read by the closing
    [updateSelection]. *)
Definition Model_link (target : jsstring) (dom : DomSelection) : M unit :=
  st <- get;;
  match linkableSelection st with
  | None => throw IllegalState
  | Some ls =>
      let start := ls_start ls in
      let end_ := ls_end ls in
      let text := ls_text ls in
      paragraph <- Text_containingParagraph text;;
      c <- Text_content text;;
      selectionAsLink <- Link_new paragraph (substring c start end_) target;;
      whenM (0 <? start) (
        c <- Text_content text;;
        t <- Text_new (InParagraph paragraph) (substring c 0 start);;
        Paragraph_addContentBefore paragraph (CText t) (CText text));;;
      Paragraph_addContentBefore paragraph (CLink selectionAsLink)
        (CText text);;;
      len <- Text_length text;;
      whenM (end_ <? len) (
        c <- Text_content text;;
        t <- Text_new (InParagraph paragraph) (substring c end_ len);;
        Paragraph_addContentBefore paragraph (CText t) (CText text));;;
      Text_remove text;;;
      lt <- Link_text selectionAsLink;;
      Model_moveCursor
        (Some {| pt_text := lt; pt_offset := ls_cursor ls - start |});;;
      Model_updateSelection dom
  end.

Definition Model_unlink (dom : DomSelection) : M unit :=
  st <- get;;
  match linkedSelection st with
  | None => throw IllegalState
  | Some lk =>
      let link := lk_link lk in
      lo <- getLink link;;
      let paragraph := l_parent lo in
      c <- Link_content link;;
      linkAsText <- Text_new (InParagraph paragraph) c;;
      Paragraph_addContentBefore paragraph (CText linkAsText) (CLink link);;;
      Link_remove link;;;
      Paragraph_mergeConsecutiveTexts paragraph
        {| pt_text := linkAsText; pt_offset := lk_cursor lk |};;;
      Model_updateSelection dom
  end.

(** ** Markdown *)

Definition Text_toMarkdown (st : Model) (t : nat) : jsstring :=
  match texts st !! t with
  | Some o => t_content o
  | None => []
  end.

Definition Link_toMarkdown (st : Model) (l : nat) : jsstring :=
  match links st !! l with
  | Some lo =>
      lit "[" ++ Text_toMarkdown st (l_text lo) ++ lit "]("
        ++ l_target lo ++ lit ")"
  | None => []
  end.

Definition Content_toMarkdown (st : Model) (c : Content) : jsstring :=
  match c with
  | CText t => Text_toMarkdown st t
  | CLink l => Link_toMarkdown st l
  end.

Definition Paragraph_toMarkdown (st : Model) (p : nat) : jsstring :=
  match paragraphs st !! p with
  | Some po =>
      [10; 10]%N ++ concat (map (Content_toMarkdown st) (p_content po))
  | None => []
  end.

Definition Model_toMarkdown (st : Model) : jsstring :=
  trim (concat (map (Paragraph_toMarkdown st) (content st))).

(** ** Parsing a CommonMark tree *)

(** The node types of the commonmark package. *)
Inductive NodeType :=
| document | paragraph | text | link | image | emph | strong | code
| softbreak | linebreak | html_inline | custom_inline
| block_quote | item | list_ | heading | code_block | html_block
| thematic_break | custom_block.

#[global] Instance NodeType_eq_dec : EqDecision NodeType.
Proof. solve_decision. Defined.

(** A node of the parsed tree: [type], [literal], [destination] and, in
    document order, its children. *)
#[warnings="-register-all"]
Inductive MarkdownNode :=
| MdNode (type : NodeType) (literal destination : option jsstring)
    (children : list MarkdownNode).

Definition md_type (n : MarkdownNode) : NodeType :=
  match n with MdNode ty _ _ _ => ty end.

Definition md_literal (n : MarkdownNode) : option jsstring :=
  match n with MdNode _ l _ _ => l end.

Definition md_destination (n : MarkdownNode) : option jsstring :=
  match n with MdNode _ _ d _ => d end.

(** Modelled from the spec: utils/markdown [children], the children of a
    node as an array. *)
Definition children (n : MarkdownNode) : list MarkdownNode :=
  match n with MdNode _ _ _ cs => cs end.

(** A [null] literal is as falsy as the empty string for the content
    setter. *)
Definition literalText (l : option jsstring) : jsstring := default [] l.

(** A [null] destination shows only through string interpolation. *)
Definition destinationText (d : option jsstring) : jsstring :=
  default (lit "null") d.

Definition Text_ofMarkdown (parent : Parent) (n : MarkdownNode) : M nat :=
  if decide (md_type n = text)
  then Text_new parent (literalText (md_literal n))
  else throw NotAText.

Definition Link_ofMarkdown (parent : nat) (n : MarkdownNode) : M nat :=
  if decide (md_type n = link) then
    match children n with
    | [child] =>
        Link_new parent (literalText (md_literal child))
          (destinationText (md_destination n))
    | _ => throw NotASingleChild
    end
  else throw NotAParagraph.

Definition Paragraph_ofMarkdown (paragraphNode : MarkdownNode) : M nat :=
  if decide (md_type paragraphNode = paragraph) then
    result <- Paragraph_new;;
    forOf (children paragraphNode) (λ child,
      c <- (if decide (md_type child = link)
            then l <- Link_ofMarkdown result child;; ret (CLink l)
            else t <- Text_ofMarkdown (InParagraph result) child;;
                 ret (CText t));;
      Paragraph_addContent result c);;;
    ret result
  else throw NotAParagraph.

(** [Model.ofMarkdown]: a new, empty [Model] is filled from the tree. *)
Definition Model_ofMarkdown (documentNode : MarkdownNode) : M unit :=
  if decide (md_type documentNode = document) then
    forOf (children documentNode) (λ paragraphNode,
      p <- Paragraph_ofMarkdown paragraphNode;;
      Model_addParagraph p)
  else throw NotADocument.

Definition ofMarkdown (documentNode : MarkdownNode) : Res unit * Model :=
  Model_ofMarkdown documentNode emptyModel.

(** ** Reading a document *)

(** A paragraph as the list of its runs: the text, and the target for a
    link. *)
Inductive Run :=
| RText (s : jsstring)
| RLink (s target : jsstring).

Definition Content_view (st : Model) (c : Content) : Run :=
  match c with
  | CText t => RText (Text_toMarkdown st t)
  | CLink l =>
      match links st !! l with
      | Some lo => RLink (Text_toMarkdown st (l_text lo)) (l_target lo)
      | None => RLink [] []
      end
  end.

Definition Paragraph_view (st : Model) (p : nat) : list Run :=
  match paragraphs st !! p with
  | Some po => map (Content_view st) (p_content po)
  | None => []
  end.

Definition Model_view (st : Model) : list (list Run) :=
  map (Paragraph_view st) (content st).

(** The text of a paragraph, link markup left out. *)
Definition Content_plainText (st : Model) (c : Content) : jsstring :=
  match textOf st c with
  | Some t => Text_toMarkdown st t
  | None => []
  end.

Definition Paragraph_plainText (st : Model) (p : nat) : jsstring :=
  match paragraphs st !! p with
  | Some po => concat (map (Content_plainText st) (p_content po))
  | None => []
  end.

(** * Properties *)

(** ** Running a computation *)

Lemma bind_Ok {A B} (m : M A) (k : A → M B) st a st' :
  m st = (Ok a, st') → bind m k st = k a st'.
Proof. intros H. unfold bind. by rewrite H. Qed.

Lemma bind_Err {A B} (m : M A) (k : A → M B) st f st' :
  m st = (Err f, st') → bind m k st = (Err f, st').
Proof. intros H. unfold bind. by rewrite H. Qed.

Lemma getText_Ok st t o : texts st !! t = Some o → getText t st = (Ok o, st).
Proof. intros H. unfold getText. by rewrite H. Qed.

Lemma getLink_Ok st l o : links st !! l = Some o → getLink l st = (Ok o, st).
Proof. intros H. unfold getLink. by rewrite H. Qed.

Lemma getParagraph_Ok st p o :
  paragraphs st !! p = Some o → getParagraph p st = (Ok o, st).
Proof. intros H. unfold getParagraph. by rewrite H. Qed.

Lemma Text_content_Ok st t o :
  texts st !! t = Some o → Text_content t st = (Ok (t_content o), st).
Proof.
  intros H. unfold Text_content. by rewrite (bind_Ok _ _ _ _ _ (getText_Ok _ _ _ H)).
Qed.

Lemma Text_length_Ok st t o :
  texts st !! t = Some o → Text_length t st = (Ok (jslength (t_content o)), st).
Proof.
  intros H. unfold Text_length.
  by rewrite (bind_Ok _ _ _ _ _ (Text_content_Ok _ _ _ H)).
Qed.

Lemma Text_setContent_Ok st t o v :
  texts st !! t = Some o →
  Text_setContent t v st =
    (Ok tt, set_texts (λ ts,
       <[t := {| t_parent := t_parent o; t_content := orSpace v |}]> ts) st).
Proof.
  intros H. unfold Text_setContent.
  by rewrite (bind_Ok _ _ _ _ _ (getText_Ok _ _ _ H)).
Qed.

(** ** Strings *)

Lemma orSpace_nonempty v : orSpace v ≠ [].
Proof. destruct v; cbv; congruence. Qed.

Lemma orSpace_id v : v ≠ [] → orSpace v = v.
Proof. unfold orSpace. destruct v; simpl; congruence. Qed.

Lemma clamp_ge len i : Z.of_nat len <= i → clamp len i = len.
Proof. unfold clamp. lia. Qed.

Lemma clamp_le0 len i : i <= 0 → clamp len i = 0%nat.
Proof. unfold clamp. lia. Qed.

Lemma clamp_in len i : 0 <= i <= Z.of_nat len → clamp len i = Z.to_nat i.
Proof. unfold clamp. lia. Qed.

Lemma substring_prefix s b :
  substring s 0 b = take (clamp (length s) b) s.
Proof.
  unfold substring. rewrite (clamp_le0 _ 0) by lia.
  rewrite Nat.min_0_l, Nat.max_0_l, Nat.sub_0_r. reflexivity.
Qed.

Lemma substring_suffix s a :
  substring s a (jslength s) = drop (clamp (length s) a) s.
Proof.
  unfold substring, jslength. rewrite (clamp_ge _ (Z.of_nat _)) by lia.
  assert (clamp (length s) a ≤ length s)%nat by (unfold clamp; lia).
  rewrite Nat.min_l, Nat.max_r by lia.
  apply take_ge. rewrite length_drop. lia.
Qed.

Lemma substring_split s o :
  substring s 0 o ++ substring s o (jslength s) = s.
Proof. rewrite substring_prefix, substring_suffix. apply take_drop. Qed.

(** ** A fault a computation never raises *)

Definition nothrow {A} (f : Fault) (m : M A) : Prop :=
  ∀ st, fst (m st) ≠ Err f.

Lemma nothrow_ret {A} f (a : A) : nothrow f (ret a).
Proof. intros st. simpl. discriminate. Qed.

Lemma nothrow_throw {A} f f' : f' ≠ f → nothrow f (@throw A f').
Proof. intros H st. simpl. congruence. Qed.

Lemma nothrow_get f : nothrow f get.
Proof. intros st. simpl. discriminate. Qed.

Lemma nothrow_modify f g : nothrow f (modify g).
Proof. intros st. simpl. discriminate. Qed.

Lemma nothrow_bind {A B} f (m : M A) (k : A → M B) :
  nothrow f m → (∀ a, nothrow f (k a)) → nothrow f (bind m k).
Proof.
  intros Hm Hk st. unfold bind. specialize (Hm st).
  destruct (m st) as [[a|f'] st']; simpl in *; [apply Hk | congruence].
Qed.

Lemma nothrow_getText f t : f ≠ TypeError → nothrow f (getText t).
Proof. intros H st. unfold getText. destruct (_ !! _); simpl; congruence. Qed.

Lemma nothrow_getLink f l : f ≠ TypeError → nothrow f (getLink l).
Proof. intros H st. unfold getLink. destruct (_ !! _); simpl; congruence. Qed.

Lemma nothrow_getParagraph f p : f ≠ TypeError → nothrow f (getParagraph p).
Proof.
  intros H st. unfold getParagraph. destruct (_ !! _); simpl; congruence.
Qed.

Lemma nothrow_forOf {A} f (xs : list A) body :
  (∀ x, nothrow f (body x)) → nothrow f (forOf xs body).
Proof.
  intros H. induction xs as [|x xs IH]; simpl.
  - apply nothrow_ret.
  - apply nothrow_bind; auto.
Qed.

Create HintDb nothrow.

#[export] Hint Resolve nothrow_ret nothrow_get nothrow_modify nothrow_getText
  nothrow_getLink nothrow_getParagraph : nothrow.

(** Decompose a computation along its binds and case distinctions. *)
Ltac nothrow_step :=
  match goal with
  | |- nothrow _ (bind _ _) => apply nothrow_bind; [|intros]
  | |- nothrow _ (throw _) => apply nothrow_throw; congruence
  | |- nothrow _ (whenM ?b _) => destruct b; simpl
  | |- nothrow _ (forOf _ _) => apply nothrow_forOf; intros
  | |- nothrow _ (match ?x with _ => _ end) => destruct x
  | |- nothrow _ (if ?b then _ else _) => destruct b
  | |- nothrow _ _ => solve [eauto with nothrow]
  end.

Ltac nothrow_auto := repeat nothrow_step.

(** The methods around removal throw only [TypeError], [NotFoundError],
    [NoContentInParagraph] and [IllegalArgument]. *)
Section NoFault.
Variable f : Fault.
Hypothesis f_TypeError : f ≠ TypeError.
Hypothesis f_NotFoundError : f ≠ NotFoundError.
Hypothesis f_NoContentInParagraph : f ≠ NoContentInParagraph.
Hypothesis f_IllegalArgument : f ≠ IllegalArgument.

Hint Resolve f_TypeError : nothrow.

Lemma nothrow_Content_text c : nothrow f (Content_text c).
Proof. unfold Content_text, Link_text. nothrow_auto. Qed.
Hint Resolve nothrow_Content_text : nothrow.

Lemma nothrow_Text_content t : nothrow f (Text_content t).
Proof. unfold Text_content. nothrow_auto. Qed.
Hint Resolve nothrow_Text_content : nothrow.

Lemma nothrow_Text_length t : nothrow f (Text_length t).
Proof. unfold Text_length. nothrow_auto. Qed.
Hint Resolve nothrow_Text_length : nothrow.

Lemma nothrow_Text_containingParagraph t :
  nothrow f (Text_containingParagraph t).
Proof. unfold Text_containingParagraph. nothrow_auto. Qed.

Lemma nothrow_Text_new parent v : nothrow f (Text_new parent v).
Proof. unfold Text_new. nothrow_auto. Qed.
Hint Resolve nothrow_Text_new : nothrow.

Lemma nothrow_Link_new parent s target : nothrow f (Link_new parent s target).
Proof. unfold Link_new. nothrow_auto. Qed.

Lemma nothrow_Link_content l : nothrow f (Link_content l).
Proof. unfold Link_content, Link_text. nothrow_auto. Qed.

Lemma nothrow_Model_removeContent p : nothrow f (Model_removeContent p).
Proof. unfold Model_removeContent. nothrow_auto. Qed.
Hint Resolve nothrow_Model_removeContent : nothrow.

Lemma nothrow_Paragraph_content p : nothrow f (Paragraph_content p).
Proof. unfold Paragraph_content. nothrow_auto. Qed.
Hint Resolve nothrow_Paragraph_content : nothrow.

Lemma nothrow_Paragraph_addContentBefore p c ref :
  nothrow f (Paragraph_addContentBefore p c ref).
Proof.
  unfold Paragraph_addContentBefore, setParagraphContent. nothrow_auto.
Qed.

Lemma nothrow_Paragraph_removeContent p c :
  nothrow f (Paragraph_removeContent p c).
Proof.
  unfold Paragraph_removeContent, setParagraphContent. nothrow_auto.
Qed.
Hint Resolve nothrow_Paragraph_removeContent : nothrow.

Lemma nothrow_Link_remove l : nothrow f (Link_remove l).
Proof. unfold Link_remove. nothrow_auto. Qed.
Hint Resolve nothrow_Link_remove : nothrow.

Lemma nothrow_Paragraph_lastText p : nothrow f (Paragraph_lastText p).
Proof. unfold Paragraph_lastText, Paragraph_lastContent. nothrow_auto. Qed.
Hint Resolve nothrow_Paragraph_lastText : nothrow.

Lemma nothrow_Paragraph_getPrecedingText p t :
  nothrow f (Paragraph_getPrecedingText p t).
Proof.
  unfold Paragraph_getPrecedingText, Model_getPrecedingText. nothrow_auto.
Qed.
Hint Resolve nothrow_Paragraph_getPrecedingText : nothrow.

Lemma nothrow_Text_remove t : nothrow f (Text_remove t).
Proof.
  unfold Text_remove, Text_getPrecedingText, Link_getPrecedingText,
    Link_removeContent.
  nothrow_auto.
Qed.
End NoFault.

(** ** Sample documents *)

Definition mdText (s : string) : MarkdownNode :=
  MdNode text (Some (lit s)) None [].

Definition mdLink (dest : string) (cs : list MarkdownNode) : MarkdownNode :=
  MdNode link None (Some (lit dest)) cs.

Definition mdParagraph (cs : list MarkdownNode) : MarkdownNode :=
  MdNode paragraph None None cs.

Definition mdDocument (cs : list MarkdownNode) : MarkdownNode :=
  MdNode document None None cs.

Definition documentOf (paragraphs : list (list MarkdownNode)) : Model :=
  snd (ofMarkdown (mdDocument (map mdParagraph paragraphs))).

Definition domPoint (path : list nat) (offset : Z) : DomPoint :=
  {| dp_path := path; dp_offset := offset |}.

(** A collapsed host selection. *)
Definition caret (path : list nat) (offset : Z) : DomSelection :=
  {| ds_start := domPoint path offset; ds_end := domPoint path offset |}.

(** ** Character-range deletion: the bounds check *)

(** An index outside the interval [0, run length]. *)
Definition outOfRun (s : jsstring) (i : Z) : Prop := i < 0 ∨ jslength s < i.

Lemma removeRange_fault_iff st t o start end_ :
  texts st !! t = Some o →
  fst (Text_removeRange t start end_ st) = Err RemoveRangeNotInBounds
  ↔ start < 0 ∨ jslength (t_content o) < end_.
Proof.
  intros Ht. unfold Text_removeRange.
  rewrite (bind_Ok _ _ _ _ _ (Text_content_Ok _ _ _ Ht)).
  destruct (start <? 0) eqn:E1; simpl.
  { split; [intros _; left; lia | done]. }
  destruct (jslength (t_content o) <? end_) eqn:E2; simpl.
  { split; [intros _; right; lia | done]. }
  split; [|lia]. intros H. exfalso. revert H.
  destruct ((start =? 0) && (end_ =? jslength (t_content o))).
  - apply nothrow_Text_remove; discriminate.
  - rewrite (bind_Ok _ _ _ _ _ (Text_setContent_Ok _ _ _ _ Ht)). simpl.
    discriminate.
Qed.

(** C6, as the code has it: [removeRange(start, end)] signals the
    out-of-bounds fault exactly when [start < 0] or [end > run length];
    for a range given in order, [start <= end], that is exactly when
    [start] or [end] lies outside [0, run length]. *)
Theorem removeRange_bounds st t o start end_ :
  texts st !! t = Some o →
  (fst (Text_removeRange t start end_ st) = Err RemoveRangeNotInBounds
   ↔ start < 0 ∨ jslength (t_content o) < end_)
  ∧ (start <= end_ →
     (fst (Text_removeRange t start end_ st) = Err RemoveRangeNotInBounds
      ↔ outOfRun (t_content o) start ∨ outOfRun (t_content o) end_)).
Proof.
  intros Ht. split; [by apply removeRange_fault_iff|].
  intros Hle. rewrite (removeRange_fault_iff _ _ _ _ _ Ht).
  unfold outOfRun. lia.
Qed.

Lemma removeRange_bounds_witness :
  (fst (Text_removeRange 0 1 4 (documentOf [[mdText "abc"]]))
     = Err RemoveRangeNotInBounds
   ↔ 1 < 0 ∨ jslength (lit "abc") < 4)
  ∧ (1 <= 4 →
     (fst (Text_removeRange 0 1 4 (documentOf [[mdText "abc"]]))
        = Err RemoveRangeNotInBounds
      ↔ outOfRun (lit "abc") 1 ∨ outOfRun (lit "abc") 4)).
Proof.
  exact (removeRange_bounds (documentOf [[mdText "abc"]]) 0
           {| t_parent := InParagraph 0; t_content := lit "abc" |} 1 4
           eq_refl).
Defined.

(** C6 as stated fails: on the run "abc" the call [removeRange(5, 2)] has
    its start outside [0, 3] and signals nothing. *)
Lemma removeRange_bounds_counterexample :
  ¬ (fst (Text_removeRange 0 5 2 (documentOf [[mdText "abc"]]))
       = Err RemoveRangeNotInBounds
     ↔ outOfRun (lit "abc") 5 ∨ outOfRun (lit "abc") 2).
Proof.
  intros [_ H].
  assert (outOfRun (lit "abc") 5 ∨ outOfRun (lit "abc") 2) as Hout.
  { left. right. vm_compute. reflexivity. }
  specialize (H Hout). vm_compute in H. discriminate.
Qed.

(** What the call does instead: the run becomes "abcc". *)
Example removeRange_reversed :
  let r := Text_removeRange 0 5 2 (documentOf [[mdText "abc"]]) in
  fst r = Ok (Some {| pt_text := 0%nat; pt_offset := 5 |})
  ∧ Model_view (snd r) = [[RText (lit "abcc")]].
Proof. by vm_compute. Qed.

(** ** Inserting past the end of a run *)

(** The sum of numbers is the integer sum up to [2^53]. *)
Lemma numAdd_exact a b : Z.abs (a + b) <= 2 ^ 53 → numAdd a b = a + b.
Proof.
  intros H. unfold numAdd, roundNumber.
  by rewrite (proj2 (Z.leb_le _ _) H).
Qed.

(** Beyond [2^53] the numbers are two apart, then four, and so on; a sum
    halfway between two of them goes to the one with the even
    significand. *)
Example numAdd_rounds :
  numAdd (2 ^ 53) 1 = 2 ^ 53
  ∧ numAdd (2 ^ 53 + 2) 1 = 2 ^ 53 + 4
  ∧ numAdd (2 ^ 54) 1 = 2 ^ 54
  ∧ numAdd (2 ^ 54 + 4) 2 = 2 ^ 54 + 8
  ∧ numAdd (- 2 ^ 53) (-1) = - 2 ^ 53.
Proof. by vm_compute. Qed.

(** Within a string, and every string is shorter than [2^53], the two
    sums agree. *)
Lemma numAdd_within (c : jsstring) offset :
  jslength c < 2 ^ 53 → 0 <= offset <= jslength c →
  numAdd offset 1 = offset + 1.
Proof. intros Hlen Ho. apply numAdd_exact. lia. Qed.

Lemma within_run (c : jsstring) offset :
  0 <= offset <= jslength c →
  (0 <=? offset) && (offset <=? jslength c) = true.
Proof. intros Ho. apply andb_true_intro. split; apply Z.leb_le; lia. Qed.

(** C10 as stated fails where the numbers thin out: [2^53 + 1] is not a
    number, the sum [2^53 + 1] is rounded to [2^53], and the Point
    returned for the offset [2^53] is at that same offset. *)
Lemma insertChar_past_end_counterexample :
  let r := Text_insertChar 0 (lit "x") (2 ^ 53)
             (documentOf [[mdText "abc"]]) in
  jslength (lit "abc") < 2 ^ 53
  ∧ fst r = Ok {| pt_text := 0%nat; pt_offset := 2 ^ 53 |}
  ∧ fst r ≠ Ok {| pt_text := 0%nat; pt_offset := 2 ^ 53 + 1 |}
  ∧ Model_view (snd r) = [[RText (lit "abcx")]].
Proof. vm_compute. repeat split. discriminate. Qed.

(** C10, amended: for an offset beyond the run's length
    [insertChar(ch, offset)] does not fault, appends [ch] to the run's
    text (an empty run given an empty [ch] gets the placeholder space) and
    returns the Point at the sum of the numbers [offset] and 1.  Below
    [2^53] that sum is [offset + 1], and for a single character it is
    greater than the length of the resulting run. *)
Theorem insertChar_past_end st t o ch offset :
  texts st !! t = Some o →
  jslength (t_content o) < offset →
  Text_insertChar t ch offset st =
    (Ok {| pt_text := t; pt_offset := numAdd offset 1 |},
     set_texts (λ ts,
       <[t := {| t_parent := t_parent o;
                 t_content := orSpace (t_content o ++ ch) |}]> ts) st)
  ∧ (t_content o ++ ch ≠ [] →
     orSpace (t_content o ++ ch) = t_content o ++ ch)
  ∧ (offset < 2 ^ 53 →
     numAdd offset 1 = offset + 1
     ∧ (length ch = 1%nat →
        jslength (orSpace (t_content o ++ ch)) < numAdd offset 1)).
Proof.
  intros Ht Hoff.
  assert (0 <= jslength (t_content o)) as Hlen by (unfold jslength; lia).
  split; [|split].
  - unfold Text_insertChar.
    rewrite (bind_Ok _ _ _ _ _ (Text_content_Ok _ _ _ Ht)).
    rewrite (bind_Ok _ _ _ _ _ (Text_setContent_Ok _ _ _ _ Ht)).
    rewrite (proj2 (Z.leb_gt _ _) Hoff), andb_false_r.
    unfold ret. do 5 f_equal.
    rewrite substring_prefix, substring_suffix.
    unfold jslength in Hoff. rewrite clamp_ge by lia.
    by rewrite firstn_all, drop_all, app_nil_r.
  - apply orSpace_id.
  - intros Hsafe.
    assert (numAdd offset 1 = offset + 1) as E by (apply numAdd_exact; lia).
    split; [done|]. intros H1. rewrite E, orSpace_id.
    + unfold jslength in *. rewrite length_app, H1. lia.
    + intros [_ Hch]%app_eq_nil. by rewrite Hch in H1.
Qed.

Lemma insertChar_past_end_witness :
  Text_insertChar 0 (lit "x") 7 (documentOf [[mdText "abc"]]) =
    (Ok {| pt_text := 0%nat; pt_offset := numAdd 7 1 |},
     set_texts (λ ts,
       <[0%nat := {| t_parent := InParagraph 0;
                     t_content := orSpace (lit "abc" ++ lit "x") |}]> ts)
       (documentOf [[mdText "abc"]]))
  ∧ (lit "abc" ++ lit "x" ≠ [] →
     orSpace (lit "abc" ++ lit "x") = lit "abc" ++ lit "x")
  ∧ (7 < 2 ^ 53 →
     numAdd 7 1 = 7 + 1
     ∧ (length (lit "x") = 1%nat →
        jslength (orSpace (lit "abc" ++ lit "x")) < numAdd 7 1)).
Proof.
  apply (insertChar_past_end (documentOf [[mdText "abc"]]) 0
           {| t_parent := InParagraph 0; t_content := lit "abc" |}).
  - reflexivity.
  - vm_compute. reflexivity.
Defined.

(** ** What every computation does to the state *)

(** [rel R m]: the state [m] ends in is [R]-related to the state it starts
    from, whether [m] returns or throws. *)
Definition rel {A} (R : relation Model) (m : M A) : Prop :=
  ∀ st, R st (snd (m st)).

Section Rel.
Context (R : relation Model) `{!PreOrder R}.

Lemma rel_ret {A} (a : A) : rel R (ret a).
Proof. intros st. reflexivity. Qed.

Lemma rel_throw {A} f : rel R (@throw A f).
Proof. intros st. reflexivity. Qed.

Lemma rel_get : rel R get.
Proof. intros st. reflexivity. Qed.

Lemma rel_bind {A B} (m : M A) (k : A → M B) :
  rel R m → (∀ a, rel R (k a)) → rel R (bind m k).
Proof.
  intros Hm Hk st. unfold bind. specialize (Hm st).
  destruct (m st) as [[a|f] st']; simpl in *; [|done].
  etrans; [exact Hm | apply Hk].
Qed.

Lemma rel_getText t : rel R (getText t).
Proof. intros st. unfold getText. destruct (_ !! _); reflexivity. Qed.

Lemma rel_getLink l : rel R (getLink l).
Proof. intros st. unfold getLink. destruct (_ !! _); reflexivity. Qed.

Lemma rel_getParagraph p : rel R (getParagraph p).
Proof. intros st. unfold getParagraph. destruct (_ !! _); reflexivity. Qed.

Lemma rel_forOf {A} (xs : list A) body :
  (∀ x, rel R (body x)) → rel R (forOf xs body).
Proof.
  intros H. induction xs as [|x xs IH]; simpl.
  - apply rel_ret.
  - apply rel_bind; auto.
Qed.
End Rel.

Create HintDb rel.

#[export] Hint Resolve rel_ret rel_throw rel_get rel_getText rel_getLink
  rel_getParagraph : rel.

Ltac rel_step :=
  match goal with
  | |- rel _ (bind _ _) => apply rel_bind; [typeclasses eauto| |intros]
  | |- rel _ (whenM ?b _) => destruct b; simpl
  | |- rel _ (forOf _ _) => apply rel_forOf; [typeclasses eauto|intros]
  | |- rel _ (match ?x with _ => _ end) => destruct x
  | |- rel _ (if ?b then _ else _) => destruct b
  | |- rel _ _ => solve [eauto with rel typeclass_instances]
  end.

Ltac rel_auto := repeat rel_step.

(** *** Computations that only read *)

Abbreviation readonly m := (rel eq m).

Lemma readonly_run {A} (m : M A) st : readonly m → m st = (fst (m st), st).
Proof. intros H. specialize (H st). destruct (m st); simpl in *. congruence. Qed.

Lemma readonly_Content_text c : readonly (Content_text c).
Proof. unfold Content_text, Link_text. rel_auto. Qed.
#[export] Hint Resolve readonly_Content_text : rel.

Lemma readonly_Text_content t : readonly (Text_content t).
Proof. unfold Text_content. rel_auto. Qed.
#[export] Hint Resolve readonly_Text_content : rel.

Lemma readonly_Text_length t : readonly (Text_length t).
Proof. unfold Text_length. rel_auto. Qed.
#[export] Hint Resolve readonly_Text_length : rel.

Lemma readonly_Text_isInLink t : readonly (Text_isInLink t).
Proof. unfold Text_isInLink. rel_auto. Qed.
#[export] Hint Resolve readonly_Text_isInLink : rel.

Lemma readonly_Text_containingParagraph t :
  readonly (Text_containingParagraph t).
Proof. unfold Text_containingParagraph. rel_auto. Qed.
#[export] Hint Resolve readonly_Text_containingParagraph : rel.

Lemma readonly_Content_content c : readonly (Content_content c).
Proof. unfold Content_content. rel_auto. Qed.
#[export] Hint Resolve readonly_Content_content : rel.

Lemma readonly_Paragraph_content p : readonly (Paragraph_content p).
Proof. unfold Paragraph_content. rel_auto. Qed.
#[export] Hint Resolve readonly_Paragraph_content : rel.

Lemma readonly_Paragraph_lastText p : readonly (Paragraph_lastText p).
Proof.
  unfold Paragraph_lastText, Paragraph_lastContent. rel_auto.
Qed.
#[export] Hint Resolve readonly_Paragraph_lastText : rel.

Lemma readonly_Paragraph_firstText p : readonly (Paragraph_firstText p).
Proof.
  unfold Paragraph_firstText, Paragraph_firstContent. rel_auto.
Qed.
#[export] Hint Resolve readonly_Paragraph_firstText : rel.

Lemma readonly_Paragraph_getPrecedingText p t :
  readonly (Paragraph_getPrecedingText p t).
Proof.
  unfold Paragraph_getPrecedingText, Model_getPrecedingText.
  rel_auto.
Qed.
#[export] Hint Resolve readonly_Paragraph_getPrecedingText : rel.

Lemma readonly_Paragraph_getFollowingText p t :
  readonly (Paragraph_getFollowingText p t).
Proof.
  unfold Paragraph_getFollowingText, Model_getFollowingText.
  rel_auto.
Qed.
#[export] Hint Resolve readonly_Paragraph_getFollowingText : rel.

Lemma readonly_Text_getPrecedingText t : readonly (Text_getPrecedingText t).
Proof.
  unfold Text_getPrecedingText, Link_getPrecedingText. rel_auto.
Qed.
#[export] Hint Resolve readonly_Text_getPrecedingText : rel.

Lemma readonly_Text_getFollowingText t : readonly (Text_getFollowingText t).
Proof.
  unfold Text_getFollowingText, Link_getFollowingText. rel_auto.
Qed.
#[export] Hint Resolve readonly_Text_getFollowingText : rel.

Lemma readonly_betweenLoop fuel startText t acc :
  readonly (betweenLoop fuel startText t acc).
Proof.
  revert t acc.
  induction fuel as [|fuel IH]; intros t acc; simpl; rel_auto.
Qed.
#[export] Hint Resolve readonly_betweenLoop : rel.

Lemma readonly_Selection_new start end_ : readonly (Selection_new start end_).
Proof. unfold Selection_new. rel_auto. Qed.
#[export] Hint Resolve readonly_Selection_new : rel.

Lemma readonly_Model_findTextForPath path :
  readonly (Model_findTextForPath path).
Proof.
  unfold Model_findTextForPath, Paragraph_findTextForPath,
    Content_findTextForPath, Link_text.
  rel_auto.
Qed.
#[export] Hint Resolve readonly_Model_findTextForPath : rel.

Lemma readonly_Selection_ofDomSelection dom :
  readonly (Selection_ofDomSelection dom).
Proof. unfold Selection_ofDomSelection, createPoint. rel_auto. Qed.
#[export] Hint Resolve readonly_Selection_ofDomSelection : rel.

Lemma readonly_Selection_linkable s : readonly (Selection_linkable s).
Proof.
  unfold Selection_linkable, Selection_isLinkable. rel_auto.
Qed.
#[export] Hint Resolve readonly_Selection_linkable : rel.

Lemma readonly_Selection_link s : readonly (Selection_link s).
Proof. unfold Selection_link, Selection_isLink. rel_auto. Qed.
#[export] Hint Resolve readonly_Selection_link : rel.

(** *** Computations that leave the paragraph array alone *)

Definition sameContent (st st' : Model) : Prop := content st' = content st.

#[global] Instance sameContent_preorder : PreOrder sameContent.
Proof.
  split; [by intros st|].
  intros a b c Hab Hbc. unfold sameContent in *. congruence.
Qed.

(** *** What no computation undoes *)

(** Objects stay allocated, a text run keeps its parent, a link is never
    modified, and a paragraph that has content keeps having some. *)
Record grows (st st' : Model) : Prop := {
  grows_texts : ∀ t o, texts st !! t = Some o →
    ∃ o', texts st' !! t = Some o' ∧ t_parent o' = t_parent o;
  grows_links : links st `prefix_of` links st';
  grows_paragraphs : (length (paragraphs st) ≤ length (paragraphs st'))%nat;
  grows_nonempty : ∀ p po, paragraphs st !! p = Some po → p_content po ≠ [] →
    ∃ po', paragraphs st' !! p = Some po' ∧ p_content po' ≠ []
}.

#[global] Instance grows_preorder : PreOrder grows.
Proof.
  split.
  - intros st. split; eauto.
  - intros a b c [T1 L1 P1 N1] [T2 L2 P2 N2]. split.
    + intros t o Ho. destruct (T1 _ _ Ho) as (o1 & Ho1 & E1).
      destruct (T2 _ _ Ho1) as (o2 & Ho2 & E2). exists o2. split; congruence.
    + by etrans.
    + lia.
    + intros p po Hp Hne. destruct (N1 _ _ Hp Hne) as (po1 & Hp1 & Hne1).
      eauto.
Qed.

Lemma grows_texts_length st st' :
  grows st st' → (length (texts st) ≤ length (texts st'))%nat.
Proof.
  intros [T _ _ _]. destruct (decide (length (texts st) = 0%nat)) as [|Hn]; [lia|].
  destruct (lookup_lt_is_Some_2 (texts st) (length (texts st) - 1)) as [o Ho];
    [lia|].
  destruct (T _ _ Ho) as (o' & Ho' & _). apply lookup_lt_Some in Ho'. lia.
Qed.

Lemma grows_link st st' l lo :
  grows st st' → links st !! l = Some lo → links st' !! l = Some lo.
Proof. intros [_ L _ _] H. by eapply prefix_lookup_Some. Qed.

Lemma grows_textOf st st' c t :
  grows st st' → textOf st c = Some t → textOf st' c = Some t.
Proof.
  intros G. destruct c as [t'|l]; simpl; [done|].
  destruct (links st !! l) as [lo|] eqn:E; [|done].
  by rewrite (grows_link _ _ _ _ G E).
Qed.

Lemma grows_set_cursor st c : grows st (set_cursor c st).
Proof. split; simpl; eauto. Qed.

Lemma grows_set_selections st a b : grows st (set_selections a b st).
Proof. split; simpl; eauto. Qed.

Lemma grows_set_content st f : grows st (set_content f st).
Proof. split; simpl; eauto. Qed.

Lemma grows_text_push st o : grows st (set_texts (λ ts, ts ++ [o]) st).
Proof.
  split; simpl; eauto.
  intros t o' H. exists o'. split; [|done]. by apply lookup_app_l_Some.
Qed.

Lemma grows_text_update st t o v :
  texts st !! t = Some o →
  grows st (set_texts (λ ts,
    <[t := {| t_parent := t_parent o; t_content := v |}]> ts) st).
Proof.
  intros Ht. split; simpl; eauto.
  intros t' o' H. destruct (decide (t = t')) as [->|Hne].
  - eexists. split; [apply list_lookup_insert_eq; by eapply lookup_lt_Some|].
    simpl. congruence.
  - exists o'. split; [|done]. by rewrite list_lookup_insert_ne.
Qed.

Lemma grows_link_push st lo : grows st (set_links (λ ls, ls ++ [lo]) st).
Proof. split; simpl; eauto. by apply prefix_app_r. Qed.

Lemma grows_paragraph_push st po :
  grows st (set_paragraphs (λ ps, ps ++ [po]) st).
Proof.
  split; simpl; eauto.
  - rewrite length_app. lia.
  - intros p po' H Hne. exists po'. split; [|done]. by apply lookup_app_l_Some.
Qed.

Lemma grows_paragraph_update st p cs :
  cs ≠ [] →
  grows st (set_paragraphs (λ ps, <[p := {| p_content := cs |}]> ps) st).
Proof.
  intros Hcs. split; simpl; eauto.
  - by rewrite length_insert.
  - intros p' po' H Hne. destruct (decide (p = p')) as [->|Hn].
    + eexists. split; [apply list_lookup_insert_eq; by eapply lookup_lt_Some|].
      done.
    + exists po'. split; [|done]. by rewrite list_lookup_insert_ne.
Qed.

(** *** The array helpers *)

Lemma insertBefore_nonempty {A} `{EqDecision A} (arr : list A) item ref arr' :
  insertBefore arr item ref = Some arr' → arr' ≠ [].
Proof.
  destruct arr as [|a arr]; simpl; [done|].
  destruct (decide (a = ref)); [by intros [= <-]|].
  destruct (insertBefore arr item ref); simpl; [by intros [= <-]|done].
Qed.

Lemma insertBefore_elem {A} `{EqDecision A} (arr : list A) item ref arr' x :
  insertBefore arr item ref = Some arr' → x ∈ arr' ↔ x = item ∨ x ∈ arr.
Proof.
  revert arr'. induction arr as [|a arr IH]; intros arr'; simpl; [done|].
  destruct (decide (a = ref)) as [->|Hne].
  - intros [= <-]. by rewrite elem_of_cons.
  - destruct (insertBefore arr item ref) as [r|]; simpl; [|done].
    intros [= <-]. rewrite !elem_of_cons, (IH r eq_refl). tauto.
Qed.

Lemma insertBefore_Some {A} `{EqDecision A} (arr : list A) item ref :
  ref ∈ arr → is_Some (insertBefore arr item ref).
Proof.
  induction arr as [|a arr IH]; simpl; [by intros ?%elem_of_nil|].
  intros [->|Hin]%elem_of_cons.
  - rewrite decide_True by done. eauto.
  - destruct (decide (a = ref)); [eauto|].
    destruct (IH Hin) as [r ->]. simpl. eauto.
Qed.

Lemma remove_elem {A} `{EqDecision A} (arr : list A) item x :
  x ∈ remove arr item → x ∈ arr.
Proof.
  induction arr as [|a arr IH]; simpl; [done|].
  destruct (decide (a = item)); rewrite ?elem_of_cons; tauto.
Qed.

Lemma remove_length {A} `{EqDecision A} (arr : list A) item :
  item ∈ arr → S (length (remove arr item)) = length arr.
Proof.
  induction arr as [|a arr IH]; simpl; [by intros ?%elem_of_nil|].
  destruct (decide (a = item)); [done|].
  intros [->|Hin]%elem_of_cons; [done|]. simpl. by rewrite IH.
Qed.

Lemma remove_nonempty {A} `{EqDecision A} (arr : list A) item :
  item ∈ arr → length arr ≠ 1%nat → remove arr item ≠ [].
Proof.
  intros Hin Hlen Hnil. apply remove_length in Hin.
  rewrite Hnil in Hin. simpl in Hin. lia.
Qed.

Lemma rel_eq_sub (R : relation Model) `{!Reflexive R} {A} (m : M A) :
  readonly m → rel R m.
Proof. intros H st. by rewrite <-(H st). Qed.

#[export] Hint Extern 5 (rel grows _) =>
  apply (rel_eq_sub grows); solve [eauto with rel] : rel.
#[export] Hint Extern 5 (rel sameContent _) =>
  apply (rel_eq_sub sameContent); solve [eauto with rel] : rel.

Lemma rel_modify (R : relation Model) f :
  (∀ st, R st (f st)) → rel R (modify f).
Proof. intros H st. apply H. Qed.

#[export] Hint Resolve grows_set_cursor grows_set_selections grows_set_content
  grows_text_push grows_link_push grows_paragraph_push : rel.

#[export] Hint Extern 1 (rel _ (modify _)) =>
  apply rel_modify; intros; first [reflexivity | solve [eauto with rel]] : rel.

Lemma grows_setParagraphContent p cs :
  cs ≠ [] → rel grows (setParagraphContent p cs).
Proof. intros H st. by apply grows_paragraph_update. Qed.

Lemma grows_Text_setContent t v : rel grows (Text_setContent t v).
Proof.
  intros st. unfold Text_setContent, bind, getText.
  destruct (texts st !! t) as [o|] eqn:E; simpl; [|reflexivity].
  by apply grows_text_update.
Qed.
#[export] Hint Resolve grows_Text_setContent : rel.

Lemma grows_Paragraph_addContent p c : rel grows (Paragraph_addContent p c).
Proof.
  unfold Paragraph_addContent. rel_auto.
  apply grows_setParagraphContent. by destruct a.
Qed.
#[export] Hint Resolve grows_Paragraph_addContent : rel.

Lemma grows_Paragraph_addContentBefore p c ref :
  rel grows (Paragraph_addContentBefore p c ref).
Proof.
  unfold Paragraph_addContentBefore. apply rel_bind; [apply _|rel_auto|].
  intros cs. destruct (insertBefore cs c ref) as [cs'|] eqn:E; [|rel_auto].
  apply grows_setParagraphContent. by eapply insertBefore_nonempty.
Qed.
#[export] Hint Resolve grows_Paragraph_addContentBefore : rel.

Lemma grows_Paragraph_removeContent p c :
  rel grows (Paragraph_removeContent p c).
Proof.
  unfold Paragraph_removeContent, Model_removeContent.
  apply rel_bind; [apply _|rel_auto|]. intros cs.
  destruct (decide (length cs = 1%nat)); [rel_auto|].
  destruct (decide (c ∈ cs)); [|rel_auto].
  apply grows_setParagraphContent. by apply remove_nonempty.
Qed.
#[export] Hint Resolve grows_Paragraph_removeContent : rel.

(** One tactic for the routine cases: unfold the method and follow its
    structure. *)
Ltac rel_unfold :=
  unfold moveCursor, Text_new, Text_content, Text_length, Text_append,
    Text_isInLink, Text_containingParagraph, Text_copyToParent, Link_new,
    Link_text, Link_content, Link_copyToParent, Content_text,
    Content_content, Content_setContent, Content_copyToParent,
    Model_addParagraph, Model_insertParagraphBefore, Model_removeContent,
    Paragraph_new, Paragraph_content, Paragraph_empty, Paragraph_remove,
    Paragraph_lastContent, Paragraph_lastText, Paragraph_firstContent,
    Paragraph_firstText, Link_remove, Link_removeContent, Text_remove,
    Content_remove, Text_removeRange, Text_removeAfter, Text_removeBefore,
    Text_removeLastCharacter, Text_removeFirstCharacter, Text_insertChar,
    Paragraph_combineWith, Paragraph_appendText, Paragraph_splitTo,
    Paragraph_mergeConsecutiveTexts, Text_removeNextChar,
    Text_removePreviousChar, Selection_remove, Model_moveCursor,
    Model_getSelection, Model_updateSelection, Model_removeLinkSelections,
    Model_insertNewParagraph, Model_insertChar, Model_removeNextChar,
    Model_removePreviousChar, Model_link, Model_unlink.

Ltac rel_go := repeat first [rel_step | progress rel_unfold].

Lemma grows_combineLoop this lastOfThis firstChild cs :
  rel grows (combineLoop this lastOfThis firstChild cs).
Proof.
  revert firstChild. induction cs as [|c cs IH]; intros firstChild; simpl.
  - rel_auto.
  - apply rel_bind; [apply _| |auto]. rel_go.
Qed.
#[export] Hint Resolve grows_combineLoop : rel.

Lemma grows_splitLoop prepending fromText fromOffset cs acc :
  rel grows (splitLoop prepending fromText fromOffset cs acc).
Proof.
  revert acc. induction cs as [|c cs IH]; intros acc; simpl.
  - rel_auto.
  - apply rel_bind; [apply _|rel_auto|]. intros ct.
    destruct (decide (ct = fromText)); [rel_go|].
    apply rel_bind; [apply _|rel_go|]. intros c'.
    apply rel_bind; [apply _|rel_auto|auto].
Qed.
#[export] Hint Resolve grows_splitLoop : rel.

Lemma grows_mergeLoop fuel p cursor i cam :
  rel grows (mergeLoop fuel p cursor i cam).
Proof.
  revert i cam. induction fuel as [|fuel IH]; intros i cam; simpl.
  - rel_auto.
  - apply rel_bind; [apply _|rel_auto|]. intros cs.
    destruct (i <? length cs)%nat; [|rel_auto].
    destruct (cs !! (i - 1)%nat) as [[previous|]|]; auto.
    destruct (cs !! i) as [[current|]|]; auto.
    rel_go.
Qed.
#[export] Hint Resolve grows_mergeLoop : rel.

(** Every edit operation only ever extends the arena. *)
Lemma grows_Selection_remove s : rel grows (Selection_remove s).
Proof. rel_go. Qed.
#[export] Hint Resolve grows_Selection_remove : rel.

Lemma grows_Model_getSelection dom : rel grows (Model_getSelection dom).
Proof. rel_go. Qed.
#[export] Hint Resolve grows_Model_getSelection : rel.

Lemma grows_Paragraph_combineWith this paragraph :
  rel grows (Paragraph_combineWith this paragraph).
Proof. rel_go. Qed.

Lemma grows_Paragraph_splitTo this prepending fromText fromOffset :
  rel grows (Paragraph_splitTo this prepending fromText fromOffset).
Proof. rel_go. Qed.

(** *** Content array untouched *)

Lemma sameContent_setParagraphContent p cs :
  rel sameContent (setParagraphContent p cs).
Proof. by intros st. Qed.
#[export] Hint Resolve sameContent_setParagraphContent : rel.

Lemma sameContent_Text_setContent t v : rel sameContent (Text_setContent t v).
Proof. unfold Text_setContent. rel_auto. Qed.
#[export] Hint Resolve sameContent_Text_setContent : rel.

Lemma sameContent_Text_new parent v : rel sameContent (Text_new parent v).
Proof. unfold Text_new. rel_auto. Qed.
#[export] Hint Resolve sameContent_Text_new : rel.

Lemma sameContent_Link_new parent text target :
  rel sameContent (Link_new parent text target).
Proof. unfold Link_new. rel_auto. Qed.
#[export] Hint Resolve sameContent_Link_new : rel.

Lemma sameContent_Paragraph_addContent p c :
  rel sameContent (Paragraph_addContent p c).
Proof. unfold Paragraph_addContent. rel_auto. Qed.
#[export] Hint Resolve sameContent_Paragraph_addContent : rel.

Lemma sameContent_Content_copyToParent c p :
  rel sameContent (Content_copyToParent c p).
Proof.
  unfold Content_copyToParent, Text_copyToParent, Link_copyToParent,
    Link_content, Link_text.
  rel_auto.
Qed.
#[export] Hint Resolve sameContent_Content_copyToParent : rel.

Lemma sameContent_combineLoop this lastOfThis firstChild cs :
  rel sameContent (combineLoop this lastOfThis firstChild cs).
Proof.
  revert firstChild. induction cs as [|c cs IH]; intros firstChild; simpl.
  - rel_auto.
  - apply rel_bind; [apply _| |auto]. unfold Text_append. rel_auto.
Qed.

(** ** Symbolic execution *)

Create HintDb mdefs.

#[export] Hint Unfold bind ret throw get modify whenM getText getLink
  getParagraph setParagraphContent moveCursor Text_new Text_setContent
  Text_content Text_length Text_append Text_isInLink
  Text_containingParagraph Text_copyToParent Link_new Link_text Link_content
  Link_copyToParent Content_text Content_content Content_setContent
  Content_copyToParent Model_addParagraph Model_insertParagraphBefore
  Model_removeContent Paragraph_new Paragraph_content Paragraph_addContent
  Paragraph_addContentBefore Paragraph_empty Paragraph_remove
  Paragraph_removeContent Paragraph_lastContent Paragraph_lastText
  Paragraph_firstContent Paragraph_firstText Model_getPrecedingText
  Model_getFollowingText Paragraph_getPrecedingText
  Paragraph_getFollowingText Link_getPrecedingText Link_getFollowingText
  Text_getPrecedingText Text_getFollowingText Link_remove Link_removeContent
  Text_remove Content_remove Text_removeRange Text_removeAfter
  Text_removeBefore Text_removeLastCharacter Text_removeFirstCharacter
  Text_insertChar Paragraph_combineWith Paragraph_appendText
  Paragraph_splitTo Paragraph_mergeConsecutiveTexts Text_removeNextChar
  Text_removePreviousChar Selection_new Content_findTextForPath
  Paragraph_findTextForPath Model_findTextForPath createPoint
  Selection_ofDomSelection Selection_isRange Selection_isLinkable
  Selection_isLink Selection_link Selection_linkable Selection_remove
  Model_moveCursor Model_getSelection Model_updateSelection
  Model_removeLinkSelections Model_insertNewParagraph Model_insertChar
  Model_removeNextChar Model_removePreviousChar Model_link Model_unlink
  previousOf nextOf previousOfMapped set_texts set_links set_paragraphs
  set_content set_selections set_cursor : mdefs.

Ltac rew_hyps :=
  repeat match goal with
  | H : ?x = _ |- context [?x] => rewrite H
  end.

Ltac side := first [done | apply list_elem_of_here | lia].

(** Run a computation on a state described by equations on its lookups. *)
Ltac mrun :=
  repeat first
    [ progress (autounfold with mdefs)
    | progress simpl
    | progress rew_hyps
    | rewrite decide_True by side
    | rewrite decide_False by side
    | rewrite bool_decide_eq_true_2 by side
    | rewrite bool_decide_eq_false_2 by side ].

Lemma bind_fst {A B} (m : M A) (k : A → M B) st a st' :
  m st = (Ok a, st') → fst (bind m k st) = fst (k a st').
Proof. intros H. by rewrite (bind_Ok _ _ _ _ _ H). Qed.

(** ** Paragraph merge *)

(** A content element whose text run can be read. *)
Definition resolved (st : Model) (c : Content) : Prop :=
  ∃ t, textOf st c = Some t ∧ is_Some (texts st !! t).

Lemma resolved_grows st st' c : grows st st' → resolved st c → resolved st' c.
Proof.
  intros G (t & Ht & [o Ho]). exists t. split; [by eapply grows_textOf|].
  destruct (grows_texts _ _ G _ _ Ho) as (o' & Ho' & _). eauto.
Qed.

Lemma allocated_grows st st' p :
  grows st st' → is_Some (paragraphs st !! p) → is_Some (paragraphs st' !! p).
Proof.
  intros G H. apply lookup_lt_is_Some in H. apply lookup_lt_is_Some.
  pose proof (grows_paragraphs _ _ G). lia.
Qed.

Lemma Content_text_Ok st c t :
  textOf st c = Some t → Content_text c st = (Ok t, st).
Proof.
  destruct c as [t'|l]; simpl; [by intros [= ->]|].
  unfold Link_text, bind, getLink. destruct (links st !! l); simpl; [|done].
  by intros [= ->].
Qed.

(** ** Triples *)

(** [triple P m Q E]: started in a state with [P], the computation [m]
    returns [a] in a state with [Q a], or throws in a state with [E]. *)
Definition triple {A} (P : Model → Prop) (m : M A) (Q : A → Model → Prop)
    (E : Model → Prop) : Prop :=
  ∀ st, P st →
    match m st with
    | (Ok a, st') => Q a st'
    | (Err _, st') => E st'
    end.

Lemma triple_ret {A} (P : Model → Prop) (a : A) (Q : A → Model → Prop) E :
  (∀ st, P st → Q a st) → triple P (ret a) Q E.
Proof. intros H st HP. by apply H. Qed.

Lemma triple_throw {A} (P : Model → Prop) f (Q : A → Model → Prop)
    (E : Model → Prop) :
  (∀ st, P st → E st) → triple P (throw f) Q E.
Proof. intros H st HP. by apply H. Qed.

Lemma triple_get (P : Model → Prop) (Q : Model → Model → Prop) E :
  (∀ st, P st → Q st st) → triple P get Q E.
Proof. intros H st HP. by apply H. Qed.

Lemma triple_modify (P : Model → Prop) f (Q : unit → Model → Prop) E :
  (∀ st, P st → Q tt (f st)) → triple P (modify f) Q E.
Proof. intros H st HP. by apply H. Qed.

Lemma triple_bind {A B} (P : Model → Prop) (m : M A) (Q : A → Model → Prop)
    (k : A → M B) (R : B → Model → Prop) (E : Model → Prop) :
  triple P m Q E → (∀ a, triple (Q a) (k a) R E) → triple P (bind m k) R E.
Proof.
  intros Hm Hk st HP. specialize (Hm st HP). unfold bind.
  destruct (m st) as [[a|f] st']; [by apply Hk | done].
Qed.

Lemma triple_conseq {A} (P P' : Model → Prop) (m : M A)
    (Q Q' : A → Model → Prop) (E E' : Model → Prop) :
  triple P m Q E →
  (∀ st, P' st → P st) → (∀ a st, Q a st → Q' a st) →
  (∀ st, E st → E' st) →
  triple P' m Q' E'.
Proof.
  intros H HP HQ HE st HP'. specialize (H st (HP _ HP')).
  destruct (m st) as [[a|f] st']; auto.
Qed.

Lemma triple_pre {A} (P P' : Model → Prop) (m : M A) Q E :
  triple P m Q E → (∀ st, P' st → P st) → triple P' m Q E.
Proof. intros H HP. eapply triple_conseq; eauto. Qed.

Lemma triple_post {A} (P : Model → Prop) (m : M A)
    (Q Q' : A → Model → Prop) E :
  triple P m Q E → (∀ a st, Q a st → Q' a st) → triple P m Q' E.
Proof. intros H HQ. eapply triple_conseq; eauto. Qed.

(** A fact about the starting state can be assumed outright. *)
Lemma triple_assume {A} (P : Model → Prop) (F : Prop) (m : M A) Q E :
  (∀ st, P st → F) → (F → triple P m Q E) → triple P m Q E.
Proof. intros HF H st HP. apply H; eauto. Qed.

(** A computation that only reads keeps the precondition. *)
Lemma triple_readonly {A} (P : Model → Prop) (m : M A) (Q : A → Model → Prop)
    (E : Model → Prop) :
  readonly m →
  (∀ st a, P st → fst (m st) = Ok a → Q a st) →
  (∀ st f, P st → fst (m st) = Err f → E st) →
  triple P m Q E.
Proof.
  intros Hro HQ HE st HP. specialize (Hro st). specialize (HQ st).
  specialize (HE st). destruct (m st) as [[a|f] st']; simpl in *; subst;
    eauto.
Qed.

(** Facts that a relation [R] carries over can be framed around any
    computation that respects [R]. *)
Lemma triple_frame {A} (R : relation Model) (F : Model → Prop)
    (P : Model → Prop) (m : M A) (Q : A → Model → Prop) (E : Model → Prop) :
  rel R m → (∀ st st', R st st' → F st → F st') →
  triple P m Q E →
  triple (λ st, P st ∧ F st) m (λ a st', Q a st' ∧ F st')
    (λ st', E st' ∧ F st').
Proof.
  intros HR HF H st [HP HFst]. specialize (H st HP). specialize (HR st).
  destruct (m st) as [[a|f] st']; simpl in *; eauto.
Qed.

Lemma triple_forOf {A} (I : Model → Prop) (xs : list A) body
    (E : Model → Prop) :
  (∀ x, x ∈ xs → triple I (body x) (λ _, I) E) →
  triple I (forOf xs body) (λ _, I) E.
Proof.
  induction xs as [|x xs IH]; intros H; simpl.
  - by apply triple_ret.
  - eapply triple_bind; [apply H; left|].
    intros u. apply IH. intros y Hy. apply H. by right.
Qed.

(** [succeeds P m Q]: from [P] the computation returns, with [Q]. *)
Abbreviation succeeds P m Q := (triple P m Q (λ _, False)).

Lemma triple_of_run {A} (P : Model → Prop) (m : M A) (Q : A → Model → Prop)
    (E : Model → Prop) :
  (∀ st, P st → ∃ a, fst (m st) = Ok a ∧ Q a (snd (m st))) →
  triple P m Q E.
Proof.
  intros H st HP. destruct (H st HP) as (a & Ha & HQ).
  destruct (m st) as [r st']; simpl in *. by subst r.
Qed.

Lemma succeeds_run {A} (P : Model → Prop) (m : M A) (Q : A → Model → Prop)
    st :
  succeeds P m Q → P st → ∃ a, fst (m st) = Ok a ∧ Q a (snd (m st)).
Proof.
  intros H HP. specialize (H st HP).
  destruct (m st) as [[a|f] st']; simpl; [eauto|done].
Qed.

(** Success together with what [grows] carries over. *)
Lemma succeeds_frame {A} (F P : Model → Prop) (m : M A)
    (Q : A → Model → Prop) :
  rel grows m → (∀ st st', grows st st' → F st → F st') →
  succeeds P m Q →
  succeeds (λ st, P st ∧ F st) m (λ a st', Q a st' ∧ F st').
Proof.
  intros HR HF H. eapply triple_conseq;
    [by apply (triple_frame grows F) | done | done | by intros st [[] _]].
Qed.

(** ** Paragraph merge *)

Lemma Content_copyToParent_Ok st c p :
  resolved st c → ∃ c', fst (Content_copyToParent c p st) = Ok c'.
Proof.
  intros (t & Ht & [o Ho]). destruct c as [t'|l]; simpl in *.
  - injection Ht as ->. mrun. eauto.
  - destruct (links st !! l) as [lo|] eqn:El; [|done]. simpl in Ht.
    injection Ht as <-. mrun. eauto.
Qed.

Lemma Paragraph_addContent_Ok st p c :
  is_Some (paragraphs st !! p) → fst (Paragraph_addContent p c st) = Ok tt.
Proof. intros [po Hp]. by mrun. Qed.

Lemma copy_and_add_Ok st c p :
  resolved st c → is_Some (paragraphs st !! p) →
  fst ((c' <- Content_copyToParent c p;; Paragraph_addContent p c') st)
    = Ok tt.
Proof.
  intros Hc Hp. destruct (Content_copyToParent_Ok st c p Hc) as [c' Hc'].
  pose proof (rel_eq_sub grows _ (readonly_Paragraph_content p)) as _.
  assert (rel grows (Content_copyToParent c p)) as Hg
    by (unfold Content_copyToParent; rel_go).
  specialize (Hg st). unfold bind.
  destruct (Content_copyToParent c p st) as [r st1]. simpl in *. subst r.
  apply Paragraph_addContent_Ok. by eapply allocated_grows.
Qed.

Lemma Model_removeContent_Ok st p :
  p ∈ content st →
  Model_removeContent p st = (Ok tt, set_content (λ c, remove c p) st).
Proof. intros H. unfold Model_removeContent, bind, get. by rewrite decide_True. Qed.

(** The state the loop of [combineWith] needs: the receiving paragraph is
    allocated and the runs involved can be read. *)
Definition combinable (this : nat) (lastOfThis : Content)
    (cs : list Content) (st : Model) : Prop :=
  is_Some (paragraphs st !! this) ∧ resolved st lastOfThis
  ∧ Forall (resolved st) cs.

Lemma combinable_grows this lastOfThis cs st st' :
  grows st st' → combinable this lastOfThis cs st →
  combinable this lastOfThis cs st'.
Proof.
  intros G (Hp & Hl & Hcs). split; [by eapply allocated_grows|].
  split; [by eapply resolved_grows|].
  eapply Forall_impl; [exact Hcs|]. intros c. by apply resolved_grows.
Qed.

Lemma combineLoop_succeeds this lastOfThis cs : ∀ firstChild,
  succeeds (combinable this lastOfThis cs)
    (combineLoop this lastOfThis firstChild cs) (λ _ _, True).
Proof.
  induction cs as [|c cs IH]; intros firstChild; simpl.
  { by apply triple_ret. }
  eapply triple_bind; [|intros u; apply IH].
  eapply triple_conseq;
    [apply (succeeds_frame (combinable this lastOfThis cs)
              (combinable this lastOfThis (c :: cs)) _ (λ _ _, True))
    | | by intros a st [_ H] | done].
  - rel_go.
  - apply combinable_grows.
  - apply triple_of_run. intros st (Hp & Hl & [Hc Hcs]%Forall_cons).
    exists tt. split; [|done].
    destruct firstChild, lastOfThis as [lt|ll], c as [ct|cl];
      try by apply copy_and_add_Ok.
    destruct Hl as (? & [= <-] & [lo Hlo]).
    destruct Hc as (? & [= <-] & [co Hco]).
    mrun. destruct (isEmpty (trim (t_content lo))); mrun; reflexivity.
  - intros st (Hp & Hl & [Hc Hcs]%Forall_cons).
    split; split; try split; auto.
Qed.

(** C4, amended: for distinct paragraphs [p] and [q], [q] being in the
    paragraph list of the document, [p.combineWith(q)] returns the Point
    in the run that was last in [p], at offset 0 when that run's text
    trims to nothing and at its length otherwise; for a [q] that is not
    in the paragraph list it signals the not-found fault and returns no
    Point; [p.combineWith(p)] changes nothing and returns no Point. *)
Theorem combineWith_point st p q po qo lastOfThis lt lo :
  p ≠ q →
  paragraphs st !! p = Some po →
  last (p_content po) = Some lastOfThis →
  textOf st lastOfThis = Some lt →
  texts st !! lt = Some lo →
  paragraphs st !! q = Some qo →
  Forall (resolved st) (p_content qo) →
  (q ∈ content st →
   fst (Paragraph_combineWith p q st) =
     Ok (Some {| pt_text := lt;
                 pt_offset := if isEmpty (trim (t_content lo)) then 0
                              else jslength (t_content lo) |}))
  ∧ (q ∉ content st →
     fst (Paragraph_combineWith p q st) = Err NotFoundError)
  ∧ Paragraph_combineWith p p st = (Ok None, st).
Proof.
  intros Hpq Hp Hlast Hlt Hlo Hq Hres.
  assert (∃ st1, content st1 = content st
    ∧ textOf st1 lastOfThis = Some lt
    ∧ fst (Paragraph_combineWith p q st)
      = fst ((Paragraph_remove q;;;
              lt' <- Content_text lastOfThis;;
              ret (Some {| pt_text := lt';
                           pt_offset :=
                             if isEmpty (trim (t_content lo)) then 0
                             else jslength (t_content lo) |})) st1))
    as (st1 & Hcont & Hlt1 & Hrun).
  { unfold Paragraph_combineWith. rewrite decide_False by done.
    erewrite bind_fst by (by mrun). rewrite Hlast.
    erewrite bind_fst by (by apply Content_text_Ok).
    erewrite bind_fst by (by apply Text_content_Ok).
    erewrite bind_fst by (by mrun).
    assert (combinable p lastOfThis (p_content qo) st) as Hc.
    { split; [eauto|]. split; [|done]. exists lt. eauto. }
    destruct (succeeds_run _ _ _ st
                (combineLoop_succeeds p lastOfThis (p_content qo) true) Hc)
      as ([] & Hok & _).
    pose proof (grows_combineLoop p lastOfThis true (p_content qo) st) as Hg.
    pose proof (sameContent_combineLoop p lastOfThis true (p_content qo) st)
      as Hs.
    unfold bind at 1.
    destruct (combineLoop p lastOfThis true (p_content qo) st) as [r st1].
    simpl in *. subst r. exists st1. split; [exact Hs|].
    split; [by eapply grows_textOf|done]. }
  split; [|split].
  - intros Hin. rewrite Hrun.
    erewrite bind_fst
      by (apply Model_removeContent_Ok; by rewrite Hcont).
    erewrite bind_fst; [reflexivity|]. by apply Content_text_Ok.
  - intros Hout. rewrite Hrun.
    unfold Paragraph_remove, Model_removeContent, bind, get.
    rewrite decide_False by (by rewrite Hcont). reflexivity.
  - unfold Paragraph_combineWith. by rewrite decide_True.
Qed.

Lemma combineWith_point_witness :
  (1%nat ∈ content (documentOf [[mdText "abc"]; [mdText "def"]]) →
   fst (Paragraph_combineWith 0 1
          (documentOf [[mdText "abc"]; [mdText "def"]])) =
     Ok (Some {| pt_text := 0%nat;
                 pt_offset := if isEmpty (trim (lit "abc")) then 0
                              else jslength (lit "abc") |}))
  ∧ (1%nat ∉ content (documentOf [[mdText "abc"]; [mdText "def"]]) →
     fst (Paragraph_combineWith 0 1
            (documentOf [[mdText "abc"]; [mdText "def"]]))
     = Err NotFoundError)
  ∧ Paragraph_combineWith 0 0 (documentOf [[mdText "abc"]; [mdText "def"]])
    = (Ok None, documentOf [[mdText "abc"]; [mdText "def"]]).
Proof.
  apply (combineWith_point (documentOf [[mdText "abc"]; [mdText "def"]])
           0 1 {| p_content := [CText 0] |} {| p_content := [CText 1] |}
           (CText 0) 0 {| t_parent := InParagraph 0; t_content := lit "abc" |}).
  - lia.
  - reflexivity.
  - reflexivity.
  - reflexivity.
  - reflexivity.
  - reflexivity.
  - repeat constructor. exists 1%nat. split; [reflexivity|]. eexists.
    reflexivity.
Defined.

(** After a run that holds only a space the Point is at offset 0 and the
    space does not reach the merged text. *)
Example combineWith_after_placeholder :
  let r := Paragraph_combineWith 0 1
             (documentOf [[mdText " "]; [mdText "def"]]) in
  fst r = Ok (Some {| pt_text := 0%nat; pt_offset := 0 |})
  ∧ Model_view (snd r) = [[RText (lit "def")]].
Proof. by vm_compute. Qed.

(** C4 as stated fails for a paragraph [q] that is no longer in the
    paragraph list of the document: the merge appends the content of [q]
    to [p], and the closing [q.remove()] then signals the not-found fault
    of [removeChild], so that no Point is returned.  Here "def" has been
    taken out of the document "abc", "def" by [Model.removeContent]. *)
Lemma combineWith_point_counterexample :
  let st := snd (Model_removeContent 1
                   (documentOf [[mdText "abc"]; [mdText "def"]])) in
  let r := Paragraph_combineWith 0 1 st in
  content st = [0%nat]
  ∧ paragraphs st !! 1%nat = Some {| p_content := [CText 1] |}
  ∧ fst r = Err NotFoundError
  ∧ Model_view (snd r) = [[RText (lit "abcdef")]]
  ∧ fst r ≠ Ok (Some {| pt_text := 0%nat;
                        pt_offset := if isEmpty (trim (lit "abc")) then 0
                                     else jslength (lit "abc") |}).
Proof. vm_compute. repeat split. discriminate. Qed.

(** [Selection.remove] reaches the merge in that way: with the selection
    from offset 1 of "abc" to the end of "def", [removeBefore] takes the
    whole run "def", and with it its paragraph, out of the document before
    the two paragraphs are combined. *)
Example remove_detaches_before_merge :
  let r := Selection_remove
             {| sel_start := {| pt_text := 0%nat; pt_offset := 1 |};
                sel_end := {| pt_text := 1%nat; pt_offset := 3 |};
                sel_textBetween := [] |}
             (documentOf [[mdText "abc"]; [mdText "def"]]) in
  fst r = Err NotFoundError
  ∧ Model_view (snd r) = [[RText (lit "adef")]].
Proof. by vm_compute. Qed.

(** ** Deleting at the start of a paragraph *)



(** The same key press inside one paragraph deletes a character instead. *)
Example removePreviousChar_same_paragraph :
  let r := Model_removePreviousChar (caret [0; 1; 0]%nat 0)
             (documentOf [[mdText "abc"; mdLink "x" [mdText "def"]]]) in
  fst r = Ok tt
  ∧ Model_view (snd r) = [[RText (lit "ab"); RLink (lit "def") (lit "x")]].
Proof. by vm_compute. Qed.

(** ** Deleting the only character of a document *)

(** C7 as stated fails: right after the deletion the document has no
    paragraph at all, and no cursor has been placed. *)
Lemma delete_only_character_counterexample :
  let r := Model_removeNextChar (caret [0; 0]%nat 0)
             (documentOf [[mdText "a"]]) in
  ¬ (Model_view (snd r) = [[RText (lit " ")]]
     ∧ ∃ t, cursor (snd r) = Some {| pt_text := t; pt_offset := 0 |}).
Proof. vm_compute. intros [H _]. discriminate. Qed.

Lemma getSelection_seeds st dom :
  content st = [] →
  let st' := snd (Model_getSelection dom st) in
  content st' = [length (paragraphs st)]
  ∧ paragraphs st' !! length (paragraphs st)
    = Some {| p_content := [CText (length (texts st))] |}
  ∧ texts st' !! length (texts st)
    = Some {| t_parent := InParagraph (length (paragraphs st));
              t_content := lit " " |}
  ∧ cursor st' = Some {| pt_text := length (texts st); pt_offset := 0 |}.
Proof.
  intros Hc. unfold Model_getSelection.
  rewrite (bind_Ok _ _ st st st) by done.
  cbv beta zeta. rewrite Hc. simpl.
  set (seed := bind Paragraph_new _).
  set (st1 := snd (seed st)).
  assert (seed st = (Ok tt, st1)) as Hseed.
  { subst st1 seed. mrun. rewrite lookup_app_r, Nat.sub_diag by lia.
    reflexivity. }
  rewrite (bind_Ok _ _ _ _ _ Hseed).
  rewrite (readonly_run _ st1 (readonly_Selection_ofDomSelection dom)).
  simpl. subst st1 seed. mrun.
  rewrite lookup_app_r, Nat.sub_diag by lia. mrun.
  rewrite list_lookup_insert_eq by (rewrite length_app; simpl; lia).
  rewrite lookup_app_r, Nat.sub_diag by lia. done.
Qed.

(** C7, as the code has it: deleting the only character of a document
    that is one paragraph with one run of length 1 ([removeNextChar] at
    offset 0, or [removePreviousChar] at offset 1) leaves the document
    without any paragraph and places no cursor; the next read of the
    selection then gives the document exactly one paragraph with one run
    holding a single space, and places the cursor at offset 0 of it. *)
Theorem delete_only_character st p t c dom :
  content st = [p] →
  paragraphs st !! p = Some {| p_content := [CText t] |} →
  texts st !! t = Some {| t_parent := InParagraph p; t_content := [c] |} →
  let st1 := set_content (λ _, []) st in
  Model_removeNextChar (caret [0; 0]%nat 0) st = (Ok tt, st1)
  ∧ Model_removePreviousChar (caret [0; 0]%nat 1) st = (Ok tt, st1)
  ∧ Model_view st1 = []
  ∧ cursor st1 = cursor st
  ∧ (let st2 := snd (Model_getSelection dom st1) in
     Model_view st2 = [[RText (lit " ")]]
     ∧ cursor st2 = Some {| pt_text := length (texts st); pt_offset := 0 |}
     ∧ fst (Model_findTextForPath [0; 0]%nat st2) = Ok (length (texts st))).
Proof.
  intros Hc Hp Ht st1.
  split; [subst st1; mrun; reflexivity|].
  split; [subst st1; mrun; reflexivity|].
  split; [done|]. split; [done|].
  pose proof (getSelection_seeds st1 dom eq_refl) as H. cbv zeta in *.
  change (paragraphs st1) with (paragraphs st) in H.
  change (texts st1) with (texts st) in H.
  revert H. generalize (snd (Model_getSelection dom st1)).
  intros st2 (Hc2 & Hp2 & Ht2 & Hcur). split; [|split; [done|]].
  - unfold Model_view, Paragraph_view. rewrite Hc2. cbn [map]. rewrite Hp2.
    cbn [map p_content Content_view]. unfold Text_toMarkdown. by rewrite Ht2.
  - clear Hp Ht Hc. mrun. reflexivity.
Qed.

Lemma delete_only_character_witness :
  let st := documentOf [[mdText "a"]] in
  let st1 := set_content (λ _, []) st in
  Model_removeNextChar (caret [0; 0]%nat 0) st = (Ok tt, st1)
  ∧ Model_removePreviousChar (caret [0; 0]%nat 1) st = (Ok tt, st1)
  ∧ Model_view st1 = []
  ∧ cursor st1 = cursor st
  ∧ (let st2 := snd (Model_getSelection (caret [0; 0]%nat 0) st1) in
     Model_view st2 = [[RText (lit " ")]]
     ∧ cursor st2 = Some {| pt_text := length (texts st); pt_offset := 0 |}
     ∧ fst (Model_findTextForPath [0; 0]%nat st2) = Ok (length (texts st))).
Proof.
  exact (delete_only_character (documentOf [[mdText "a"]]) 0 0 97%N
           (caret [0; 0]%nat 0) eq_refl eq_refl eq_refl).
Defined.

(** *** Paragraphs untouched *)

Definition sameParagraphs (st st' : Model) : Prop :=
  paragraphs st' = paragraphs st.

#[global] Instance sameParagraphs_preorder : PreOrder sameParagraphs.
Proof.
  split; [by intros st|].
  intros a b c Hab Hbc. unfold sameParagraphs in *. congruence.
Qed.

#[export] Hint Extern 5 (rel sameParagraphs _) =>
  apply (rel_eq_sub sameParagraphs); solve [eauto with rel] : rel.

Lemma sameParagraphs_Text_new parent v :
  rel sameParagraphs (Text_new parent v).
Proof. unfold Text_new. rel_auto. Qed.
#[export] Hint Resolve sameParagraphs_Text_new : rel.

Lemma sameParagraphs_Link_new parent s target :
  rel sameParagraphs (Link_new parent s target).
Proof. unfold Link_new. rel_auto. Qed.
#[export] Hint Resolve sameParagraphs_Link_new : rel.

(** ** The non-empty invariants *)

(** A content element whose object is in the arena. *)
Definition allocated (st : Model) (c : Content) : Prop :=
  match c with
  | CText t => (t < length (texts st))%nat
  | CLink l => (l < length (links st))%nat
  end.

(** The invariant of the document.  [X] names a paragraph that may be
    empty for the moment: [insertNewParagraph] puts the new paragraph
    into the document before it fills it. *)
Record InvX (X : option nat) (st : Model) : Prop := {
  inv_texts : ∀ t o, texts st !! t = Some o → t_content o ≠ [];
  inv_links : ∀ l lo, links st !! l = Some lo →
    (l_text lo < length (texts st))%nat;
  inv_contents : ∀ p po, paragraphs st !! p = Some po →
    Forall (allocated st) (p_content po);
  inv_attached : ∀ p, p ∈ content st → (p < length (paragraphs st))%nat;
  inv_nonempty : ∀ p po, p ∈ content st → Some p ≠ X →
    paragraphs st !! p = Some po → p_content po ≠ []
}.

Abbreviation Inv := (InvX None).

Lemma allocated_grows_c st st' c :
  grows st st' → allocated st c → allocated st' c.
Proof.
  intros G. destruct c as [t|l]; simpl.
  - pose proof (grows_texts_length _ _ G). lia.
  - pose proof (prefix_length _ _ (grows_links _ _ G)). lia.
Qed.

Lemma allocated_textOf st c :
  (∀ l lo, links st !! l = Some lo → (l_text lo < length (texts st))%nat) →
  allocated st c → resolved st c.
Proof.
  intros HL. destruct c as [t|l]; simpl; intros H.
  - exists t. split; [done|]. by apply lookup_lt_is_Some.
  - destruct (lookup_lt_is_Some_2 _ _ H) as [lo Hlo]. exists (l_text lo).
    simpl. rewrite Hlo. split; [done|]. apply lookup_lt_is_Some. eauto.
Qed.

Lemma InvX_resolved X st p po c :
  InvX X st → paragraphs st !! p = Some po → c ∈ p_content po →
  resolved st c.
Proof.
  intros I Hp Hc. apply allocated_textOf; [apply I|].
  pose proof (inv_contents _ _ I _ _ Hp) as H.
  rewrite Forall_forall in H. auto.
Qed.

Lemma InvX_set_cursor X st c : InvX X st → InvX X (set_cursor c st).
Proof. intros [T L C A N]. by split. Qed.

Lemma InvX_set_selections X st a b :
  InvX X st → InvX X (set_selections a b st).
Proof. intros [T L C A N]. by split. Qed.

Lemma InvX_text_push X st o :
  t_content o ≠ [] → InvX X st → InvX X (set_texts (λ ts, ts ++ [o]) st).
Proof.
  intros Ho [T L C A N]. split; simpl; auto.
  - intros t o' [H|[_ H]]%lookup_app_Some; [eauto|].
    apply list_lookup_singleton_Some in H as [_ <-]. done.
  - intros l lo H. rewrite length_app. specialize (L _ _ H). lia.
  - intros p po H. eapply Forall_impl; [by eapply C|].
    intros [t|l]; simpl; rewrite ?length_app; lia.
Qed.

Lemma InvX_text_update X st t o v :
  texts st !! t = Some o → v ≠ [] → InvX X st →
  InvX X (set_texts (λ ts,
    <[t := {| t_parent := t_parent o; t_content := v |}]> ts) st).
Proof.
  intros Ht Hv [T L C A N]. split; simpl; auto.
  - intros t' o'. destruct (decide (t = t')) as [->|Hne].
    + rewrite list_lookup_insert_eq by (by eapply lookup_lt_Some).
      by intros [= <-].
    + rewrite list_lookup_insert_ne by done. eauto.
  - intros l lo H. rewrite length_insert. eauto.
  - intros p po H. eapply Forall_impl; [by eapply C|].
    intros [t'|l]; simpl; rewrite ?length_insert; lia.
Qed.

Lemma InvX_link_push X st lo :
  (l_text lo < length (texts st))%nat → InvX X st →
  InvX X (set_links (λ ls, ls ++ [lo]) st).
Proof.
  intros Hlo [T L C A N]. split; simpl; auto.
  - intros l lo' [H|[_ H]]%lookup_app_Some; [eauto|].
    apply list_lookup_singleton_Some in H as [_ <-]. done.
  - intros p po H. eapply Forall_impl; [by eapply C|].
    intros [t'|l]; simpl; rewrite ?length_app; lia.
Qed.

Lemma InvX_paragraph_push X st :
  InvX X st → InvX X (set_paragraphs (λ ps, ps ++ [{| p_content := [] |}]) st).
Proof.
  intros [T L C A N]. split; simpl; auto.
  - intros p po [H|[_ H]]%lookup_app_Some; [eauto|].
    apply list_lookup_singleton_Some in H as [_ <-]. constructor.
  - intros p H. rewrite length_app. specialize (A _ H). lia.
  - intros p po Hin HX H. specialize (A _ Hin).
    rewrite lookup_app_l in H by done. eauto.
Qed.

Lemma InvX_paragraph_update X st p cs :
  cs ≠ [] → Forall (allocated st) cs → InvX X st →
  InvX X (set_paragraphs (λ ps, <[p := {| p_content := cs |}]> ps) st).
Proof.
  intros Hne Hcs [T L C A N]. split; simpl; auto.
  - intros p' po'. destruct (decide (p = p')) as [->|Hn].
    + intros H. apply list_lookup_insert_Some in H as [(_ & <- & _)|[? _]];
        done.
    + rewrite list_lookup_insert_ne by done. eauto.
  - intros p' H. rewrite length_insert. eauto.
  - intros p' po' Hin HX. destruct (decide (p = p')) as [->|Hn].
    + intros H. apply list_lookup_insert_Some in H as [(_ & <- & _)|[? _]];
        done.
    + rewrite list_lookup_insert_ne by done. eauto.
Qed.

(** Filling the paragraph that was allowed to be empty restores the full
    invariant. *)
Lemma InvX_fill X st p cs :
  cs ≠ [] → Forall (allocated st) cs → InvX (Some p) st →
  InvX X (set_paragraphs (λ ps, <[p := {| p_content := cs |}]> ps) st).
Proof.
  intros Hne Hcs [T L C A N]. split; simpl; auto.
  - intros p' po'. destruct (decide (p = p')) as [->|Hn].
    + intros H. apply list_lookup_insert_Some in H as [(_ & <- & _)|[? _]];
        done.
    + rewrite list_lookup_insert_ne by done. eauto.
  - intros p' H. rewrite length_insert. eauto.
  - intros p' po' Hin HX. destruct (decide (p = p')) as [->|Hn].
    + intros H. apply list_lookup_insert_Some in H as [(_ & <- & _)|[? _]];
        done.
    + rewrite list_lookup_insert_ne by done. intros H.
      eapply N; eauto. congruence.
Qed.

Lemma InvX_weaken X st : Inv st → InvX X st.
Proof. intros [T L C A N]. split; auto. intros p po Hin _. by apply N. Qed.

Lemma InvX_content_remove X st p :
  InvX X st → InvX X (set_content (λ c, remove c p) st).
Proof.
  intros [T L C A N]. split; simpl; auto.
  - intros p' H%remove_elem. auto.
  - intros p' po H%remove_elem. eauto.
Qed.

Lemma InvX_content_push X st p po :
  paragraphs st !! p = Some po → (Some p ≠ X → p_content po ≠ []) →
  InvX X st → InvX X (set_content (λ c, c ++ [p]) st).
Proof.
  intros Hp Hne [T L C A N]. split; simpl; auto.
  - intros p' [H|H]%elem_of_app; [auto|].
    apply list_elem_of_singleton in H as ->. by eapply lookup_lt_Some.
  - intros p' po' [H|H]%elem_of_app HX; [eauto|].
    apply list_elem_of_singleton in H as ->.
    rewrite Hp. intros [= <-]. auto.
Qed.

Lemma InvX_content_insert st new ref c' po :
  insertBefore (content st) new ref = Some c' →
  paragraphs st !! new = Some po →
  Inv st → InvX (Some new) (set_content (λ _, c') st).
Proof.
  intros Hins Hp [T L C A N]. split; simpl; auto.
  - intros p' H. apply (insertBefore_elem _ _ _ _ _ Hins) in H as [->|H];
      [by eapply lookup_lt_Some|auto].
  - intros p' po' H HX.
    apply (insertBefore_elem _ _ _ _ _ Hins) in H as [->|H]; [done|].
    by apply N.
Qed.

(** [pres X m]: the computation keeps the invariant, also when it
    throws. *)
Definition pres {A} (X : option nat) (m : M A) : Prop :=
  triple (InvX X) m (λ _, InvX X) (InvX X).

Lemma pres_ret {A} X (a : A) : pres X (ret a).
Proof. by apply triple_ret. Qed.

Lemma pres_throw {A} X f : pres X (@throw A f).
Proof. by apply triple_throw. Qed.

Lemma pres_get X : pres X get.
Proof. by apply triple_get. Qed.

Lemma pres_bind {A B} X (m : M A) (k : A → M B) :
  pres X m → (∀ a, pres X (k a)) → pres X (bind m k).
Proof. intros Hm Hk. eapply triple_bind; [exact Hm|exact Hk]. Qed.

Lemma pres_modify X f : (∀ st, InvX X st → InvX X (f st)) → pres X (modify f).
Proof. intros H. by apply triple_modify. Qed.

Lemma pres_readonly {A} X (m : M A) : readonly m → pres X m.
Proof.
  intros H st I. specialize (H st).
  destruct (m st) as [[a|f] st']; simpl in *; by subst.
Qed.

Lemma pres_forOf {A} X (xs : list A) body :
  (∀ x, pres X (body x)) → pres X (forOf xs body).
Proof. intros H. apply triple_forOf. intros x _. apply H. Qed.

(** The invariant together with a fact about the result. *)
Definition presQ {A} (X : option nat) (m : M A) (Q : A → Model → Prop)
    : Prop :=
  triple (InvX X) m (λ a st, InvX X st ∧ Q a st) (InvX X).

Lemma presQ_bind {A B} X (m : M A) (Q : A → Model → Prop) (k : A → M B) :
  presQ X m Q →
  (∀ a, triple (λ st, InvX X st ∧ Q a st) (k a) (λ _, InvX X) (InvX X)) →
  pres X (bind m k).
Proof. intros Hm Hk. eapply triple_bind; [exact Hm|exact Hk]. Qed.

Lemma presQ_pres {A} X (m : M A) Q : presQ X m Q → pres X m.
Proof. intros H. eapply triple_post; [exact H|]. by intros a st [? _]. Qed.

Create HintDb pres.

#[export] Hint Resolve pres_ret pres_throw pres_get : pres.

#[export] Hint Extern 5 (pres _ _) =>
  apply pres_readonly; solve [eauto with rel typeclass_instances] : pres.

#[export] Hint Extern 1 (pres _ (modify _)) =>
  apply pres_modify; intros;
  first [ by apply InvX_set_cursor | by apply InvX_set_selections ] : pres.

Ltac pres_step :=
  match goal with
  | |- triple (InvX ?X) ?m _ (InvX ?X) => change (pres X m)
  | |- pres _ _ => solve [eauto with pres]
  | |- pres _ (bind _ _) => apply pres_bind; [|intros]
  | |- pres _ (whenM ?b _) => destruct b; simpl
  | |- pres _ (forOf _ _) => apply pres_forOf; intros
  | |- pres _ (match ?x with _ => _ end) => destruct x
  | |- pres _ (if ?b then _ else _) => destruct b
  | |- pres _ _ => solve [eauto with pres]
  end.

Ltac pres_go := repeat first [pres_step | progress rel_unfold].

Lemma presQ_Text_new X parent v :
  presQ X (Text_new parent v) (λ t st, allocated st (CText t)).
Proof.
  intros st I. simpl. split.
  - apply InvX_text_push; [apply orSpace_nonempty|done].
  - rewrite length_app. simpl. lia.
Qed.

Lemma pres_Text_new X parent v : pres X (Text_new parent v).
Proof. eapply presQ_pres, presQ_Text_new. Qed.
#[export] Hint Resolve pres_Text_new : pres.

Lemma pres_Text_setContent X t v : pres X (Text_setContent t v).
Proof.
  intros st I. unfold Text_setContent, bind, getText.
  destruct (texts st !! t) as [o|] eqn:E; simpl; [|done].
  apply InvX_text_update; [done|apply orSpace_nonempty|done].
Qed.
#[export] Hint Resolve pres_Text_setContent : pres.

Lemma presQ_Link_new X parent s target :
  presQ X (Link_new parent s target) (λ l st, allocated st (CLink l)).
Proof.
  intros st I. simpl. split.
  - apply InvX_link_push; [simpl; rewrite length_app; simpl; lia|].
    apply InvX_text_push; [apply orSpace_nonempty|done].
  - rewrite length_app. simpl. lia.
Qed.

Lemma pres_Link_new X parent s target : pres X (Link_new parent s target).
Proof. eapply presQ_pres, presQ_Link_new. Qed.
#[export] Hint Resolve pres_Link_new : pres.

Lemma presQ_Content_copyToParent X c parent :
  presQ X (Content_copyToParent c parent) (λ c' st, allocated st c').
Proof.
  unfold presQ. destruct c as [t|l]; simpl.
  - eapply triple_bind; [|intros t'; apply triple_ret; intros st H; exact H].
    unfold Text_copyToParent.
    eapply triple_bind; [apply pres_readonly; rel_go|].
    intros s. apply presQ_Text_new.
  - eapply triple_bind; [|intros l'; apply triple_ret; intros st H; exact H].
    unfold Link_copyToParent.
    eapply triple_bind;
      [apply pres_readonly; rel_go|].
    intros s. eapply triple_bind; [apply pres_readonly; rel_go|].
    intros lo. apply presQ_Link_new.
Qed.

Lemma pres_Paragraph_new X : pres X Paragraph_new.
Proof. intros st I. simpl. by apply InvX_paragraph_push. Qed.
#[export] Hint Resolve pres_Paragraph_new : pres.

Lemma pres_Model_removeContent X p : pres X (Model_removeContent p).
Proof.
  unfold Model_removeContent. pres_go.
  apply pres_modify. intros st. apply InvX_content_remove.
Qed.
#[export] Hint Resolve pres_Model_removeContent : pres.

(** Adding an allocated element to a paragraph. *)
Lemma triple_Paragraph_addContent X p c :
  triple (λ st, InvX X st ∧ allocated st c) (Paragraph_addContent p c)
    (λ _ st, InvX X st
             ∧ ∃ po, paragraphs st !! p = Some po ∧ p_content po ≠ [])
    (InvX X).
Proof.
  intros st [I Hc]. unfold Paragraph_addContent, Paragraph_content, bind,
    getParagraph.
  destruct (paragraphs st !! p) as [po|] eqn:E; simpl; [|done]. split.
  - apply InvX_paragraph_update; [by destruct (p_content po)| |done].
    apply Forall_app. split; [by eapply inv_contents|by constructor].
  - eexists. split; [apply list_lookup_insert_eq; by eapply lookup_lt_Some|].
    simpl. by destruct (p_content po).
Qed.

Lemma triple_Paragraph_addContentBefore X p c ref :
  triple (λ st, InvX X st ∧ allocated st c)
    (Paragraph_addContentBefore p c ref) (λ _, InvX X) (InvX X).
Proof.
  intros st [I Hc]. unfold Paragraph_addContentBefore, Paragraph_content,
    bind, getParagraph.
  destruct (paragraphs st !! p) as [po|] eqn:E; simpl; [|done].
  destruct (insertBefore (p_content po) c ref) as [cs'|] eqn:Ei; simpl;
    [|done].
  apply InvX_paragraph_update; [by eapply insertBefore_nonempty| |done].
  apply Forall_forall. intros x Hx.
  apply (insertBefore_elem _ _ _ _ _ Ei) in Hx as [->|Hx]; [done|].
  pose proof (inv_contents _ _ I _ _ E) as H. rewrite Forall_forall in H.
  auto.
Qed.

Lemma pres_Paragraph_removeContent X p c :
  pres X (Paragraph_removeContent p c).
Proof.
  intros st I. unfold Paragraph_removeContent, Paragraph_content, bind,
    getParagraph.
  destruct (paragraphs st !! p) as [po|] eqn:E; simpl; [|done].
  destruct (decide (length (p_content po) = 1%nat)).
  { by apply pres_Model_removeContent. }
  destruct (decide (c ∈ p_content po)); simpl; [|done].
  apply InvX_paragraph_update; [by apply remove_nonempty| |done].
  apply Forall_forall. intros x Hx%remove_elem.
  pose proof (inv_contents _ _ I _ _ E) as H. rewrite Forall_forall in H.
  auto.
Qed.
#[export] Hint Resolve pres_Paragraph_removeContent : pres.

Lemma pres_copy_and_add X c p :
  pres X (c' <- Content_copyToParent c p;; Paragraph_addContent p c').
Proof.
  eapply presQ_bind; [apply presQ_Content_copyToParent|].
  intros c'. eapply triple_post; [apply triple_Paragraph_addContent|].
  by intros _ st [I _].
Qed.

Lemma pres_new_and_add X p v :
  pres X (t <- Text_new (InParagraph p) v;; Paragraph_addContent p (CText t)).
Proof.
  eapply presQ_bind; [apply presQ_Text_new|].
  intros c'. eapply triple_post; [apply triple_Paragraph_addContent|].
  by intros _ st [I _].
Qed.
#[export] Hint Resolve pres_copy_and_add pres_new_and_add : pres.

Lemma pres_Text_remove X t : pres X (Text_remove t).
Proof. pres_go. Qed.
#[export] Hint Resolve pres_Text_remove : pres.

Lemma pres_Content_remove X c : pres X (Content_remove c).
Proof. pres_go. Qed.
#[export] Hint Resolve pres_Content_remove : pres.

Lemma pres_Text_removeRange X t a b : pres X (Text_removeRange t a b).
Proof. pres_go. Qed.
#[export] Hint Resolve pres_Text_removeRange : pres.

Lemma pres_Text_insertChar X t ch offset : pres X (Text_insertChar t ch offset).
Proof. pres_go. Qed.
#[export] Hint Resolve pres_Text_insertChar : pres.

Lemma pres_combineLoop X this lastOfThis firstChild cs :
  pres X (combineLoop this lastOfThis firstChild cs).
Proof.
  revert firstChild. induction cs as [|c cs IH]; intros firstChild; simpl.
  - pres_go.
  - apply pres_bind; [|auto]. pres_go.
Qed.
#[export] Hint Resolve pres_combineLoop : pres.

Lemma pres_Paragraph_combineWith X this paragraph :
  pres X (Paragraph_combineWith this paragraph).
Proof. pres_go. Qed.
#[export] Hint Resolve pres_Paragraph_combineWith : pres.

Lemma pres_Paragraph_appendText X p s : pres X (Paragraph_appendText p s).
Proof. pres_go. Qed.
#[export] Hint Resolve pres_Paragraph_appendText : pres.

Lemma pres_splitLoop X prepending fromText fromOffset cs acc :
  pres X (splitLoop prepending fromText fromOffset cs acc).
Proof.
  revert acc. induction cs as [|c cs IH]; intros acc; simpl.
  - pres_go.
  - apply pres_bind; [pres_go|]. intros ct.
    destruct (decide (ct = fromText)); [pres_go|].
    eapply presQ_bind; [apply presQ_Content_copyToParent|].
    intros c'. eapply triple_bind; [apply triple_Paragraph_addContent|].
    intros u. eapply triple_pre; [apply IH|]. by intros st [I _].
Qed.
#[export] Hint Resolve pres_splitLoop : pres.

Lemma pres_mergeLoop X fuel p cursor i cam :
  pres X (mergeLoop fuel p cursor i cam).
Proof.
  revert i cam. induction fuel as [|fuel IH]; intros i cam; simpl.
  - pres_go.
  - apply pres_bind; [pres_go|]. intros cs.
    destruct (i <? length cs)%nat; [|pres_go].
    destruct (cs !! (i - 1)%nat) as [[previous|]|]; auto.
    destruct (cs !! i) as [[current|]|]; auto.
    pres_go.
Qed.
#[export] Hint Resolve pres_mergeLoop : pres.

Lemma pres_Paragraph_mergeConsecutiveTexts X p cursor :
  pres X (Paragraph_mergeConsecutiveTexts p cursor).
Proof. pres_go. Qed.
#[export] Hint Resolve pres_Paragraph_mergeConsecutiveTexts : pres.

Lemma pres_Selection_remove X s : pres X (Selection_remove s).
Proof. pres_go. Qed.
#[export] Hint Resolve pres_Selection_remove : pres.

Lemma pres_Text_removeNextChar X t offset :
  pres X (Text_removeNextChar t offset).
Proof. pres_go. Qed.
#[export] Hint Resolve pres_Text_removeNextChar : pres.

Lemma pres_Text_removePreviousChar X t offset :
  pres X (Text_removePreviousChar t offset).
Proof. pres_go. Qed.
#[export] Hint Resolve pres_Text_removePreviousChar : pres.

(** Seeding an empty document: the paragraph gets its run before it is
    put into the document. *)
Lemma pres_seed X :
  pres X (
    newParagraph <- Paragraph_new;;
    newText <- Text_new (InParagraph newParagraph) [];;
    Paragraph_addContent newParagraph (CText newText);;;
    Model_addParagraph newParagraph;;;
    Model_moveCursor (Some {| pt_text := newText; pt_offset := 0 |})).
Proof.
  apply pres_bind; [pres_go|]. intros np.
  eapply presQ_bind; [apply presQ_Text_new|]. intros nt.
  eapply triple_bind; [apply triple_Paragraph_addContent|]. intros u.
  eapply triple_bind;
    [|intros; apply pres_modify; intros; by apply InvX_set_cursor].
  intros st (I & po & Hpo & Hne). simpl.
  eapply InvX_content_push; eauto.
Qed.

Lemma pres_Model_getSelection X dom : pres X (Model_getSelection dom).
Proof.
  unfold Model_getSelection. apply pres_bind; [pres_go|]. intros st.
  apply pres_bind; [|intros; pres_go].
  destruct (bool_decide _); simpl; [apply pres_seed|pres_go].
Qed.
#[export] Hint Resolve pres_Model_getSelection : pres.

Lemma pres_Model_updateSelection X dom : pres X (Model_updateSelection dom).
Proof. pres_go. Qed.
#[export] Hint Resolve pres_Model_updateSelection : pres.

Lemma pres_Model_insertChar X ch dom : pres X (Model_insertChar ch dom).
Proof. pres_go. Qed.

Lemma pres_Model_removeNextChar X dom : pres X (Model_removeNextChar dom).
Proof. pres_go. Qed.

Lemma pres_Model_removePreviousChar X dom :
  pres X (Model_removePreviousChar dom).
Proof. pres_go. Qed.

Lemma pres_frame {A} X (m : M A) (F : Model → Prop) :
  pres X m → rel grows m → (∀ st st', grows st st' → F st → F st') →
  triple (λ st, InvX X st ∧ F st) m (λ _ st, InvX X st ∧ F st) (InvX X).
Proof.
  intros Hp Hg HF. eapply triple_conseq;
    [by apply (triple_frame grows F) | done | done | by intros st [? _]].
Qed.

Lemma pres_new_and_addBefore X p v ref :
  pres X (t <- Text_new (InParagraph p) v;;
          Paragraph_addContentBefore p (CText t) ref).
Proof.
  eapply presQ_bind; [apply presQ_Text_new|].
  intros t. apply triple_Paragraph_addContentBefore.
Qed.
#[export] Hint Resolve pres_new_and_addBefore : pres.

Lemma pres_Model_link X target dom : pres X (Model_link target dom).
Proof.
  unfold Model_link. apply pres_bind; [pres_go|]. intros st0.
  destruct (linkableSelection st0) as [ls|]; [|pres_go].
  apply pres_bind; [pres_go|]. intros paragraph.
  apply pres_bind; [pres_go|]. intros c.
  eapply presQ_bind; [apply presQ_Link_new|]. intros selectionAsLink.
  eapply triple_bind.
  { apply (pres_frame X _ (λ st, allocated st (CLink selectionAsLink)));
      [pres_go|rel_go|]. intros st st'. apply allocated_grows_c. }
  intros u. eapply triple_bind; [apply triple_Paragraph_addContentBefore|].
  intros u'. pres_go.
Qed.

Lemma pres_Model_unlink X dom : pres X (Model_unlink dom).
Proof.
  unfold Model_unlink. apply pres_bind; [pres_go|]. intros st0.
  destruct (linkedSelection st0) as [lk|]; [|pres_go].
  apply pres_bind; [pres_go|]. intros lo.
  apply pres_bind; [apply pres_readonly; rel_go|]. intros c.
  eapply presQ_bind; [apply presQ_Text_new|]. intros linkAsText.
  eapply triple_bind; [apply triple_Paragraph_addContentBefore|].
  intros u. pres_go.
Qed.

(** *** Inserting a paragraph *)

Lemma InvX_filled st p po :
  paragraphs st !! p = Some po → p_content po ≠ [] →
  InvX (Some p) st → Inv st.
Proof.
  intros Hp Hne [T L C A N]. split; auto.
  intros p' po' Hin _ Hp'. destruct (decide (p' = p)) as [->|Hn].
  - congruence.
  - eapply N; eauto. congruence.
Qed.

Lemma triple_or {A} (P1 P2 : Model → Prop) (m : M A) Q E :
  triple P1 m Q E → triple P2 m Q E → triple (λ st, P1 st ∨ P2 st) m Q E.
Proof. intros H1 H2 st [H|H]; [by apply H1|by apply H2]. Qed.

Lemma triple_no_err {A} (P : Model → Prop) (m : M A) Q E :
  triple P m Q E → (∀ st, P st → ∃ a, fst (m st) = Ok a) →
  succeeds P m Q.
Proof.
  intros H Hok st HP. specialize (H st HP). destruct (Hok st HP) as [a Ha].
  destruct (m st) as [[a'|f] st']; simpl in *; [done|discriminate].
Qed.

(** The new paragraph [N] is in the document, allocated and still empty. *)
Definition filling (N : nat) (st : Model) : Prop :=
  InvX (Some N) st ∧ paragraphs st !! N = Some {| p_content := [] |}.

Lemma fill_addContent N c :
  succeeds (λ st, filling N st ∧ allocated st c) (Paragraph_addContent N c)
    (λ _, Inv).
Proof.
  intros st [[I HN] Hc]. unfold Paragraph_addContent, Paragraph_content,
    bind, getParagraph. rewrite HN. simpl.
  apply InvX_fill; [done| |done]. by repeat constructor.
Qed.

Lemma fill_new_and_add N v :
  succeeds (filling N)
    (t <- Text_new (InParagraph N) v;; Paragraph_addContent N (CText t))
    (λ _, Inv).
Proof.
  eapply triple_bind; [|intros t; apply fill_addContent].
  intros st [I HN]. simpl. split; [split|].
  - apply InvX_text_push; [apply orSpace_nonempty|done].
  - done.
  - rewrite length_app. simpl. lia.
Qed.

Lemma fill_copy N c :
  succeeds (λ st, filling N st ∧ resolved st c) (Content_copyToParent c N)
    (λ c' st, filling N st ∧ allocated st c').
Proof.
  apply triple_no_err with (E := λ _, True).
  2: { intros st [_ Hc]. by apply Content_copyToParent_Ok. }
  intros st [[I HN] Hc].
  pose proof (presQ_Content_copyToParent (Some N) c N st I) as H1.
  assert (rel sameParagraphs (Content_copyToParent c N)) as H2
    by (unfold Content_copyToParent, Text_copyToParent, Link_copyToParent,
          Link_content, Link_text; rel_auto).
  specialize (H2 st).
  destruct (Content_copyToParent c N st) as [[c'|f] st']; simpl in *; [|done].
  destruct H1 as [I' Hc']. unfold sameParagraphs in H2.
  split; [split|]; [done|by rewrite H2|done].
Qed.

Lemma Paragraph_content_Ok st p po :
  paragraphs st !! p = Some po →
  Paragraph_content p st = (Ok (p_content po), st).
Proof.
  intros H. unfold Paragraph_content.
  by rewrite (bind_Ok _ _ _ _ _ (getParagraph_Ok _ _ _ H)).
Qed.

Lemma Content_content_Ok st c :
  resolved st c → ∃ s, Content_content c st = (Ok s, st).
Proof.
  intros (t & Ht & [o Ho]). exists (t_content o). unfold Content_content.
  rewrite (bind_Ok _ _ _ _ _ (Content_text_Ok _ _ _ Ht)).
  by apply Text_content_Ok.
Qed.

Lemma fill_appendText N s :
  succeeds (filling N) (Paragraph_appendText N s) (λ _, Inv).
Proof.
  intros st H. pose proof H as [I HN]. unfold Paragraph_appendText.
  rewrite (bind_Ok _ _ _ _ _ (Paragraph_content_Ok _ _ _ HN)). simpl.
  by apply fill_new_and_add.
Qed.

Lemma fill_splitLoop N fromText fromOffset cs acc :
  triple (λ st, filling N st ∧ Forall (resolved st) cs)
    (splitLoop N fromText fromOffset cs acc)
    (λ r st, (cs = [] ∧ r = acc ∧ filling N st) ∨ Inv st) Inv.
Proof.
  destruct cs as [|c cs]; simpl.
  { apply triple_ret. intros st [H _]. by left. }
  intros st [H [Hc Hcs]%Forall_cons].
  destruct Hc as (ct & Hct & Ho).
  rewrite (bind_Ok _ _ _ _ _ (Content_text_Ok _ _ _ Hct)).
  destruct (decide (ct = fromText)) as [->|Hne].
  - destruct (Content_content_Ok st c) as [s Hs]; [by exists fromText|].
    rewrite (bind_Ok _ _ _ _ _ Hs).
    eapply (triple_bind _ _ (λ _, Inv) _ _ Inv); [| |exact H].
    + eapply triple_conseq; [apply fill_appendText|done|done|done].
    + intros u. eapply triple_post; [|intros a st' HI; right; exact HI].
      change (pres None (
        len <- Text_length fromText;;
        Content_setContent c (substring s fromOffset len);;;
        ret acc)).
      pres_go.
  - eapply (triple_bind (λ st, filling N st ∧ resolved st c) _
              (λ c' st, filling N st ∧ allocated st c') _ _ Inv);
      [| |exact (conj H (ex_intro _ ct (conj Hct Ho)))].
    + eapply triple_conseq; [apply fill_copy|done|done|done].
    + intros c'. eapply (triple_bind _ _ (λ _, Inv)).
      * eapply triple_conseq; [apply fill_addContent|done|done|done].
      * intros u. eapply triple_post;
          [apply pres_splitLoop|intros a st' HI; right; exact HI].
Qed.

Lemma fill_splitTo this N fromText fromOffset :
  triple (λ st, filling N st ∧ is_Some (paragraphs st !! this))
    (Paragraph_splitTo this N fromText fromOffset) (λ _, Inv) Inv.
Proof.
  intros st [H [po Hpo]]. pose proof H as [I HN]. unfold Paragraph_splitTo.
  rewrite (bind_Ok _ _ _ _ _ (Paragraph_content_Ok _ _ _ Hpo)).
  eapply (triple_bind (λ st, filling N st ∧ Forall (resolved st) (p_content po))
            _ (λ r st, (p_content po = [] ∧ r = [] ∧ filling N st) ∨ Inv st)
            _ _ Inv).
  - apply fill_splitLoop.
  - intros r. apply triple_or.
    + intros st' (Hnil & -> & H'). pose proof H' as [I' HN']. simpl.
      rewrite (bind_Ok _ _ st' tt st') by done.
      rewrite (bind_Ok _ _ st' true st').
      2: { unfold Paragraph_empty.
           by rewrite (bind_Ok _ _ _ _ _ (Paragraph_content_Ok _ _ _ HN')). }
      simpl.
      eapply (triple_bind _ _ (λ _, Inv) _ _ Inv); [| |exact H'].
      * eapply triple_conseq; [apply fill_new_and_add|done|done|done].
      * intros u. change (pres None (
          ft <- Paragraph_firstText this;;
          ret {| pt_text := ft; pt_offset := 0 |})).
        pres_go.
    + change (pres None (
        forOf r Content_remove;;;
        empty <- Paragraph_empty N;;
        whenM empty (
          t <- Text_new (InParagraph N) [];;
          Paragraph_addContent N (CText t));;;
        ft <- Paragraph_firstText this;;
        ret {| pt_text := ft; pt_offset := 0 |})).
      pres_go.
  - split; [done|]. apply Forall_forall. intros c Hc.
    exact (InvX_resolved _ _ _ _ _ I Hpo Hc).
Qed.


Lemma insertBefore_ref {A} `{EqDecision A} (arr : list A) item ref arr' :
  insertBefore arr item ref = Some arr' → ref ∈ arr.
Proof.
  revert arr'. induction arr as [|a arr IH]; intros arr'; simpl; [done|].
  destruct (decide (a = ref)) as [->|Hne]; [intros _; left|].
  destruct (insertBefore arr item ref) as [r|]; simpl; [|done].
  intros _. right. by eapply IH.
Qed.

(** Which paragraph holds a run does not depend on the paragraph array. *)
Lemma Text_containingParagraph_set_content t f st :
  fst (Text_containingParagraph t (set_content f st))
  = fst (Text_containingParagraph t st).
Proof.
  unfold Text_containingParagraph, bind, getText, getLink. simpl.
  destruct (texts st !! t) as [o|]; simpl; [|done].
  destruct (t_parent o) as [p|l]; simpl; [done|].
  by destruct (links st !! l).
Qed.

Lemma pres_Model_insertNewParagraph dom :
  pres None (Model_insertNewParagraph dom).
Proof.
  unfold Model_insertNewParagraph.
  apply pres_bind; [pres_go|]. intros selection.
  apply pres_bind; [pres_go|]. intros u.
  set (text := pt_text (sel_start selection)).
  eapply (triple_bind _ _
    (λ np st, Inv st ∧ paragraphs st !! np = Some {| p_content := [] |})).
  { intros st I. simpl. split; [by apply InvX_paragraph_push|].
    by rewrite lookup_app_r, Nat.sub_diag by lia. }
  intros np.
  eapply (triple_bind _ _
    (λ ref st, Inv st ∧ paragraphs st !! np = Some {| p_content := [] |}
               ∧ fst (Text_containingParagraph text st) = Ok ref)).
  { apply triple_readonly; [rel_go| |]; intros st a [I HN] Ha; auto. }
  intros ref.
  eapply (triple_bind _ _
    (λ _ st, filling np st ∧ ref ∈ content st
             ∧ fst (Text_containingParagraph text st) = Ok ref)).
  { intros st (I & HN & Href). unfold Model_insertParagraphBefore, bind, get.
    destruct (insertBefore (content st) np ref) as [c'|] eqn:E; simpl;
      [|done].
    split; [split|split]; [by eapply InvX_content_insert|done| |].
    - apply (insertBefore_elem _ _ _ _ _ E). right.
      by eapply insertBefore_ref.
    - by rewrite Text_containingParagraph_set_content. }
  intros u'.
  eapply (triple_bind _ _
    (λ this st, filling np st ∧ is_Some (paragraphs st !! this))).
  { apply triple_readonly; [rel_go| |].
    - intros st this (H & Hin & Href) Hthis. split; [done|].
      assert (this = ref) as -> by congruence.
      apply lookup_lt_is_Some. destruct H as [I _].
      by apply (inv_attached _ _ I).
    - intros st f (H & Hin & Href) Hf. congruence. }
  intros this. eapply triple_bind; [apply fill_splitTo|].
  intros pt. change (pres None (Model_moveCursor (Some pt))). pres_go.
Qed.

(** ** C1: the invariants under editing *)

(** The events the editor reacts to: the edit operations, and the
    selection changes between them that feed [link] and [unlink].  Each
    carries the host selection the operation will read. *)
Inductive Operation :=
| InsertChar (char : jsstring) (dom : DomSelection)
| InsertNewParagraph (dom : DomSelection)
| RemoveNextChar (dom : DomSelection)
| RemovePreviousChar (dom : DomSelection)
| SelectionRemove (dom : DomSelection)
| Link_ (target : jsstring) (dom : DomSelection)
| Unlink (dom : DomSelection)
| UpdateSelection (dom : DomSelection)
| RemoveLinkSelections.

Definition perform (op : Operation) : M unit :=
  match op with
  | InsertChar char dom => Model_insertChar char dom
  | InsertNewParagraph dom => Model_insertNewParagraph dom
  | RemoveNextChar dom => Model_removeNextChar dom
  | RemovePreviousChar dom => Model_removePreviousChar dom
  | SelectionRemove dom =>
      selection <- Model_getSelection dom;;
      Selection_remove selection;;;
      ret tt
  | Link_ target dom => Model_link target dom
  | Unlink dom => Model_unlink dom
  | UpdateSelection dom => Model_updateSelection dom
  | RemoveLinkSelections => Model_removeLinkSelections
  end.

(** A fault ends the operation it occurs in; the editor goes on with the
    next event in the state the fault left. *)
Definition performAll (ops : list Operation) (st : Model) : Model :=
  foldl (λ st op, snd (perform op st)) st ops.

(** Every paragraph of the document has content, every run in it has at
    least one character, and every link in it has its one run. *)
Definition nonEmptyInvariants (st : Model) : Prop :=
  ∀ p, p ∈ content st →
    ∃ po, paragraphs st !! p = Some po
      ∧ (1 ≤ length (p_content po))%nat
      ∧ ∀ c, c ∈ p_content po →
          match c with
          | CText t =>
              ∃ o, texts st !! t = Some o ∧ (1 ≤ length (t_content o))%nat
          | CLink l =>
              ∃ lo o, links st !! l = Some lo
                ∧ texts st !! l_text lo = Some o
                ∧ (1 ≤ length (t_content o))%nat
          end.

Lemma Inv_nonEmptyInvariants st : Inv st → nonEmptyInvariants st.
Proof.
  intros I p Hin.
  destruct (lookup_lt_is_Some_2 _ _ (inv_attached _ _ I _ Hin)) as [po Hpo].
  exists po. split; [done|]. split.
  - pose proof (inv_nonempty _ _ I _ _ Hin ltac:(done) Hpo).
    destruct (p_content po); [done|simpl; lia].
  - intros c Hc. pose proof (inv_contents _ _ I _ _ Hpo) as Hall.
    rewrite Forall_forall in Hall. specialize (Hall _ Hc).
    assert (∀ t, (t < length (texts st))%nat →
              ∃ o, texts st !! t = Some o ∧ (1 ≤ length (t_content o))%nat)
      as Htext.
    { intros t Ht. destruct (lookup_lt_is_Some_2 _ _ Ht) as [o Ho].
      exists o. split; [done|]. pose proof (inv_texts _ _ I _ _ Ho).
      destruct (t_content o); [done|simpl; lia]. }
    destruct c as [t|l]; simpl in Hall; [auto|].
    destruct (lookup_lt_is_Some_2 _ _ Hall) as [lo Hlo].
    destruct (Htext _ (inv_links _ _ I _ _ Hlo)) as (o & Ho & Hlen). eauto.
Qed.

Lemma pres_perform op : pres None (perform op).
Proof.
  destruct op; simpl.
  - apply pres_Model_insertChar.
  - apply pres_Model_insertNewParagraph.
  - apply pres_Model_removeNextChar.
  - apply pres_Model_removePreviousChar.
  - pres_go.
  - apply pres_Model_link.
  - apply pres_Model_unlink.
  - apply pres_Model_updateSelection.
  - apply pres_modify. intros st. apply InvX_set_selections.
Qed.

Lemma Inv_performAll ops : ∀ st, Inv st → Inv (performAll ops st).
Proof.
  induction ops as [|op ops IH]; intros st I; simpl; [done|].
  apply IH. pose proof (pres_perform op st I) as H.
  by destruct (perform op st) as [[[]|f] st'].
Qed.

(** C1: from a well-formed document, after any sequence of [insertChar],
    [insertNewParagraph], [removeNextChar], [removePreviousChar], selection
    remove, [link] and [unlink] (and of selection updates in between), on
    whatever host selections and whether or not an operation faults, every
    paragraph of the document has at least one content node, every text
    run has at least one character and every link has its one text run. *)
Theorem edits_keep_invariants st ops :
  Inv st →
  Inv (performAll ops st) ∧ nonEmptyInvariants (performAll ops st).
Proof.
  intros I. pose proof (Inv_performAll ops st I) as I'.
  split; [done|by apply Inv_nonEmptyInvariants].
Qed.

Ltac lookup_cases H :=
  repeat match type of H with
  | (_ :: _) !! ?i = Some _ =>
      destruct i; simpl in H; [injection H as <-|]
  | [] !! _ = Some _ => discriminate H
  end.

Lemma Inv_sample : Inv (documentOf [[mdText "ab"]]).
Proof.
  split; simpl.
  - intros t o H. lookup_cases H. done.
  - intros l lo H. lookup_cases H.
  - intros p po H. lookup_cases H. repeat constructor.
  - intros p ->%list_elem_of_singleton. lia.
  - intros p po ->%list_elem_of_singleton _ [= <-]. done.
Qed.

Lemma edits_keep_invariants_witness :
  let ops := [InsertNewParagraph (caret [0; 0]%nat 1);
              RemovePreviousChar (caret [1; 0]%nat 0);
              UpdateSelection (caret [0; 0]%nat 1);
              Link_ (lit "x") (caret [0; 0; 0]%nat 1)] in
  Inv (performAll ops (documentOf [[mdText "ab"]]))
  ∧ nonEmptyInvariants (performAll ops (documentOf [[mdText "ab"]])).
Proof.
  exact (edits_keep_invariants (documentOf [[mdText "ab"]]) _ Inv_sample).
Defined.

(** The scenarios of the specification, run on the model. *)
Example scenario_A :
  let r := Model_insertChar (lit ",") (caret [0; 0]%nat 5)
             (documentOf [[mdText "hello world"]]) in
  fst r = Ok tt
  ∧ Model_view (snd r) = [[RText (lit "hello, world")]]
  ∧ cursor (snd r) = Some {| pt_text := 0%nat; pt_offset := 6 |}.
Proof. by vm_compute. Qed.

Example scenario_B :
  let r := Model_insertNewParagraph (caret [0; 0]%nat 2)
             (documentOf [[mdText "abcd"]]) in
  fst r = Ok tt
  ∧ Model_view (snd r) = [[RText (lit "ab")]; [RText (lit "cd")]]
  ∧ Model_toMarkdown (snd r) = lit "ab" ++ [10; 10]%N ++ lit "cd".
Proof. by vm_compute. Qed.

Example scenario_C :
  let st := snd (Model_updateSelection
                   {| ds_start := domPoint [0; 0]%nat 6;
                      ds_end := domPoint [0; 0]%nat 11 |}
                   (documentOf [[mdText "hello world"]])) in
  let r := Model_link (lit "http://x") (caret [0; 1; 0]%nat 5) st in
  fst r = Ok tt
  ∧ Model_toMarkdown (snd r) = lit "hello [world](http://x)".
Proof. by vm_compute. Qed.

Example scenario_E :
  fst (ofMarkdown (mdDocument
         [MdNode heading None None [mdText "title"]]))
  = Err NotAParagraph.
Proof. reflexivity. Qed.

Example edits_sample :
  Model_view (performAll
    [InsertNewParagraph (caret [0; 0]%nat 1);
     RemovePreviousChar (caret [1; 0]%nat 0);
     UpdateSelection (caret [0; 0]%nat 1);
     Link_ (lit "x") (caret [0; 0; 0]%nat 1)]
    (documentOf [[mdText "ab"]]))
  = [[RLink (lit "ab") (lit "x")]].
Proof. by vm_compute. Qed.

(** ** Link and unlink: the illegal-state fault *)

(** The number of link runs a reader of the document sees. *)
Fixpoint countLinks (cs : list Content) : nat :=
  match cs with
  | [] => 0
  | CLink _ :: cs' => S (countLinks cs')
  | CText _ :: cs' => countLinks cs'
  end.

Definition paragraphLinks (st : Model) (p : nat) : nat :=
  match paragraphs st !! p with
  | Some po => countLinks (p_content po)
  | None => 0
  end.

Definition linkRuns (st : Model) : nat :=
  sum_list (map (paragraphLinks st) (content st)).

Fixpoint countRLinks (rs : list Run) : nat :=
  match rs with
  | [] => 0
  | RLink _ _ :: rs' => S (countRLinks rs')
  | RText _ :: rs' => countRLinks rs'
  end.

Lemma countRLinks_view st cs :
  countRLinks (map (Content_view st) cs) = countLinks cs.
Proof.
  induction cs as [|[t|l] cs IH]; simpl; [done|done|].
  destruct (links st !! l); simpl; by rewrite IH.
Qed.

Lemma linkRuns_view st :
  linkRuns st = sum_list (map countRLinks (Model_view st)).
Proof.
  unfold linkRuns, Model_view. induction (content st) as [|p ps IH]; [done|].
  simpl. rewrite IH. f_equal. unfold paragraphLinks, Paragraph_view.
  destruct (paragraphs st !! p); [by rewrite countRLinks_view|done].
Qed.

(** The document as a reader sees it is the same in both states. *)
Definition unchanged (st st' : Model) : Prop := Model_view st' = Model_view st.

Lemma unchanged_linkRuns st st' : unchanged st st' → linkRuns st' = linkRuns st.
Proof. intros H. rewrite !linkRuns_view. by rewrite H. Qed.

Lemma countLinks_app cs1 cs2 :
  countLinks (cs1 ++ cs2) = (countLinks cs1 + countLinks cs2)%nat.
Proof.
  induction cs1 as [|[t|l] cs1 IH]; simpl; [done|done|]. by rewrite IH.
Qed.

Lemma countLinks_remove_le cs c : (countLinks (remove cs c) ≤ countLinks cs)%nat.
Proof.
  induction cs as [|a cs IH]; [done|]. cbn [remove].
  destruct (decide (a = c)); destruct a; simpl; lia.
Qed.

Lemma countLinks_remove_text cs t :
  countLinks (remove cs (CText t)) = countLinks cs.
Proof.
  induction cs as [|[t'|l] cs IH]; [done| |].
  - cbn [remove]. destruct (decide (CText t' = CText t)); [done|].
    simpl. by rewrite IH.
  - cbn [remove]. destruct (decide (CLink l = CText t)); [done|].
    simpl. by rewrite IH.
Qed.

Lemma countLinks_remove_link cs l :
  CLink l ∈ cs → S (countLinks (remove cs (CLink l))) = countLinks cs.
Proof.
  induction cs as [|[t'|l'] cs IH]; [by intros ?%elem_of_nil| |];
    cbn [remove].
  - intros [?|Hin]%elem_of_cons; [done|].
    destruct (decide (CText t' = CLink l)); [done|]. simpl. auto.
  - destruct (decide (CLink l' = CLink l)); [done|].
    intros [?|Hin]%elem_of_cons; [congruence|]. simpl. by rewrite IH.
Qed.

Lemma countLinks_insertBefore cs c ref cs' :
  insertBefore cs c ref = Some cs' →
  countLinks cs' = (countLinks [c] + countLinks cs)%nat.
Proof.
  revert cs'. induction cs as [|a cs IH]; intros cs'; simpl; [done|].
  destruct (decide (a = ref)).
  - intros [= <-]. by destruct c, a.
  - destruct (insertBefore cs c ref) as [r|]; simpl; [|done].
    intros [= <-]. specialize (IH r eq_refl). destruct a, c; simpl in *; lia.
Qed.

Lemma sum_list_map_le {A} (f g : A → nat) (l : list A) :
  (∀ x, x ∈ l → (f x ≤ g x)%nat) →
  (sum_list (map f l) ≤ sum_list (map g l))%nat.
Proof.
  induction l as [|a l IH]; intros H; simpl; [done|].
  pose proof (H a ltac:(left)). pose proof (IH (λ x Hx, H x (list_elem_of_further _ _ _ Hx))).
  lia.
Qed.

Lemma sum_list_map_lt {A} (f g : A → nat) (l : list A) a :
  (∀ x, x ∈ l → (f x ≤ g x)%nat) → a ∈ l → (f a < g a)%nat →
  (sum_list (map f l) < sum_list (map g l))%nat.
Proof.
  induction l as [|b l IH]; intros H Hin Hlt; simpl;
    [by apply elem_of_nil in Hin|].
  pose proof (H b ltac:(left)).
  pose proof (sum_list_map_le f g l (λ x Hx, H x (list_elem_of_further _ _ _ Hx))).
  apply elem_of_cons in Hin as [->|Hin]; [lia|].
  pose proof (IH (λ x Hx, H x (list_elem_of_further _ _ _ Hx)) Hin Hlt). lia.
Qed.

Lemma sum_list_map_remove {A} `{EqDecision A} (f : A → nat) (l : list A) a :
  (sum_list (map f (remove l a)) ≤ sum_list (map f l))%nat.
Proof.
  induction l as [|b l IH]; simpl; [done|].
  destruct (decide (b = a)); simpl; lia.
Qed.

(** Replacing the content of one paragraph. *)
Lemma paragraphLinks_update st p cs q :
  (p < length (paragraphs st))%nat →
  paragraphLinks
    (set_paragraphs (λ ps, <[p := {| p_content := cs |}]> ps) st) q
  = if decide (q = p) then countLinks cs else paragraphLinks st q.
Proof.
  intros Hp. unfold paragraphLinks. simpl. destruct (decide (q = p)) as [->|Hn].
  - by rewrite list_lookup_insert_eq.
  - by rewrite list_lookup_insert_ne.
Qed.

Lemma linkRuns_update_le st p po cs :
  paragraphs st !! p = Some po →
  (countLinks cs ≤ countLinks (p_content po))%nat →
  (linkRuns (set_paragraphs (λ ps, <[p := {| p_content := cs |}]> ps) st)
   ≤ linkRuns st)%nat.
Proof.
  intros Hp Hle. unfold linkRuns. simpl. apply sum_list_map_le. intros q _.
  rewrite paragraphLinks_update by (by eapply lookup_lt_Some).
  destruct (decide (q = p)) as [->|]; [|done].
  unfold paragraphLinks. by rewrite Hp.
Qed.

Lemma linkRuns_update_ge st p po cs :
  paragraphs st !! p = Some po →
  (countLinks (p_content po) ≤ countLinks cs)%nat →
  (linkRuns st
   ≤ linkRuns (set_paragraphs (λ ps, <[p := {| p_content := cs |}]> ps) st))%nat.
Proof.
  intros Hp Hle. unfold linkRuns. simpl. apply sum_list_map_le. intros q _.
  rewrite paragraphLinks_update by (by eapply lookup_lt_Some).
  destruct (decide (q = p)) as [->|]; [|done].
  unfold paragraphLinks. by rewrite Hp.
Qed.

Lemma linkRuns_update_lt st p po cs :
  paragraphs st !! p = Some po → p ∈ content st →
  (countLinks cs < countLinks (p_content po))%nat →
  (linkRuns (set_paragraphs (λ ps, <[p := {| p_content := cs |}]> ps) st)
   < linkRuns st)%nat.
Proof.
  intros Hp Hin Hlt. unfold linkRuns. simpl.
  apply (sum_list_map_lt _ _ _ p); [|done|].
  - intros q _. rewrite paragraphLinks_update by (by eapply lookup_lt_Some).
    destruct (decide (q = p)) as [->|]; [|done].
    unfold paragraphLinks. rewrite Hp. lia.
  - rewrite paragraphLinks_update by (by eapply lookup_lt_Some).
    rewrite decide_True by done. unfold paragraphLinks. by rewrite Hp.
Qed.

Lemma linkRuns_update_gt st p po cs :
  paragraphs st !! p = Some po → p ∈ content st →
  (countLinks (p_content po) < countLinks cs)%nat →
  (linkRuns st
   < linkRuns (set_paragraphs (λ ps, <[p := {| p_content := cs |}]> ps) st))%nat.
Proof.
  intros Hp Hin Hlt. unfold linkRuns. simpl.
  apply (sum_list_map_lt _ _ _ p); [|done|].
  - intros q _. rewrite paragraphLinks_update by (by eapply lookup_lt_Some).
    destruct (decide (q = p)) as [->|]; [|done].
    unfold paragraphLinks. rewrite Hp. lia.
  - rewrite paragraphLinks_update by (by eapply lookup_lt_Some).
    rewrite decide_True by done. unfold paragraphLinks. by rewrite Hp.
Qed.

(** The three ways the number of link runs can move. *)
Definition sameLinks (st st' : Model) : Prop := linkRuns st' = linkRuns st.
Definition fewerLinks (st st' : Model) : Prop :=
  (linkRuns st' ≤ linkRuns st)%nat.
Definition moreLinks (st st' : Model) : Prop :=
  (linkRuns st ≤ linkRuns st')%nat.

#[global] Instance sameLinks_preorder : PreOrder sameLinks.
Proof.
  split; [intros st; reflexivity|].
  intros a b c Hab Hbc. unfold sameLinks in *. congruence.
Qed.

#[global] Instance fewerLinks_preorder : PreOrder fewerLinks.
Proof.
  split; [intros st; unfold fewerLinks; lia|].
  intros a b c Hab Hbc. unfold fewerLinks in *. lia.
Qed.

#[global] Instance moreLinks_preorder : PreOrder moreLinks.
Proof.
  split; [intros st; unfold moreLinks; lia|].
  intros a b c Hab Hbc. unfold moreLinks in *. lia.
Qed.

Lemma rel_sub (R R' : relation Model) {A} (m : M A) :
  (∀ st st', R st st' → R' st st') → rel R m → rel R' m.
Proof. intros H Hm st. apply H, Hm. Qed.

Lemma sameLinks_fewer st st' : sameLinks st st' → fewerLinks st st'.
Proof. unfold sameLinks, fewerLinks. lia. Qed.

Lemma sameLinks_more st st' : sameLinks st st' → moreLinks st st'.
Proof. unfold sameLinks, moreLinks. lia. Qed.

#[export] Hint Extern 5 (rel sameLinks _) =>
  apply (rel_eq_sub sameLinks); solve [eauto with rel] : rel.
#[export] Hint Extern 6 (rel fewerLinks _) =>
  apply (rel_sub sameLinks fewerLinks);
  [exact sameLinks_fewer|solve [eauto with rel]] : rel.
#[export] Hint Extern 6 (rel moreLinks _) =>
  apply (rel_sub sameLinks moreLinks);
  [exact sameLinks_more|solve [eauto with rel]] : rel.

Lemma sameLinks_set_texts st f : sameLinks st (set_texts f st).
Proof. reflexivity. Qed.

Lemma sameLinks_set_links st f : sameLinks st (set_links f st).
Proof. reflexivity. Qed.

Lemma sameLinks_set_cursor st c : sameLinks st (set_cursor c st).
Proof. reflexivity. Qed.

Lemma sameLinks_set_selections st a b : sameLinks st (set_selections a b st).
Proof. reflexivity. Qed.

#[export] Hint Resolve sameLinks_set_texts sameLinks_set_links
  sameLinks_set_cursor sameLinks_set_selections : rel.

Lemma sameLinks_Text_new parent v : rel sameLinks (Text_new parent v).
Proof. unfold Text_new. rel_auto. Qed.
#[export] Hint Resolve sameLinks_Text_new : rel.

Lemma sameLinks_Text_setContent t v : rel sameLinks (Text_setContent t v).
Proof. unfold Text_setContent. rel_auto. Qed.
#[export] Hint Resolve sameLinks_Text_setContent : rel.

Lemma sameLinks_Link_new parent s target :
  rel sameLinks (Link_new parent s target).
Proof. unfold Link_new. rel_auto. Qed.
#[export] Hint Resolve sameLinks_Link_new : rel.

Lemma sameLinks_moveCursor t o : rel sameLinks (moveCursor t o).
Proof. unfold moveCursor. rel_auto. Qed.
#[export] Hint Resolve sameLinks_moveCursor : rel.

Lemma fewerLinks_Model_removeContent p : rel fewerLinks (Model_removeContent p).
Proof.
  intros st. unfold Model_removeContent, bind, get.
  destruct (decide (p ∈ content st)); simpl; [|reflexivity].
  unfold fewerLinks, linkRuns. simpl. apply sum_list_map_remove.
Qed.
#[export] Hint Resolve fewerLinks_Model_removeContent : rel.

Lemma fewerLinks_Paragraph_removeContent p c :
  rel fewerLinks (Paragraph_removeContent p c).
Proof.
  intros st. unfold Paragraph_removeContent, Paragraph_content, bind,
    getParagraph.
  destruct (paragraphs st !! p) as [po|] eqn:E; simpl; [|reflexivity].
  destruct (decide (length (p_content po) = 1%nat)).
  { apply fewerLinks_Model_removeContent. }
  destruct (decide (c ∈ p_content po)); simpl; [|reflexivity].
  eapply linkRuns_update_le; [done|]. apply countLinks_remove_le.
Qed.
#[export] Hint Resolve fewerLinks_Paragraph_removeContent : rel.

Lemma moreLinks_Paragraph_addContentBefore p c ref :
  rel moreLinks (Paragraph_addContentBefore p c ref).
Proof.
  intros st. unfold Paragraph_addContentBefore, Paragraph_content, bind,
    getParagraph.
  destruct (paragraphs st !! p) as [po|] eqn:E; simpl; [|reflexivity].
  destruct (insertBefore (p_content po) c ref) as [cs'|] eqn:Ei; simpl;
    [|reflexivity].
  eapply linkRuns_update_ge; [done|].
  rewrite (countLinks_insertBefore _ _ _ _ Ei). lia.
Qed.
#[export] Hint Resolve moreLinks_Paragraph_addContentBefore : rel.

Lemma fewerLinks_Text_remove t : rel fewerLinks (Text_remove t).
Proof. rel_go. Qed.
#[export] Hint Resolve fewerLinks_Text_remove : rel.

Lemma fewerLinks_mergeLoop fuel p cursor i cam :
  rel fewerLinks (mergeLoop fuel p cursor i cam).
Proof.
  revert i cam. induction fuel as [|fuel IH]; intros i cam; simpl.
  - rel_auto.
  - apply rel_bind; [apply _|rel_auto|]. intros cs.
    destruct (i <? length cs)%nat; [|rel_auto].
    destruct (cs !! (i - 1)%nat) as [[previous|]|]; auto.
    destruct (cs !! i) as [[current|]|]; auto.
    rel_go.
Qed.
#[export] Hint Resolve fewerLinks_mergeLoop : rel.

Lemma fewerLinks_Paragraph_mergeConsecutiveTexts p cursor :
  rel fewerLinks (Paragraph_mergeConsecutiveTexts p cursor).
Proof. rel_go. Qed.

(** Seeding an empty document adds a paragraph without a link. *)
Lemma sameLinks_seed :
  rel sameLinks (
    newParagraph <- Paragraph_new;;
    newText <- Text_new (InParagraph newParagraph) [];;
    Paragraph_addContent newParagraph (CText newText);;;
    Model_addParagraph newParagraph;;;
    Model_moveCursor (Some {| pt_text := newText; pt_offset := 0 |})).
Proof.
  intros st. mrun. rewrite lookup_app_r, Nat.sub_diag by lia. mrun.
  unfold sameLinks, linkRuns. simpl. rewrite map_app, (sum_list_with_app id). simpl.
  unfold paragraphLinks at 2. simpl.
  rewrite list_lookup_insert_eq by (rewrite length_app; simpl; lia). simpl.
  rewrite !Nat.add_0_r. f_equal. apply map_ext. intros q.
  unfold paragraphLinks. simpl.
  destruct (lt_eq_lt_dec q (length (paragraphs st))) as [[Hlt| ->]|Hgt].
  - rewrite list_lookup_insert_ne by lia. by rewrite lookup_app_l.
  - rewrite list_lookup_insert_eq by (rewrite length_app; simpl; lia).
    by rewrite (lookup_ge_None_2 (paragraphs st)).
  - rewrite list_lookup_insert_ne by lia.
    rewrite !lookup_ge_None_2; [done|lia|rewrite length_app; simpl; lia].
Qed.

Lemma sameLinks_Model_getSelection dom : rel sameLinks (Model_getSelection dom).
Proof.
  unfold Model_getSelection. apply rel_bind; [apply _|rel_auto|]. intros st.
  apply rel_bind; [apply _| |intros; rel_auto].
  destruct (bool_decide _); simpl; [apply sameLinks_seed|rel_auto].
Qed.
#[export] Hint Resolve sameLinks_Model_getSelection : rel.

Lemma sameLinks_Model_updateSelection dom :
  rel sameLinks (Model_updateSelection dom).
Proof. unfold Model_updateSelection. rel_auto. Qed.

(** [safe P m Q]: from [P] the computation returns with [Q], or throws
    something other than the illegal-state fault. *)
Definition safe {A} (P : Model → Prop) (m : M A) (Q : A → Model → Prop)
    : Prop :=
  ∀ s, P s →
    match m s with
    | (Ok a, s') => Q a s'
    | (Err f, _) => f ≠ IllegalState
    end.

(** [afterwards P m G]: when the computation, started from [P], throws
    the illegal-state fault, it leaves a state with [G]. *)
Definition afterwards {A} (P : Model → Prop) (m : M A) (G : Model → Prop)
    : Prop :=
  ∀ s, P s → fst (m s) = Err IllegalState → G (snd (m s)).

Lemma safe_bind {A B} (P : Model → Prop) (m : M A) (Q : A → Model → Prop)
    (k : A → M B) (R : B → Model → Prop) :
  safe P m Q → (∀ a, safe (Q a) (k a) R) → safe P (bind m k) R.
Proof.
  intros Hm Hk s HP. specialize (Hm s HP). unfold bind.
  destruct (m s) as [[a|f] s']; [by apply Hk|done].
Qed.

Lemma safe_ret {A} (P : Model → Prop) (a : A) (Q : A → Model → Prop) :
  (∀ s, P s → Q a s) → safe P (ret a) Q.
Proof. intros H s HP. by apply H. Qed.

Lemma safe_pre {A} (P P' : Model → Prop) (m : M A) Q :
  safe P m Q → (∀ s, P' s → P s) → safe P' m Q.
Proof. intros H HP s HP'. apply H. by apply HP. Qed.

Lemma safe_readonly {A} (P : Model → Prop) (m : M A)
    (Q : A → Model → Prop) :
  readonly m → nothrow IllegalState m →
  (∀ s a, P s → fst (m s) = Ok a → Q a s) →
  safe P m Q.
Proof.
  intros Hro Hnt HQ s HP. specialize (Hro s). specialize (Hnt s).
  specialize (HQ s). destruct (m s) as [[a|f] s']; simpl in *; subst.
  - by apply HQ.
  - congruence.
Qed.

Lemma safe_whenM (P : Model → Prop) b (m : M unit) :
  safe P m (λ _, P) → safe P (whenM b m) (λ _, P).
Proof. intros H. destruct b; simpl; [done|by apply safe_ret]. Qed.

Lemma afterwards_bind {A B} (P : Model → Prop) (m : M A)
    (Q : A → Model → Prop) (k : A → M B) (G : Model → Prop) :
  safe P m Q → (∀ a, afterwards (Q a) (k a) G) → afterwards P (bind m k) G.
Proof.
  intros Hm Hk s HP. specialize (Hm s HP). unfold bind.
  destruct (m s) as [[a|f] s']; simpl; [by apply Hk|congruence].
Qed.

Lemma afterwards_assume {A} (P : Model → Prop) (F : Prop) (m : M A) G :
  (∀ s, P s → F) → (F → afterwards P m G) → afterwards P m G.
Proof. intros HF H s HP. apply H; eauto. Qed.

Lemma afterwards_rel {A} (R : relation Model) (P : Model → Prop) (m : M A)
    (G : Model → Prop) :
  rel R m → (∀ s s', P s → R s s' → G s') → afterwards P m G.
Proof. intros Hm HG s HP _. eapply HG; [exact HP|apply Hm]. Qed.

Lemma insertBefore_length {A} `{EqDecision A} (arr : list A) item ref arr' :
  insertBefore arr item ref = Some arr' → length arr' = S (length arr).
Proof.
  revert arr'. induction arr as [|a arr IH]; intros arr'; simpl; [done|].
  destruct (decide (a = ref)); [by intros [= <-]|].
  destruct (insertBefore arr item ref) as [r|]; simpl; [|done].
  intros [= <-]. simpl. by rewrite (IH r).
Qed.

(** *** unlink *)

Lemma unlink_fewer_links st dom lk lo :
  linkedSelection st = Some lk →
  links st !! lk_link lk = Some lo →
  l_parent lo ∈ content st →
  afterwards (λ s, s = st) (Model_unlink dom)
    (λ s', (linkRuns s' < linkRuns st)%nat).
Proof.
  intros Hlk Hlo Hin. unfold Model_unlink.
  eapply (afterwards_bind _ _ (λ a s, s = st ∧ a = st)).
  { by intros s ->. }
  intros st0. apply (afterwards_assume _ (st0 = st)); [by intros s [_ ->]|].
  intros ->. rewrite Hlk.
  eapply (afterwards_bind _ _ (λ a s, s = st ∧ a = lo)).
  { intros s [-> _]. unfold getLink. by rewrite Hlo. }
  intros a. apply (afterwards_assume _ (a = lo)); [by intros s [_ ->]|].
  intros ->. eapply (afterwards_bind _ _ (λ _ s, s = st ∧ lo = lo)).
  { apply safe_readonly; [rel_go|apply nothrow_Link_content; discriminate|].
    by intros s c H _. }
  intros c.
  set (p := l_parent lo). set (L := lk_link lk).
  set (s1 := set_texts (λ ts, ts ++ [{| t_parent := InParagraph p;
                                        t_content := orSpace c |}]) st).
  eapply (afterwards_bind _ _ (λ x s, s = s1 ∧ lo = lo)).
  { intros s [-> _]. done. }
  intros x.
  eapply (afterwards_bind _ _ (λ _ s, lo = lo ∧ ∃ po cs',
     paragraphs st !! p = Some po
     ∧ insertBefore (p_content po) (CText x) (CLink L) = Some cs'
     ∧ s = set_paragraphs (λ ps, <[p := {| p_content := cs' |}]> ps) s1)).
  { intros s [-> _]. unfold Paragraph_addContentBefore, Paragraph_content,
      bind, getParagraph. simpl. fold p.
    destruct (paragraphs st !! p) as [po|] eqn:Ep; simpl; [|done].
    destruct (insertBefore (p_content po) (CText x) (CLink L)) as [cs'|]
      eqn:Ei; simpl; [|done].
    split; [done|]. by exists po, cs'. }
  intros u.
  eapply (afterwards_bind _ _ (λ _ s, (linkRuns s < linkRuns st)%nat)).
  { intros s (_ & po & cs' & Hp & Hi & ->).
    assert (paragraphs s1 !! p = Some po) as Hp1 by done.
    set (s2 := set_paragraphs _ s1).
    assert (paragraphs s2 !! p = Some {| p_content := cs' |}) as Hp2.
    { apply list_lookup_insert_eq. by eapply lookup_lt_Some. }
    assert (CLink L ∈ cs') as HL.
    { apply (insertBefore_elem _ _ _ _ _ Hi). right.
      by eapply insertBefore_ref. }
    assert (length cs' ≠ 1%nat) as Hlen.
    { rewrite (insertBefore_length _ _ _ _ Hi).
      apply insertBefore_ref in Hi. destruct (p_content po);
        [by apply elem_of_nil in Hi|simpl; lia]. }
    assert (links s2 !! L = Some lo) as Hlo2 by exact Hlo.
    unfold Link_remove.
    rewrite (bind_Ok _ _ _ _ _ (getLink_Ok _ _ _ Hlo2)).
    fold p. unfold Paragraph_removeContent.
    rewrite (bind_Ok _ _ _ _ _ (Paragraph_content_Ok _ _ _ Hp2)). simpl.
    rewrite decide_False, decide_True by done. simpl.
    eapply Nat.lt_le_trans.
    - apply (linkRuns_update_lt s2 p _ _ Hp2 Hin).
      simpl. pose proof (countLinks_remove_link _ _ HL). lia.
    - subst s2. eapply (linkRuns_update_le s1 p po cs' Hp1).
      rewrite (countLinks_insertBefore _ _ _ _ Hi). simpl. lia. }
  intros u'.
  apply (afterwards_rel fewerLinks).
  - apply rel_bind; [apply _|apply fewerLinks_Paragraph_mergeConsecutiveTexts|].
    intros. apply (rel_sub sameLinks fewerLinks);
      [exact sameLinks_fewer|apply sameLinks_Model_updateSelection].
  - intros s s' Hs Hle. unfold fewerLinks in Hle. lia.
Qed.

(** *** link *)

Lemma linkRuns_update_eq st p po cs :
  paragraphs st !! p = Some po →
  countLinks cs = countLinks (p_content po) →
  linkRuns (set_paragraphs (λ ps, <[p := {| p_content := cs |}]> ps) st)
  = linkRuns st.
Proof.
  intros Hp Heq.
  pose proof (linkRuns_update_le st p po cs Hp ltac:(lia)).
  pose proof (linkRuns_update_ge st p po cs Hp ltac:(lia)). lia.
Qed.

Section LinkFacts.
Variables (st : Model) (p t : nat).

(** What stays true of the run being linked while [link] rebuilds its
    paragraph: the paragraph array is as in [st], the run is among the at
    least [len] elements of paragraph [p], and [p] is its parent. *)
Definition linkFacts (len : nat) (s : Model) : Prop :=
  content s = content st
  ∧ (∃ cs, paragraphs s !! p = Some {| p_content := cs |}
       ∧ CText t ∈ cs ∧ (len ≤ length cs)%nat)
  ∧ (∃ o, texts s !! t = Some o ∧ t_parent o = InParagraph p).

Lemma linkFacts_weaken len len' s :
  (len' ≤ len)%nat → linkFacts len s → linkFacts len' s.
Proof.
  intros Hle (Hc & (cs & Hp & Hin & Hlen) & Ht). split; [done|].
  split; [|done]. exists cs. repeat split; [done|done|lia].
Qed.

Lemma linkFacts_text_push len s o :
  linkFacts len s → linkFacts len (set_texts (λ ts, ts ++ [o]) s).
Proof.
  intros (Hc & Hp & (o' & Ho' & Hpar)). split; [done|]. split; [done|].
  exists o'. split; [|done]. simpl. by apply lookup_app_l_Some.
Qed.

Lemma linkFacts_link_push len s lo :
  linkFacts len s → linkFacts len (set_links (λ ls, ls ++ [lo]) s).
Proof. by intros (Hc & Hp & Ht). Qed.

Lemma safe_Text_new_facts (F : nat → Prop) len parent v :
  safe (λ s, linkFacts len s ∧ F (linkRuns s)) (Text_new parent v)
    (λ _ s, linkFacts len s ∧ F (linkRuns s)).
Proof. intros s [H HF]. simpl. split; [by apply linkFacts_text_push|done]. Qed.

Lemma safe_Text_content_facts (P : Model → Prop) t' :
  safe P (Text_content t') (λ _, P).
Proof.
  apply safe_readonly; [rel_go|apply nothrow_Text_content; discriminate|].
  by intros s a H _.
Qed.

Lemma safe_addBefore_text (F : nat → Prop) len x :
  safe (λ s, linkFacts len s ∧ F (linkRuns s))
    (Paragraph_addContentBefore p (CText x) (CText t))
    (λ _ s, linkFacts (S len) s ∧ F (linkRuns s)).
Proof.
  intros s [(Hc & (cs & Hp & Ht & Hlen) & Hpar) HF].
  unfold Paragraph_addContentBefore.
  rewrite (bind_Ok _ _ _ _ _ (Paragraph_content_Ok _ _ _ Hp)). simpl.
  destruct (insertBefore_Some cs (CText x) (CText t) Ht) as [cs' Hi].
  rewrite Hi. simpl. split.
  - split; [done|]. split; [|done]. exists cs'. split; [|split].
    + apply list_lookup_insert_eq. by eapply lookup_lt_Some.
    + apply (insertBefore_elem _ _ _ _ _ Hi). by right.
    + rewrite (insertBefore_length _ _ _ _ Hi). lia.
  - rewrite (linkRuns_update_eq s p _ cs' Hp); [done|].
    by rewrite (countLinks_insertBefore _ _ _ _ Hi).
Qed.

Lemma safe_addBefore_link len l n :
  p ∈ content st →
  safe (λ s, linkFacts len s ∧ linkRuns s = n)
    (Paragraph_addContentBefore p (CLink l) (CText t))
    (λ _ s, linkFacts (S len) s ∧ (n < linkRuns s)%nat).
Proof.
  intros Hin s [(Hc & (cs & Hp & Ht & Hlen) & Hpar) <-].
  unfold Paragraph_addContentBefore.
  rewrite (bind_Ok _ _ _ _ _ (Paragraph_content_Ok _ _ _ Hp)). simpl.
  destruct (insertBefore_Some cs (CLink l) (CText t) Ht) as [cs' Hi].
  rewrite Hi. simpl. split.
  - split; [done|]. split; [|done]. exists cs'. split; [|split].
    + apply list_lookup_insert_eq. by eapply lookup_lt_Some.
    + apply (insertBefore_elem _ _ _ _ _ Hi). by right.
    + rewrite (insertBefore_length _ _ _ _ Hi). lia.
  - apply (linkRuns_update_gt s p _ cs' Hp); [by rewrite Hc|].
    rewrite (countLinks_insertBefore _ _ _ _ Hi). simpl. lia.
Qed.

Lemma safe_text_block (F : nat → Prop) len b (c0 : jsstring → jsstring) :
  safe (λ s, linkFacts len s ∧ F (linkRuns s))
    (whenM b (
       c <- Text_content t;;
       x <- Text_new (InParagraph p) (c0 c);;
       Paragraph_addContentBefore p (CText x) (CText t)))
    (λ _ s, linkFacts len s ∧ F (linkRuns s)).
Proof.
  apply safe_whenM.
  eapply safe_bind; [apply safe_Text_content_facts|]. intros c.
  eapply safe_bind; [apply safe_Text_new_facts|]. intros x.
  intros s H. pose proof (safe_addBefore_text F len x s H) as Hs.
  destruct (Paragraph_addContentBefore p (CText x) (CText t) s)
    as [[[]|f] s']; [|done].
  destruct Hs as [Hf HF]. split; [|done].
  eapply linkFacts_weaken; [|exact Hf]. lia.
Qed.

(** Removing the linked run from a paragraph with other content leaves
    the number of link runs as it is. *)
Lemma safe_Text_remove_facts (F : nat → Prop) :
  safe (λ s, linkFacts 2 s ∧ F (linkRuns s)) (Text_remove t)
    (λ _ s, F (linkRuns s)).
Proof.
  unfold Text_remove.
  eapply safe_bind.
  { apply safe_readonly with (Q := λ _ s, linkFacts 2 s ∧ F (linkRuns s));
      [rel_go| |by intros s a H _].
    unfold Text_getPrecedingText, Link_getPrecedingText.
    nothrow_auto; try (apply nothrow_Paragraph_getPrecedingText; discriminate).
    all: apply nothrow_getText || apply nothrow_getLink; discriminate. }
  intros previous s [(Hc & (cs & Hp & Ht & Hlen) & (o & Ho & Hpar)) HF].
  rewrite (bind_Ok _ _ _ _ _ (getText_Ok _ _ _ Ho)). rewrite Hpar.
  set (s' := set_paragraphs
    (λ ps, <[p := {| p_content := remove cs (CText t) |}]> ps) s).
  assert (Paragraph_removeContent p (CText t) s = (Ok tt, s')) as Hrm.
  { unfold Paragraph_removeContent.
    rewrite (bind_Ok _ _ _ _ _ (Paragraph_content_Ok _ _ _ Hp)). simpl.
    rewrite decide_False by lia. by rewrite decide_True. }
  rewrite (bind_Ok _ _ _ _ _ Hrm).
  assert (F (linkRuns s')) as HF'.
  { subst s'. rewrite (linkRuns_update_eq s p _ _ Hp); [done|].
    apply countLinks_remove_text. }
  destruct previous as [pr|]; [|done].
  pose proof (readonly_Text_length pr s') as Hro.
  pose proof (nothrow_Text_length IllegalState ltac:(discriminate) pr s')
    as Hnt.
  unfold bind. destruct (Text_length pr s') as [[len|f] s''];
    simpl in *; subst; [done|congruence].
Qed.
End LinkFacts.

Lemma link_more_links st target dom ls o p po :
  linkableSelection st = Some ls →
  texts st !! ls_text ls = Some o →
  t_parent o = InParagraph p →
  paragraphs st !! p = Some po →
  CText (ls_text ls) ∈ p_content po →
  p ∈ content st →
  afterwards (λ s, s = st) (Model_link target dom)
    (λ s', (linkRuns st < linkRuns s')%nat).
Proof.
  intros Hls Ho Hpar Hp Ht Hin. unfold Model_link.
  eapply (afterwards_bind _ _ (λ a s, s = st ∧ a = st)).
  { by intros s ->. }
  intros st0. apply (afterwards_assume _ (st0 = st)); [by intros s [_ ->]|].
  intros ->. rewrite Hls. set (t := ls_text ls) in *.
  eapply (afterwards_bind _ _ (λ a s, s = st ∧ a = p)).
  { apply safe_readonly;
      [rel_go|apply nothrow_Text_containingParagraph; discriminate|].
    intros s a [-> _]. unfold Text_containingParagraph.
    rewrite (bind_Ok _ _ _ _ _ (getText_Ok _ _ _ Ho)). rewrite Hpar.
    simpl. by intros [= <-]. }
  intros a. apply (afterwards_assume _ (a = p)); [by intros s [_ ->]|].
  intros ->.
  eapply (afterwards_bind _ _ (λ _ s, s = st)).
  { apply safe_readonly; [rel_go|apply nothrow_Text_content; discriminate|].
    by intros s c [-> _] _. }
  intros c.
  eapply (afterwards_bind _ _
    (λ _ s, linkFacts st p t 1 s ∧ linkRuns s = linkRuns st)).
  { intros s ->. simpl. split; [|done].
    apply linkFacts_link_push, linkFacts_text_push.
    split; [done|]. split; [|by exists o].
    exists (p_content po). split; [by destruct po|]. split; [done|].
    destruct (p_content po); [by apply elem_of_nil in Ht|simpl; lia]. }
  intros selectionAsLink.
  eapply afterwards_bind.
  { apply (safe_text_block st p t (λ n, n = linkRuns st) 1 _
             (λ c, substring c 0 (ls_start ls))). }
  intros u.
  eapply afterwards_bind; [by apply safe_addBefore_link|].
  intros u1.
  eapply (afterwards_bind _ _
    (λ _ s, linkFacts st p t 2 s ∧ (linkRuns st < linkRuns s)%nat)).
  { apply safe_readonly; [rel_go|apply nothrow_Text_length; discriminate|].
    by intros s len H _. }
  intros len.
  eapply afterwards_bind.
  { apply (safe_text_block st p t (λ n, (linkRuns st < n)%nat) 2 _
             (λ c, substring c (ls_end ls) len)). }
  intros u2.
  eapply afterwards_bind.
  { apply (safe_Text_remove_facts st p t (λ n, (linkRuns st < n)%nat)). }
  intros pt.
  eapply (afterwards_bind _ _ (λ _ s, (linkRuns st < linkRuns s)%nat)).
  { apply safe_readonly; [rel_go| |by intros s lt H _].
    unfold Link_text. nothrow_auto. }
  intros lt. apply (afterwards_rel sameLinks).
  - apply rel_bind; [apply _| |intros; apply sameLinks_Model_updateSelection].
    unfold Model_moveCursor. rel_auto.
  - intros s s' Hs Heq. unfold sameLinks in Heq. lia.
Qed.

(** A selection is current when it was computed from the document as it
    is: the linkable run is a plain run of a paragraph of the document,
    the linked link belongs to a paragraph of the document. *)
Definition linkableCurrent (st : Model) (ls : LinkableSelection) : Prop :=
  ∃ o p po, texts st !! ls_text ls = Some o
    ∧ t_parent o = InParagraph p
    ∧ paragraphs st !! p = Some po
    ∧ CText (ls_text ls) ∈ p_content po
    ∧ p ∈ content st.

Definition linkedCurrent (st : Model) (lk : LinkedSelection) : Prop :=
  ∃ lo, links st !! lk_link lk = Some lo ∧ l_parent lo ∈ content st.


Definition helloSelected : Model :=
  snd (Model_updateSelection
         {| ds_start := domPoint [0; 0]%nat 6;
            ds_end := domPoint [0; 0]%nat 11 |}
         (documentOf [[mdText "hello world"]])).



(** ** Split and merge *)

(** Split paragraph [p] at a Point the way [insertNewParagraph] does, into
    a new paragraph put before it, and merge the two at once. *)
Definition splitThenCombine (p t : nat) (offset : Z) : M nat :=
  prefix <- Paragraph_new;;
  Model_insertParagraphBefore prefix p;;;
  Paragraph_splitTo p prefix t offset;;;
  Paragraph_combineWith prefix p;;;
  ret prefix.

(** The arena only gains objects and the paragraph array stays. *)
Record ext (s s' : Model) : Prop := {
  ext_texts : texts s `prefix_of` texts s';
  ext_links : links s `prefix_of` links s';
  ext_content : content s' = content s
}.

#[global] Instance ext_preorder : PreOrder ext.
Proof.
  split.
  - intros s. by split.
  - intros a b c [T1 L1 C1] [T2 L2 C2]. split; [by etrans|by etrans|].
    congruence.
Qed.

(** The text of a content element. *)
Definition reads (s : Model) (c : Content) (str : jsstring) : Prop :=
  ∃ x o, textOf s c = Some x ∧ texts s !! x = Some o ∧ t_content o = str.

Definition isText (c : Content) : bool :=
  match c with CText _ => true | CLink _ => false end.

Lemma textOf_ext s s' c x : ext s s' → textOf s c = Some x → textOf s' c = Some x.
Proof.
  intros E. destruct c as [t|l]; simpl; [done|].
  destruct (links s !! l) as [lo|] eqn:El; [|done].
  by rewrite (prefix_lookup_Some _ _ _ _ El (ext_links _ _ E)).
Qed.

Lemma reads_ext s s' c str : ext s s' → reads s c str → reads s' c str.
Proof.
  intros E (x & o & Hx & Ho & Hs). exists x, o.
  split; [by eapply textOf_ext|]. split; [|done].
  by eapply prefix_lookup_Some, ext_texts.
Qed.

Lemma reads_plainText s c str : reads s c str → Content_plainText s c = str.
Proof.
  intros (x & o & Hx & Ho & Hs). unfold Content_plainText, Text_toMarkdown.
  by rewrite Hx, Ho.
Qed.

Lemma reads_resolved s c str : reads s c str → resolved s c.
Proof. intros (x & o & Hx & Ho & _). exists x. eauto. Qed.

Lemma reads_fun s c str str' : reads s c str → reads s c str' → str = str'.
Proof.
  intros (x & o & Hx & Ho & Hs) (x' & o' & Hx' & Ho' & Hs'). congruence.
Qed.

Lemma readsAll_ext s s' cs strs :
  ext s s' → Forall2 (reads s) cs strs → Forall2 (reads s') cs strs.
Proof.
  intros E H. eapply Forall2_impl; [exact H|].
  intros c str. by apply reads_ext.
Qed.

Lemma readsAll_plainText s cs strs :
  Forall2 (reads s) cs strs →
  concat (map (Content_plainText s) cs) = concat strs.
Proof.
  induction 1 as [|c str cs strs Hc _ IH]; simpl; [done|].
  by rewrite (reads_plainText _ _ _ Hc), IH.
Qed.

(** Changing the text of one run leaves the others as they read. *)
Lemma reads_update_other s c str t0 o0 :
  reads s c str → textOf s c ≠ Some t0 →
  reads (set_texts (λ ts, <[t0 := o0]> ts) s) c str.
Proof.
  intros (x & o & Hx & Ho & Hs) Hne. exists x, o. split; [done|].
  split; [|done]. simpl. rewrite list_lookup_insert_ne; [done|congruence].
Qed.

Lemma reads_update_this s c t0 o0 o :
  textOf s c = Some t0 → texts s !! t0 = Some o →
  reads (set_texts (λ ts, <[t0 := o0]> ts) s) c (t_content o0).
Proof.
  intros Hx Ho. exists t0, o0. split; [done|]. split; [|done]. simpl.
  apply list_lookup_insert_eq. by eapply lookup_lt_Some.
Qed.

(** One element copied into paragraph [q]. *)
Lemma copy_run s q c str :
  reads s c str → str ≠ [] →
  ∃ c' s1, Content_copyToParent c q s = (Ok c', s1)
    ∧ ext s s1 ∧ paragraphs s1 = paragraphs s
    ∧ reads s1 c' str ∧ isText c' = isText c
    ∧ textOf s1 c' = Some (length (texts s)).
Proof.
  intros (x & o & Hx & Ho & Hs) Hne. destruct c as [t|l]; simpl in Hx.
  - injection Hx as ->. eexists _, _. split.
    { mrun. reflexivity. }
    split; [split; simpl; [by apply prefix_app_r|done|done]|].
    split; [done|]. split; [|done].
    eexists _, _. split; [reflexivity|]. simpl.
    split; [by rewrite lookup_app_r, Nat.sub_diag by lia|].
    simpl. rewrite ?Hs. by apply orSpace_id.
  - destruct (links s !! l) as [lo|] eqn:El; [|done]. simpl in Hx.
    injection Hx as <-. eexists _, _. split.
    { mrun. reflexivity. }
    split; [split; simpl; [by apply prefix_app_r|by apply prefix_app_r|done]|].
    split; [done|]. split; [|split; [done|]].
    + eexists _, _. split; [|split].
      * simpl. by rewrite lookup_app_r, Nat.sub_diag by lia.
      * simpl. by rewrite lookup_app_r, Nat.sub_diag by lia.
      * simpl. rewrite ?Hs. by apply orSpace_id.
    + simpl. by rewrite lookup_app_r, Nat.sub_diag by lia.
Qed.

Lemma addContent_run s q qc c :
  paragraphs s !! q = Some {| p_content := qc |} →
  Paragraph_addContent q c s
  = (Ok tt, set_paragraphs (λ ps, <[q := {| p_content := qc ++ [c] |}]> ps) s).
Proof.
  intros Hq. unfold Paragraph_addContent.
  by rewrite (bind_Ok _ _ _ _ _ (Paragraph_content_Ok _ _ _ Hq)).
Qed.

Lemma ext_set_paragraphs s f : ext s (set_paragraphs f s).
Proof. by split. Qed.

(** [copied q s qc cs strs s' cs']: from [s], where paragraph [q] held
    [qc], the elements [cs], which read [strs], have been copied to the
    end of [q] as [cs'], giving [s']. *)
Definition copied (q : nat) (s : Model) (qc cs : list Content)
    (strs : list jsstring) (s' : Model) (cs' : list Content) : Prop :=
  ext s s'
  ∧ paragraphs s' = <[q := {| p_content := qc ++ cs' |}]> (paragraphs s)
  ∧ Forall2 (reads s') cs' strs
  ∧ map isText cs' = map isText cs
  ∧ Forall (λ c', ∃ x, textOf s' c' = Some x ∧ (length (texts s) ≤ x)%nat) cs'
  ∧ NoDup (map (textOf s') cs').

Lemma copied_nil q s qc :
  paragraphs s !! q = Some {| p_content := qc |} → copied q s qc [] [] s [].
Proof.
  intros Hq. split; [done|]. split.
  - rewrite app_nil_r. symmetry. by apply list_insert_id.
  - repeat split; constructor.
Qed.

Lemma copied_cons q s qc c str cs strs c' s1 s' cs' :
  ext s s1 → paragraphs s1 = paragraphs s →
  reads s1 c' str → isText c' = isText c →
  textOf s1 c' = Some (length (texts s)) →
  copied q (set_paragraphs
              (λ ps, <[q := {| p_content := qc ++ [c'] |}]> ps) s1)
    (qc ++ [c']) cs strs s' cs' →
  copied q s qc (c :: cs) (str :: strs) s' (c' :: cs').
Proof.
  intros E1 Hp1 Hr Hk Hx (E2 & Hp2 & Hrs & Hks & Hfresh & Hnd).
  assert (ext s1 s') as E1'.
  { etrans; [apply (ext_set_paragraphs s1)|exact E2]. }
  assert (textOf s' c' = Some (length (texts s))) as Hx'
    by (by eapply textOf_ext).
  split; [by etrans|]. split.
  { rewrite Hp2. simpl. rewrite Hp1, list_insert_insert_eq.
    by rewrite <-app_assoc. }
  split; [constructor; [by eapply reads_ext|done]|].
  split; [simpl; by rewrite Hk, Hks|].
  pose proof (prefix_length _ _ (ext_texts _ _ E1)) as Hlen.
  split.
  - constructor; [by exists (length (texts s))|].
    eapply Forall_impl; [exact Hfresh|]. simpl.
    intros c0 (x & Hx0 & Hle). exists x. split; [done|]. lia.
  - simpl. constructor; [|done]. rewrite Hx'. intros Hin.
    apply list_elem_of_fmap in Hin as (c0 & Hc0 & Hin).
    rewrite Forall_forall in Hfresh.
    destruct (Hfresh _ Hin) as (x & Hx0 & Hle). simpl in Hle.
    assert (x = length (texts s)) by congruence.
    destruct (reads_ext _ _ _ _ (reflexivity _) Hr) as (x1 & o1 & Hx1 & Ho1 & _).
    apply lookup_lt_Some in Ho1. rewrite Hx in Hx1. injection Hx1 as <-.
    lia.
Qed.

Lemma combineLoop_copies q lastOfThis cs : ∀ s qc strs,
  paragraphs s !! q = Some {| p_content := qc |} →
  Forall2 (reads s) cs strs → Forall (λ str, str ≠ []) strs →
  ∃ s' cs', combineLoop q lastOfThis false cs s = (Ok tt, s')
    ∧ copied q s qc cs strs s' cs'.
Proof.
  induction cs as [|c cs IH]; intros s qc strs Hq Hcs Hne.
  { apply Forall2_nil_inv_l in Hcs as ->. exists s, []. split; [done|].
    by apply copied_nil. }
  apply Forall2_cons_inv_l in Hcs as (str & strs' & Hc & Hcs & ->).
  apply Forall_cons in Hne as [Hne Hnes].
  destruct (copy_run s q c str Hc Hne)
    as (c' & s1 & Hrun & E1 & Hp1 & Hr & Hk & Hx).
  set (s2 := set_paragraphs
               (λ ps, <[q := {| p_content := qc ++ [c'] |}]> ps) s1).
  assert (paragraphs s2 !! q = Some {| p_content := qc ++ [c'] |}) as Hq2.
  { simpl. rewrite Hp1. apply list_lookup_insert_eq. by eapply lookup_lt_Some. }
  destruct (IH s2 (qc ++ [c']) strs' Hq2) as (s' & cs' & Hloop & Hcop);
    [|done|].
  { eapply readsAll_ext; [|exact Hcs]. etrans; [exact E1|].
    apply ext_set_paragraphs. }
  exists s', (c' :: cs'). split; [|by eapply copied_cons].
  simpl. rewrite (bind_Ok _ _ s tt s2); [exact Hloop|].
  rewrite (bind_Ok _ _ _ _ _ Hrun). apply addContent_run. by rewrite Hp1.
Qed.

Lemma splitLoop_copies N fromText fromOffset rest : ∀ pre s nc strs acc,
  paragraphs s !! N = Some {| p_content := nc |} →
  Forall2 (reads s) pre strs → Forall (λ str, str ≠ []) strs →
  Forall (λ c, textOf s c ≠ Some fromText) pre →
  ∃ s' cs',
    splitLoop N fromText fromOffset (pre ++ rest) acc s
    = splitLoop N fromText fromOffset rest (acc ++ pre) s'
    ∧ copied N s nc pre strs s' cs'.
Proof.
  induction pre as [|c pre IH]; intros s nc strs acc Hq Hcs Hne Hnt.
  { apply Forall2_nil_inv_l in Hcs as ->. exists s, []. rewrite app_nil_r.
    split; [done|]. by apply copied_nil. }
  apply Forall2_cons_inv_l in Hcs as (str & strs' & Hc & Hcs & ->).
  apply Forall_cons in Hne as [Hne Hnes].
  apply Forall_cons in Hnt as [Hct Hnt].
  destruct (copy_run s N c str Hc Hne)
    as (c' & s1 & Hrun & E1 & Hp1 & Hr & Hk & Hx).
  set (s2 := set_paragraphs
               (λ ps, <[N := {| p_content := nc ++ [c'] |}]> ps) s1).
  assert (ext s s2) as E2.
  { etrans; [exact E1|]. apply ext_set_paragraphs. }
  assert (paragraphs s2 !! N = Some {| p_content := nc ++ [c'] |}) as Hq2.
  { simpl. rewrite Hp1. apply list_lookup_insert_eq. by eapply lookup_lt_Some. }
  destruct (IH s2 (nc ++ [c']) strs' (acc ++ [c]) Hq2)
    as (s' & cs' & Hloop & Hcop); [by eapply readsAll_ext|done| |].
  { rewrite Forall_forall in Hnt. apply Forall_forall. intros c0 Hc0 Heq.
    apply (Hnt c0 Hc0).
    apply list_elem_of_lookup in Hc0 as [i Hi].
    destruct (Forall2_lookup_l _ _ _ _ _ Hcs Hi)
      as (str0 & _ & (x & o & Hx0 & _)).
    rewrite (textOf_ext _ _ _ _ E2 Hx0) in Heq. congruence. }
  exists s', (c' :: cs'). split;
    [|by apply (copied_cons _ _ _ _ _ _ _ _ s1 _ _ E1 Hp1 Hr Hk Hx)].
  simpl. destruct Hc as (x & o & Hxc & Ho & Hs).
  rewrite (bind_Ok _ _ _ _ _ (Content_text_Ok _ _ _ Hxc)).
  rewrite decide_False by congruence.
  rewrite (bind_Ok _ _ _ _ _ Hrun).
  rewrite (bind_Ok _ _ s1 tt s2) by (apply addContent_run; by rewrite Hp1).
  by rewrite <-app_assoc in Hloop.
Qed.

Lemma previousFrom_insertBefore {A} `{EqDecision A} (arr : list A) item ref :
  ∀ arr' prev, insertBefore arr item ref = Some arr' → item ≠ ref →
    previousFrom prev arr' id ref = Some item.
Proof.
  induction arr as [|a arr IH]; intros arr' prev; simpl; [done|].
  destruct (decide (a = ref)) as [->|Hne].
  - intros [= <-] Hir. simpl. rewrite decide_False by done.
    by rewrite decide_True.
  - destruct (insertBefore arr item ref) as [arr''|] eqn:E; [|done].
    simpl. intros [= <-] Hir. simpl. rewrite decide_False by done. eauto.
Qed.

Lemma previousOf_insertBefore {A} `{EqDecision A} (arr : list A) item ref arr' :
  insertBefore arr item ref = Some arr' → item ≠ ref →
  previousOf arr' ref = Some item.
Proof. apply previousFrom_insertBefore. Qed.

(** The parent pointer of a content element names paragraph [p]. *)
Definition childOf (s : Model) (p : nat) (c : Content) : Prop :=
  match c with
  | CText x => ∃ o, texts s !! x = Some o ∧ t_parent o = InParagraph p
  | CLink l => ∃ lo, links s !! l = Some lo ∧ l_parent lo = p
  end.

Lemma childOf_set_paragraphs s f p c :
  childOf (set_paragraphs f s) p c ↔ childOf s p c.
Proof. by destruct c. Qed.

(** Removing the first element of paragraph [p], which has more content
    and comes directly after paragraph [N]. *)
Lemma Content_remove_head s p N c0 rest nc lc x ox :
  paragraphs s !! p = Some {| p_content := c0 :: rest |} → rest ≠ [] →
  childOf s p c0 →
  previousOf (content s) p = Some N →
  paragraphs s !! N = Some {| p_content := nc |} →
  last nc = Some lc → textOf s lc = Some x → texts s !! x = Some ox →
  Content_remove c0 s
  = (Ok tt, set_paragraphs (λ ps, <[p := {| p_content := rest |}]> ps) s).
Proof.
  intros Hp Hrest Hc Hprev HN Hlast Hx Hox.
  assert (length (c0 :: rest) ≠ 1%nat) as Hlen by (by destruct rest).
  destruct c0 as [t|l]; simpl in Hc.
  - destruct Hc as (o & Ho & Hpar). unfold Content_remove, Text_remove.
    assert (Text_getPrecedingText t s = (Ok (Some x), s)) as Hpt.
    { unfold Text_getPrecedingText.
      rewrite (bind_Ok _ _ _ _ _ (getText_Ok _ _ _ Ho)), Hpar.
      unfold Paragraph_getPrecedingText.
      rewrite (bind_Ok _ _ _ _ _ (Paragraph_content_Ok _ _ _ Hp)).
      unfold bind at 1, get. simpl. unfold previousOfMapped. simpl.
      rewrite decide_True by done.
      unfold Model_getPrecedingText, bind at 1, get. rewrite Hprev.
      unfold Paragraph_lastText, Paragraph_lastContent.
      rewrite (bind_Ok _ _ s x s); [done|].
      rewrite (bind_Ok _ _ s lc s); [by apply Content_text_Ok|].
      rewrite (bind_Ok _ _ _ _ _ (Paragraph_content_Ok _ _ _ HN)).
      simpl. by rewrite Hlast. }
    rewrite (bind_Ok _ _ s
      (Some {| pt_text := x; pt_offset := jslength (t_content ox) |})
      (set_paragraphs (λ ps, <[p := {| p_content := rest |}]> ps) s));
      [done|].
    rewrite (bind_Ok _ _ _ _ _ Hpt).
    rewrite (bind_Ok _ _ _ _ _ (getText_Ok _ _ _ Ho)), Hpar.
    unfold Paragraph_removeContent.
    rewrite (bind_Ok _ _ s tt
      (set_paragraphs (λ ps, <[p := {| p_content := rest |}]> ps) s)).
    + by rewrite (bind_Ok _ _ _ _ _
        (Text_length_Ok (set_paragraphs _ s) _ ox Hox)).
    + rewrite (bind_Ok _ _ _ _ _ (Paragraph_content_Ok _ _ _ Hp)). simpl.
      rewrite decide_False by (by destruct rest).
      rewrite decide_True by apply list_elem_of_here.
      rewrite decide_True by done. unfold setParagraphContent. done.
  - destruct Hc as (lo & Hlo & Hpar). unfold Content_remove, Link_remove.
    rewrite (bind_Ok _ _ _ _ _ (getLink_Ok _ _ _ Hlo)), Hpar.
    unfold Paragraph_removeContent.
    rewrite (bind_Ok _ _ _ _ _ (Paragraph_content_Ok _ _ _ Hp)). simpl.
    rewrite decide_False by (by destruct rest).
    rewrite decide_True by apply list_elem_of_here.
    rewrite decide_True by done. unfold setParagraphContent. done.
Qed.

Lemma set_paragraphs_twice f g h s :
  f (g (paragraphs s)) = h (paragraphs s) →
  set_paragraphs f (set_paragraphs g s) = set_paragraphs h s.
Proof. unfold set_paragraphs. simpl. by intros ->. Qed.

Lemma set_paragraphs_id f s :
  f (paragraphs s) = paragraphs s → set_paragraphs f s = s.
Proof. destruct s. unfold set_paragraphs. simpl. by intros ->. Qed.

(** The second loop of [splitTo]: the copied elements leave paragraph
    [p] from its head. *)
Lemma remove_copied p N nc lc x ox rest : ∀ pre s,
  paragraphs s !! p = Some {| p_content := pre ++ rest |} → rest ≠ [] →
  Forall (childOf s p) pre →
  previousOf (content s) p = Some N → N ≠ p →
  paragraphs s !! N = Some {| p_content := nc |} →
  last nc = Some lc → textOf s lc = Some x → texts s !! x = Some ox →
  forOf pre Content_remove s
  = (Ok tt, set_paragraphs (λ ps, <[p := {| p_content := rest |}]> ps) s).
Proof.
  induction pre as [|c0 pre IH]; intros s Hp Hrest Hch Hprev HNp HN Hl Hx Hox.
  { simpl. rewrite set_paragraphs_id; [done|]. by apply list_insert_id. }
  apply Forall_cons in Hch as [Hc0 Hch]. simpl in Hp. cbn [forOf].
  rewrite (bind_Ok _ _ _ _ _
    (Content_remove_head s p N c0 (pre ++ rest) nc lc x ox
       Hp ltac:(by destruct pre, rest) Hc0 Hprev HN Hl Hx Hox)).
  rewrite IH; try done;
    first [ f_equal; apply set_paragraphs_twice, list_insert_insert_eq
          | simpl; apply list_lookup_insert_eq; by eapply lookup_lt_Some
          | eapply Forall_impl; [exact Hch|]; intros c1; by destruct c1
          | simpl; by rewrite list_lookup_insert_ne ].
Qed.

Lemma substring_prefix_nonempty s o :
  0 < o → s ≠ [] → substring s 0 o ≠ [].
Proof.
  intros Ho Hs. rewrite substring_prefix. destruct s as [|a s]; [done|].
  intros H. apply (f_equal length) in H. rewrite length_take in H.
  simpl in H. unfold clamp in H. simpl in H. lia.
Qed.

Lemma substring_suffix_nonempty s o :
  0 <= o < jslength s → substring s o (jslength s) ≠ [].
Proof.
  intros Ho. rewrite substring_suffix. intros H.
  apply (f_equal length) in H. rewrite length_drop in H. simpl in H.
  unfold clamp, jslength in *. lia.
Qed.

(** The text of the last element when it is a plain text run. *)
Definition tailText (s : Model) (cs : list Content) : jsstring :=
  match last cs with
  | Some (CText y) =>
      match texts s !! y with Some o => t_content o | None => [] end
  | _ => []
  end.

Lemma Paragraph_appendText_last s N nc y oy text :
  paragraphs s !! N = Some {| p_content := nc |} →
  last nc = Some (CText y) → texts s !! y = Some oy →
  Paragraph_appendText N text s
  = (Ok tt, set_texts (λ ts,
      <[y := {| t_parent := t_parent oy;
                t_content := orSpace (t_content oy ++ text) |}]> ts) s).
Proof.
  intros HN Hl Hy. unfold Paragraph_appendText.
  rewrite (bind_Ok _ _ _ _ _ (Paragraph_content_Ok _ _ _ HN)). simpl.
  rewrite Hl. unfold Text_append.
  rewrite (bind_Ok _ _ _ _ _ (Text_content_Ok _ _ _ Hy)).
  by apply Text_setContent_Ok.
Qed.

Lemma Paragraph_appendText_new s N nc text :
  paragraphs s !! N = Some {| p_content := nc |} →
  (∀ y, last nc ≠ Some (CText y)) →
  Paragraph_appendText N text s
  = (Ok tt,
     set_paragraphs (λ ps,
       <[N := {| p_content := nc ++ [CText (length (texts s))] |}]> ps)
       (set_texts (λ ts,
          ts ++ [{| t_parent := InParagraph N; t_content := orSpace text |}])
          s)).
Proof.
  intros HN Hl. unfold Paragraph_appendText.
  rewrite (bind_Ok _ _ _ _ _ (Paragraph_content_Ok _ _ _ HN)). simpl.
  destruct (last nc) as [[y|l]|]; [by destruct (Hl y)| |];
    (rewrite (bind_Ok _ _ s (length (texts s))
       (set_texts (λ ts,
          ts ++ [{| t_parent := InParagraph N; t_content := orSpace text |}])
          s)); [|done]; by apply addContent_run).
Qed.

(** The round of the first loop of [splitTo] that meets the run of the
    Point. *)
Lemma splitLoop_here N t o c post acc s s3 ot :
  textOf s c = Some t → texts s !! t = Some ot →
  Paragraph_appendText N (substring (t_content ot) 0 o) s = (Ok tt, s3) →
  links s3 = links s → texts s3 !! t = Some ot →
  splitLoop N t o (c :: post) acc s
  = (Ok acc, set_texts (λ ts,
      <[t := {| t_parent := t_parent ot;
                t_content := orSpace (substring (t_content ot) o
                                        (jslength (t_content ot))) |}]> ts)
      s3).
Proof.
  intros Hc Ht Happ Hl Ht3. simpl.
  rewrite (bind_Ok _ _ _ _ _ (Content_text_Ok _ _ _ Hc)).
  rewrite decide_True by done.
  rewrite (bind_Ok _ _ s (t_content ot) s).
  2:{ unfold Content_content.
      rewrite (bind_Ok _ _ _ _ _ (Content_text_Ok _ _ _ Hc)).
      by apply Text_content_Ok. }
  rewrite (bind_Ok _ _ _ _ _ Happ).
  rewrite (bind_Ok _ _ _ _ _ (Text_length_Ok _ _ _ Ht3)).
  rewrite (bind_Ok _ _ s3 tt (set_texts (λ ts,
      <[t := {| t_parent := t_parent ot;
                t_content := orSpace (substring (t_content ot) o
                                        (jslength (t_content ot))) |}]> ts)
      s3)); [done|].
  unfold Content_setContent.
  assert (textOf s3 c = Some t) as Hc3.
  { destruct c; simpl in *; [done|]. by rewrite Hl. }
  rewrite (bind_Ok _ _ _ _ _ (Content_text_Ok _ _ _ Hc3)).
  by apply Text_setContent_Ok.
Qed.

Lemma reads_frame s s' c str :
  links s' = links s →
  (∀ i, textOf s c = Some i → texts s' !! i = texts s !! i) →
  reads s c str → reads s' c str.
Proof.
  intros Hl Ht (x & o & Hx & Ho & Hs). exists x, o.
  split; [destruct c; simpl in *; [done|by rewrite Hl]|].
  split; [|done]. by rewrite (Ht x Hx).
Qed.

Lemma readsAll_frame s s' cs strs :
  links s' = links s →
  (∀ c i, c ∈ cs → textOf s c = Some i → texts s' !! i = texts s !! i) →
  Forall2 (reads s) cs strs → Forall2 (reads s') cs strs.
Proof.
  intros Hl Ht H. induction H as [|c str cs strs Hc _ IH]; [constructor|].
  constructor.
  - eapply reads_frame; [done| |done]. intros i. apply Ht, list_elem_of_here.
  - apply IH. intros c0 i Hin. by apply Ht, list_elem_of_further.
Qed.

Lemma reads_lt s c str x : reads s c str → textOf s c = Some x →
  (x < length (texts s))%nat.
Proof.
  intros (x' & o & Hx & Ho & _) Hx'. apply lookup_lt_Some in Ho. congruence.
Qed.

(** The first loop of [splitTo] from the run of the Point on: the text
    before the offset goes to the end of the prepending paragraph, whose
    last element is a plain text run [x] afterwards, and the run of the
    Point keeps the rest. *)
Lemma splitLoop_at N t o c post acc s nc ot strs :
  paragraphs s !! N = Some {| p_content := nc |} →
  textOf s c = Some t → texts s !! t = Some ot →
  0 <= o <= jslength (t_content ot) →
  Forall2 (reads s) nc strs →
  Forall (λ c', textOf s c' ≠ Some t) nc →
  NoDup (map (textOf s) nc) →
  ∃ s' x ox front sfront,
    splitLoop N t o (c :: post) acc s = (Ok acc, s')
    ∧ links s' = links s ∧ content s' = content s
    ∧ paragraphs s'
      = <[N := {| p_content := front ++ [CText x] |}]> (paragraphs s)
    ∧ x ≠ t
    ∧ texts s' !! x = Some ox
    ∧ t_content ox
      = orSpace (tailText s nc ++ substring (t_content ot) 0 o)
    ∧ texts s' !! t
      = Some {| t_parent := t_parent ot;
                t_content :=
                  orSpace (substring (t_content ot) o
                             (jslength (t_content ot))) |}
    ∧ (∀ i, i ≠ x → i ≠ t → texts s' !! i = texts s !! i)
    ∧ Forall2 (reads s) front sfront
    ∧ Forall (λ c', textOf s c' ≠ Some x ∧ textOf s c' ≠ Some t) front
    ∧ concat sfront ++ tailText s nc ++ substring (t_content ot) 0 o
      = concat strs ++ substring (t_content ot) 0 o
    ∧ ((length (texts s) ≤ x)%nat ∨ CText x ∈ nc).
Proof.
  intros HN Hc Ht Ho Hr Hnt Hnd.
  pose proof (lookup_lt_Some _ _ _ Ht) as Hlt.
  assert ((∃ y, last nc = Some (CText y)) ∨ ∀ y, last nc ≠ Some (CText y))
    as [[y Hl]|Hl].
  { destruct (last nc) as [[y|l]|]; [by eauto|by right|by right]. }
  - pose proof Hl as Hl'. apply last_Some in Hl' as [front ->].
    apply Forall2_app_inv_l in Hr as (sfront & sl & Hrf & Hry & ->).
    apply Forall2_cons_inv_l in Hry
      as (sy & ? & (y' & oy & Hy' & Hoy & Hsy) & Hnil & ->).
    apply Forall2_nil_inv_l in Hnil as ->.
    simpl in Hy'. injection Hy' as <-.
    apply Forall_app in Hnt as [Hntf Hnty].
    rewrite Forall_singleton in Hnty. simpl in Hnty.
    assert (y ≠ t) as Hyt by (intros ->; by apply Hnty).
    rewrite map_app in Hnd. apply NoDup_app in Hnd as (_ & Hdis & _).
    eexists _, y, _, front, sfront. split.
    { eapply splitLoop_here; [done|done| | |].
      - by eapply Paragraph_appendText_last.
      - done.
      - simpl. by rewrite list_lookup_insert_ne. }
    split; [done|]. split; [done|]. split.
    { simpl. symmetry. by apply list_insert_id. }
    split; [done|]. split.
    { simpl. rewrite list_lookup_insert_ne by done.
      apply list_lookup_insert_eq. by eapply lookup_lt_Some. }
    split.
    { simpl. unfold tailText. by rewrite Hl, Hoy. }
    split.
    { simpl. by rewrite list_lookup_insert_eq by (by rewrite length_insert). }
    split.
    { intros i Hix Hit. simpl. by rewrite !list_lookup_insert_ne. }
    split; [done|]. split.
    { rewrite Forall_forall in Hntf. apply Forall_forall. intros c' Hc'.
      split; [|by apply Hntf]. intros E. apply (Hdis (Some y)).
      - rewrite <-E. by apply list_elem_of_fmap_2.
      - simpl. apply list_elem_of_here. }
    split.
    { unfold tailText. rewrite Hl, Hoy, Hsy, concat_app. simpl.
      by rewrite app_nil_r, <-app_assoc. }
    right. apply elem_of_app. right. apply list_elem_of_here.
  - pose proof Hl as Hl'.
    assert (length (texts s) ≠ t) as Hxt by lia.
    eexists _, (length (texts s)), _, nc, strs. split.
    { eapply splitLoop_here; [done|done| | |].
      - by eapply Paragraph_appendText_new.
      - done.
      - simpl. by rewrite lookup_app_l. }
    split; [done|]. split; [done|]. split.
    { simpl. done. }
    split; [done|]. split.
    { simpl. rewrite list_lookup_insert_ne by done.
      by rewrite lookup_app_r, Nat.sub_diag by lia. }
    split.
    { simpl. unfold tailText.
      destruct (last nc) as [[y|l]|]; [by destruct (Hl' y)|done|done]. }
    split.
    { simpl. by rewrite list_lookup_insert_eq by (rewrite length_app; lia). }
    split.
    { intros i Hix Hit. simpl. rewrite list_lookup_insert_ne by done.
      destruct (decide (i < length (texts s))%nat).
      - by rewrite lookup_app_l.
      - rewrite !lookup_ge_None_2; [done|lia|].
        rewrite length_app. simpl. lia. }
    split; [done|]. split.
    { rewrite Forall_forall in Hnt. apply Forall_forall. intros c' Hc'.
      split; [|by apply Hnt]. intros E.
      apply list_elem_of_lookup in Hc' as [i Hi].
      destruct (Forall2_lookup_l _ _ _ _ _ Hr Hi) as (str0 & _ & Hr0).
      pose proof (reads_lt _ _ _ _ Hr0 E). lia. }
    split; [|by left]. unfold tailText.
    destruct (last nc) as [[y|l]|]; [by destruct (Hl' y)|done|done].
Qed.

Lemma readsAll_update_other s cs strs t0 o0 :
  Forall2 (reads s) cs strs → Forall (λ c, textOf s c ≠ Some t0) cs →
  Forall2 (reads (set_texts (λ ts, <[t0 := o0]> ts) s)) cs strs.
Proof.
  induction 1 as [|c str cs strs Hc _ IH]; intros Hne; [constructor|].
  apply Forall_cons in Hne as [Hc0 Hne]. constructor; [|by apply IH].
  by apply reads_update_other.
Qed.

Lemma plainText_of_reads s p cs strs :
  paragraphs s !! p = Some {| p_content := cs |} →
  Forall2 (reads s) cs strs → Paragraph_plainText s p = concat strs.
Proof.
  intros Hp Hr. unfold Paragraph_plainText. rewrite Hp. simpl.
  by apply readsAll_plainText.
Qed.

Lemma copied_plainText q s qc cs strs s' cs' sq :
  (q < length (paragraphs s))%nat →
  copied q s qc cs strs s' cs' → Forall2 (reads s) qc sq →
  Paragraph_plainText s' q = concat sq ++ concat strs.
Proof.
  intros Hq (E & Hp & Hr & _) Hqc. rewrite <-concat_app.
  eapply plainText_of_reads.
  - rewrite Hp. by apply list_lookup_insert_eq.
  - apply Forall2_app; [|done]. by eapply readsAll_ext.
Qed.

(** [combineWith] on the text: the first paragraph, which ends in the
    plain text run [x], reads as the two paragraphs did one after the
    other, unless its last run was whitespace only and is overwritten. *)
Lemma combineWith_reads s N p front x ox c post sfront sc spost :
  N ≠ p → p ∈ content s →
  paragraphs s !! N = Some {| p_content := front ++ [CText x] |} →
  paragraphs s !! p = Some {| p_content := c :: post |} →
  texts s !! x = Some ox →
  Forall2 (reads s) front sfront → reads s c sc →
  Forall2 (reads s) post spost →
  sc ≠ [] → Forall (λ str, str ≠ []) spost →
  Forall (λ c', textOf s c' ≠ Some x) front →
  Forall (λ c', textOf s c' ≠ Some x) post →
  (isText c = true → isEmpty (trim (t_content ox)) = false) →
  ∃ pt s', Paragraph_combineWith N p s = (Ok pt, s')
    ∧ Paragraph_plainText s' N
      = concat sfront ++ t_content ox ++ sc ++ concat spost.
Proof.
  intros HNp Hin HN Hp Hox Hrf Hrc Hrp Hsc Hsp Hfx Hpx Hws.
  pose proof (lookup_lt_Some _ _ _ HN) as HNlt.
  unfold Paragraph_combineWith. rewrite decide_False by done.
  rewrite (bind_Ok _ _ _ _ _ (Paragraph_content_Ok _ _ _ HN)). simpl.
  rewrite last_snoc. simpl.
  rewrite (bind_Ok _ _ s x s) by done.
  rewrite (bind_Ok _ _ _ _ _ (Text_content_Ok _ _ _ Hox)).
  rewrite (bind_Ok _ _ _ _ _ (Paragraph_content_Ok _ _ _ Hp)). simpl.
  assert (∀ s7 : Model, content s7 = content s →
    ∃ pt s', (Paragraph_remove p;;;
              lt' <- Content_text (CText x);;
              ret (Some {| pt_text := lt';
                           pt_offset :=
                             if isEmpty (trim (t_content ox)) then 0
                             else jslength (t_content ox) |})) s7
             = (Ok pt, s')
      ∧ Paragraph_plainText s' N = Paragraph_plainText s7 N) as Hend.
  { intros s7 Hc7.
    exists (Some {| pt_text := x;
                    pt_offset := if isEmpty (trim (t_content ox)) then 0
                                 else jslength (t_content ox) |}),
      (set_content (λ c, remove c p) s7).
    split; [|reflexivity]. unfold Paragraph_remove.
    rewrite (bind_Ok _ _ _ _ _ (Model_removeContent_Ok s7 p
      ltac:(by rewrite Hc7))). reflexivity. }
  destruct c as [t|l].
  - destruct Hrc as (t' & ot & Ht' & Hot & Hsc').
    simpl in Ht'. injection Ht' as <-.
    set (s6 := set_texts (λ ts,
      <[x := {| t_parent := t_parent ox;
                t_content := orSpace (t_content ox ++ sc) |}]> ts) s).
    assert (Forall2 (reads s6) post spost) as Hrp6.
    { by apply readsAll_update_other. }
    destruct (combineLoop_copies N (CText x) post s6 (front ++ [CText x])
      spost HN Hrp6 Hsp) as (s7 & cs' & Hloop & Hcop).
    destruct (Hend s7) as (pt & s' & Hrun & Hread).
    { destruct Hcop as (E & _). by rewrite (ext_content _ _ E). }
    exists pt, s'. split.
    + rewrite (bind_Ok _ _ s tt s7); [exact Hrun|].
      cbn [combineLoop].
      rewrite (bind_Ok _ _ s tt s6); [exact Hloop|].
      rewrite (bind_Ok _ _ _ _ _ (Text_content_Ok _ _ _ Hox)).
      rewrite (bind_Ok _ _ _ _ _ (Text_content_Ok _ _ _ Hot)).
      rewrite Hws by done. unfold Text_append.
      rewrite (bind_Ok _ _ _ _ _ (Text_content_Ok _ _ _ Hox)).
      rewrite Hsc'. by apply Text_setContent_Ok.
    + rewrite Hread.
      rewrite (copied_plainText N s6 _ _ _ _ _
        (sfront ++ [t_content ox ++ sc]) HNlt Hcop).
      * rewrite concat_app. simpl. rewrite app_nil_r.
        by rewrite <-!app_assoc.
      * apply Forall2_app.
        -- by apply readsAll_update_other.
        -- constructor; [|constructor].
           replace (t_content ox ++ sc) with
             (t_content {| t_parent := t_parent ox;
                           t_content := orSpace (t_content ox ++ sc) |}).
           ++ by eapply reads_update_this.
           ++ simpl. apply orSpace_id. intros [_ E]%app_eq_nil. done.
  - destruct (combineLoop_copies N (CText x) (CLink l :: post) s
      (front ++ [CText x]) (sc :: spost) HN) as (s7 & cs' & Hloop & Hcop).
    { by constructor. }
    { by constructor. }
    destruct (Hend s7) as (pt & s' & Hrun & Hread).
    { destruct Hcop as (E & _). by rewrite (ext_content _ _ E). }
    exists pt, s'. split.
    + rewrite (bind_Ok _ _ s tt s7); [exact Hrun|]. exact Hloop.
    + rewrite Hread.
      rewrite (copied_plainText _ _ _ _ _ _ _
        (sfront ++ [t_content ox]) HNlt Hcop).
      * rewrite concat_app. simpl. rewrite app_nil_r.
        by rewrite <-!app_assoc.
      * apply Forall2_app; [done|]. constructor; [|constructor].
        exists x, ox. done.
Qed.

(** The same when the last run of the first paragraph holds whitespace
    only and the second paragraph starts with a plain run: the merge
    overwrites the whitespace. *)
Lemma combineWith_overwrites s N p front x ox t post sfront sc spost :
  N ≠ p → p ∈ content s →
  paragraphs s !! N = Some {| p_content := front ++ [CText x] |} →
  paragraphs s !! p = Some {| p_content := CText t :: post |} →
  texts s !! x = Some ox →
  Forall2 (reads s) front sfront → reads s (CText t) sc →
  Forall2 (reads s) post spost →
  sc ≠ [] → Forall (λ str, str ≠ []) spost →
  Forall (λ c', textOf s c' ≠ Some x) front →
  Forall (λ c', textOf s c' ≠ Some x) post →
  isEmpty (trim (t_content ox)) = true →
  ∃ pt s', Paragraph_combineWith N p s = (Ok pt, s')
    ∧ Paragraph_plainText s' N = concat sfront ++ sc ++ concat spost.
Proof.
  intros HNp Hin HN Hp Hox Hrf Hrc Hrp Hsc Hsp Hfx Hpx Hws.
  pose proof (lookup_lt_Some _ _ _ HN) as HNlt.
  unfold Paragraph_combineWith. rewrite decide_False by done.
  rewrite (bind_Ok _ _ _ _ _ (Paragraph_content_Ok _ _ _ HN)). simpl.
  rewrite last_snoc. simpl.
  rewrite (bind_Ok _ _ s x s) by done.
  rewrite (bind_Ok _ _ _ _ _ (Text_content_Ok _ _ _ Hox)).
  rewrite (bind_Ok _ _ _ _ _ (Paragraph_content_Ok _ _ _ Hp)). simpl.
  destruct Hrc as (t' & ot & Ht' & Hot & Hsc').
  simpl in Ht'. injection Ht' as <-.
  set (s6 := set_texts (λ ts,
    <[x := {| t_parent := t_parent ox; t_content := orSpace sc |}]> ts) s).
  assert (Forall2 (reads s6) post spost) as Hrp6
    by by apply readsAll_update_other.
  destruct (combineLoop_copies N (CText x) post s6 (front ++ [CText x])
    spost HN Hrp6 Hsp) as (s7 & cs' & Hloop & Hcop).
  assert (content s7 = content s) as Hc7
    by (destruct Hcop as (E & _); by rewrite (ext_content _ _ E)).
  exists (Some {| pt_text := x;
                  pt_offset := if isEmpty (trim (t_content ox)) then 0
                               else jslength (t_content ox) |}),
    (set_content (λ c, remove c p) s7).
  split.
  - rewrite (bind_Ok _ _ s tt s7).
    + unfold Paragraph_remove.
      by rewrite (bind_Ok _ _ _ _ _ (Model_removeContent_Ok s7 p
        ltac:(by rewrite Hc7))).
    + rewrite (bind_Ok _ _ s tt s6); [exact Hloop|].
      rewrite (bind_Ok _ _ _ _ _ (Text_content_Ok _ _ _ Hox)).
      rewrite (bind_Ok _ _ _ _ _ (Text_content_Ok _ _ _ Hot)).
      rewrite Hws, Hsc'. by apply Text_setContent_Ok.
  - change (Paragraph_plainText (set_content (λ c, remove c p) s7) N)
      with (Paragraph_plainText s7 N).
    rewrite (copied_plainText N s6 _ _ _ _ _ (sfront ++ [sc]) HNlt Hcop).
    + rewrite concat_app. simpl. rewrite app_nil_r.
      by rewrite <-!app_assoc.
    + apply Forall2_app.
      * by apply readsAll_update_other.
      * constructor; [|constructor].
        pose proof (reads_update_this s (CText x) x
          {| t_parent := t_parent ox; t_content := orSpace sc |} ox
          eq_refl Hox) as Hr.
        destruct Hr as (x0 & o & Hx0 & Ho & Hc).
        exists x0, o. do 2 (split; [done|]).
        rewrite Hc. simpl. by apply orSpace_id.
Qed.

Lemma allocated_reads X st c :
  InvX X st → allocated st c → ∃ str, reads st c str ∧ str ≠ [].
Proof.
  intros I Hc. destruct c as [t|l]; simpl in Hc.
  - apply lookup_lt_is_Some in Hc as [o Ho]. exists (t_content o).
    split; [by exists t, o|]. by eapply inv_texts.
  - apply lookup_lt_is_Some in Hc as [lo Hlo].
    pose proof (inv_links _ _ I _ _ Hlo) as Ht.
    apply lookup_lt_is_Some in Ht as [o Ho]. exists (t_content o).
    split; [|by eapply inv_texts]. exists (l_text lo), o. simpl.
    by rewrite Hlo.
Qed.

Lemma allocated_readsAll X st cs :
  InvX X st → Forall (allocated st) cs →
  ∃ strs, Forall2 (reads st) cs strs ∧ Forall (λ str, str ≠ []) strs.
Proof.
  intros I. induction 1 as [|c cs Hc _ (strs & Hr & Hne)].
  - exists []. split; constructor.
  - destruct (allocated_reads _ _ _ I Hc) as (str & Hrc & Hs).
    exists (str :: strs). split; by constructor.
Qed.

Lemma copied_tailText q s pre spre s' cs' :
  copied q s [] pre spre s' cs' → Forall2 (reads s) pre spre →
  tailText s' cs' = tailText s pre.
Proof.
  intros (_ & _ & Hr' & Hk & _) Hr.
  destruct pre as [|b pre0 _] using rev_ind.
  { apply Forall2_nil_inv_l in Hr as ->.
    by apply Forall2_nil_inv_r in Hr' as ->. }
  apply Forall2_app_inv_l in Hr as (s0 & sl & _ & Hb & ->).
  apply Forall2_cons_inv_l in Hb as (sb & ? & Hb & Hnil & ->).
  apply Forall2_nil_inv_l in Hnil as ->.
  apply Forall2_app_inv_r in Hr' as (cs0 & cl & _ & Hb' & ->).
  apply Forall2_cons_inv_r in Hb' as (b' & ? & Hb' & Hnil & ->).
  apply Forall2_nil_inv_r in Hnil as ->.
  apply (f_equal last) in Hk. rewrite !map_app in Hk. simpl in Hk.
  rewrite !last_snoc in Hk. injection Hk as Hk.
  unfold tailText. rewrite !last_snoc.
  destruct Hb as (y & o & Hy & Ho & Hs), Hb' as (y' & o' & Hy' & Ho' & Hs').
  destruct b, b'; simpl in *; try done.
  injection Hy as ->. injection Hy' as ->. rewrite Ho, Ho'. congruence.
Qed.

Lemma Forall2_strengthen {A B} (P Q : A → B → Prop) (R : A → Prop) l k :
  Forall2 P l k → Forall R l → (∀ a b, P a b → R a → Q a b) →
  Forall2 Q l k.
Proof.
  induction 1; intros HR HQ; [constructor|].
  apply Forall_cons in HR as []. constructor; eauto.
Qed.

(** [splitTo] on the text.  Paragraph [N] is the new and still empty
    paragraph that [insertNewParagraph] has put directly before [p]; the
    Point is in the run [t] of the element [c] of [p], its ends included.
    The last run [x] of [N] holds the text of the plain run directly
    before [c], if there is one, and the text of [t] before the offset,
    or the placeholder space when that is nothing; [t] keeps its text
    from the offset on, or the placeholder space. *)
Lemma splitTo_reads_from s1 p N t offset pre c post spre spost ot :
  N ≠ p →
  paragraphs s1 !! N = Some {| p_content := [] |} →
  paragraphs s1 !! p = Some {| p_content := pre ++ c :: post |} →
  previousOf (content s1) p = Some N →
  Forall (childOf s1 p) pre →
  NoDup (map (textOf s1) (pre ++ c :: post)) →
  Forall2 (reads s1) pre spre → Forall (λ str, str ≠ []) spre →
  Forall2 (reads s1) post spost →
  textOf s1 c = Some t → texts s1 !! t = Some ot →
  0 <= offset <= jslength (t_content ot) →
  ∃ pt s5 front x ox sfront,
    Paragraph_splitTo p N t offset s1 = (Ok pt, s5)
    ∧ content s5 = content s1
    ∧ paragraphs s5 !! N = Some {| p_content := front ++ [CText x] |}
    ∧ paragraphs s5 !! p = Some {| p_content := c :: post |}
    ∧ texts s5 !! x = Some ox
    ∧ t_content ox
      = orSpace (tailText s1 pre ++ substring (t_content ot) 0 offset)
    ∧ Forall2 (reads s5) front sfront
    ∧ concat sfront ++ tailText s1 pre ++ substring (t_content ot) 0 offset
      = concat spre ++ substring (t_content ot) 0 offset
    ∧ reads s5 c
        (orSpace (substring (t_content ot) offset (jslength (t_content ot))))
    ∧ Forall2 (reads s5) post spost
    ∧ Forall (λ c', textOf s5 c' ≠ Some x) front
    ∧ Forall (λ c', textOf s5 c' ≠ Some x) post.
Proof.
  intros HNp HN Hp Hprev Hch Hnd Hrpre Hne Hrpost Hc Ht Ho.
  rewrite map_app in Hnd. simpl in Hnd.
  apply NoDup_app in Hnd as (_ & Hdis & Hnd_rest).
  apply NoDup_cons in Hnd_rest as [Hc_post _].
  assert (Forall (λ c', textOf s1 c' ≠ Some t) pre) as Hpre_t.
  { apply Forall_forall. intros c' Hc' E. apply (Hdis (Some t)).
    - rewrite <-E. by apply list_elem_of_fmap_2.
    - rewrite Hc. apply list_elem_of_here. }
  assert (Forall (λ c', textOf s1 c' ≠ Some t) post) as Hpost_t.
  { apply Forall_forall. intros c' Hc' E. apply Hc_post.
    rewrite Hc, <-E. by apply list_elem_of_fmap_2. }
  destruct (splitLoop_copies N t offset (c :: post) pre s1 [] spre []
    HN Hrpre Hne Hpre_t) as (s2 & cs' & Hloop1 & Hcop).
  pose proof Hcop as (E12 & Hp2 & Hr2 & Hk2 & Hfresh2 & Hnd2).
  assert (paragraphs s2 !! N = Some {| p_content := cs' |}) as HN2.
  { rewrite Hp2. simpl. apply list_lookup_insert_eq. by eapply lookup_lt_Some. }
  assert (texts s2 !! t = Some ot) as Ht2.
  { eapply prefix_lookup_Some; [done|apply E12]. }
  pose proof (lookup_lt_Some _ _ _ Ht) as Htlt.
  assert (Forall (λ c', textOf s2 c' ≠ Some t) cs') as Hcs_t.
  { eapply Forall_impl; [exact Hfresh2|]. simpl.
    intros c' (y & Hy & Hle) E. rewrite Hy in E. injection E as ->. lia. }
  destruct (splitLoop_at N t offset c post ([] ++ pre) s2 cs' ot spre
    HN2 (textOf_ext _ _ _ _ E12 Hc) Ht2 Ho Hr2 Hcs_t Hnd2)
    as (s4 & x & ox & front & sfront & Hloop2 & Hl4 & Hc4 & Hp4 & Hxt & Hox
        & Hoxc & Ht4 & Hagree & Hrf & Hfx & Hcat & Hxfresh).
  rewrite (copied_tailText _ _ _ _ _ _ Hcop Hrpre) in Hoxc, Hcat.
  assert (length (texts s1) ≤ x)%nat as Hxge.
  { destruct Hxfresh as [Hge|Hin].
    - pose proof (prefix_length _ _ (ext_texts _ _ E12)). lia.
    - rewrite Forall_forall in Hfresh2.
      destruct (Hfresh2 _ Hin) as (y & Hy & Hle). simpl in Hy.
      by injection Hy as <-. }
  assert (∀ c' str, reads s1 c' str → textOf s1 c' ≠ Some t →
    reads s4 c' str ∧ textOf s4 c' ≠ Some x) as Hold.
  { intros c' str Hr Hnt. pose proof (reads_ext _ _ _ _ E12 Hr) as Hr2'.
    destruct Hr as (y & oy & Hy & Hoy & Hs).
    pose proof (lookup_lt_Some _ _ _ Hoy) as Hylt.
    pose proof (textOf_ext _ _ _ _ E12 Hy) as Hy2.
    assert (textOf s4 c' = Some y) as Hy4.
    { destruct c'; simpl in *; [done|by rewrite Hl4]. }
    split.
    - eapply reads_frame; [exact Hl4| |exact Hr2']. intros i Hi.
      rewrite Hy2 in Hi. injection Hi as <-. apply Hagree; [lia|congruence].
    - rewrite Hy4. intros [= ->]. lia. }
  set (s5 := set_paragraphs
               (λ ps, <[p := {| p_content := c :: post |}]> ps) s4).
  assert (paragraphs s4 !! N = Some {| p_content := front ++ [CText x] |})
    as HN4.
  { rewrite Hp4. apply list_lookup_insert_eq. by eapply lookup_lt_Some. }
  assert (paragraphs s4 !! p = Some {| p_content := pre ++ c :: post |})
    as Hp4'.
  { rewrite Hp4, list_lookup_insert_ne by done. rewrite Hp2. simpl.
    by rewrite list_lookup_insert_ne. }
  assert (textOf s4 c = Some t) as Hc4t.
  { pose proof (textOf_ext _ _ _ _ E12 Hc).
    destruct c; simpl in *; [done|by rewrite Hl4]. }
  assert (forOf pre Content_remove s4 = (Ok tt, s5)) as Hrem.
  { eapply (remove_copied p N (front ++ [CText x]) (CText x) x ox);
      try done.
    - apply Forall_forall. intros c' Hc'.
      rewrite Forall_forall in Hch, Hpre_t.
      specialize (Hch c' Hc'). specialize (Hpre_t c' Hc').
      destruct c' as [t'|l]; simpl in *.
      + destruct Hch as (o' & Ho' & Hpar). exists o'. split; [|done].
        pose proof (lookup_lt_Some _ _ _ Ho').
        rewrite Hagree; [|lia|congruence].
        eapply prefix_lookup_Some; [done|apply E12].
      + destruct Hch as (lo & Hlo & Hpar). exists lo. split; [|done].
        rewrite Hl4. eapply prefix_lookup_Some; [done|apply E12].
    - by rewrite Hc4, (ext_content _ _ E12).
    - apply last_snoc. }
  assert (paragraphs s5 !! N = Some {| p_content := front ++ [CText x] |})
    as HN5 by (simpl; by rewrite list_lookup_insert_ne).
  assert (paragraphs s5 !! p = Some {| p_content := c :: post |}) as Hp5.
  { simpl. apply list_lookup_insert_eq. by eapply lookup_lt_Some. }
  exists {| pt_text := t; pt_offset := 0 |}, s5, front, x, ox, sfront.
  split.
  { unfold Paragraph_splitTo.
    rewrite (bind_Ok _ _ _ _ _ (Paragraph_content_Ok _ _ _ Hp)).
    simpl p_content.
    rewrite (bind_Ok _ _ s1 ([] ++ pre) s4)
      by (rewrite Hloop1; exact Hloop2).
    simpl app. rewrite (bind_Ok _ _ _ _ _ Hrem).
    rewrite (bind_Ok _ _ s5 false s5).
    2:{ unfold Paragraph_empty.
        rewrite (bind_Ok _ _ _ _ _ (Paragraph_content_Ok _ _ _ HN5)). simpl.
        rewrite bool_decide_eq_false_2; [done|]. rewrite length_app.
        simpl. lia. }
    simpl whenM. rewrite (bind_Ok _ _ s5 tt s5) by done.
    rewrite (bind_Ok _ _ s5 t s5); [done|].
    unfold Paragraph_firstText, Paragraph_firstContent.
    rewrite (bind_Ok _ _ s5 c s5); [by apply Content_text_Ok|].
    by rewrite (bind_Ok _ _ _ _ _ (Paragraph_content_Ok _ _ _ Hp5)). }
  split; [by rewrite <-(ext_content _ _ E12), <-Hc4|].
  split; [done|]. split; [done|]. split; [done|].
  split; [done|].
  assert (Forall2 (reads s4) front sfront) as Hrf4.
  { eapply readsAll_frame; [exact Hl4| |exact Hrf]. intros c' i Hc' Hi.
    rewrite Forall_forall in Hfx. destruct (Hfx c' Hc') as [Hx' Ht'].
    apply Hagree; congruence. }
  split; [exact Hrf4|]. split; [done|]. split.
  { exists t, {| t_parent := t_parent ot;
                 t_content := orSpace (substring (t_content ot) offset
                                         (jslength (t_content ot))) |}.
    done. }
  assert (Forall2 (λ c' str, reads s4 c' str ∧ textOf s4 c' ≠ Some x)
            post spost) as Hpost4.
  { eapply Forall2_strengthen; [exact Hrpost|exact Hpost_t|].
    intros c' str Hr Hnt. by apply Hold. }
  split.
  { eapply Forall2_impl; [exact Hpost4|]. by intros c' str [Hr _]. }
  split.
  { eapply Forall_impl; [exact Hfx|]. simpl. intros c' [Hx' _].
    destruct c'; simpl in *; [done|by rewrite Hl4]. }
  apply Forall2_Forall_l with (Q := λ c', textOf s4 c' ≠ Some x) in Hpost4;
    [done|]. apply Forall_true. by intros c' str [_ Hx'].
Qed.

(** The same for a Point strictly inside the run: the last run of [N]
    then holds text of [p]. *)
Lemma splitTo_reads s1 p N t offset pre c post spre spost ot :
  N ≠ p →
  paragraphs s1 !! N = Some {| p_content := [] |} →
  paragraphs s1 !! p = Some {| p_content := pre ++ c :: post |} →
  previousOf (content s1) p = Some N →
  Forall (childOf s1 p) pre →
  NoDup (map (textOf s1) (pre ++ c :: post)) →
  Forall2 (reads s1) pre spre → Forall (λ str, str ≠ []) spre →
  Forall2 (reads s1) post spost →
  textOf s1 c = Some t → texts s1 !! t = Some ot →
  0 < offset < jslength (t_content ot) →
  ∃ pt s5 front x ox sfront,
    Paragraph_splitTo p N t offset s1 = (Ok pt, s5)
    ∧ content s5 = content s1
    ∧ paragraphs s5 !! N = Some {| p_content := front ++ [CText x] |}
    ∧ paragraphs s5 !! p = Some {| p_content := c :: post |}
    ∧ texts s5 !! x = Some ox
    ∧ t_content ox = tailText s1 pre ++ substring (t_content ot) 0 offset
    ∧ Forall2 (reads s5) front sfront
    ∧ concat sfront ++ t_content ox
      = concat spre ++ substring (t_content ot) 0 offset
    ∧ reads s5 c (substring (t_content ot) offset (jslength (t_content ot)))
    ∧ Forall2 (reads s5) post spost
    ∧ Forall (λ c', textOf s5 c' ≠ Some x) front
    ∧ Forall (λ c', textOf s5 c' ≠ Some x) post.
Proof.
  intros HNp HN Hp Hprev Hch Hnd Hrpre Hne Hrpost Hc Ht Ho.
  destruct (splitTo_reads_from s1 p N t offset pre c post spre spost ot)
    as (pt & s5 & front & x & ox & sfront & Hrun & Hc5 & HN5 & Hp5 & Hox
        & Hoxc & Hrf & Hcat & Hrc & Hrest); try done; [lia|].
  assert (t_content ot ≠ []) as Hne0.
  { intros E. rewrite E in Ho. unfold jslength in Ho. simpl in Ho. lia. }
  pose proof (substring_prefix_nonempty _ offset ltac:(lia) Hne0) as Htake.
  rewrite orSpace_id in Hoxc by (intros [_ E]%app_eq_nil; done).
  rewrite (orSpace_id (substring (t_content ot) offset _)) in Hrc
    by (apply substring_suffix_nonempty; lia).
  exists pt, s5, front, x, ox, sfront. rewrite Hoxc.
  do 7 (split; [done|]). split; [exact Hcat|]. split; [exact Hrc|].
  exact Hrest.
Qed.

(** C3 as stated fails at the end of a run: split after the "b" of the
    only run "ab", the suffix paragraph gets the placeholder space, and
    the merge appends it, so the paragraph reads "ab " afterwards. *)
Lemma split_combine_counterexample :
  let st := documentOf [[mdText "ab"]] in
  let r := splitThenCombine 0 0 2 st in
  fst r = Ok 1%nat
  ∧ Paragraph_plainText st 0 = lit "ab"
  ∧ Paragraph_plainText (snd r) 1 = lit "ab "
  ∧ Paragraph_plainText (snd r) 1 ≠ Paragraph_plainText st 0.
Proof. vm_compute. repeat split. discriminate. Qed.

(** It also fails strictly inside a run when only whitespace is split
    off: "  x" split at offset 2 reads "x" after the merge, which
    overwrites a whitespace-only last run of the prefix paragraph. *)
Example split_combine_whitespace :
  let st := documentOf [[mdText "  x"]] in
  let r := splitThenCombine 0 0 2 st in
  fst r = Ok 1%nat ∧ Paragraph_plainText (snd r) 1 = lit "x".
Proof. by vm_compute. Qed.

(** And at the start of a link that opens the paragraph: the prefix
    paragraph gets a placeholder run, which stays in front of the copied
    link. *)
Example split_combine_link_start :
  let st := documentOf [[mdLink "x" [mdText "ab"]]] in
  let r := splitThenCombine 0 0 0 st in
  fst r = Ok 1%nat ∧ Paragraph_plainText (snd r) 1 = lit " ab".
Proof. by vm_compute. Qed.

(** What the split and the merge do to the text around the Point: [w] is
    what the split leaves for the last run of the prefix paragraph and [r]
    what it leaves in the split run, each replaced by the placeholder
    space when empty; the merge of a plain run overwrites a last run that
    holds whitespace only and appends otherwise. *)
Lemma split_merge_text (plain : bool) (w r : jsstring) :
  (if plain && isEmpty (trim (orSpace w)) then orSpace r
   else orSpace w ++ orSpace r) = w ++ r
  ↔ (if isEmpty r then plain = true ∧ w = lit " "
     else if plain then w = [] ∨ isEmpty (trim w) = false else w ≠ []).
Proof.
  assert (∀ (u v : jsstring) ch, u ++ ch :: v ≠ u) as Hlonger.
  { intros u v ch E. apply (f_equal length) in E.
    rewrite length_app in E. simpl in E. lia. }
  assert (∀ (u : jsstring) ch v, ch :: u ++ v ≠ v) as Hlonger'.
  { intros u ch v E. apply (f_equal length) in E. simpl in E.
    rewrite length_app in E. lia. }
  destruct w as [|a w], r as [|b r], plain; cbn [orSpace isEmpty andb].
  - change (isEmpty (trim (lit " "))) with true. cbn [app]. split.
    + discriminate.
    + intros [_ H]. discriminate H.
  - cbn [app]. split; [discriminate|]. intros [H _]. discriminate H.
  - change (isEmpty (trim (lit " "))) with true. cbn [app]. split; auto.
  - split; [|done]. intros E. by destruct (Hlonger' [] 32%N (b :: r)).
  - rewrite app_nil_r.
    destruct (isEmpty (trim (a :: w))) eqn:Hws.
    + split; [by intros <-|by intros [_ ->]].
    + split.
      * intros E. by destruct (Hlonger (a :: w) [] 32%N).
      * intros [_ E]. rewrite E in Hws. discriminate Hws.
  - rewrite app_nil_r. split.
    + intros E. by destruct (Hlonger (a :: w) [] 32%N).
    + intros [H _]. discriminate H.
  - destruct (isEmpty (trim (a :: w))) eqn:Hws.
    + split.
      * intros E. symmetry in E. by destruct (Hlonger' w a (b :: r)).
      * intros [H|H]; discriminate H.
    + split; [by right|done].
  - split; done.
Qed.

Lemma substring_suffix_isEmpty (s : jsstring) o :
  0 <= o <= jslength s →
  isEmpty (substring s o (jslength s)) = negb (o <? jslength s).
Proof.
  intros Ho. destruct (o <? jslength s) eqn:Hlt; simpl.
  - apply Z.ltb_lt in Hlt.
    pose proof (substring_suffix_nonempty s o ltac:(lia)).
    by destruct (substring s o (jslength s)).
  - apply Z.ltb_ge in Hlt. rewrite substring_suffix.
    unfold jslength in *. rewrite clamp_ge by lia. by rewrite drop_all.
Qed.

(** At the start of a plain run that opens the paragraph the text comes
    back: the placeholder run of the prefix paragraph is overwritten by
    the merge.  So it does at the end of a run that holds one space and
    has no plain run before it. *)
Example split_combine_start :
  let st := documentOf [[mdText "ab"]] in
  let r := splitThenCombine 0 0 0 st in
  fst r = Ok 1%nat ∧ Paragraph_plainText (snd r) 1 = lit "ab".
Proof. by vm_compute. Qed.

Example split_combine_space :
  let st := documentOf [[mdLink "x" [mdText "ab"]; mdText " "; mdText "c"]] in
  let r := splitThenCombine 0 1 1 st in
  fst r = Ok 1%nat ∧ Paragraph_plainText (snd r) 1 = lit "ab c".
Proof. by vm_compute. Qed.

(** C3, amended: in a document that satisfies the invariant, let [c] be
    an element of paragraph [p] with the text run [t], let the elements
    before it point back to [p] and let no run occur twice in [p].  For
    every Point of [t], from its start to its end, splitting [p] at the
    Point into a new paragraph before it and combining the two at once
    succeeds.  Let [w] be what the split leaves for the last run of the
    prefix paragraph: the plain text run directly before [c], if there is
    one, followed by the text of [t] before the offset.  The combined
    paragraph has the text of [p] exactly in these cases: before the end
    of [t], when [c] is a plain run and [w] is empty or holds a character
    other than whitespace, or [c] is a link and [w] is not empty; at the
    end of [t], when [c] is a plain run and [w] is a single space. *)
Theorem split_then_combine st p t offset pre c post ot :
  Inv st → p ∈ content st →
  paragraphs st !! p = Some {| p_content := pre ++ c :: post |} →
  Forall (childOf st p) pre →
  NoDup (map (textOf st) (pre ++ c :: post)) →
  textOf st c = Some t → texts st !! t = Some ot →
  0 <= offset <= jslength (t_content ot) →
  ∃ q st', splitThenCombine p t offset st = (Ok q, st')
    ∧ (Paragraph_plainText st' q = Paragraph_plainText st p
       ↔ let w := tailText st pre ++ substring (t_content ot) 0 offset in
         if offset <? jslength (t_content ot)
         then (if isText c then w = [] ∨ isEmpty (trim w) = false
               else w ≠ [])
         else isText c = true ∧ w = lit " ").
Proof.
  intros I Hin Hp Hch Hnd Hc Ht Ho.
  destruct (allocated_readsAll _ _ _ I (inv_contents _ _ I _ _ Hp))
    as (strs & Hr & Hne). simpl in Hr.
  pose proof Hr as Hrall.
  apply Forall2_app_inv_l in Hr as (spre & srest & Hrpre & Hrrest & ->).
  apply Forall2_cons_inv_l in Hrrest as (sc & spost & Hrc & Hrpost & ->).
  apply Forall_app in Hne as [Hnepre Hnerest].
  apply Forall_cons in Hnerest as [Hnec Hnepost].
  assert (sc = t_content ot) as ->.
  { destruct Hrc as (t' & o' & Ht' & Ho' & Hs'). congruence. }
  set (N := length (paragraphs st)).
  destruct (insertBefore_Some (content st) N p Hin) as [cont' Hins].
  set (s0 := set_paragraphs (λ ps, ps ++ [{| p_content := [] |}]) st).
  set (s1 := set_content (λ _, cont') s0).
  pose proof (lookup_lt_Some _ _ _ Hp) as Hplt.
  assert (N ≠ p) as HNp by (unfold N; lia).
  destruct (splitTo_reads_from s1 p N t offset pre c post spre spost ot)
    as (pt & s5 & front & x & ox & sfront & Hsplit & Hc5 & HN5 & Hp5 & Hox
        & Hoxc & Hrf & Hcat & Hrc5 & Hrp5 & Hfx & Hpx); try done.
  { simpl. by rewrite lookup_app_r, Nat.sub_diag by (unfold N; lia). }
  { simpl. by rewrite lookup_app_l. }
  { simpl. by eapply previousOf_insertBefore. }
  change (tailText s1 pre) with (tailText st pre) in Hoxc, Hcat.
  assert (p ∈ content s5) as Hin5.
  { rewrite Hc5. simpl. eapply insertBefore_elem; [done|]. by right. }
  set (w := tailText st pre ++ substring (t_content ot) 0 offset) in *.
  set (r := substring (t_content ot) offset (jslength (t_content ot))) in *.
  assert (Paragraph_plainText st p
          = concat sfront ++ (w ++ r) ++ concat spost) as Horig.
  { rewrite (plainText_of_reads _ _ _ _ Hp Hrall), concat_app. simpl.
    rewrite <-(substring_split (t_content ot) offset) at 1. fold r.
    rewrite !app_assoc. do 2 f_equal. exact (eq_sym Hcat). }
  assert (∃ pt' s', Paragraph_combineWith N p s5 = (Ok pt', s')
    ∧ Paragraph_plainText s' N
      = concat sfront
        ++ (if isText c && isEmpty (trim (orSpace w)) then orSpace r
            else orSpace w ++ orSpace r) ++ concat spost)
    as (pt' & s' & Hcomb & Hread).
  { destruct (isText c && isEmpty (trim (orSpace w))) eqn:Hover.
    - apply andb_true_iff in Hover as [Hplain Hws].
      destruct c as [t'|l]; [|discriminate Hplain].
      simpl in Hc. injection Hc as ->.
      destruct (combineWith_overwrites s5 N p front x ox t post sfront
        (orSpace r) spost) as (pt' & s' & Hcomb & Hread); try done.
      { apply orSpace_nonempty. }
      { by rewrite Hoxc. }
      by exists pt', s'.
    - destruct (combineWith_reads s5 N p front x ox c post sfront
        (orSpace r) spost) as (pt' & s' & Hcomb & Hread); try done.
      { apply orSpace_nonempty. }
      { intros Hplain. rewrite Hplain in Hover. rewrite Hoxc.
        exact Hover. }
      exists pt', s'. split; [done|]. by rewrite Hread, Hoxc, <-app_assoc. }
  exists N, s'. split.
  { unfold splitThenCombine.
    rewrite (bind_Ok _ _ st N s0) by done.
    rewrite (bind_Ok _ _ s0 tt s1).
    2:{ unfold Model_insertParagraphBefore, bind, get. simpl.
        by rewrite Hins. }
    by rewrite (bind_Ok _ _ _ _ _ Hsplit), (bind_Ok _ _ _ _ _ Hcomb). }
  rewrite Hread, Horig. cbv zeta. fold w.
  pose proof (split_merge_text (isText c) w r) as Hm.
  assert (isEmpty r = negb (offset <? jslength (t_content ot))) as Hr0
    by (by apply substring_suffix_isEmpty).
  rewrite Hr0 in Hm.
  destruct (offset <? jslength (t_content ot)); cbn [negb] in Hm.
  all: split;
    [intros E; apply Hm; apply app_inv_head in E; by apply app_inv_tail in E
    |intros Hcond; apply Hm in Hcond;
     exact (f_equal (λ m, concat sfront ++ m ++ concat spost) Hcond)].
Qed.

Lemma Inv_sample_link :
  Inv (documentOf [[mdText "ab"; mdLink "x" [mdText "cd"]; mdText "ef"]]).
Proof.
  split; simpl.
  - intros t o H. lookup_cases H; done.
  - intros l lo H. lookup_cases H. simpl. lia.
  - intros p po H. lookup_cases H. repeat constructor; simpl; lia.
  - intros p ->%list_elem_of_singleton. lia.
  - intros p po ->%list_elem_of_singleton _ [= <-]. done.
Qed.

Lemma split_then_combine_witness :
  let st := documentOf [[mdText "ab"; mdLink "x" [mdText "cd"]; mdText "ef"]] in
  ∃ q st', splitThenCombine 0 1 0 st = (Ok q, st')
    ∧ Paragraph_plainText st' q = Paragraph_plainText st 0.
Proof.
  destruct (split_then_combine
    (documentOf [[mdText "ab"; mdLink "x" [mdText "cd"]; mdText "ef"]])
    0 1 0 [CText 0] (CLink 0) [CText 2]
    {| t_parent := InLink 0; t_content := lit "cd" |})
    as (q & st' & Hrun & Hsame).
  - exact Inv_sample_link.
  - apply list_elem_of_here.
  - reflexivity.
  - repeat constructor; eexists; split; reflexivity.
  - apply (bool_decide_unpack (NoDup _)). vm_compute. exact I.
  - reflexivity.
  - reflexivity.
  - vm_compute. split; discriminate.
  - exists q, st'. split; [exact Hrun|]. apply Hsame.
    vm_compute. discriminate.
Defined.

(** ** Parsing: what is refused *)

(** The shapes [Paragraph.ofMarkdown] lets through: a [text] node, or a
    [link] node with one child, of whatever type. *)
Definition acceptedInline (n : MarkdownNode) : bool :=
  if decide (md_type n = link)
  then bool_decide (length (children n) = 1%nat)
  else bool_decide (md_type n = text).

Definition acceptedBlock (n : MarkdownNode) : bool :=
  bool_decide (md_type n = paragraph) && forallb acceptedInline (children n).

Definition accepted (d : MarkdownNode) : bool :=
  bool_decide (md_type d = document) && forallb acceptedBlock (children d).

(** A loop whose rounds fault on the elements that fail a test, and only
    on those, faults if and only if some element fails the test. *)
Lemma forOf_decides {A} (P : Model → Prop) (ok : A → bool)
    (body : A → M unit) :
  (∀ x s, P s → ok x = true → ∃ s', body x s = (Ok tt, s') ∧ P s') →
  (∀ x s, P s → ok x = false → ∃ f s', body x s = (Err f, s')) →
  ∀ xs s, P s →
    (forallb ok xs = true → ∃ s', forOf xs body s = (Ok tt, s') ∧ P s')
    ∧ (forallb ok xs = false → ∃ f s', forOf xs body s = (Err f, s')).
Proof.
  intros Hok Herr. induction xs as [|x xs IH]; intros s HP; simpl.
  { split; [by eauto|discriminate]. }
  destruct (ok x) eqn:E; simpl.
  - destruct (Hok x s HP E) as (s' & Hb & HP').
    rewrite (bind_Ok _ _ _ _ _ Hb). by apply IH.
  - split; [discriminate|]. intros _.
    destruct (Herr x s HP E) as (f & s' & Hb).
    rewrite (bind_Err _ _ _ _ _ Hb). eauto.
Qed.

Lemma Paragraph_ofMarkdown_decides n s :
  (acceptedBlock n = true → ∃ p s', Paragraph_ofMarkdown n s = (Ok p, s'))
  ∧ (acceptedBlock n = false → ∃ f s', Paragraph_ofMarkdown n s = (Err f, s')).
Proof.
  unfold acceptedBlock, Paragraph_ofMarkdown.
  destruct (decide (md_type n = paragraph)) as [Hty|Hty].
  2:{ rewrite bool_decide_eq_false_2 by done. simpl.
      split; [discriminate|]. intros _. by eexists _, _. }
  rewrite bool_decide_eq_true_2 by done. simpl.
  set (result := length (paragraphs s)).
  set (s0 := set_paragraphs (λ ps, ps ++ [{| p_content := [] |}]) s).
  rewrite (bind_Ok _ _ s result s0) by done.
  destruct (forOf_decides (λ s1, is_Some (paragraphs s1 !! result))
    acceptedInline
    (λ child,
      c <- (if decide (md_type child = link)
            then l <- Link_ofMarkdown result child;; ret (CLink l)
            else t <- Text_ofMarkdown (InParagraph result) child;;
                 ret (CText t));;
      Paragraph_addContent result c)) with (xs := children n) (s := s0)
    as [Hyes Hno].
  - intros x s1 [po Hpo] Hx. unfold acceptedInline in Hx.
    destruct po as [cs]. destruct (decide (md_type x = link)) as [Hl|Hl].
    + apply bool_decide_eq_true_1 in Hx.
      unfold Link_ofMarkdown. rewrite decide_True by done.
      destruct (children x) as [|ch [|ch' chs]]; try done.
      eexists. split.
      * unfold Link_new. mrun. reflexivity.
      * simpl. apply lookup_lt_is_Some. rewrite length_insert.
        by eapply lookup_lt_Some.
    + apply bool_decide_eq_true_1 in Hx.
      unfold Text_ofMarkdown. rewrite decide_True by done.
      eexists. split.
      * mrun. reflexivity.
      * simpl. apply lookup_lt_is_Some. rewrite length_insert.
        by eapply lookup_lt_Some.
  - intros x s1 [po Hpo] Hx. unfold acceptedInline in Hx.
    destruct (decide (md_type x = link)) as [Hl|Hl].
    + apply bool_decide_eq_false_1 in Hx.
      unfold Link_ofMarkdown. rewrite decide_True by done.
      destruct (children x) as [|ch [|ch' chs]]; [|done|];
        by eexists _, _.
    + apply bool_decide_eq_false_1 in Hx.
      unfold Text_ofMarkdown. rewrite decide_False by done.
      by eexists _, _.
  - simpl. rewrite lookup_app_r, Nat.sub_diag by (unfold result; lia).
    by eexists.
  - split.
    + intros Hall. destruct (Hyes Hall) as (s' & Hrun & _).
      rewrite (bind_Ok _ _ _ _ _ Hrun). by eexists _, _.
    + intros Hall. destruct (Hno Hall) as (f & s' & Hrun).
      rewrite (bind_Err _ _ _ _ _ Hrun). by eexists _, _.
Qed.

(** [ofMarkdown] faults exactly on the trees that are not [accepted]: a
    root that is no document, a top-level child that is no paragraph, an
    inline child that is neither a text node nor a link, a link without
    exactly one child. *)
Lemma ofMarkdown_accepted_iff d :
  fst (ofMarkdown d) = Ok tt ↔ accepted d = true.
Proof.
  unfold ofMarkdown, Model_ofMarkdown, accepted.
  destruct (decide (md_type d = document)) as [Hty|Hty].
  2:{ rewrite bool_decide_eq_false_2 by done. simpl. split; discriminate. }
  rewrite bool_decide_eq_true_2 by done. simpl.
  destruct (forOf_decides (λ _, True) acceptedBlock
    (λ paragraphNode,
      p <- Paragraph_ofMarkdown paragraphNode;; Model_addParagraph p))
    with (xs := children d) (s := emptyModel) as [Hyes Hno]; [| |done|].
  - intros x s _ Hx.
    destruct (Paragraph_ofMarkdown_decides x s) as [Hp _].
    destruct (Hp Hx) as (p & s' & Hrun).
    rewrite (bind_Ok _ _ _ _ _ Hrun). by eexists.
  - intros x s _ Hx.
    destruct (Paragraph_ofMarkdown_decides x s) as [_ Hp].
    destruct (Hp Hx) as (f & s' & Hrun).
    rewrite (bind_Err _ _ _ _ _ Hrun). by eexists _, _.
  - destruct (forallb acceptedBlock (children d)).
    + destruct Hyes as (s' & -> & _); done.
    + destruct Hno as (f & s' & ->); done.
Qed.

(** A text node becomes a text run with its literal, character for
    character. *)
Lemma Text_ofMarkdown_verbatim parent s dest cs st :
  s ≠ [] →
  Text_ofMarkdown parent (MdNode text (Some s) dest cs) st
  = (Ok (length (texts st)),
     set_texts (λ ts, ts ++ [{| t_parent := parent; t_content := s |}]) st).
Proof.
  intros Hs. unfold Text_ofMarkdown. rewrite decide_True by done.
  simpl. unfold Text_new, bind, get, modify, ret. simpl.
  by rewrite orSpace_id.
Qed.

(** The single child of a link is taken for its [literal] whatever its
    type is. *)
Lemma Link_ofMarkdown_any_child parent dest child st :
  Link_ofMarkdown parent (MdNode link None dest [child]) st
  = Link_new parent (literalText (md_literal child)) (destinationText dest)
      st.
Proof. reflexivity. Qed.

(** C8 fails on the code for a link whose only child is not a text
    node.  The tree of the markdown text [[*a*](x)], a link with a single
    [emph] child, is parsed without a fault; the link's text is the
    placeholder space, as the [emph] node has no literal. *)
Theorem ofMarkdown_link_child_unchecked :
  let r := ofMarkdown
             (mdDocument
                [mdParagraph
                   [mdLink "x" [MdNode emph None None [mdText "a"]]]]) in
  fst r = Ok tt ∧ Model_view (snd r) = [[RLink (lit " ") (lit "x")]].
Proof. by vm_compute. Qed.

(** A single [code] child hands its literal to the link. *)
Example ofMarkdown_code_in_link :
  let r := ofMarkdown
             (mdDocument
                [mdParagraph
                   [mdLink "x" [MdNode code (Some (lit "a")) None []]]]) in
  fst r = Ok tt ∧ Model_view (snd r) = [[RLink (lit "a") (lit "x")]].
Proof. by vm_compute. Qed.

(** ** Parsing: what is built *)

(** The run a node of an accepted paragraph stands for: the literal, or
    for a link the literal of its child and the destination. *)
Definition runOf (n : MarkdownNode) : Run :=
  if decide (md_type n = link) then
    RLink (orSpace (literalText (head (children n) ≫= md_literal)))
      (destinationText (md_destination n))
  else RText (orSpace (literalText (md_literal n))).

Lemma resolved_ext s s' c : ext s s' → resolved s c → resolved s' c.
Proof.
  intros E (t & Ht & [o Ho]). exists t. split; [by eapply textOf_ext|].
  exists o. eapply prefix_lookup_Some; [done|apply E].
Qed.

Lemma Content_view_ext s s' c :
  ext s s' → resolved s c → Content_view s' c = Content_view s c.
Proof.
  intros E (t & Ht & [o Ho]). destruct c as [t'|l]; simpl in *.
  - injection Ht as ->. unfold Text_toMarkdown.
    by rewrite Ho, (prefix_lookup_Some _ _ _ _ Ho (ext_texts _ _ E)).
  - destruct (links s !! l) as [lo|] eqn:Hl; [|done]. simpl in Ht.
    injection Ht as <-.
    rewrite (prefix_lookup_Some _ _ _ _ Hl (ext_links _ _ E)).
    unfold Text_toMarkdown.
    by rewrite Ho, (prefix_lookup_Some _ _ _ _ Ho (ext_texts _ _ E)).
Qed.

(** The back-references of an element of paragraph [p]: a plain run
    names [p] as its parent, a link names [p] and its run names the
    link. *)
Definition ownedBy (s : Model) (p : nat) (c : Content) : Prop :=
  match c with
  | CText t => ∃ o, texts s !! t = Some o ∧ t_parent o = InParagraph p
  | CLink l =>
      ∃ lo o, links s !! l = Some lo ∧ l_parent lo = p
        ∧ texts s !! l_text lo = Some o ∧ t_parent o = InLink l
  end.

Lemma ownedBy_ext s s' p c : ext s s' → ownedBy s p c → ownedBy s' p c.
Proof.
  intros E. destruct c as [t|l]; simpl.
  - intros (o & Ho & Hp). exists o. split; [|done].
    eapply prefix_lookup_Some; [done|apply E].
  - intros (lo & o & Hlo & Hp & Ho & Hpo). exists lo, o.
    split; [eapply prefix_lookup_Some; [done|apply E]|].
    split; [done|]. split; [|done].
    eapply prefix_lookup_Some; [done|apply E].
Qed.

(** One round of the loop of [Paragraph.ofMarkdown] on an accepted
    node. *)
Lemma inline_ofMarkdown_run result x s qc :
  acceptedInline x = true →
  paragraphs s !! result = Some {| p_content := qc |} →
  ∃ c s1,
    (c <- (if decide (md_type x = link)
           then l <- Link_ofMarkdown result x;; ret (CLink l)
           else t <- Text_ofMarkdown (InParagraph result) x;; ret (CText t));;
     Paragraph_addContent result c) s
    = (Ok tt,
       set_paragraphs
         (λ ps, <[result := {| p_content := qc ++ [c] |}]> ps) s1)
    ∧ ext s s1 ∧ paragraphs s1 = paragraphs s
    ∧ resolved s1 c ∧ Content_view s1 c = runOf x
    ∧ ownedBy s1 result c ∧ ¬ allocated s c.
Proof.
  intros Hx Hq. unfold acceptedInline, runOf in *.
  destruct (decide (md_type x = link)) as [Hl|Hl];
    apply bool_decide_eq_true_1 in Hx.
  - unfold Link_ofMarkdown. rewrite decide_True by done.
    destruct (children x) as [|ch [|ch' chs]]; try done. simpl.
    exists (CLink (length (links s))),
      (set_links (λ ls,
         ls ++ [{| l_parent := result; l_text := length (texts s);
                   l_target := destinationText (md_destination x) |}])
         (set_texts (λ ts,
            ts ++ [{| t_parent := InLink (length (links s));
                      t_content := orSpace (literalText (md_literal ch)) |}])
            s)).
    split.
    { unfold Link_new. mrun. reflexivity. }
    split; [split; simpl; [by apply prefix_app_r|by apply prefix_app_r|done]|].
    split; [done|]. split.
    + eexists. simpl. rewrite lookup_app_r, Nat.sub_diag by lia. simpl.
      split; [done|]. rewrite lookup_app_r, Nat.sub_diag by lia. by eexists.
    + split; [|split; [|simpl; lia]].
      * simpl. rewrite lookup_app_r, Nat.sub_diag by lia. simpl.
        unfold Text_toMarkdown. simpl.
        by rewrite lookup_app_r, Nat.sub_diag by lia.
      * exists {| l_parent := result; l_text := length (texts s);
                  l_target := destinationText (md_destination x) |},
          {| t_parent := InLink (length (links s));
             t_content := orSpace (literalText (md_literal ch)) |}.
        simpl. by rewrite !lookup_app_r, !Nat.sub_diag by lia.
  - unfold Text_ofMarkdown. rewrite decide_True by done.
    exists (CText (length (texts s))),
      (set_texts (λ ts,
         ts ++ [{| t_parent := InParagraph result;
                   t_content := orSpace (literalText (md_literal x)) |}]) s).
    split.
    { mrun. reflexivity. }
    split; [split; simpl; [by apply prefix_app_r|done|done]|].
    split; [done|]. split.
    + eexists. simpl. split; [done|].
      rewrite lookup_app_r, Nat.sub_diag by lia. by eexists.
    + split; [|split; [|simpl; lia]].
      * simpl. unfold Text_toMarkdown. simpl.
        by rewrite lookup_app_r, Nat.sub_diag by lia.
      * simpl. rewrite lookup_app_r, Nat.sub_diag by lia. by eexists.
Qed.

Lemma inlines_ofMarkdown_run result xs : ∀ s qc,
  forallb acceptedInline xs = true →
  paragraphs s !! result = Some {| p_content := qc |} →
  ∃ cs s',
    forOf xs (λ x,
      c <- (if decide (md_type x = link)
            then l <- Link_ofMarkdown result x;; ret (CLink l)
            else t <- Text_ofMarkdown (InParagraph result) x;;
                 ret (CText t));;
      Paragraph_addContent result c) s = (Ok tt, s')
    ∧ ext s s'
    ∧ paragraphs s' = <[result := {| p_content := qc ++ cs |}]> (paragraphs s)
    ∧ Forall (resolved s') cs
    ∧ map (Content_view s') cs = map runOf xs.
Proof.
  induction xs as [|x xs IH]; intros s qc Hxs Hq; simpl in Hxs.
  { exists [], s. split; [done|]. split; [done|]. split; [|by split].
    rewrite app_nil_r. symmetry. by apply list_insert_id. }
  apply andb_prop in Hxs as [Hx Hxs].
  destruct (inline_ofMarkdown_run result x s qc Hx Hq)
    as (c & s1 & Hrun & E1 & Hp1 & Hres & Hview & _).
  set (s2 := set_paragraphs
               (λ ps, <[result := {| p_content := qc ++ [c] |}]> ps) s1)
    in *.
  destruct (IH s2 (qc ++ [c]) Hxs) as (cs & s' & Hloop & E2 & Hp' & Hrs & Hvs).
  { simpl. rewrite Hp1. apply list_lookup_insert_eq.
    by eapply lookup_lt_Some. }
  assert (ext s1 s') as E1'.
  { etrans; [apply (ext_set_paragraphs s1)|exact E2]. }
  exists (c :: cs), s'. split.
  { cbn [forOf]. by rewrite (bind_Ok _ _ _ _ _ Hrun). }
  split; [by etrans|]. split.
  { rewrite Hp'. simpl. rewrite Hp1, list_insert_insert_eq.
    by rewrite <-app_assoc. }
  split; [constructor; [by eapply resolved_ext|done]|].
  simpl. by rewrite (Content_view_ext _ _ _ E1' Hres), Hview, Hvs.
Qed.

(** Every paragraph of the document is there with its elements. *)
Definition attachedResolved (s : Model) : Prop :=
  ∀ p, p ∈ content s →
    ∃ po, paragraphs s !! p = Some po ∧ Forall (resolved s) (p_content po).

Lemma Paragraph_view_ext s s' p po :
  ext s s' → paragraphs s !! p = Some po → paragraphs s' !! p = Some po →
  Forall (resolved s) (p_content po) →
  Paragraph_view s' p = Paragraph_view s p.
Proof.
  intros E Hp Hp' Hres. unfold Paragraph_view. rewrite Hp, Hp'.
  apply Forall_fmap_ext_1. eapply Forall_impl; [exact Hres|].
  intros c Hc. by apply Content_view_ext.
Qed.

Lemma blocks_ofMarkdown_run pns : ∀ s,
  forallb acceptedBlock pns = true → attachedResolved s →
  ∃ s',
    forOf pns (λ pn, p <- Paragraph_ofMarkdown pn;; Model_addParagraph p) s
    = (Ok tt, s')
    ∧ attachedResolved s'
    ∧ Model_view s' = Model_view s ++ map (λ pn, map runOf (children pn)) pns.
Proof.
  induction pns as [|pn pns IH]; intros s Hall HJ; simpl in Hall.
  { exists s. split; [done|]. split; [done|]. simpl. by rewrite app_nil_r. }
  apply andb_prop in Hall as [Hpn Hall]. unfold acceptedBlock in Hpn.
  apply andb_prop in Hpn as [Hty Hin]. apply bool_decide_eq_true_1 in Hty.
  set (N := length (paragraphs s)).
  set (s0 := set_paragraphs (λ ps, ps ++ [{| p_content := [] |}]) s).
  destruct (inlines_ofMarkdown_run N (children pn) s0 [] Hin)
    as (cs & s1 & Hloop & E01 & Hp1 & Hres & Hview).
  { simpl. by rewrite lookup_app_r, Nat.sub_diag by (unfold N; lia). }
  assert (ext s s1) as E1.
  { etrans; [apply (ext_set_paragraphs s)|exact E01]. }
  simpl in Hp1.
  assert (paragraphs s1 !! N = Some {| p_content := cs |}) as HN1.
  { rewrite Hp1. apply list_lookup_insert_eq. rewrite length_app. simpl.
    unfold N. lia. }
  assert (∀ p po, paragraphs s !! p = Some po → paragraphs s1 !! p = Some po)
    as Hold.
  { intros p po Hp. pose proof (lookup_lt_Some _ _ _ Hp).
    rewrite Hp1, list_lookup_insert_ne by (unfold N; lia).
    by rewrite lookup_app_l. }
  set (s2 := set_content (λ c, c ++ [N]) s1).
  destruct (IH s2 Hall) as (s' & Hrest & HJ' & Hview').
  { intros p [Hp|Hp%list_elem_of_singleton]%elem_of_app.
    - rewrite (ext_content _ _ E1) in Hp.
      destruct (HJ p Hp) as (po & Hpo & Hr). exists po.
      split; [exact (Hold _ _ Hpo)|]. eapply Forall_impl; [exact Hr|].
      intros c Hc. exact (resolved_ext s s1 c E1 Hc).
    - subst p. by exists {| p_content := cs |}. }
  exists s'. split.
  { cbn [forOf]. rewrite (bind_Ok _ _ s tt s2); [done|].
    rewrite (bind_Ok _ _ s N s1); [done|].
    unfold Paragraph_ofMarkdown. rewrite decide_True by done.
    rewrite (bind_Ok _ _ s N s0) by done.
    by rewrite (bind_Ok _ _ _ _ _ Hloop). }
  split; [done|]. rewrite Hview'.
  assert (Model_view s2 = Model_view s ++ [map runOf (children pn)]) as ->.
  { unfold Model_view. simpl. rewrite (ext_content _ _ E1), map_app. simpl.
    f_equal.
    - apply Forall_fmap_ext_1, Forall_forall. intros p Hp.
      destruct (HJ p Hp) as (po & Hpo & Hr).
      exact (Paragraph_view_ext s s1 p po E1 Hpo (Hold _ _ Hpo) Hr).
    - f_equal. unfold Paragraph_view. simpl. by rewrite HN1. }
  by rewrite <-app_assoc.
Qed.

(** What [ofMarkdown] builds from an accepted tree: the paragraphs in
    order, each with the runs of its children in order; the literal of a
    text node is the text of its run, character for character when it is
    not empty. *)
Lemma ofMarkdown_builds d :
  accepted d = true →
  fst (ofMarkdown d) = Ok tt
  ∧ Model_view (snd (ofMarkdown d))
    = map (λ pn, map runOf (children pn)) (children d).
Proof.
  intros Hd. split; [by apply ofMarkdown_accepted_iff|].
  unfold accepted in Hd. apply andb_prop in Hd as [Hty Hall].
  apply bool_decide_eq_true_1 in Hty.
  destruct (blocks_ofMarkdown_run (children d) emptyModel Hall)
    as (s' & Hrun & _ & Hview).
  { intros p Hp. simpl in Hp. by apply elem_of_nil in Hp. }
  unfold ofMarkdown, Model_ofMarkdown. rewrite decide_True by done.
  by rewrite Hrun.
Qed.

Lemma ofMarkdown_attached d :
  accepted d = true → attachedResolved (snd (ofMarkdown d)).
Proof.
  intros Hd. unfold accepted in Hd. apply andb_prop in Hd as [Hty Hall].
  apply bool_decide_eq_true_1 in Hty.
  destruct (blocks_ofMarkdown_run (children d) emptyModel Hall)
    as (s' & Hrun & HJ & _).
  { intros p Hp. simpl in Hp. by apply elem_of_nil in Hp. }
  unfold ofMarkdown, Model_ofMarkdown. rewrite decide_True by done.
  by rewrite Hrun.
Qed.

(** ** The codec on trees *)

(** The markdown text of a document is a function of its runs. *)
Definition Run_toMarkdown (r : Run) : jsstring :=
  match r with
  | RText s => s
  | RLink s target => lit "[" ++ s ++ lit "](" ++ target ++ lit ")"
  end.

Definition view_toMarkdown (v : list (list Run)) : jsstring :=
  trim (concat (map (λ rs, [10; 10]%N ++ concat (map Run_toMarkdown rs)) v)).

Lemma Content_toMarkdown_view st c :
  resolved st c → Content_toMarkdown st c = Run_toMarkdown (Content_view st c).
Proof.
  intros (t & Ht & _). destruct c as [t'|l]; simpl in *; [done|].
  unfold Link_toMarkdown. by destruct (links st !! l).
Qed.

Lemma Model_toMarkdown_view st :
  attachedResolved st → Model_toMarkdown st = view_toMarkdown (Model_view st).
Proof.
  intros HJ. unfold Model_toMarkdown, view_toMarkdown, Model_view.
  f_equal. f_equal. rewrite map_map. apply Forall_fmap_ext_1, Forall_forall.
  intros p Hp. destruct (HJ p Hp) as (po & Hpo & Hres).
  unfold Paragraph_toMarkdown, Paragraph_view. rewrite Hpo. f_equal. f_equal.
  rewrite map_map. apply Forall_fmap_ext_1.
  eapply Forall_impl; [exact Hres|]. intros c. apply Content_toMarkdown_view.
Qed.

Lemma Inv_attachedResolved X st : InvX X st → attachedResolved st.
Proof.
  intros I p Hp.
  destruct (lookup_lt_is_Some_2 _ _ (inv_attached _ _ I _ Hp)) as [po Hpo].
  exists po. split; [done|].
  eapply Forall_impl; [exact (inv_contents _ _ I _ _ Hpo)|].
  intros c Hc. destruct (allocated_reads _ _ _ I Hc) as (str & Hr & _).
  by eapply reads_resolved.
Qed.

(** The tree of a document: a paragraph node for each paragraph, a text
    node for each plain run, a link node with one text child for each
    link. *)
Definition nodeOf (st : Model) (c : Content) : MarkdownNode :=
  match c with
  | CText t => MdNode text (Some (Text_toMarkdown st t)) None []
  | CLink l =>
      match links st !! l with
      | Some lo =>
          MdNode link None (Some (l_target lo))
            [MdNode text (Some (Text_toMarkdown st (l_text lo))) None []]
      | None => MdNode link None None []
      end
  end.

Definition treeOf (st : Model) : MarkdownNode :=
  MdNode document None None
    (map (λ p, MdNode paragraph None None
                 (map (nodeOf st)
                    (default [] (p_content <$> paragraphs st !! p))))
       (content st)).

Lemma runOf_nodeOf X st c :
  InvX X st → allocated st c →
  acceptedInline (nodeOf st c) = true
  ∧ runOf (nodeOf st c) = Content_view st c.
Proof.
  intros I Hc. destruct (allocated_reads _ _ _ I Hc) as (str & Hr & Hne).
  destruct Hr as (t & o & Ht & Ho & Hs). destruct c as [t'|l]; simpl in *.
  - injection Ht as ->. split; [done|]. unfold runOf. simpl.
    unfold Text_toMarkdown. rewrite Ho, Hs. by rewrite orSpace_id.
  - destruct (links st !! l) as [lo|]; [|done]. simpl in Ht.
    injection Ht as <-. split; [done|]. unfold runOf. simpl.
    unfold Text_toMarkdown. rewrite Ho, Hs. by rewrite orSpace_id.
Qed.

(** Parsing the tree of a document gives a document with the same runs,
    and so with the same markdown text. *)
Lemma treeOf_ofMarkdown st :
  Inv st →
  let st' := snd (ofMarkdown (treeOf st)) in
  fst (ofMarkdown (treeOf st)) = Ok tt
  ∧ Model_view st' = Model_view st
  ∧ Model_toMarkdown st' = Model_toMarkdown st.
Proof.
  intros I.
  assert (Forall (λ p, acceptedBlock
                    (MdNode paragraph None None
                       (map (nodeOf st)
                          (default [] (p_content <$> paragraphs st !! p))))
                  = true
                ∧ map runOf (map (nodeOf st)
                    (default [] (p_content <$> paragraphs st !! p)))
                  = Paragraph_view st p) (content st)) as Hps.
  { apply Forall_forall. intros p Hp.
    destruct (lookup_lt_is_Some_2 _ _ (inv_attached _ _ I _ Hp)) as [po Hpo].
    unfold Paragraph_view. rewrite Hpo. simpl.
    pose proof (inv_contents _ _ I _ _ Hpo) as Hall.
    unfold acceptedBlock. simpl.
    induction Hall as [|c cs Hc _ [IH1 IH2]]; [done|]. simpl.
    destruct (runOf_nodeOf _ _ _ I Hc) as [-> ->].
    by rewrite IH1, IH2. }
  assert (accepted (treeOf st) = true) as Hacc.
  { unfold accepted. simpl. apply forallb_forall.
    intros pn (p & <- & Hp)%in_map_iff. rewrite Forall_forall in Hps.
    apply Hps. by apply list_elem_of_In. }
  destruct (ofMarkdown_builds _ Hacc) as [Hok Hview].
  assert (Model_view (snd (ofMarkdown (treeOf st))) = Model_view st) as Hv.
  { rewrite Hview. simpl. rewrite map_map. unfold Model_view.
    apply Forall_fmap_ext_1. eapply Forall_impl; [exact Hps|].
    by intros p [_ Hp]. }
  split; [done|]. split; [done|].
  rewrite (Model_toMarkdown_view _ (ofMarkdown_attached _ Hacc)), Hv.
  symmetry. apply Model_toMarkdown_view. by eapply Inv_attachedResolved.
Qed.

(** * Further properties of the component *)

(** ** The parser *)

(** X1: [ofMarkdown] goes through without a fault exactly on the trees
    whose root is a document, whose top-level children are all paragraphs
    and whose inline children are all either text nodes or links with
    exactly one child (of whatever type); on every other tree it
    faults. *)
Theorem ofMarkdown_faults_iff d :
  (fst (ofMarkdown d) = Ok tt ↔ accepted d = true)
  ∧ ((∃ f, fst (ofMarkdown d) = Err f) ↔ accepted d = false).
Proof.
  pose proof (ofMarkdown_accepted_iff d) as H. split; [done|].
  destruct (fst (ofMarkdown d)) as [[]|f] eqn:E.
  - split; [by intros [f [=]]|]. intros Hd.
    rewrite (proj1 H eq_refl) in Hd. discriminate.
  - split; [|by eexists]. intros _. destruct (accepted d); [|done].
    by pose proof (proj2 H eq_refl).
Qed.

(** X2: from an accepted tree [ofMarkdown] builds the document that has
    one paragraph for each paragraph node, in order, and in it one run for
    each inline child, in order: a text run with the literal of a text
    node, a link with the literal of the link's child and the link's
    destination.  An empty or missing literal gives the placeholder
    space. *)
Theorem ofMarkdown_document d :
  accepted d = true →
  Model_view (snd (ofMarkdown d))
  = map (λ pn, map runOf (children pn)) (children d).
Proof. intros Hd. by apply ofMarkdown_builds. Qed.

Lemma ofMarkdown_document_witness :
  Model_view (snd (ofMarkdown
    (mdDocument [mdParagraph [mdText "ab"; mdLink "x" [mdText "cd"]];
                 mdParagraph [mdText "ef"]])))
  = [[RText (lit "ab"); RLink (lit "cd") (lit "x")]; [RText (lit "ef")]].
Proof.
  exact (ofMarkdown_document
    (mdDocument [mdParagraph [mdText "ab"; mdLink "x" [mdText "cd"]];
                 mdParagraph [mdText "ef"]]) eq_refl).
Defined.

Lemma pres_inline_ofMarkdown X result x :
  pres X (c <- (if decide (md_type x = link)
                then l <- Link_ofMarkdown result x;; ret (CLink l)
                else t <- Text_ofMarkdown (InParagraph result) x;;
                     ret (CText t));;
          Paragraph_addContent result c).
Proof.
  apply (presQ_bind X _ (λ c st, allocated st c)).
  - unfold presQ. destruct (decide (md_type x = link)).
    + eapply triple_bind;
        [|intros l; apply triple_ret; intros st H; exact H].
      unfold Link_ofMarkdown. destruct (decide (md_type x = link));
        [|by apply triple_throw].
      destruct (children x) as [|ch [|ch' chs]];
        [by apply triple_throw| |by apply triple_throw].
      apply presQ_Link_new.
    + eapply triple_bind;
        [|intros l; apply triple_ret; intros st H; exact H].
      unfold Text_ofMarkdown. destruct (decide (md_type x = text));
        [|by apply triple_throw].
      apply presQ_Text_new.
  - intros c. eapply triple_post; [apply triple_Paragraph_addContent|].
    by intros [] st [I _].
Qed.

Lemma pres_Paragraph_ofMarkdown X pn : pres X (Paragraph_ofMarkdown pn).
Proof.
  unfold Paragraph_ofMarkdown. destruct (decide (md_type pn = paragraph));
    [|apply pres_throw].
  apply pres_bind; [apply pres_Paragraph_new|]. intros result.
  apply pres_bind; [|intros; apply pres_ret].
  apply pres_forOf. intros x. apply pres_inline_ofMarkdown.
Qed.

Lemma Paragraph_ofMarkdown_run pn s :
  acceptedBlock pn = true →
  ∃ cs s1,
    Paragraph_ofMarkdown pn s = (Ok (length (paragraphs s)), s1)
    ∧ paragraphs s1 !! length (paragraphs s) = Some {| p_content := cs |}
    ∧ length cs = length (children pn).
Proof.
  intros Hpn. unfold acceptedBlock in Hpn.
  apply andb_prop in Hpn as [Hty Hin]. apply bool_decide_eq_true_1 in Hty.
  set (N := length (paragraphs s)).
  set (s0 := set_paragraphs (λ ps, ps ++ [{| p_content := [] |}]) s).
  destruct (inlines_ofMarkdown_run N (children pn) s0 [] Hin)
    as (cs & s1 & Hloop & _ & Hp1 & _ & Hview).
  { simpl. by rewrite lookup_app_r, Nat.sub_diag by (unfold N; lia). }
  exists cs, s1. split; [|split].
  - unfold Paragraph_ofMarkdown. rewrite decide_True by done.
    rewrite (bind_Ok _ _ s N s0) by done.
    by rewrite (bind_Ok _ _ _ _ _ Hloop).
  - rewrite Hp1. simpl. apply list_lookup_insert_eq. rewrite length_app.
    simpl. unfold N. lia.
  - apply (f_equal length) in Hview. by rewrite !length_map in Hview.
Qed.

Lemma blocks_ofMarkdown_Inv pns : ∀ s,
  forallb acceptedBlock pns = true →
  Forall (λ pn, children pn ≠ []) pns →
  Inv s →
  Inv (snd (forOf pns
              (λ pn, p <- Paragraph_ofMarkdown pn;; Model_addParagraph p) s)).
Proof.
  induction pns as [|pn pns IH]; intros s Hall Hne I; simpl in Hall;
    [done|].
  apply andb_prop in Hall as [Hpn Hall]. apply Forall_cons in Hne as [Hc Hne].
  destruct (Paragraph_ofMarkdown_run pn s Hpn) as (cs & s1 & Hrun & HN & Hlen).
  pose proof (pres_Paragraph_ofMarkdown None pn s I) as I1.
  rewrite Hrun in I1. cbn [forOf].
  rewrite (bind_Ok _ _ s tt (set_content (λ c, c ++ [length (paragraphs s)]) s1)).
  - apply IH; [done|done|].
    eapply InvX_content_push; [exact HN| |exact I1].
    intros _. simpl. destruct cs; [|done]. by destruct (children pn).
  - by rewrite (bind_Ok _ _ _ _ _ Hrun).
Qed.

Lemma Inv_emptyModel : Inv emptyModel.
Proof.
  split; simpl; try done. intros p H. by apply elem_of_nil in H.
Qed.

Lemma Inv_ofMarkdown d :
  accepted d = true →
  Forall (λ pn, children pn ≠ []) (children d) →
  Inv (snd (ofMarkdown d)).
Proof.
  intros Hd Hne. unfold accepted in Hd. apply andb_prop in Hd as [Hty Hall].
  apply bool_decide_eq_true_1 in Hty.
  unfold ofMarkdown, Model_ofMarkdown. rewrite decide_True by done.
  apply blocks_ofMarkdown_Inv; [done|done|apply Inv_emptyModel].
Qed.

Lemma accepted_documentOf ps :
  forallb (forallb acceptedInline) ps = true →
  accepted (mdDocument (map mdParagraph ps)) = true.
Proof.
  intros H. unfold accepted. simpl. induction ps as [|cs ps IH]; [done|].
  simpl in *. apply andb_prop in H as [H1 H2].
  unfold acceptedBlock at 1. simpl. by rewrite H1, IH.
Qed.

Lemma Inv_documentOf ps :
  forallb (forallb acceptedInline) ps = true →
  Forall (λ cs, cs ≠ []) ps → Inv (documentOf ps).
Proof.
  intros H Hne. apply Inv_ofMarkdown; [by apply accepted_documentOf|].
  simpl. by apply Forall_fmap.
Qed.

(** X3: the document [ofMarkdown] builds from an accepted tree in which
    every paragraph node has a child is well formed: every paragraph has
    content, every run has at least one character, every link has its
    run. *)
Theorem ofMarkdown_wellformed d :
  accepted d = true →
  Forall (λ pn, children pn ≠ []) (children d) →
  Inv (snd (ofMarkdown d)) ∧ nonEmptyInvariants (snd (ofMarkdown d)).
Proof.
  intros Hd Hne. pose proof (Inv_ofMarkdown d Hd Hne) as I.
  split; [done|by apply Inv_nonEmptyInvariants].
Qed.

Lemma ofMarkdown_wellformed_witness :
  let d := mdDocument [mdParagraph [mdText "ab"; mdLink "x" [mdText "cd"]]] in
  Inv (snd (ofMarkdown d)) ∧ nonEmptyInvariants (snd (ofMarkdown d)).
Proof.
  apply (ofMarkdown_wellformed
    (mdDocument [mdParagraph [mdText "ab"; mdLink "x" [mdText "cd"]]])).
  - reflexivity.
  - repeat constructor. discriminate.
Defined.

(** ** Editing the text of one run *)

Lemma jslength_take_drop (c : jsstring) (a b : Z) :
  0 <= a <= b → b <= jslength c →
  jslength (take (Z.to_nat a) c ++ drop (Z.to_nat b) c)
  = jslength c - (b - a).
Proof.
  unfold jslength. intros Ha Hb.
  rewrite length_app, length_take, length_drop. lia.
Qed.

Lemma removeRange_inside st t o start end_ :
  texts st !! t = Some o →
  0 <= start <= end_ → end_ <= jslength (t_content o) →
  ¬ (start = 0 ∧ end_ = jslength (t_content o)) →
  let rest := take (Z.to_nat start) (t_content o)
              ++ drop (Z.to_nat end_) (t_content o) in
  Text_removeRange t start end_ st
  = (Ok (Some {| pt_text := t; pt_offset := start |}),
     set_texts (λ ts,
       <[t := {| t_parent := t_parent o; t_content := rest |}]> ts) st)
  ∧ jslength rest = jslength (t_content o) - (end_ - start)
  ∧ rest ≠ [].
Proof.
  intros Ht Hs He Hwhole rest.
  pose proof (jslength_take_drop (t_content o) start end_ Hs He) as Hlen.
  fold rest in Hlen.
  assert (rest ≠ []) as Hne.
  { intros E. rewrite E in Hlen. change (jslength []) with 0 in Hlen. lia. }
  split; [|by split]. unfold Text_removeRange.
  rewrite (bind_Ok _ _ _ _ _ (Text_content_Ok _ _ _ Ht)).
  destruct (Z.ltb_spec start 0) as [|_]; [lia|].
  destruct (Z.ltb_spec (jslength (t_content o)) end_) as [|_]; [lia|].
  simpl.
  destruct (Z.eqb_spec start 0) as [E0|_];
    [destruct (Z.eqb_spec end_ (jslength (t_content o))); [tauto|]|];
    simpl;
    rewrite (bind_Ok _ _ _ _ _ (Text_setContent_Ok _ _ _ _ Ht));
    unfold ret, substringFrom;
    rewrite substring_prefix, substring_suffix;
    unfold jslength in *; rewrite !clamp_in by lia;
    fold rest; by rewrite orSpace_id.
Qed.

(** X4: for a range in order and inside the run that is not the whole
    run, [removeRange(start, end)] takes exactly the characters from
    [start] up to [end] out of the run, leaves everything else in the
    document as it is, and returns the Point at [start] of the run; the
    run gets shorter by [end - start] and is not left empty. *)
Theorem removeRange_deletes st t o start end_ :
  texts st !! t = Some o →
  0 <= start <= end_ → end_ <= jslength (t_content o) →
  ¬ (start = 0 ∧ end_ = jslength (t_content o)) →
  let rest := take (Z.to_nat start) (t_content o)
              ++ drop (Z.to_nat end_) (t_content o) in
  Text_removeRange t start end_ st
  = (Ok (Some {| pt_text := t; pt_offset := start |}),
     set_texts (λ ts,
       <[t := {| t_parent := t_parent o; t_content := rest |}]> ts) st)
  ∧ jslength rest = jslength (t_content o) - (end_ - start)
  ∧ rest ≠ [].
Proof. apply removeRange_inside. Qed.

Lemma removeRange_deletes_witness :
  let st := documentOf [[mdText "abcd"]] in
  Text_removeRange 0 1 3 st
  = (Ok (Some {| pt_text := 0%nat; pt_offset := 1 |}),
     set_texts (λ ts,
       <[0%nat := {| t_parent := InParagraph 0; t_content := lit "ad" |}]> ts)
       st)
  ∧ jslength (lit "ad") = jslength (lit "abcd") - (3 - 1)
  ∧ lit "ad" ≠ [].
Proof.
  apply (removeRange_deletes (documentOf [[mdText "abcd"]]) 0
           {| t_parent := InParagraph 0; t_content := lit "abcd" |} 1 3).
  - reflexivity.
  - lia.
  - unfold jslength. simpl. lia.
  - unfold jslength. simpl. lia.
Defined.

(** X5: [insertChar(ch, offset)] at an offset inside the run (its ends
    included) puts [ch] between the characters before and after the
    offset, changes nothing else, and returns the Point behind the
    inserted text for a single character, at [offset + 1]. *)
Theorem insertChar_inserts st t o ch offset :
  texts st !! t = Some o →
  0 <= offset <= jslength (t_content o) →
  ch ≠ [] →
  Text_insertChar t ch offset st
  = (Ok {| pt_text := t; pt_offset := offset + 1 |},
     set_texts (λ ts,
       <[t := {| t_parent := t_parent o;
                 t_content := take (Z.to_nat offset) (t_content o) ++ ch
                              ++ drop (Z.to_nat offset) (t_content o) |}]> ts)
       st).
Proof.
  intros Ht Ho Hch. unfold Text_insertChar.
  rewrite (bind_Ok _ _ _ _ _ (Text_content_Ok _ _ _ Ht)).
  rewrite (bind_Ok _ _ _ _ _ (Text_setContent_Ok _ _ _ _ Ht)).
  rewrite (within_run _ _ Ho).
  unfold ret. rewrite substring_prefix, substring_suffix.
  unfold jslength in Ho. rewrite !clamp_in by lia.
  rewrite orSpace_id; [done|].
  intros [_ [E _]%app_eq_nil]%app_eq_nil. done.
Qed.

Lemma insertChar_inserts_witness :
  let st := documentOf [[mdText "hello world"]] in
  Text_insertChar 0 (lit ",") 5 st
  = (Ok {| pt_text := 0%nat; pt_offset := 5 + 1 |},
     set_texts (λ ts,
       <[0%nat := {| t_parent := InParagraph 0;
                     t_content := lit "hello, world" |}]> ts) st).
Proof.
  apply (insertChar_inserts (documentOf [[mdText "hello world"]]) 0
           {| t_parent := InParagraph 0; t_content := lit "hello world" |}
           (lit ",") 5).
  - reflexivity.
  - unfold jslength. simpl. lia.
  - discriminate.
Defined.

(** X6: in a run of two or more characters, [removeNextChar(offset)] at
    an offset before the end takes out the character at the offset and
    returns the Point at the offset, and [removePreviousChar(offset)] at an
    offset behind the start takes out the character before the offset and
    returns the Point one to the left.  An offset outside the run is not
    clamped: a negative offset makes [removeNextChar] signal the
    out-of-bounds fault, and an offset beyond the length makes
    [removePreviousChar] signal it. *)
Theorem removeChar_in_run st t o offset :
  texts st !! t = Some o →
  2 <= jslength (t_content o) →
  let c := t_content o in
  let without (i : Z) :=
    set_texts (λ ts,
      <[t := {| t_parent := t_parent o;
                t_content := take (Z.to_nat i) c
                             ++ drop (Z.to_nat (i + 1)) c |}]> ts) st in
  (0 <= offset < jslength c →
   Text_removeNextChar t offset st
   = (Ok (Some {| pt_text := t; pt_offset := offset |}), without offset))
  ∧ (0 < offset <= jslength c →
     Text_removePreviousChar t offset st
     = (Ok (Some {| pt_text := t; pt_offset := offset - 1 |}),
        without (offset - 1)))
  ∧ (offset < 0 →
     fst (Text_removeNextChar t offset st) = Err RemoveRangeNotInBounds)
  ∧ (jslength c < offset →
     fst (Text_removePreviousChar t offset st) = Err RemoveRangeNotInBounds).
Proof.
  intros Ht Hlen c without. subst c.
  repeat split.
  - intros Ho. unfold Text_removeNextChar.
    rewrite (bind_Ok _ _ _ _ _ (Text_length_Ok _ _ _ Ht)).
    destruct (Z.leb_spec (jslength (t_content o)) offset); [lia|].
    destruct (removeRange_inside st t o offset (offset + 1) Ht) as [-> _];
      try lia.
    done.
  - intros Ho. unfold Text_removePreviousChar.
    destruct (Z.leb_spec offset 0); [lia|].
    destruct (removeRange_inside st t o (offset - 1) offset Ht) as [-> _];
      try lia.
    unfold without. by replace (offset - 1 + 1) with offset by lia.
  - intros Ho. unfold Text_removeNextChar.
    rewrite (bind_Ok _ _ _ _ _ (Text_length_Ok _ _ _ Ht)).
    destruct (Z.leb_spec (jslength (t_content o)) offset); [lia|].
    apply (removeRange_fault_iff _ _ _ _ _ Ht). lia.
  - intros Ho. unfold Text_removePreviousChar.
    destruct (Z.leb_spec offset 0); [lia|].
    apply (removeRange_fault_iff _ _ _ _ _ Ht). lia.
Qed.

Lemma removeChar_in_run_witness :
  let st := documentOf [[mdText "abc"]] in
  let without (i : Z) :=
    set_texts (λ ts,
      <[0%nat := {| t_parent := InParagraph 0;
                    t_content := take (Z.to_nat i) (lit "abc")
                                 ++ drop (Z.to_nat (i + 1)) (lit "abc") |}]>
        ts) st in
  (0 <= 1 < jslength (lit "abc") →
   Text_removeNextChar 0 1 st
   = (Ok (Some {| pt_text := 0%nat; pt_offset := 1 |}), without 1))
  ∧ (0 < 1 <= jslength (lit "abc") →
     Text_removePreviousChar 0 1 st
     = (Ok (Some {| pt_text := 0%nat; pt_offset := 1 - 1 |}),
        without (1 - 1)))
  ∧ (1 < 0 →
     fst (Text_removeNextChar 0 1 st) = Err RemoveRangeNotInBounds)
  ∧ (jslength (lit "abc") < 1 →
     fst (Text_removePreviousChar 0 1 st) = Err RemoveRangeNotInBounds).
Proof.
  apply (removeChar_in_run (documentOf [[mdText "abc"]]) 0
           {| t_parent := InParagraph 0; t_content := lit "abc" |} 1).
  - reflexivity.
  - unfold jslength. simpl. lia.
Defined.

(** ** The document as a tree *)

(** The object graph is a tree: the elements of every paragraph point
    back to it, and no element occurs twice in a paragraph. *)
Record Tree (s : Model) : Prop := {
  tree_owned : ∀ p po, paragraphs s !! p = Some po →
    Forall (ownedBy s p) (p_content po);
  tree_nodup : ∀ p po, paragraphs s !! p = Some po → NoDup (p_content po)
}.

Lemma ownedBy_allocated s p c : ownedBy s p c → allocated s c.
Proof.
  destruct c as [t|l]; simpl.
  - intros (o & Ho & _). by eapply lookup_lt_Some.
  - intros (lo & o & Hlo & _). by eapply lookup_lt_Some.
Qed.

Lemma ownedBy_resolved s p c : ownedBy s p c → resolved s c.
Proof.
  destruct c as [t|l]; simpl.
  - intros (o & Ho & _). exists t. split; [done|by eexists].
  - intros (lo & o & Hlo & _ & Ho & _). exists (l_text lo). simpl.
    rewrite Hlo. split; [done|by eexists].
Qed.

(** The text runs of the elements of a paragraph are pairwise different,
    and they are different from the runs of another paragraph. *)
Lemma ownedBy_textOf_inj s p q c c' x :
  ownedBy s p c → ownedBy s q c' →
  textOf s c = Some x → textOf s c' = Some x → p = q ∧ c = c'.
Proof.
  destruct c as [t|l], c' as [t'|l']; simpl.
  - intros (o & Ho & Hp) (o' & Ho' & Hp') [= ->] [= ->].
    split; [congruence|done].
  - intros (o & Ho & Hp) (lo & o' & Hlo & _ & Ho' & Hp') [= ->].
    rewrite Hlo. simpl. intros [= E]. congruence.
  - intros (lo & o' & Hlo & _ & Ho' & Hp') (o & Ho & Hp).
    rewrite Hlo. simpl. intros [= E] [= ->]. congruence.
  - intros (lo & o & Hlo & Hp & Ho & Hpo) (lo' & o' & Hlo' & Hp' & Ho' & Hpo').
    rewrite Hlo, Hlo'. simpl. intros [= E] [= E']. subst x.
    rewrite E' in Ho'. assert (l = l') as -> by congruence.
    split; [congruence|done].
Qed.

Lemma Tree_NoDup_textOf s p po :
  Tree s → paragraphs s !! p = Some po →
  NoDup (map (textOf s) (p_content po)).
Proof.
  intros T Hp. pose proof (tree_owned _ T _ _ Hp) as Hown.
  pose proof (tree_nodup _ T _ _ Hp) as Hnd.
  induction Hnd as [|c cs Hc Hnd IH]; simpl; [constructor|].
  apply Forall_cons in Hown as [Hoc Hown]. constructor; [|by apply IH].
  intros (c' & Heq & Hin)%list_elem_of_fmap. apply Hc.
  rewrite Forall_forall in Hown.
  destruct (ownedBy_resolved _ _ _ Hoc) as (x & Hx & _).
  rewrite Hx in Heq.
  destruct (ownedBy_textOf_inj _ _ _ _ _ _ Hoc (Hown _ Hin) Hx (eq_sym Heq))
    as [_ ->].
  done.
Qed.

Lemma Tree_inline_ofMarkdown result x s :
  acceptedInline x = true → is_Some (paragraphs s !! result) → Tree s →
  let s' := snd ((c <- (if decide (md_type x = link)
                        then l <- Link_ofMarkdown result x;; ret (CLink l)
                        else t <- Text_ofMarkdown (InParagraph result) x;;
                             ret (CText t));;
                  Paragraph_addContent result c) s) in
  Tree s' ∧ is_Some (paragraphs s' !! result).
Proof.
  intros Hx [[qc] Hq] T.
  destruct (inline_ofMarkdown_run result x s qc Hx Hq)
    as (c & s1 & Hrun & E1 & Hp1 & _ & _ & Hown & Hfresh).
  rewrite Hrun. cbn [snd]. split.
  2:{ simpl. apply lookup_lt_is_Some. rewrite length_insert, Hp1.
      by eapply lookup_lt_Some. }
  pose proof (tree_owned _ T _ _ Hq) as Hqc. simpl in Hqc.
  split; simpl; intros p po Hp; rewrite Hp1 in Hp.
  - destruct (decide (p = result)) as [->|Hne].
    + rewrite list_lookup_insert_eq in Hp by (by eapply lookup_lt_Some).
      injection Hp as <-. simpl. apply Forall_app. split; [|by constructor].
      eapply Forall_impl; [exact Hqc|]. intros c'.
      apply (ownedBy_ext s s1 result c' E1).
    + rewrite list_lookup_insert_ne in Hp by done.
      eapply Forall_impl; [exact (tree_owned _ T _ _ Hp)|]. intros c'.
      apply (ownedBy_ext s s1 p c' E1).
  - destruct (decide (p = result)) as [->|Hne].
    + rewrite list_lookup_insert_eq in Hp by (by eapply lookup_lt_Some).
      injection Hp as <-. simpl. apply NoDup_app. split; [|split].
      * exact (tree_nodup _ T _ _ Hq).
      * intros c' Hc' ->%list_elem_of_singleton. apply Hfresh.
        rewrite Forall_forall in Hqc.
        by eapply ownedBy_allocated, Hqc.
      * apply NoDup_singleton.
    + rewrite list_lookup_insert_ne in Hp by done.
      exact (tree_nodup _ T _ _ Hp).
Qed.

Lemma Tree_inlines_ofMarkdown result xs : ∀ s,
  forallb acceptedInline xs = true → is_Some (paragraphs s !! result) →
  Tree s →
  Tree (snd (forOf xs (λ x,
    c <- (if decide (md_type x = link)
          then l <- Link_ofMarkdown result x;; ret (CLink l)
          else t <- Text_ofMarkdown (InParagraph result) x;;
               ret (CText t));;
    Paragraph_addContent result c) s)).
Proof.
  induction xs as [|x xs IH]; intros s Hxs Hq T; simpl in Hxs; [done|].
  apply andb_prop in Hxs as [Hx Hxs].
  destruct (Tree_inline_ofMarkdown result x s Hx Hq T) as [T' Hq'].
  destruct Hq as [[qc] Hq].
  destruct (inline_ofMarkdown_run result x s qc Hx Hq)
    as (c & s1 & Hrun & _).
  rewrite Hrun in T', Hq'. cbn [snd] in T', Hq'. cbn [forOf].
  rewrite (bind_Ok _ _ _ _ _ Hrun). by apply IH.
Qed.

Lemma Tree_blocks_ofMarkdown pns : ∀ s,
  forallb acceptedBlock pns = true → Tree s →
  Tree (snd (forOf pns
               (λ pn, p <- Paragraph_ofMarkdown pn;; Model_addParagraph p)
               s)).
Proof.
  induction pns as [|pn pns IH]; intros s Hall T; simpl in Hall; [done|].
  apply andb_prop in Hall as [Hpn Hall].
  destruct (Paragraph_ofMarkdown_run pn s Hpn) as (cs & s1 & Hrun & _).
  cbn [forOf].
  rewrite (bind_Ok _ _ s tt
    (set_content (λ c, c ++ [length (paragraphs s)]) s1))
    by (by rewrite (bind_Ok _ _ _ _ _ Hrun)).
  apply IH; [done|].
  assert (Tree s1) as [T1 T2]; [|by split].
  unfold acceptedBlock in Hpn. apply andb_prop in Hpn as [Hty Hin].
  apply bool_decide_eq_true_1 in Hty.
  unfold Paragraph_ofMarkdown in Hrun. rewrite decide_True in Hrun by done.
  set (s0 := set_paragraphs (λ ps, ps ++ [{| p_content := [] |}]) s).
  rewrite (bind_Ok _ _ s (length (paragraphs s)) s0) in Hrun by done.
  assert (paragraphs s0 !! length (paragraphs s)
          = Some {| p_content := [] |}) as Hq0.
  { simpl. by rewrite lookup_app_r, Nat.sub_diag by lia. }
  pose proof (Tree_inlines_ofMarkdown (length (paragraphs s)) (children pn)
                s0 Hin (mk_is_Some _ _ Hq0)) as T0.
  destruct (inlines_ofMarkdown_run (length (paragraphs s)) (children pn)
              s0 [] Hin Hq0) as (cs' & s1' & Hloop & _).
  rewrite (bind_Ok _ _ _ _ _ Hloop) in Hrun. injection Hrun as <-.
  rewrite Hloop in T0. apply T0.
  - destruct T as [T1 T2]. split; simpl; intros p po Hp.
    + apply lookup_app_Some in Hp as [Hp|[_ Hp]]; [by eapply T1|].
      apply list_lookup_singleton_Some in Hp as [_ <-]. constructor.
    + apply lookup_app_Some in Hp as [Hp|[_ Hp]]; [by eapply T2|].
      apply list_lookup_singleton_Some in Hp as [_ <-]. constructor.
Qed.

Lemma Tree_ofMarkdown d : accepted d = true → Tree (snd (ofMarkdown d)).
Proof.
  intros Hd. unfold accepted in Hd. apply andb_prop in Hd as [Hty Hall].
  apply bool_decide_eq_true_1 in Hty.
  unfold ofMarkdown, Model_ofMarkdown. rewrite decide_True by done.
  apply Tree_blocks_ofMarkdown; [done|].
  split; simpl; intros p po Hp; by rewrite lookup_nil in Hp.
Qed.

(** ** Joining paragraphs *)

Lemma triple_keep {A} (R : relation Model) (F : Model → Prop) (m : M A) :
  rel R m → (∀ st st', R st st' → F st → F st') →
  triple F m (λ _, F) (λ _, True).
Proof.
  intros HR HF st H. specialize (HR st).
  destruct (m st) as [[a|f] st']; simpl in *; eauto.
Qed.

(** A merge that goes through takes the other paragraph, and nothing
    else, out of the document. *)
Lemma combineWith_content N p s pt s' :
  N ≠ p → Paragraph_combineWith N p s = (Ok pt, s') →
  content s' = remove (content s) p.
Proof.
  intros HNp Hrun.
  assert (triple (λ st, content st = content s) (Paragraph_combineWith N p)
            (λ _ st, content st = remove (content s) p) (λ _, True)) as H.
  { unfold Paragraph_combineWith. rewrite decide_False by done.
    assert (∀ A (m : M A), rel sameContent m →
              triple (λ st, content st = content s) m
                (λ _ st, content st = content s) (λ _, True)) as keep.
    { intros A m Hm. apply (triple_keep sameContent); [done|].
      intros st st' H1 H2. by rewrite H1. }
    eapply triple_bind; [apply keep; rel_go|]. intros cs.
    destruct (last cs) as [lastOfThis|]; [|by apply triple_throw].
    eapply triple_bind; [apply keep; rel_go|]. intros lt.
    eapply triple_bind; [apply keep; rel_go|]. intros lc.
    eapply triple_bind; [apply keep; rel_go|]. intros others.
    eapply triple_bind; [apply keep; apply sameContent_combineLoop|].
    intros [].
    eapply triple_bind with (Q := λ _ st, content st = remove (content s) p).
    - intros st Hst. unfold Paragraph_remove, Model_removeContent, bind, get.
      destruct (decide (p ∈ content st)); simpl; [by rewrite Hst|done].
    - intros [].
      eapply triple_bind;
        [apply (triple_keep sameContent
                  (λ st, content st = remove (content s) p));
           [rel_go|intros ? ? H1 H2; by rewrite H1]|].
      intros lt'. by apply triple_ret. }
  specialize (H s eq_refl). by rewrite Hrun in H.
Qed.

Lemma combineLoop_first_copy q lastOfThis cs :
  (∀ x ct post, lastOfThis = CText x → cs ≠ CText ct :: post) →
  combineLoop q lastOfThis true cs = combineLoop q lastOfThis false cs.
Proof.
  intros H. destruct cs as [|c cs]; [done|]. simpl.
  destruct lastOfThis as [x|l]; [|done].
  destruct c as [ct|cl]; [|done]. by destruct (H x ct cs).
Qed.

Lemma Tree_other_paragraph s N p nc pc x :
  Tree s → N ≠ p →
  paragraphs s !! N = Some {| p_content := nc |} →
  paragraphs s !! p = Some {| p_content := pc |} →
  CText x ∈ nc → Forall (λ c', textOf s c' ≠ Some x) pc.
Proof.
  intros T HNp HN Hp Hx. apply Forall_forall. intros c' Hc' Heq.
  pose proof (tree_owned _ T _ _ HN) as HoN.
  pose proof (tree_owned _ T _ _ Hp) as Hop.
  rewrite Forall_forall in HoN, Hop.
  by destruct (ownedBy_textOf_inj _ _ _ _ _ _ (HoN _ Hx) (Hop _ Hc')
                 eq_refl Heq).
Qed.

Lemma combineWith_joins_run s N p nc pc :
  Inv s → Tree s → N ≠ p → p ∈ content s →
  paragraphs s !! N = Some {| p_content := nc |} → nc ≠ [] →
  paragraphs s !! p = Some {| p_content := pc |} →
  (∀ x ct, last nc = Some (CText x) → head pc = Some (CText ct) →
     isEmpty (trim (Text_toMarkdown s x)) = false) →
  ∃ pt s', Paragraph_combineWith N p s = (Ok pt, s')
    ∧ Paragraph_plainText s' N
      = Paragraph_plainText s N ++ Paragraph_plainText s p
    ∧ content s' = remove (content s) p.
Proof.
  intros I T HNp Hin HN Hne Hp Hws.
  destruct (allocated_readsAll _ _ _ I (inv_contents _ _ I _ _ HN))
    as (sn & Hrn & _).
  destruct (allocated_readsAll _ _ _ I (inv_contents _ _ I _ _ Hp))
    as (sp & Hrp & Hnep).
  simpl in Hrn, Hrp.
  rewrite (plainText_of_reads _ _ _ _ HN Hrn), (plainText_of_reads _ _ _ _ Hp Hrp).
  destruct nc as [|lastC front _] using rev_ind; [done|]. clear Hne.
  apply Forall2_app_inv_l in Hrn as (sfront & sl & Hrf & Hrl & ->).
  apply Forall2_cons_inv_l in Hrl as (sl' & ? & Hrl & Hnil & ->).
  apply Forall2_nil_inv_l in Hnil as ->.
  assert (∃ pt s', Paragraph_combineWith N p s = (Ok pt, s')
            ∧ Paragraph_plainText s' N
              = concat (sfront ++ [sl']) ++ concat sp) as (pt & s' & Hrun & Hread).
  2:{ exists pt, s'. split; [done|]. split; [done|].
      by eapply combineWith_content. }
  assert ((∃ x ct post, lastC = CText x ∧ pc = CText ct :: post)
          ∨ (∀ x ct post, lastC = CText x → pc ≠ CText ct :: post))
    as [(x & ct & post & -> & ->)|Hcopy].
  { destruct lastC as [x|l]; [|by right].
    destruct pc as [|[ct|cl] post]; [by right|by eauto 6|by right]. }
  - destruct Hrl as (x' & ox & [= <-] & Hox & <-).
    apply Forall2_cons_inv_l in Hrp as (sc & spost & Hrc & Hrpost & ->).
    apply Forall_cons in Hnep as [Hnec Hnepost].
    pose proof (Tree_NoDup_textOf _ _ _ T HN) as Hnd. simpl in Hnd.
    rewrite map_app in Hnd. apply NoDup_app in Hnd as (_ & Hdis & _).
    pose proof (Tree_other_paragraph s N p _ _ x T HNp HN Hp) as Hother.
    apply Forall_cons in Hother as [_ Hother].
    2:{ apply elem_of_app. right. apply list_elem_of_here. }
    destruct (combineWith_reads s N p front x ox (CText ct) post sfront sc
                spost HNp Hin HN Hp Hox Hrf Hrc Hrpost Hnec Hnepost)
      as (pt & s' & Hrun & Hread); [|done|..].
    + apply Forall_forall. intros c' Hc' Heq. apply (Hdis (Some x)).
      * rewrite <-Heq. by apply list_elem_of_fmap_2.
      * simpl. apply list_elem_of_here.
    + intros _. specialize (Hws x ct (last_snoc _ _) eq_refl).
      unfold Text_toMarkdown in Hws. by rewrite Hox in Hws.
    + exists pt, s'. split; [done|]. rewrite Hread, concat_app. simpl.
      by rewrite app_nil_r, <-!app_assoc.
  - destruct Hrl as (x' & ox & Hx' & Hox & <-).
    destruct (combineLoop_copies N lastC pc s (front ++ [lastC]) sp HN Hrp Hnep)
      as (s7 & cs' & Hloop & Hcop).
    pose proof Hcop as (E & _).
    set (s8 := set_content (λ c, remove c p) s7).
    exists (Some {| pt_text := x';
                    pt_offset := if isEmpty (trim (t_content ox)) then 0
                                 else jslength (t_content ox) |}), s8.
    split.
    + unfold Paragraph_combineWith. rewrite decide_False by done.
      rewrite (bind_Ok _ _ _ _ _ (Paragraph_content_Ok _ _ _ HN)). simpl.
      rewrite last_snoc.
      rewrite (bind_Ok _ _ _ _ _ (Content_text_Ok _ _ _ Hx')).
      rewrite (bind_Ok _ _ _ _ _ (Text_content_Ok _ _ _ Hox)).
      rewrite (bind_Ok _ _ _ _ _ (Paragraph_content_Ok _ _ _ Hp)). simpl.
      rewrite (combineLoop_first_copy _ _ _ Hcopy).
      rewrite (bind_Ok _ _ _ _ _ Hloop). unfold Paragraph_remove.
      rewrite (bind_Ok _ _ _ _ _ (Model_removeContent_Ok s7 p
        ltac:(by rewrite (ext_content _ _ E)))).
      rewrite (bind_Ok _ _ s8 x' s8); [done|].
      apply Content_text_Ok. exact (textOf_ext _ _ _ _ E Hx').
    + change (Paragraph_plainText s8 N) with (Paragraph_plainText s7 N).
      apply (copied_plainText N s _ _ _ _ _ (sfront ++ [t_content ox])
               (lookup_lt_Some _ _ _ HN) Hcop).
      apply Forall2_app; [done|]. constructor; [|constructor].
      by exists x', ox.
Qed.

(** X7: in a well-formed document whose object graph is a tree,
    [p.combineWith(q)] for two different paragraphs, [q] in the document,
    leaves [p] with the text of [p] followed by the text of [q], and takes
    [q], and nothing else, out of the document.  The one exception is
    written into the code: a last run of [p] that is a plain run of
    whitespace only is overwritten when [q] starts with a plain run. *)
Theorem combineWith_joins s p q pc qc :
  Inv s → Tree s → p ≠ q → q ∈ content s →
  paragraphs s !! p = Some {| p_content := pc |} → pc ≠ [] →
  paragraphs s !! q = Some {| p_content := qc |} →
  (∀ x ct, last pc = Some (CText x) → head qc = Some (CText ct) →
     isEmpty (trim (Text_toMarkdown s x)) = false) →
  ∃ pt s', Paragraph_combineWith p q s = (Ok pt, s')
    ∧ Paragraph_plainText s' p
      = Paragraph_plainText s p ++ Paragraph_plainText s q
    ∧ content s' = remove (content s) q.
Proof. apply combineWith_joins_run. Qed.

Lemma Tree_documentOf ps :
  forallb (forallb acceptedInline) ps = true → Tree (documentOf ps).
Proof. intros H. by apply Tree_ofMarkdown, accepted_documentOf. Qed.

Lemma combineWith_joins_witness :
  let s := documentOf [[mdText "abc"; mdLink "x" [mdText "d"]];
                       [mdText "ef"]] in
  ∃ pt s', Paragraph_combineWith 0 1 s = (Ok pt, s')
    ∧ Paragraph_plainText s' 0
      = Paragraph_plainText s 0 ++ Paragraph_plainText s 1
    ∧ content s' = remove (content s) 1%nat.
Proof.
  apply (combineWith_joins
    (documentOf [[mdText "abc"; mdLink "x" [mdText "d"]]; [mdText "ef"]])
    0%nat 1%nat [CText 0; CLink 0] [CText 2]).
  - apply Inv_documentOf; [reflexivity|]. repeat constructor; discriminate.
  - by apply Tree_documentOf.
  - discriminate.
  - apply list_elem_of_further, list_elem_of_here.
  - reflexivity.
  - discriminate.
  - reflexivity.
  - intros x ct [=].
Defined.

(** X8: in the document [ofMarkdown] builds from an accepted tree every
    plain run names its paragraph as parent, every link names its
    paragraph and the link's run names the link, and no element occurs
    twice in a paragraph; so the runs of the elements of the document are
    pairwise different. *)
Theorem ofMarkdown_tree d :
  accepted d = true →
  Tree (snd (ofMarkdown d))
  ∧ ∀ p po, paragraphs (snd (ofMarkdown d)) !! p = Some po →
      NoDup (map (textOf (snd (ofMarkdown d))) (p_content po)).
Proof.
  intros Hd. pose proof (Tree_ofMarkdown d Hd) as T. split; [done|].
  intros p po. by apply Tree_NoDup_textOf.
Qed.

Lemma ofMarkdown_tree_witness :
  let d := mdDocument [mdParagraph [mdText "ab"; mdLink "x" [mdText "cd"]]] in
  Tree (snd (ofMarkdown d))
  ∧ ∀ p po, paragraphs (snd (ofMarkdown d)) !! p = Some po →
      NoDup (map (textOf (snd (ofMarkdown d))) (p_content po)).
Proof.
  exact (ofMarkdown_tree
    (mdDocument [mdParagraph [mdText "ab"; mdLink "x" [mdText "cd"]]])
    eq_refl).
Defined.

(** ** Deleting across a paragraph boundary *)

Lemma nextOfMapped_last {A B} `{EqDecision B} (front : list A) (c : A)
    (f : A → B) (y : B) :
  Forall (λ a, f a ≠ y) front → f c = y →
  nextOfMapped (front ++ [c]) f y = None.
Proof.
  intros Hf Hc. induction Hf as [|a front Ha _ IH]; simpl.
  - by rewrite decide_True.
  - by rewrite decide_False.
Qed.

Lemma nextOf_adjacent {A} `{EqDecision A} (before after : list A) (x y : A) :
  x ∉ before → nextOf (before ++ x :: y :: after) x = Some y.
Proof.
  unfold nextOf. induction before as [|a before IH]; simpl; intros Hx.
  - by rewrite decide_True.
  - apply not_elem_of_cons in Hx as [Hxa Hx].
    rewrite decide_False by done. by apply IH.
Qed.

Lemma previousFrom_adjacent {A} `{EqDecision A} (before after : list A)
    (x y : A) : ∀ prev,
  y ∉ before → x ≠ y →
  previousFrom prev (before ++ x :: y :: after) id y = Some x.
Proof.
  induction before as [|a before IH]; simpl; intros prev Hy Hxy.
  - rewrite decide_False by done. by rewrite decide_True.
  - apply not_elem_of_cons in Hy as [Hya Hy].
    rewrite decide_False by done. by apply IH.
Qed.

Lemma previousOf_adjacent {A} `{EqDecision A} (before after : list A)
    (x y : A) :
  y ∉ before → x ≠ y → previousOf (before ++ x :: y :: after) y = Some x.
Proof. apply previousFrom_adjacent. Qed.

Lemma Text_containingParagraph_owned s p c t :
  ownedBy s p c → textOf s c = Some t →
  Text_containingParagraph t s = (Ok p, s).
Proof.
  unfold Text_containingParagraph. destruct c as [t'|l]; simpl.
  - intros (o & Ho & Hp) [= <-].
    by rewrite (bind_Ok _ _ _ _ _ (getText_Ok _ _ _ Ho)), Hp.
  - intros (lo & o & Hlo & Hp & Ho & Hpo). rewrite Hlo. simpl.
    intros [= <-].
    rewrite (bind_Ok _ _ _ _ _ (getText_Ok _ _ _ Ho)), Hpo.
    by rewrite (bind_Ok _ _ _ _ _ (getLink_Ok _ _ _ Hlo)), Hp.
Qed.

(** The run after the run of the last element of a paragraph is the
    first run of the next paragraph. *)
Lemma Text_getFollowingText_last s p q pc qc lastC firstC t n :
  Tree s →
  paragraphs s !! p = Some {| p_content := pc |} → last pc = Some lastC →
  textOf s lastC = Some t →
  nextOf (content s) p = Some q →
  paragraphs s !! q = Some {| p_content := qc |} → head qc = Some firstC →
  textOf s firstC = Some n →
  Text_getFollowingText t s = (Ok (Some n), s).
Proof.
  intros T Hp Hl Ht Hnext Hq Hh Hn.
  apply last_Some in Hl as [front ->].
  pose proof (tree_owned _ T _ _ Hp) as Hown. simpl in Hown.
  apply Forall_app in Hown as [_ Hown]. rewrite Forall_singleton in Hown.
  pose proof (Tree_NoDup_textOf _ _ _ T Hp) as Hnd. simpl in Hnd.
  rewrite map_app in Hnd. apply NoDup_app in Hnd as (_ & Hdis & _).
  assert (Paragraph_getFollowingText p t s = (Ok (Some n), s)) as Hpar.
  { unfold Paragraph_getFollowingText.
    rewrite (bind_Ok _ _ _ _ _ (Paragraph_content_Ok _ _ _ Hp)).
    unfold bind at 1, get. simpl.
    rewrite nextOfMapped_last; [|apply Forall_forall|done].
    2:{ intros c' Hc' Heq. apply (Hdis (Some t)).
        - rewrite <-Heq. by apply list_elem_of_fmap_2.
        - rewrite <-Ht. simpl. apply list_elem_of_here. }
    unfold Model_getFollowingText, bind at 1, get. rewrite Hnext.
    rewrite (bind_Ok _ _ s n s); [done|].
    unfold Paragraph_firstText, Paragraph_firstContent.
    rewrite (bind_Ok _ _ s firstC s); [by apply Content_text_Ok|].
    rewrite (bind_Ok _ _ _ _ _ (Paragraph_content_Ok _ _ _ Hq)). simpl.
    by rewrite Hh. }
  unfold Text_getFollowingText. destruct lastC as [t'|l]; simpl in *.
  - injection Ht as ->. destruct Hown as (o & Ho & Hpo).
    by rewrite (bind_Ok _ _ _ _ _ (getText_Ok _ _ _ Ho)), Hpo.
  - destruct Hown as (lo & o & Hlo & Hpl & Ho & Hpo).
    rewrite Hlo in Ht. simpl in Ht. injection Ht as <-.
    rewrite (bind_Ok _ _ _ _ _ (getText_Ok _ _ _ Ho)), Hpo.
    unfold Link_getFollowingText.
    by rewrite (bind_Ok _ _ _ _ _ (getLink_Ok _ _ _ Hlo)), Hpl.
Qed.

(** The run before the run of the first element of a paragraph is the
    last run of the paragraph before. *)
Lemma Text_getPrecedingText_first s p q pc qc lastC firstC t n :
  Tree s →
  paragraphs s !! q = Some {| p_content := qc |} → head qc = Some firstC →
  textOf s firstC = Some n →
  previousOf (content s) q = Some p →
  paragraphs s !! p = Some {| p_content := pc |} → last pc = Some lastC →
  textOf s lastC = Some t →
  Text_getPrecedingText n s = (Ok (Some t), s).
Proof.
  intros T Hq Hh Hn Hprev Hp Hl Ht.
  destruct qc as [|c rest]; [done|]. simpl in Hh. injection Hh as ->.
  pose proof (tree_owned _ T _ _ Hq) as Hown. simpl in Hown.
  apply Forall_cons in Hown as [Hown _].
  assert (Paragraph_getPrecedingText q n s = (Ok (Some t), s)) as Hpar.
  { unfold Paragraph_getPrecedingText.
    rewrite (bind_Ok _ _ _ _ _ (Paragraph_content_Ok _ _ _ Hq)).
    unfold bind at 1, get. simpl. unfold previousOfMapped. simpl.
    rewrite decide_True by done.
    unfold Model_getPrecedingText, bind at 1, get. rewrite Hprev.
    rewrite (bind_Ok _ _ s t s); [done|].
    unfold Paragraph_lastText, Paragraph_lastContent.
    rewrite (bind_Ok _ _ s lastC s); [by apply Content_text_Ok|].
    rewrite (bind_Ok _ _ _ _ _ (Paragraph_content_Ok _ _ _ Hp)). simpl.
    by rewrite Hl. }
  unfold Text_getPrecedingText. destruct firstC as [t'|l]; simpl in *.
  - injection Hn as ->. destruct Hown as (o & Ho & Hpo).
    by rewrite (bind_Ok _ _ _ _ _ (getText_Ok _ _ _ Ho)), Hpo.
  - destruct Hown as (lo & o & Hlo & Hpl & Ho & Hpo).
    rewrite Hlo in Hn. simpl in Hn. injection Hn as <-.
    rewrite (bind_Ok _ _ _ _ _ (getText_Ok _ _ _ Ho)), Hpo.
    unfold Link_getPrecedingText.
    by rewrite (bind_Ok _ _ _ _ _ (getLink_Ok _ _ _ Hlo)), Hpl.
Qed.

Lemma remove_adjacent {A} `{EqDecision A} (before after : list A) (x y : A) :
  y ∉ before → x ≠ y →
  remove (before ++ x :: y :: after) y = before ++ x :: after.
Proof.
  induction before as [|a before IH]; simpl; intros Hy Hxy.
  - rewrite decide_False by done. by rewrite decide_True.
  - apply not_elem_of_cons in Hy as [Hya Hy].
    rewrite decide_False by done. by rewrite IH.
Qed.

(** X9: in a well-formed document whose object graph is a tree, let
    paragraph [q] come directly after paragraph [p].  Delete
    ([removeNextChar]) at or behind the end of the last run of [p] and
    Backspace ([removePreviousChar]) at or before the start of the first
    run of [q] are both the merge [p.combineWith(q)]: afterwards [p] has
    the text of [p] followed by the text of [q], and [q] is gone from
    the document, whose other paragraphs stay in place.  (A last run of
    [p] that is a plain run of whitespace only is overwritten when [q]
    starts with a plain run, which the hypothesis excludes.) *)
Theorem delete_across_paragraphs s before after p q pc qc lastC firstC
    tp tq op offP offQ :
  Inv s → Tree s →
  content s = before ++ p :: q :: after →
  p ∉ before → q ∉ before → p ≠ q →
  paragraphs s !! p = Some {| p_content := pc |} →
  last pc = Some lastC → textOf s lastC = Some tp →
  paragraphs s !! q = Some {| p_content := qc |} →
  head qc = Some firstC → textOf s firstC = Some tq →
  texts s !! tp = Some op →
  jslength (t_content op) <= offP → offQ <= 0 →
  (∀ x ct, lastC = CText x → firstC = CText ct →
     isEmpty (trim (Text_toMarkdown s x)) = false) →
  Text_removeNextChar tp offP s = Paragraph_combineWith p q s
  ∧ Text_removePreviousChar tq offQ s = Paragraph_combineWith p q s
  ∧ ∃ pt s', Paragraph_combineWith p q s = (Ok pt, s')
      ∧ Paragraph_plainText s' p
        = Paragraph_plainText s p ++ Paragraph_plainText s q
      ∧ content s' = before ++ p :: after.
Proof.
  intros I T Hc Hpb Hqb Hpq Hp Hl Htp Hq Hh Htq Hop HoffP HoffQ Hws.
  assert (ownedBy s p lastC) as HownP.
  { pose proof (tree_owned _ T _ _ Hp) as H. rewrite Forall_forall in H.
    apply H. simpl. apply last_Some in Hl as [front ->].
    apply elem_of_app. right. apply list_elem_of_here. }
  assert (ownedBy s q firstC) as HownQ.
  { pose proof (tree_owned _ T _ _ Hq) as H. rewrite Forall_forall in H.
    apply H. simpl. destruct qc; [done|]. injection Hh as ->.
    apply list_elem_of_here. }
  pose proof (Text_containingParagraph_owned _ _ _ _ HownP Htp) as HcP.
  pose proof (Text_containingParagraph_owned _ _ _ _ HownQ Htq) as HcQ.
  assert (nextOf (content s) p = Some q) as Hnext.
  { rewrite Hc. by apply nextOf_adjacent. }
  assert (previousOf (content s) q = Some p) as Hprev.
  { rewrite Hc. by apply previousOf_adjacent. }
  split; [|split].
  - unfold Text_removeNextChar.
    rewrite (bind_Ok _ _ _ _ _ (Text_length_Ok _ _ _ Hop)).
    destruct (Z.leb_spec (jslength (t_content op)) offP); [|lia].
    rewrite (bind_Ok _ _ _ _ _
      (Text_getFollowingText_last _ _ _ _ _ _ _ _ _ T Hp Hl Htp Hnext Hq Hh
         Htq)).
    rewrite (bind_Ok _ _ _ _ _ HcQ), (bind_Ok _ _ _ _ _ HcP).
    by rewrite decide_False.
  - unfold Text_removePreviousChar.
    destruct (Z.leb_spec offQ 0); [|lia].
    rewrite (bind_Ok _ _ _ _ _
      (Text_getPrecedingText_first _ _ _ _ _ _ _ _ _ T Hq Hh Htq Hprev Hp Hl
         Htp)).
    rewrite (bind_Ok _ _ _ _ _ HcP), (bind_Ok _ _ _ _ _ HcQ).
    by rewrite decide_False.
  - destruct (combineWith_joins_run s p q pc qc I T Hpq) as
      (pt & s' & Hrun & Hread & Hcont); try done.
    + rewrite Hc. apply elem_of_app. right.
      apply list_elem_of_further, list_elem_of_here.
    + intros ->. done.
    + intros x ct Hx Hct. apply (Hws x ct); [congruence|].
      destruct qc; [done|]. simpl in *. congruence.
    + exists pt, s'. split; [done|]. split; [done|].
      rewrite Hcont, Hc. by apply remove_adjacent.
Qed.

Lemma delete_across_paragraphs_witness :
  let s := documentOf [[mdText "abc"]; [mdText "def"]] in
  Text_removeNextChar 0 3 s = Paragraph_combineWith 0 1 s
  ∧ Text_removePreviousChar 1 0 s = Paragraph_combineWith 0 1 s
  ∧ ∃ pt s', Paragraph_combineWith 0 1 s = (Ok pt, s')
      ∧ Paragraph_plainText s' 0
        = Paragraph_plainText s 0 ++ Paragraph_plainText s 1
      ∧ content s' = [] ++ 0%nat :: [].
Proof.
  apply (delete_across_paragraphs
    (documentOf [[mdText "abc"]; [mdText "def"]]) [] [] 0%nat 1%nat
    [CText 0] [CText 1] (CText 0) (CText 1) 0%nat 1%nat
    {| t_parent := InParagraph 0; t_content := lit "abc" |} 3 0).
  - apply Inv_documentOf; [reflexivity|]. repeat constructor; discriminate.
  - by apply Tree_documentOf.
  - reflexivity.
  - apply not_elem_of_nil.
  - apply not_elem_of_nil.
  - discriminate.
  - reflexivity.
  - reflexivity.
  - reflexivity.
  - reflexivity.
  - reflexivity.
  - reflexivity.
  - reflexivity.
  - unfold jslength. simpl. lia.
  - lia.
  - intros x ct [= <-] _. reflexivity.
Defined.

(** ** Enter inside a run *)

Lemma ownedBy_childOf s p c : ownedBy s p c → childOf s p c.
Proof.
  destruct c as [t|l]; simpl; [done|].
  intros (lo & o & Hlo & Hp & _). by exists lo.
Qed.

(** A collapsed host selection that names a run of the document is read
    as the selection that starts and ends at that Point. *)
Lemma Model_getSelection_caret s path offset t :
  content s ≠ [] →
  fst (Model_findTextForPath path s) = Ok t →
  Model_getSelection (caret path offset) s
  = (Ok {| sel_start := {| pt_text := t; pt_offset := offset |};
           sel_end := {| pt_text := t; pt_offset := offset |};
           sel_textBetween := [] |}, s).
Proof.
  intros Hc Ht. unfold Model_getSelection, bind at 1, get.
  rewrite bool_decide_eq_false_2 by (by destruct (content s)).
  simpl whenM. rewrite (bind_Ok _ _ s tt s) by done.
  assert (createPoint (domPoint path offset) s
          = (Ok {| pt_text := t; pt_offset := offset |}, s)) as Hpt.
  { unfold createPoint, domPoint. cbn [dp_path dp_offset].
    rewrite (bind_Ok _ _ s t s); [done|].
    by rewrite (readonly_run _ s (readonly_Model_findTextForPath path)), Ht. }
  unfold Selection_ofDomSelection, caret. cbn [ds_start ds_end].
  rewrite !(bind_Ok _ _ _ _ _ Hpt). unfold Selection_new.
  cbn [pt_text]. by rewrite decide_True.
Qed.

Lemma splitTo_point p N t offset s pt s' :
  Paragraph_splitTo p N t offset s = (Ok pt, s') →
  pt_offset pt = 0 ∧ Paragraph_firstText p s' = (Ok (pt_text pt), s').
Proof.
  unfold Paragraph_splitTo, bind. intros H.
  repeat match type of H with
  | context [match ?m with (r, st') => _ end] =>
      destruct m as [[?|?] ?] eqn:?; try discriminate
  end.
  injection H as <- <-. split; [done|].
  match goal with
  | E : Paragraph_firstText p ?m = _ |- _ =>
      rewrite (readonly_run _ m (readonly_Paragraph_firstText p)) in E;
      injection E as E1 <-;
      by rewrite (readonly_run _ m (readonly_Paragraph_firstText p)), E1
  end.
Qed.

(** The links of the arena are never modified, so an element keeps its
    run. *)
Lemma splitTo_run_text p N t offset s pt s' c x :
  Paragraph_splitTo p N t offset s = (Ok pt, s') →
  textOf s c = Some x → textOf s' c = Some x.
Proof.
  intros H Hx. pose proof (grows_Paragraph_splitTo p N t offset s) as G.
  rewrite H in G. by eapply grows_textOf.
Qed.

Lemma Selection_isRange_caret pt between :
  Selection_isRange
    {| sel_start := pt; sel_end := pt; sel_textBetween := between |} = false.
Proof. unfold Selection_isRange. simpl. by rewrite !bool_decide_eq_true_2. Qed.

(** X10: Enter with a collapsed cursor strictly inside a run, in a
    well-formed document whose object graph is a tree:
    [insertNewParagraph] puts a new paragraph directly before the
    paragraph of the cursor, the new paragraph gets the text of the
    paragraph up to the cursor, the old paragraph keeps the text from the
    cursor on, and the cursor is placed at offset 0 of the run it was
    in. *)
Theorem insertNewParagraph_splits s path offset p t ot pre c post :
  Inv s → Tree s →
  fst (Model_findTextForPath path s) = Ok t →
  p ∈ content s →
  paragraphs s !! p = Some {| p_content := pre ++ c :: post |} →
  textOf s c = Some t → texts s !! t = Some ot →
  0 < offset < jslength (t_content ot) →
  let N := length (paragraphs s) in
  ∃ cont' s',
    Model_insertNewParagraph (caret path offset) s = (Ok tt, s')
    ∧ insertBefore (content s) N p = Some cont' ∧ content s' = cont'
    ∧ Paragraph_plainText s' N
      = concat (map (Content_plainText s) pre)
        ++ substring (t_content ot) 0 offset
    ∧ Paragraph_plainText s' p
      = substring (t_content ot) offset (jslength (t_content ot))
        ++ concat (map (Content_plainText s) post)
    ∧ cursor s' = Some {| pt_text := t; pt_offset := 0 |}.
Proof.
  intros I T Hpath Hin Hp Hc Ht Ho N.
  destruct (allocated_readsAll _ _ _ I (inv_contents _ _ I _ _ Hp))
    as (strs & Hr & Hne). simpl in Hr.
  apply Forall2_app_inv_l in Hr as (spre & srest & Hrpre & Hrrest & ->).
  apply Forall2_cons_inv_l in Hrrest as (sc & spost & Hrc & Hrpost & ->).
  apply Forall_app in Hne as [Hnepre _].
  rewrite (readsAll_plainText _ _ _ Hrpre), (readsAll_plainText _ _ _ Hrpost).
  pose proof (tree_owned _ T _ _ Hp) as Hown. simpl in Hown.
  pose proof Hown as Hown'.
  apply Forall_app in Hown' as [Hownpre Hownrest].
  apply Forall_cons in Hownrest as [Hownc _].
  destruct (insertBefore_Some (content s) N p Hin) as [cont' Hins].
  set (s0 := set_paragraphs (λ ps, ps ++ [{| p_content := [] |}]) s).
  set (s1 := set_content (λ _, cont') s0).
  pose proof (lookup_lt_Some _ _ _ Hp) as Hplt.
  assert (N ≠ p) as HNp by (unfold N; lia).
  destruct (splitTo_reads s1 p N t offset pre c post spre spost ot)
    as (pt & s5 & front & x & ox & sfront & Hsplit & Hc5 & HN5 & Hp5 & Hox
        & Hoxc & Hrf & Hcat & Hrc5 & Hrp5 & Hfx & Hpx); try done.
  { simpl. by rewrite lookup_app_r, Nat.sub_diag by (unfold N; lia). }
  { simpl. by rewrite lookup_app_l. }
  { simpl. by eapply previousOf_insertBefore. }
  { eapply Forall_impl; [exact Hownpre|]. intros c'. apply ownedBy_childOf. }
  { exact (Tree_NoDup_textOf _ _ _ T Hp). }
  assert (pt = {| pt_text := t; pt_offset := 0 |}) as ->.
  { destruct (splitTo_point _ _ _ _ _ _ _ Hsplit) as [Hoff Hft].
    destruct Hrc5 as (t' & o' & Ht' & Ho' & _).
    unfold Paragraph_firstText, Paragraph_firstContent in Hft.
    rewrite (bind_Ok _ _ s5 c s5) in Hft.
    2:{ by rewrite (bind_Ok _ _ _ _ _ (Paragraph_content_Ok _ _ _ Hp5)). }
    rewrite (Content_text_Ok _ _ _ Ht') in Hft.
    assert (t' = t) as ->.
    { pose proof (splitTo_run_text _ _ _ _ _ _ _ c t Hsplit Hc) as Hx.
      congruence. }
    destruct pt as [ptt pto]. simpl in *. congruence. }
  exists cont', (set_cursor (Some {| pt_text := t; pt_offset := 0 |}) s5).
  split; [|split; [done|split; [exact Hc5|split; [|split; [|done]]]]].
  - unfold Model_insertNewParagraph.
    rewrite (bind_Ok _ _ _ _ _
      (Model_getSelection_caret s path offset t
         ltac:(by intros E; rewrite E in Hin; apply elem_of_nil in Hin)
         Hpath)).
    rewrite Selection_isRange_caret. cbn [whenM sel_start pt_text pt_offset].
    rewrite (bind_Ok _ _ s tt s) by done.
    rewrite (bind_Ok _ _ s N s0) by done.
    rewrite (bind_Ok _ _ _ _ _
      (Text_containingParagraph_owned s0 p c t Hownc Hc)).
    rewrite (bind_Ok _ _ s0 tt s1).
    2:{ unfold Model_insertParagraphBefore, bind, get. simpl.
        by rewrite Hins. }
    rewrite (bind_Ok _ _ _ _ _
      (Text_containingParagraph_owned s1 p c t Hownc Hc)).
    by rewrite (bind_Ok _ _ _ _ _ Hsplit).
  - rewrite <-Hcat.
    change (Paragraph_plainText s5 N = concat sfront ++ t_content ox).
    rewrite (plainText_of_reads _ _ _ (sfront ++ [t_content ox]) HN5).
    + rewrite concat_app. simpl. by rewrite app_nil_r.
    + apply Forall2_app; [done|]. constructor; [|constructor].
      by exists x, ox.
  - change (Paragraph_plainText s5 p
            = concat (substring (t_content ot) offset
                        (jslength (t_content ot)) :: spost)).
    apply (plainText_of_reads s5 p (c :: post) _ Hp5). by constructor.
Qed.

Lemma insertNewParagraph_splits_witness :
  let s := documentOf [[mdText "ab"; mdLink "x" [mdText "cdef"]]] in
  ∃ cont' s',
    Model_insertNewParagraph (caret [0; 1; 0]%nat 1) s = (Ok tt, s')
    ∧ insertBefore (content s) 1%nat 0%nat = Some cont' ∧ content s' = cont'
    ∧ Paragraph_plainText s' 1
      = concat (map (Content_plainText s) [CText 0])
        ++ substring (lit "cdef") 0 1
    ∧ Paragraph_plainText s' 0
      = substring (lit "cdef") 1 (jslength (lit "cdef"))
        ++ concat (map (Content_plainText s) [])
    ∧ cursor s' = Some {| pt_text := 1%nat; pt_offset := 0 |}.
Proof.
  apply (insertNewParagraph_splits
    (documentOf [[mdText "ab"; mdLink "x" [mdText "cdef"]]])
    [0; 1; 0]%nat 1 0%nat 1%nat
    {| t_parent := InLink 0; t_content := lit "cdef" |}
    [CText 0] (CLink 0) []).
  - apply Inv_documentOf; [reflexivity|]. repeat constructor; discriminate.
  - by apply Tree_documentOf.
  - reflexivity.
  - apply list_elem_of_here.
  - reflexivity.
  - reflexivity.
  - reflexivity.
  - unfold jslength. simpl. lia.
Defined.

(** ** The selection the editor keeps *)

Lemma Selection_linkable_Some sel st ls st' :
  Selection_linkable sel st = (Ok (Some ls), st') →
  st' = st ∧ ls_text ls = pt_text (sel_start sel)
  ∧ pt_text (sel_start sel) = pt_text (sel_end sel)
  ∧ ∃ o p, texts st !! ls_text ls = Some o ∧ t_parent o = InParagraph p.
Proof.
  unfold Selection_linkable, Selection_isLinkable, Text_isInLink,
    Text_content, bind, getText, ret.
  destruct (decide (pt_text (sel_start sel) = pt_text (sel_end sel)))
    as [He|]; simpl; [|discriminate].
  destruct (texts st !! pt_text (sel_start sel)) as [o|] eqn:Ho; simpl;
    [|discriminate].
  destruct (t_parent o) as [p|l] eqn:Hp; simpl; [|discriminate].
  destruct (Selection_isRange sel).
  - intros [= <- <-]. simpl. eauto 10.
  - rewrite Ho. simpl.
    destruct (wordAtOffset _ _) as [[wstart wend]|]; [|discriminate].
    intros [= <- <-]. simpl. eauto 10.
Qed.

Lemma Selection_link_Some sel st lk st' :
  Selection_link sel st = (Ok (Some lk), st') →
  st' = st ∧ pt_text (sel_start sel) = pt_text (sel_end sel)
  ∧ ∃ o, texts st !! pt_text (sel_start sel) = Some o
      ∧ t_parent o = InLink (lk_link lk).
Proof.
  unfold Selection_link, Selection_isLink, Text_isInLink, bind, getText, ret.
  destruct (decide (pt_text (sel_start sel) = pt_text (sel_end sel)))
    as [He|]; simpl; [|discriminate].
  destruct (texts st !! pt_text (sel_start sel)) as [o|] eqn:Ho; simpl;
    [|discriminate].
  destruct (t_parent o) as [p|l] eqn:Hp; simpl; [discriminate|].
  rewrite <-He, Ho. simpl. rewrite Hp. intros [= <- <-]. simpl. eauto.
Qed.

(** When [updateSelection] has gone through, the editor offers linking or
    unlinking, never both: a linkable selection is kept only for a
    selection within one plain run, a linked selection only for a
    selection within the run of a link, the link it names. *)
Lemma updateSelection_not_both dom s s' :
  Model_updateSelection dom s = (Ok tt, s') →
  (linkableSelection s' = None ∨ linkedSelection s' = None)
  ∧ (∀ ls, linkableSelection s' = Some ls →
       ∃ o p, texts s' !! ls_text ls = Some o ∧ t_parent o = InParagraph p)
  ∧ (∀ lk, linkedSelection s' = Some lk →
       ∃ t o, texts s' !! t = Some o ∧ t_parent o = InLink (lk_link lk)).
Proof.
  unfold Model_updateSelection, bind. intros H.
  destruct (Model_getSelection dom s) as [[sel|] s1] eqn:Hsel;
    [|discriminate].
  destruct (Selection_linkable sel s1) as [[linkable|] s2] eqn:Hl;
    [|discriminate].
  simpl in H.
  destruct (Selection_link sel _) as [[link|] s3] eqn:Hk; [|discriminate].
  simpl in H. injection H as <-. simpl.
  assert (s2 = s1) as ->.
  { pose proof (readonly_Selection_linkable sel s1) as E.
    by rewrite Hl in E. }
  assert (s3 = set_selections linkable (linkedSelection s1) s1) as ->.
  { pose proof (readonly_Selection_link sel
                  (set_selections linkable (linkedSelection s1) s1)) as E.
    by rewrite Hk in E. }
  simpl.
  assert (∀ ls, linkable = Some ls →
            ls_text ls = pt_text (sel_start sel)
            ∧ ∃ o p, texts s1 !! ls_text ls = Some o
                ∧ t_parent o = InParagraph p) as Hable.
  { intros ls ->. apply Selection_linkable_Some in Hl
      as (_ & H1 & _ & H2). done. }
  assert (∀ lk, link = Some lk →
            ∃ o, texts s1 !! pt_text (sel_start sel) = Some o
              ∧ t_parent o = InLink (lk_link lk)) as Hed.
  { intros lk ->. apply Selection_link_Some in Hk as (_ & _ & H2). done. }
  split; [|split].
  - destruct linkable as [ls|]; [|by left]. right.
    destruct link as [lk|]; [|done]. exfalso.
    destruct (Hable ls eq_refl) as (E & o & p & Ho & Hp).
    destruct (Hed lk eq_refl) as (o' & Ho' & Hp'). congruence.
  - intros ls Hls. by destruct (Hable ls Hls) as [_ ?].
  - intros lk Hlk. destruct (Hed lk Hlk) as (o & Ho & Hp). eauto.
Qed.

(** ** Addresses of runs *)

(** [path] is the address of run [t]: the index of its paragraph in the
    document, the index of its element in the paragraph and, for the run
    of a link, a final 0. *)
Definition addresses (s : Model) (path : list nat) (t : nat) : Prop :=
  ∃ i j p po c,
    content s !! i = Some p ∧ paragraphs s !! p = Some po
    ∧ p_content po !! j = Some c ∧ textOf s c = Some t
    ∧ path = i :: j :: (if isText c then [] else [0%nat]).

(** X12: [findTextForPath] resolves exactly the addresses of the runs of
    the document: it returns run [t] for a path if and only if the path
    is the index of a paragraph of the document, then the index of an
    element of that paragraph, then nothing more for a plain run and a
    single 0 for the run of a link, and [t] is the run of that element.
    Every other path faults, and the document is not changed either
    way. *)
Theorem findTextForPath_addresses s path t :
  (fst (Model_findTextForPath path s) = Ok t ↔ addresses s path t)
  ∧ snd (Model_findTextForPath path s) = s.
Proof.
  split; [|symmetry; apply readonly_Model_findTextForPath].
  unfold Model_findTextForPath, Paragraph_findTextForPath,
    Paragraph_content, getParagraph, get, ret, throw, bind.
  split.
  - destruct path as [|i rest]; simpl; [discriminate|].
    destruct (content s !! i) as [p|] eqn:Hi; simpl; [|discriminate].
    destruct (paragraphs s !! p) as [po|] eqn:Hp; simpl; [|discriminate].
    destruct rest as [|j rest]; simpl; [discriminate|].
    destruct (p_content po !! j) as [c|] eqn:Hj; simpl; [|discriminate].
    destruct c as [t'|l]; simpl.
    + destruct rest; simpl; [|discriminate]. intros [= <-].
      by exists i, j, p, po, (CText t').
    + destruct rest as [|[|k] [|k' rest]]; simpl; try discriminate.
      unfold Link_text, bind, getLink.
      destruct (links s !! l) as [lo|] eqn:Hl; simpl; [|discriminate].
      intros [= <-]. exists i, j, p, po, (CLink l). simpl.
      by rewrite Hl.
  - intros (i & j & p & po & c & Hi & Hp & Hj & Ht & ->). simpl.
    rewrite Hi. simpl. rewrite Hp. simpl. rewrite Hj.
    destruct c as [t'|l]; simpl in *; [congruence|].
    unfold Link_text, bind, getLink.
    destruct (links s !! l) as [lo|]; simpl in *; congruence.
Qed.

Example findTextForPath_sample :
  let s := documentOf [[mdText "ab"; mdLink "x" [mdText "cd"]]] in
  fst (Model_findTextForPath [0; 1; 0]%nat s) = Ok 1%nat
  ∧ fst (Model_findTextForPath [0; 1]%nat s) = Err IllegalState
  ∧ fst (Model_findTextForPath [0; 2]%nat s) = Err TypeError
  ∧ fst (Model_findTextForPath [0; 0; 0]%nat s) = Err IllegalState.
Proof. by vm_compute. Qed.

(** ** Keys *)

(** The fields of a [KeyboardEvent] the component reads. *)
Record KeyboardEvent := {
  metaKey : bool;
  ctrlKey : bool;
  altKey : bool;
  shiftKey : bool;
  keyCode : Z;
  charCode : Z;
  key : jsstring
}.

Module keyCodes.
Definition backspace := 8.
Definition enter := 13.
Definition del := 46.
Definition a := 65.
Definition b := 66.
Definition c := 67.
Definition d := 68.
Definition h := 72.
Definition i := 73.
Definition k := 75.
Definition u := 85.
Definition v := 86.
Definition x := 88.
Definition y := 89.
Definition z := 90.
End keyCodes.

(** [isDefined(keyCode) ? event.keyCode === keyCode : true], the optional
    argument being [None] when it is left out. *)
Definition keyIs (event : KeyboardEvent) (code : option Z) : bool :=
  match code with
  | Some kc => keyCode event =? kc
  | None => true
  end.

Definition isAlt (event : KeyboardEvent) (code : option Z) : bool :=
  negb (metaKey event) && negb (ctrlKey event) && altKey event
  && keyIs event code.

Definition isCtrl (event : KeyboardEvent) (code : option Z) : bool :=
  negb (metaKey event) && ctrlKey event && negb (altKey event)
  && keyIs event code.

Definition isMeta (event : KeyboardEvent) (code : option Z) : bool :=
  metaKey event && negb (ctrlKey event) && negb (altKey event)
  && keyIs event code.

Definition isPlain (event : KeyboardEvent) (code : option Z) : bool :=
  negb (metaKey event) && negb (ctrlKey event) && negb (altKey event)
  && keyIs event code.

Definition isUndo (event : KeyboardEvent) : bool :=
  isCtrl event (Some keyCodes.z) || isMeta event (Some keyCodes.z).

Definition isRedo (event : KeyboardEvent) : bool :=
  (isMeta event (Some keyCodes.z) && shiftKey event)
  || isCtrl event (Some keyCodes.y).

Definition isBoldCommand (event : KeyboardEvent) : bool :=
  isCtrl event (Some keyCodes.b) || isMeta event (Some keyCodes.b).

Definition isItalicCommand (event : KeyboardEvent) : bool :=
  isCtrl event (Some keyCodes.i) || isMeta event (Some keyCodes.i).

Definition isUnderlineCommand (event : KeyboardEvent) : bool :=
  isCtrl event (Some keyCodes.u) || isMeta event (Some keyCodes.u).

Definition isRemovePreviousChar (event : KeyboardEvent) : bool :=
  isPlain event (Some keyCodes.backspace) || isCtrl event (Some keyCodes.h).

Definition isRemoveNextChar (event : KeyboardEvent) : bool :=
  isPlain event (Some keyCodes.del) || isCtrl event (Some keyCodes.d).

Definition isRemovePreviousWord (event : KeyboardEvent) : bool :=
  isCtrl event (Some keyCodes.backspace)
  || isAlt event (Some keyCodes.backspace).

Definition isRemoveNextWord (event : KeyboardEvent) : bool :=
  isAlt event (Some keyCodes.del).

Definition isRemoveStartOfLine (event : KeyboardEvent) : bool :=
  isMeta event (Some keyCodes.backspace).

Definition isRemoveRestOfLine (event : KeyboardEvent) : bool :=
  isCtrl event (Some keyCodes.k).

(** The branches of the [keydown] listener.  The first three only
    prevent the default; each of the others calls the method of the model
    it is named after, reports the change and prevents the default. *)
Inductive Command :=
| PreventUnderline | PreventItalic | PreventBold
| RemoveStartOfLine | RemoveRestOfLine | RemovePreviousWord | RemoveNextWord
| RemoveNextCharCmd | RemovePreviousCharCmd | Redo | Undo.

#[global] Instance Command_eq_dec : EqDecision Command.
Proof. solve_decision. Defined.

(** The [if ... else if] chain of the [keydown] listener; [None] is the
    final [else], which leaves the event to the [keypress] listener. *)
Definition keydownCommand (event : KeyboardEvent) : option Command :=
  if isUnderlineCommand event then Some PreventUnderline
  else if isItalicCommand event then Some PreventItalic
  else if isBoldCommand event then Some PreventBold
  else if isRemoveStartOfLine event then Some RemoveStartOfLine
  else if isRemoveRestOfLine event then Some RemoveRestOfLine
  else if isRemovePreviousWord event then Some RemovePreviousWord
  else if isRemoveNextWord event then Some RemoveNextWord
  else if isRemoveNextChar event then Some RemoveNextCharCmd
  else if isRemovePreviousChar event then Some RemovePreviousCharCmd
  else if isRedo event then Some Redo
  else if isUndo event then Some Undo
  else None.

(** The test the listener makes for a command. *)
Definition commandTest (c : Command) : KeyboardEvent → bool :=
  match c with
  | PreventUnderline => isUnderlineCommand
  | PreventItalic => isItalicCommand
  | PreventBold => isBoldCommand
  | RemoveStartOfLine => isRemoveStartOfLine
  | RemoveRestOfLine => isRemoveRestOfLine
  | RemovePreviousWord => isRemovePreviousWord
  | RemoveNextWord => isRemoveNextWord
  | RemoveNextCharCmd => isRemoveNextChar
  | RemovePreviousCharCmd => isRemovePreviousChar
  | Redo => isRedo
  | Undo => isUndo
  end.

Ltac key_cases :=
  repeat match goal with
  | |- context [?k =? ?n] => destruct (Z.eqb_spec k n); subst; simpl
  end.

(** X13: the tests of the [keydown] listener do not overlap, except that
    every redo by Meta+Shift+Z also passes the undo test; the listener
    tests redo first.  So a key event runs command [c] exactly when it
    passes the test of [c] and, for undo, fails the test of redo: apart
    from that one pair the order of the tests does not matter.  Ctrl+Z is
    undo whether or not Shift is held. *)
Theorem keydown_dispatch event c :
  keydownCommand event = Some c
  ↔ commandTest c event = true ∧ (c = Undo → isRedo event = false).
Proof.
  destruct event as [m ct al sh kc cc ky].
  unfold keydownCommand, isUnderlineCommand, isItalicCommand, isBoldCommand,
    isRemoveStartOfLine, isRemoveRestOfLine, isRemovePreviousWord,
    isRemoveNextWord, isRemoveNextChar, isRemovePreviousChar, isRedo, isUndo.
  destruct c; unfold commandTest, isUnderlineCommand, isItalicCommand,
    isBoldCommand, isRemoveStartOfLine, isRemoveRestOfLine,
    isRemovePreviousWord, isRemoveNextWord, isRemoveNextChar,
    isRemovePreviousChar, isRedo, isUndo, isAlt, isCtrl, isMeta, isPlain,
    keyIs, keyCodes.backspace, keyCodes.del, keyCodes.b, keyCodes.d,
    keyCodes.h, keyCodes.i, keyCodes.k, keyCodes.u, keyCodes.y, keyCodes.z;
    simpl; destruct m, ct, al, sh; simpl; key_cases;
    try lia; split; try discriminate; try done;
    try (intros [? ?]; discriminate); try (intros [? H]; by specialize (H eq_refl)).
Qed.

(** ** The markdown text *)

Definition blank (s : jsstring) : Prop := Forall (λ c, isWhiteSpace c = true) s.

Lemma trimStart_blank s : blank s → trimStart s = [].
Proof. induction 1 as [|c s Hc _ IH]; simpl; [done|]. by rewrite Hc. Qed.

Lemma trim_blank s : blank s → trim s = [].
Proof. intros H. unfold trim. by rewrite (trimStart_blank s H). Qed.

Lemma trimStart_head s :
  trimStart s = [] ∨ ∃ c s', trimStart s = c :: s' ∧ isWhiteSpace c = false.
Proof.
  induction s as [|c s IH]; simpl; [by left|].
  destruct (isWhiteSpace c) eqn:E; [done|]. right. eauto.
Qed.

Lemma trimStart_suffix s : ∃ w, s = w ++ trimStart s.
Proof.
  induction s as [|c s [w IH]]; simpl; [by exists []|].
  destruct (isWhiteSpace c); [|by exists []].
  exists (c :: w). simpl. by rewrite <-IH.
Qed.

Lemma trimStart_id c s : isWhiteSpace c = false → trimStart (c :: s) = c :: s.
Proof. intros H. simpl. by rewrite H. Qed.

(** What [trim] returns neither starts nor ends with whitespace. *)
Lemma trim_trimmed s :
  trim s = []
  ∨ ∃ a b, head (trim s) = Some a ∧ last (trim s) = Some b
      ∧ isWhiteSpace a = false ∧ isWhiteSpace b = false.
Proof.
  unfold trim. destruct (trimStart_head s) as [->|(a & u & -> & Ha)];
    [by left|].
  right. simpl rev.
  destruct (trimStart_head (rev u ++ [a])) as [E|(b & w & E & Hb)].
  - destruct (trimStart_suffix (rev u ++ [a])) as [w' Hw]. rewrite E in Hw.
    rewrite app_nil_r in Hw. subst w'.
    assert (blank (rev u ++ [a])) as Hbl.
    { clear -E. induction (rev u ++ [a]) as [|c l IH]; [constructor|].
      simpl in E. destruct (isWhiteSpace c) eqn:Hc; [|done].
      constructor; [done|by apply IH]. }
    apply Forall_app in Hbl as [_ Hbl]. rewrite Forall_singleton in Hbl.
    congruence.
  - rewrite E. destruct (trimStart_suffix (rev u ++ [a])) as [w' Hw].
    rewrite E in Hw.
    assert (last (b :: w) = Some a) as Hl.
    { apply (f_equal last) in Hw. rewrite last_snoc in Hw.
      rewrite last_app in Hw. simpl in Hw.
      destruct (last (b :: w)) eqn:El; [congruence|].
      by apply last_None in El. }
    exists a, b. split; [|split; [|done]].
    + apply last_Some in Hl as [w'' Hl]. rewrite Hl, rev_app_distr. done.
    + change (last (rev (b :: w)) = Some b). simpl. apply last_snoc.
Qed.

Lemma blank_concat ss : Forall blank ss → blank (concat ss).
Proof.
  induction 1 as [|s ss Hs _ IH]; simpl; [constructor|].
  by apply Forall_app.
Qed.

(** X14: the markdown text [toMarkdown] returns neither starts nor ends
    with whitespace; and a document all of whose runs are plain runs of
    whitespace, such as the document that holds only the placeholder
    space, has the empty markdown text. *)
Theorem toMarkdown_trimmed s :
  (Model_toMarkdown s = []
   ∨ ∃ a b, head (Model_toMarkdown s) = Some a
       ∧ last (Model_toMarkdown s) = Some b
       ∧ isWhiteSpace a = false ∧ isWhiteSpace b = false)
  ∧ ((∀ p po, p ∈ content s → paragraphs s !! p = Some po →
        Forall (λ c, ∃ t, c = CText t ∧ blank (Text_toMarkdown s t))
          (p_content po)) →
     Model_toMarkdown s = []).
Proof.
  split; [apply trim_trimmed|]. intros H. apply trim_blank, blank_concat.
  apply Forall_fmap, Forall_forall. intros p Hp. simpl.
  unfold Paragraph_toMarkdown.
  destruct (paragraphs s !! p) as [po|] eqn:Hpo; [|constructor].
  apply Forall_app. split; [by repeat constructor|].
  apply blank_concat, Forall_fmap.
  eapply Forall_impl; [exact (H p po Hp Hpo)|].
  by intros c (t & -> & Hb).
Qed.

Example toMarkdown_placeholder :
  Model_toMarkdown (snd (Model_getSelection (caret [0; 0]%nat 0) emptyModel))
  = [].
Proof. by vm_compute. Qed.

(** X15: the codec on trees.  For a well-formed document take the tree
    with a paragraph node for each paragraph, a text node for each plain
    run and a link node with one text child for each link: [ofMarkdown]
    accepts it and builds a document with the same paragraphs and runs,
    and [toMarkdown] gives the same text for both; and two documents with
    the same runs have the same markdown text. *)
Theorem codec_on_trees s :
  Inv s →
  accepted (treeOf s) = true
  ∧ Model_view (snd (ofMarkdown (treeOf s))) = Model_view s
  ∧ Model_toMarkdown (snd (ofMarkdown (treeOf s))) = Model_toMarkdown s
  ∧ ∀ s', Inv s' → Model_view s' = Model_view s →
      Model_toMarkdown s' = Model_toMarkdown s.
Proof.
  intros I. destruct (treeOf_ofMarkdown s I) as (Hok & Hv & Hm).
  split; [by apply ofMarkdown_accepted_iff|]. split; [done|].
  split; [done|]. intros s' I' Hv'.
  rewrite (Model_toMarkdown_view s'), (Model_toMarkdown_view s), Hv';
    [done| |]; by eapply Inv_attachedResolved.
Qed.

Lemma codec_on_trees_witness :
  let s := documentOf [[mdText "ab"; mdLink "x" [mdText "cd"]]; [mdText "e"]] in
  accepted (treeOf s) = true
  ∧ Model_view (snd (ofMarkdown (treeOf s))) = Model_view s
  ∧ Model_toMarkdown (snd (ofMarkdown (treeOf s))) = Model_toMarkdown s
  ∧ ∀ s', Inv s' → Model_view s' = Model_view s →
      Model_toMarkdown s' = Model_toMarkdown s.
Proof.
  apply (codec_on_trees
    (documentOf [[mdText "ab"; mdLink "x" [mdText "cd"]]; [mdText "e"]])).
  apply Inv_documentOf; [reflexivity|]. repeat constructor; discriminate.
Defined.

(** ** Linking a selection *)

Lemma insertBefore_found {A} `{EqDecision A} (pre post : list A) (x r : A) :
  r ∉ pre → insertBefore (pre ++ r :: post) x r = Some (pre ++ x :: r :: post).
Proof.
  induction pre as [|a pre IH]; simpl; intros Hr.
  - by rewrite decide_True.
  - apply not_elem_of_cons in Hr as [Hra Hr].
    rewrite decide_False by done. by rewrite IH.
Qed.

Lemma remove_found {A} `{EqDecision A} (pre post : list A) (r : A) :
  r ∉ pre → remove (pre ++ r :: post) r = pre ++ post.
Proof.
  induction pre as [|a pre IH]; simpl; intros Hr.
  - by rewrite decide_True.
  - apply not_elem_of_cons in Hr as [Hra Hr].
    rewrite decide_False by done. by rewrite IH.
Qed.

Lemma previousFrom_found {A B} `{EqDecision B} (pre post : list A) (x r : A)
    (f : A → B) (y : B) : ∀ prev,
  Forall (λ a, f a ≠ y) pre → f x ≠ y → f r = y →
  previousFrom prev (pre ++ x :: r :: post) f y = Some x.
Proof.
  induction pre as [|a pre IH]; simpl; intros prev Hpre Hx Hr.
  - rewrite decide_False by done. by rewrite decide_True.
  - apply Forall_cons in Hpre as [Ha Hpre].
    rewrite decide_False by done. by apply IH.
Qed.

Lemma addContentBefore_run s p pre post x r :
  paragraphs s !! p = Some {| p_content := pre ++ r :: post |} → r ∉ pre →
  Paragraph_addContentBefore p x r s
  = (Ok tt,
     set_paragraphs
       (λ ps, <[p := {| p_content := pre ++ x :: r :: post |}]> ps) s).
Proof.
  intros Hp Hr. unfold Paragraph_addContentBefore.
  rewrite (bind_Ok _ _ _ _ _ (Paragraph_content_Ok _ _ _ Hp)). simpl.
  by rewrite insertBefore_found.
Qed.

(** Removing a plain run that has an element before it in its
    paragraph. *)
Lemma Text_remove_after s p pre post x t o xt xo :
  texts s !! t = Some o → t_parent o = InParagraph p →
  paragraphs s !! p = Some {| p_content := pre ++ x :: CText t :: post |} →
  Forall (λ a, textOf s a ≠ Some t) (pre ++ [x]) →
  textOf s x = Some xt → texts s !! xt = Some xo →
  Text_remove t s
  = (Ok (Some {| pt_text := xt; pt_offset := jslength (t_content xo) |}),
     set_paragraphs (λ ps, <[p := {| p_content := pre ++ x :: post |}]> ps) s).
Proof.
  intros Ho Hpar Hp Hne Hx Hxo. apply Forall_app in Hne as [Hpre Hxne].
  rewrite Forall_singleton in Hxne.
  assert (Text_getPrecedingText t s = (Ok (Some xt), s)) as Hprev.
  { unfold Text_getPrecedingText.
    rewrite (bind_Ok _ _ _ _ _ (getText_Ok _ _ _ Ho)), Hpar.
    unfold Paragraph_getPrecedingText.
    rewrite (bind_Ok _ _ _ _ _ (Paragraph_content_Ok _ _ _ Hp)).
    unfold bind at 1, get. cbn [p_content]. unfold previousOfMapped.
    rewrite (previousFrom_found pre post x (CText t) (textOf s) (Some t));
      [|done|done|done].
    by rewrite (bind_Ok _ _ _ _ _ (Content_text_Ok _ _ _ Hx)). }
  unfold Text_remove. rewrite (bind_Ok _ _ _ _ _ Hprev).
  rewrite (bind_Ok _ _ _ _ _ (getText_Ok _ _ _ Ho)), Hpar.
  rewrite (bind_Ok _ _ s tt
    (set_paragraphs (λ ps, <[p := {| p_content := pre ++ x :: post |}]> ps) s)).
  - by rewrite (bind_Ok _ _ _ _ _
      (Text_length_Ok (set_paragraphs _ s) _ xo Hxo)).
  - unfold Paragraph_removeContent.
    rewrite (bind_Ok _ _ _ _ _ (Paragraph_content_Ok _ _ _ Hp)).
    cbn [p_content].
    rewrite decide_False by (rewrite length_app; simpl; lia).
    rewrite decide_True.
    2:{ apply elem_of_app. right. apply list_elem_of_further,
          list_elem_of_here. }
    unfold setParagraphContent.
    replace (remove (pre ++ x :: CText t :: post) (CText t))
      with (pre ++ x :: post); [done|].
    change (pre ++ x :: CText t :: post)
      with (pre ++ [x] ++ CText t :: post).
    rewrite app_assoc, remove_found; [by rewrite <-app_assoc|].
    intros [Hin|Hin%list_elem_of_singleton]%elem_of_app.
    + rewrite Forall_forall in Hpre. by apply (Hpre _ Hin).
    + subst x. by apply Hxne.
Qed.

(** Reading the selection changes nothing but the two selections the
    editor keeps, unless the document is empty. *)
Lemma updateSelection_selections dom s :
  content s ≠ [] →
  ∃ a b, snd (Model_updateSelection dom s) = set_selections a b s.
Proof.
  intros Hc.
  assert (snd (Model_getSelection dom s) = s) as Hget.
  { unfold Model_getSelection, bind at 1, get.
    rewrite bool_decide_eq_false_2 by (by destruct (content s)).
    simpl whenM. rewrite (bind_Ok _ _ s tt s) by done.
    symmetry. apply readonly_Selection_ofDomSelection. }
  unfold Model_updateSelection, bind.
  destruct (Model_getSelection dom s) as [[sel|f] s1]; simpl in Hget;
    subst s1; simpl.
  2:{ exists (linkableSelection s), (linkedSelection s). by destruct s. }
  pose proof (readonly_Selection_linkable sel s) as Hl.
  destruct (Selection_linkable sel s) as [[a|f] s2]; simpl in Hl; subst s2;
    simpl.
  2:{ exists (linkableSelection s), (linkedSelection s). by destruct s. }
  pose proof (readonly_Selection_link sel
                (set_selections a (linkedSelection s) s)) as Hk.
  destruct (Selection_link sel _) as [[b|f] s3]; simpl in Hk; subst s3;
    simpl; by eexists _, _.
Qed.

Lemma substring_inside (s : jsstring) (a b : Z) :
  0 <= a <= b → b <= jslength s →
  substring s a b = take (Z.to_nat (b - a)) (drop (Z.to_nat a) s).
Proof.
  unfold substring, jslength. intros Ha Hb.
  rewrite !clamp_in by lia. f_equal; [lia|]. f_equal. lia.
Qed.

Lemma substring_three (s : jsstring) (a b : Z) :
  0 <= a <= b → b <= jslength s →
  substring s 0 a ++ substring s a b ++ substring s b (jslength s) = s.
Proof.
  intros Ha Hb. rewrite substring_prefix, substring_suffix,
    substring_inside by done.
  unfold jslength in Hb. rewrite !clamp_in by (unfold jslength; lia).
  rewrite <-(take_drop (Z.to_nat a) s) at 4. f_equal.
  rewrite <-(take_drop (Z.to_nat (b - a)) (drop (Z.to_nat a) s)) at 2.
  f_equal. rewrite drop_drop. f_equal. lia.
Qed.

Lemma substring_inside_nonempty (s : jsstring) (a b : Z) :
  0 <= a < b → b <= jslength s → substring s a b ≠ [].
Proof.
  intros Ha Hb. rewrite substring_inside by lia. intros H.
  apply (f_equal length) in H. rewrite length_take, length_drop in H.
  unfold jslength in Hb. simpl in H. lia.
Qed.

(** The state after the optional run that [link] puts before the
    selected run: a new plain run holding [v], placed before [t] in
    paragraph [p], when [b] holds. *)
Definition sideState (b : bool) (p t : nat) (pre post : list Content)
    (v : jsstring) (s : Model) : Model :=
  if b then
    set_paragraphs
      (λ ps, <[p := {| p_content :=
                         pre ++ CText (length (texts s)) :: CText t :: post |}]>
               ps)
      (set_texts
         (λ ts, ts ++ [{| t_parent := InParagraph p; t_content := orSpace v |}])
         s)
  else s.

Definition sideRun (b : bool) (s : Model) : list Content :=
  if b then [CText (length (texts s))] else [].

Lemma link_side_run s p t o pre post b (f : jsstring → jsstring) :
  texts s !! t = Some o →
  paragraphs s !! p = Some {| p_content := pre ++ CText t :: post |} →
  CText t ∉ pre →
  whenM b (c <- Text_content t;;
           tn <- Text_new (InParagraph p) (f c);;
           Paragraph_addContentBefore p (CText tn) (CText t)) s
  = (Ok tt, sideState b p t pre post (f (t_content o)) s).
Proof.
  intros Ho Hp Hn. destruct b; [|done]. simpl.
  rewrite (bind_Ok _ _ _ _ _ (Text_content_Ok _ _ _ Ho)).
  rewrite (bind_Ok _ _ s (length (texts s))
    (set_texts (λ ts, ts ++ [{| t_parent := InParagraph p;
                                t_content := orSpace (f (t_content o)) |}]) s))
    by done.
  by rewrite (addContentBefore_run (set_texts _ s) p pre post _ _ Hp Hn).
Qed.

Lemma sideState_facts b p t pre post v s :
  paragraphs s !! p = Some {| p_content := pre ++ CText t :: post |} →
  texts (sideState b p t pre post v s)
  = texts s ++ (if b then [{| t_parent := InParagraph p;
                              t_content := orSpace v |}] else [])
  ∧ links (sideState b p t pre post v s) = links s
  ∧ content (sideState b p t pre post v s) = content s
  ∧ cursor (sideState b p t pre post v s) = cursor s
  ∧ paragraphs (sideState b p t pre post v s)
    = <[p := {| p_content := (pre ++ sideRun b s) ++ CText t :: post |}]>
        (paragraphs s).
Proof.
  intros Hp. destruct b; simpl.
  - by rewrite <-app_assoc.
  - rewrite !app_nil_r. repeat split. by rewrite list_insert_id.
Qed.

Lemma Text_remove_behind s p pre post x t o xt xo :
  texts s !! t = Some o → t_parent o = InParagraph p →
  paragraphs s !! p = Some {| p_content := pre ++ CText t :: post |} →
  Forall (λ a, textOf s a ≠ Some t) pre → last pre = Some x →
  textOf s x = Some xt → texts s !! xt = Some xo →
  ∃ pt, Text_remove t s
        = (Ok pt,
           set_paragraphs
             (λ ps, <[p := {| p_content := pre ++ post |}]> ps) s).
Proof.
  intros Ho Hpar Hp Hne Hlast Hx Hxo.
  apply last_Some in Hlast as [pre' ->]. rewrite <-app_assoc in Hp.
  eexists. rewrite (Text_remove_after s p pre' post x t o xt xo); try done.
  by rewrite <-app_assoc.
Qed.

(** X16: [link(target)] with a selection inside one plain run of an
    attached paragraph.  The run is replaced, in place, by the text
    before the selection (when there is some), a link over the selected
    text with the given target, and the text after the selection (when
    there is some); the three pieces spell the old run.  The other runs
    of the paragraph, the other paragraphs and the order of the
    paragraphs are as before; the caret is asked into the link's run, as
    far from its start as it was from the start of the selection; and
    the only part of [link] that can still fault is the closing
    [updateSelection]. *)
Theorem link_wraps_selection s target dom ls p pre post :
  Inv s → Tree s → linkableSelection s = Some ls → p ∈ content s →
  paragraphs s !! p
  = Some {| p_content := pre ++ CText (ls_text ls) :: post |} →
  0 <= ls_start ls < ls_end ls →
  ls_end ls <= jslength (Text_toMarkdown s (ls_text ls)) →
  let str := Text_toMarkdown s (ls_text ls) in
  let before := substring str 0 (ls_start ls) in
  let sel := substring str (ls_start ls) (ls_end ls) in
  let after := substring str (ls_end ls) (jslength str) in
  let s' := snd (Model_link target dom s) in
  before ++ sel ++ after = str
  ∧ Paragraph_view s' p
    = map (Content_view s) pre
      ++ (if 0 <? ls_start ls then [RText before] else [])
      ++ RLink sel target
         :: (if ls_end ls <? jslength str then [RText after] else [])
      ++ map (Content_view s) post
  ∧ (∀ q, q ≠ p → Paragraph_view s' q = Paragraph_view s q)
  ∧ content s' = content s
  ∧ (∃ pt, cursor s' = Some pt
       ∧ Text_toMarkdown s' (pt_text pt) = sel
       ∧ pt_offset pt = ls_cursor ls - ls_start ls)
  ∧ ∃ s1, Model_link target dom s = Model_updateSelection dom s1.
Proof.
  intros HI HT Hls Hpc Hp Hse Hel str before sel after.
  set (t := ls_text ls) in *. set (start := ls_start ls) in *.
  set (end_ := ls_end ls) in *.
  pose proof (tree_owned s HT p _ Hp) as Hown. cbn [p_content] in Hown.
  apply Forall_app in Hown as [Hown_pre Hown_t].
  apply Forall_cons in Hown_t as [(o & Ho & Hpar) Hown_post].
  assert (str = t_content o) as Hstr
    by (unfold str, Text_toMarkdown; by rewrite Ho).
  assert (Forall (λ a, textOf s a ≠ Some t) pre) as Hpre_t.
  { pose proof (Tree_NoDup_textOf s p _ HT Hp) as Hnd. cbn [p_content] in Hnd.
    rewrite map_app in Hnd. apply NoDup_app in Hnd as (_ & Hdis & _).
    apply Forall_forall. intros a Ha Heq. apply (Hdis (Some t)).
    - rewrite <-Heq. by apply list_elem_of_fmap_2.
    - simpl. apply list_elem_of_here. }
  assert (CText t ∉ pre) as Hn0.
  { intros Hin. rewrite Forall_forall in Hpre_t. by apply (Hpre_t _ Hin). }
  pose proof (lookup_lt_Some _ _ _ Ho) as Htlt.
  pose proof (lookup_lt_Some _ _ _ Hp) as Hplt.
  assert (sel ≠ []) as Hsel
    by (apply substring_inside_nonempty; [done|exact Hel]).
  assert (str ≠ []) as Hstrne.
  { intros E. change (end_ <= jslength str) in Hel. rewrite E in Hel.
    change (jslength []) with 0 in Hel. lia. }
  (* the run of [link] up to the closing [updateSelection] *)
  set (l := length (links s)).
  set (x := {| t_parent := InLink l; t_content := orSpace sel |}).
  set (lo := {| l_parent := p; l_text := length (texts s);
                l_target := target |}).
  set (sA := set_links (λ ls, ls ++ [lo]) (set_texts (λ ts, ts ++ [x]) s)).
  assert (texts sA !! t = Some o) as HoA
    by (simpl; by apply lookup_app_l_Some).
  set (b1 := 0 <? start). set (b2 := end_ <? jslength str).
  set (sB := sideState b1 p t pre post before sA).
  destruct (sideState_facts b1 p t pre post before sA Hp)
    as (HtB & HlB & HcB & HkB & HpB). fold sB in HtB, HlB, HcB, HkB, HpB.
  set (pre1 := pre ++ sideRun b1 sA) in *.
  assert (paragraphs sB !! p
          = Some {| p_content := pre1 ++ CText t :: post |}) as HpB'
    by (rewrite HpB; by apply list_lookup_insert_eq).
  assert (CText t ∉ pre1) as Hn1.
  { intros [Hin|Hin]%elem_of_app; [done|]. unfold sideRun in Hin.
    destruct b1; [|by apply elem_of_nil in Hin].
    apply list_elem_of_singleton in Hin. injection Hin as Hin.
    simpl in Hin. rewrite length_app in Hin. lia. }
  set (sC := set_paragraphs
    (λ ps, <[p := {| p_content := pre1 ++ CLink l :: CText t :: post |}]> ps)
    sB).
  assert (texts sC !! t = Some o) as HoC.
  { change (texts sC) with (texts sB). rewrite HtB.
    by apply lookup_app_l_Some. }
  set (pre2 := pre1 ++ [CLink l]).
  assert (paragraphs sC !! p
          = Some {| p_content := pre2 ++ CText t :: post |}) as HpC.
  { unfold sC, pre2. simpl. rewrite <-app_assoc.
    apply list_lookup_insert_eq. rewrite HpB, length_insert. done. }
  assert (CText t ∉ pre2) as Hn2.
  { intros [Hin|Hin%list_elem_of_singleton]%elem_of_app; done. }
  set (sD := sideState b2 p t pre2 post after sC).
  destruct (sideState_facts b2 p t pre2 post after sC HpC)
    as (HtD & HlD & HcD & HkD & HpD). fold sD in HtD, HlD, HcD, HkD, HpD.
  set (pre3 := pre2 ++ sideRun b2 sC) in *.
  set (sE := set_paragraphs
    (λ ps, <[p := {| p_content := pre3 ++ post |}]> ps) sD).
  set (sF := set_cursor
    (Some {| pt_text := length (texts s);
             pt_offset := ls_cursor ls - start |}) sE).
  assert (texts sF = ((texts s ++ [x])
            ++ (if b1 then [{| t_parent := InParagraph p;
                               t_content := orSpace before |}] else []))
            ++ (if b2 then [{| t_parent := InParagraph p;
                               t_content := orSpace after |}] else []))
    as HtF by (change (texts sF) with (texts sD); rewrite HtD;
               change (texts sC) with (texts sB); by rewrite HtB).
  assert (links sF = links s ++ [lo]) as HlF
    by (change (links sF) with (links sD); rewrite HlD;
        change (links sC) with (links sB); by rewrite HlB).
  assert (paragraphs sF
          = <[p := {| p_content := pre3 ++ post |}]> (paragraphs s)) as HpF.
  { change (paragraphs sF)
      with (<[p := {| p_content := pre3 ++ post |}]> (paragraphs sD)).
    rewrite HpD. change (paragraphs sC) with
      (<[p := {| p_content := pre1 ++ CLink l :: CText t :: post |}]>
         (paragraphs sB)).
    rewrite HpB. by rewrite !list_insert_insert_eq. }
  assert (content sF = content s) as HcF
    by (change (content sF) with (content sD); rewrite HcD;
        change (content sC) with (content sB); by rewrite HcB).
  assert (texts sF !! length (texts s) = Some x) as HxF.
  { rewrite HtF. do 2 apply lookup_app_l_Some. by apply list_lookup_middle. }
  assert (b1 = true → texts sF !! length (texts sA)
            = Some {| t_parent := InParagraph p; t_content := before |})
    as H1F.
  { intros E. rewrite HtF, E. apply lookup_app_l_Some.
    rewrite (orSpace_id before); [by apply list_lookup_middle|].
    apply substring_prefix_nonempty; [by apply Z.ltb_lt|done]. }
  assert (b2 = true → texts sF !! length (texts sC)
            = Some {| t_parent := InParagraph p; t_content := after |})
    as H2F.
  { intros E. rewrite HtF, E.
    rewrite (orSpace_id after).
    - apply list_lookup_middle. change (texts sC) with (texts sB).
      by rewrite HtB.
    - apply substring_suffix_nonempty. apply Z.ltb_lt in E. lia. }
  assert (∀ a, ownedBy s p a → textOf sF a = textOf s a) as HownF.
  { intros [t'|l'] Ha; [done|]. unfold textOf. rewrite HlF.
    destruct Ha as (lo' & o' & Hl' & _).
    by rewrite (lookup_app_l_Some _ _ _ _ Hl'), Hl'. }
  assert (Model_link target dom s = Model_updateSelection dom sF) as Hrun.
  { unfold Model_link, bind at 1, get. rewrite Hls. fold t start end_.
    rewrite (bind_Ok _ _ s p s)
      by (apply (Text_containingParagraph_owned s p (CText t) t);
          [by exists o|done]).
    rewrite (bind_Ok _ _ _ _ _ (Text_content_Ok _ _ _ Ho)).
    rewrite <-Hstr. fold sel.
    rewrite (bind_Ok _ _ s l sA) by done.
    rewrite (bind_Ok _ _ sA tt sB).
    2:{ unfold sB, before. rewrite Hstr.
        exact (link_side_run sA p t o pre post b1
                 (λ c, substring c 0 start) HoA Hp Hn0). }
    rewrite (bind_Ok _ _ sB tt sC)
      by exact (addContentBefore_run sB p pre1 post _ _ HpB' Hn1).
    rewrite (bind_Ok _ _ _ _ _ (Text_length_Ok sC t o HoC)).
    rewrite <-Hstr. fold b2.
    rewrite (bind_Ok _ _ sC tt sD).
    2:{ unfold sD, after. rewrite Hstr.
        exact (link_side_run sC p t o pre2 post b2
                 (λ c, substring c end_ (jslength (t_content o)))
                 HoC HpC Hn2). }
    assert (∃ pt, Text_remove t sD = (Ok pt, sE)) as [pt Hrem].
    { assert (texts sD !! t = Some o) as HoD
        by (rewrite HtD; by apply lookup_app_l_Some).
      assert (paragraphs sD !! p
              = Some {| p_content := pre3 ++ CText t :: post |}) as HpD'.
      { rewrite HpD. apply list_lookup_insert_eq.
        by eapply lookup_lt_Some. }
      assert (Forall (λ a, textOf sD a ≠ Some t) pre3) as Hne3.
      { unfold pre3, pre2, pre1. repeat apply Forall_app_2.
        - apply Forall_forall. intros a Ha.
          change (textOf sD a) with (textOf sF a).
          rewrite HownF by exact (proj1 (Forall_forall _ _) Hown_pre a Ha).
          exact (proj1 (Forall_forall _ _) Hpre_t a Ha).
        - unfold sideRun. destruct b1; constructor; [|done]. simpl.
          rewrite length_app. intros [= E]. lia.
        - constructor; [|done]. change (textOf sD (CLink l))
            with (textOf sF (CLink l)). unfold textOf. rewrite HlF.
          unfold l. rewrite lookup_app_r, Nat.sub_diag by done. simpl.
          intros [= E]. lia.
        - unfold sideRun. destruct b2; constructor; [|done]. simpl.
          change (texts sC) with (texts sB). rewrite HtB. simpl.
          rewrite !length_app. intros [= E]. lia. }
      destruct b2.
      - eapply (Text_remove_behind sD p pre3 post
                  (CText (length (texts sC))) t o); try done.
        + unfold pre3, sideRun. by rewrite last_snoc.
        + rewrite HtD. apply list_lookup_middle. done.
      - eapply (Text_remove_behind sD p pre3 post (CLink l) t o
                  (length (texts s)) x); try done.
        + unfold pre3, sideRun, pre2. by rewrite app_nil_r, last_snoc.
        + change (textOf sD (CLink l)) with (textOf sF (CLink l)).
          unfold textOf. rewrite HlF. unfold l.
          by rewrite lookup_app_r, Nat.sub_diag by done. }
    rewrite (bind_Ok _ _ _ _ _ Hrem).
    rewrite (bind_Ok _ _ sE (length (texts s)) sE).
    2:{ unfold Link_text.
        rewrite (bind_Ok _ _ sE lo sE); [done|]. apply getLink_Ok.
        change (links sE) with (links sF). rewrite HlF.
        by rewrite lookup_app_r, Nat.sub_diag. }
    done. }
  assert (ext s sF) as Hext.
  { split; [| |done].
    - rewrite HtF, <-!app_assoc. by eexists.
    - rewrite HlF. by eexists. }
  assert (content sF ≠ []) as Hcne
    by (rewrite HcF; intros E; rewrite E in Hpc; by apply elem_of_nil in Hpc).
  destruct (updateSelection_selections dom sF Hcne) as (a & b & Hs').
  intros s'. unfold s'. rewrite Hrun, Hs'. clear s'.
  assert (Text_toMarkdown sF (length (texts s)) = sel) as Hlt
    by (unfold Text_toMarkdown; rewrite HxF; simpl; by apply orSpace_id).
  split; [exact (substring_three str start end_ (conj (proj1 Hse)
                   (Z.lt_le_incl _ _ (proj2 Hse))) Hel)|].
  split.
  { unfold Paragraph_view.
    change (paragraphs (set_selections a b sF)) with (paragraphs sF).
    rewrite HpF, list_lookup_insert_eq by done. cbn [p_content].
    unfold pre3, pre2, pre1. rewrite !map_app, <-!app_assoc.
    cbn [map app].
    f_equal; [|f_equal; [|f_equal; [|f_equal]]].
    - apply Forall_fmap_ext_1. eapply Forall_impl; [exact Hown_pre|].
      intros c Hc. change (Content_view (set_selections a b sF) c)
        with (Content_view sF c).
      apply Content_view_ext; [done|by eapply ownedBy_resolved].
    - unfold sideRun.
      destruct (Sumbool.sumbool_of_bool b1) as [E|E]; rewrite E; [|done].
      cbn [map]. unfold Content_view, Text_toMarkdown.
      change (texts (set_selections a b sF)) with (texts sF).
      by rewrite (H1F E).
    - unfold Content_view. change (links (set_selections a b sF))
        with (links sF). rewrite HlF. unfold l.
      rewrite lookup_app_r, Nat.sub_diag by done. simpl.
      change (Text_toMarkdown (set_selections a b sF) (length (texts s)))
        with (Text_toMarkdown sF (length (texts s))). by rewrite Hlt.
    - unfold sideRun.
      destruct (Sumbool.sumbool_of_bool b2) as [E|E]; rewrite E; [|done].
      cbn [map]. unfold Content_view, Text_toMarkdown.
      change (texts (set_selections a b sF)) with (texts sF).
      by rewrite (H2F E).
    - apply Forall_fmap_ext_1. eapply Forall_impl; [exact Hown_post|].
      intros c Hc. change (Content_view (set_selections a b sF) c)
        with (Content_view sF c).
      apply Content_view_ext; [done|by eapply ownedBy_resolved]. }
  split.
  { intros q Hq. unfold Paragraph_view.
    change (paragraphs (set_selections a b sF)) with (paragraphs sF).
    rewrite HpF, list_lookup_insert_ne by done.
    destruct (paragraphs s !! q) as [qo|] eqn:Hqo; [|done].
    apply Forall_fmap_ext_1.
    eapply Forall_impl; [exact (inv_contents _ _ HI q qo Hqo)|].
    intros c Hc. change (Content_view (set_selections a b sF) c)
      with (Content_view sF c).
    apply Content_view_ext; [done|].
    by apply (allocated_textOf s c (inv_links _ _ HI)). }
  split; [exact HcF|]. split; [|by exists sF].
  exists {| pt_text := length (texts s); pt_offset := ls_cursor ls - start |}.
  split; [done|]. split; [exact Hlt|done].
Qed.

Lemma Tree_set_selections s a b : Tree s → Tree (set_selections a b s).
Proof. intros [H1 H2]. by split. Qed.

Lemma link_wraps_selection_witness :
  let ls := {| ls_text := 0; ls_start := 1; ls_end := 3; ls_cursor := 3 |} in
  let s := set_selections (Some ls) None (documentOf [[mdText "hello"]]) in
  let s' := snd (Model_link (lit "x") (caret [0; 0; 0]%nat 3) s) in
  substring (lit "hello") 0 1 ++ substring (lit "hello") 1 3
    ++ substring (lit "hello") 3 5 = lit "hello"
  ∧ Paragraph_view s' 0
    = [RText (lit "h"); RLink (lit "el") (lit "x"); RText (lit "lo")]
  ∧ (∀ q, q ≠ 0%nat → Paragraph_view s' q = Paragraph_view s q)
  ∧ content s' = content s
  ∧ (∃ pt, cursor s' = Some pt
       ∧ Text_toMarkdown s' (pt_text pt) = lit "el"
       ∧ pt_offset pt = 2)
  ∧ ∃ s1, Model_link (lit "x") (caret [0; 0; 0]%nat 3) s
          = Model_updateSelection (caret [0; 0; 0]%nat 3) s1.
Proof.
  apply (link_wraps_selection
    (set_selections
       (Some {| ls_text := 0; ls_start := 1; ls_end := 3; ls_cursor := 3 |})
       None (documentOf [[mdText "hello"]]))
    (lit "x") (caret [0; 0; 0]%nat 3)
    {| ls_text := 0; ls_start := 1; ls_end := 3; ls_cursor := 3 |}
    0%nat [] []).
  - apply InvX_set_selections, Inv_documentOf; [reflexivity|].
    repeat constructor; discriminate.
  - apply Tree_set_selections. by apply Tree_documentOf.
  - reflexivity.
  - apply list_elem_of_here.
  - reflexivity.
  - simpl. lia.
  - unfold jslength. simpl. lia.
Defined.

(** ** Unlinking *)

(** What [mergeConsecutiveTexts] makes of the runs of a paragraph: plain
    runs that follow one another become one run, from left to right. *)
Fixpoint mergeFrom (prev : Run) (rest : list Run) : list Run :=
  match rest with
  | [] => [prev]
  | cur :: rest' =>
      match prev, cur with
      | RText a, RText b => mergeFrom (RText (a ++ b)) rest'
      | _, _ => prev :: mergeFrom cur rest'
      end
  end.

Definition mergeRuns (rs : list Run) : list Run :=
  match rs with
  | [] => []
  | r :: rest => mergeFrom r rest
  end.

Lemma Content_view_update_other s c t0 o0 :
  textOf s c ≠ Some t0 →
  Content_view (set_texts (λ ts, <[t0 := o0]> ts) s) c = Content_view s c.
Proof.
  destruct c as [t|l]; simpl; intros Hne.
  - unfold Text_toMarkdown. simpl.
    rewrite list_lookup_insert_ne; [done|congruence].
  - destruct (links s !! l) as [lo|]; [|done]. simpl in Hne.
    unfold Text_toMarkdown. simpl.
    rewrite list_lookup_insert_ne; [done|congruence].
Qed.

Lemma ownedBy_update s q c t0 o0 v :
  texts s !! t0 = Some o0 → ownedBy s q c →
  ownedBy (set_texts (λ ts,
             <[t0 := {| t_parent := t_parent o0; t_content := v |}]> ts) s)
    q c.
Proof.
  intros H0. pose proof (lookup_lt_Some _ _ _ H0) as Hlt.
  destruct c as [t|l]; simpl.
  - intros (o & Ho & Hp). destruct (decide (t = t0)) as [->|Hne].
    + eexists. rewrite list_lookup_insert_eq by done. split; [done|].
      simpl. congruence.
    + exists o. by rewrite list_lookup_insert_ne.
  - intros (lo & o & Hlo & Hq & Ho & Hp). exists lo.
    destruct (decide (l_text lo = t0)) as [E|Hne].
    + eexists. rewrite E, list_lookup_insert_eq by done.
      repeat split; try done. simpl. congruence.
    + exists o. by rewrite list_lookup_insert_ne.
Qed.

(** One merging round of the loop leaves a tree. *)
Lemma Tree_merge_round s p done previous current rest op v :
  Tree s →
  paragraphs s !! p
  = Some {| p_content := done ++ CText previous :: CText current :: rest |} →
  texts s !! previous = Some op →
  Tree (set_paragraphs
          (λ ps, <[p := {| p_content := done ++ CText previous :: rest |}]> ps)
          (set_texts (λ ts,
             <[previous := {| t_parent := t_parent op; t_content := v |}]> ts)
             s)).
Proof.
  intros T Hp Hop.
  assert (done ++ CText previous :: rest
          `sublist_of` done ++ CText previous :: CText current :: rest) as Hsub
    by (apply sublist_app; [done|]; by apply sublist_skip, sublist_cons).
  pose proof (lookup_lt_Some _ _ _ Hp) as Hlt.
  split; intros q qo Hq; simpl in Hq.
  - assert (Forall (ownedBy s q) (p_content qo)) as Hown.
    { destruct (decide (q = p)) as [->|Hne].
      - rewrite list_lookup_insert_eq in Hq by done. injection Hq as <-.
        pose proof (tree_owned _ T _ _ Hp) as Hown. cbn [p_content] in *.
        apply Forall_app in Hown as [Hd Hown].
        apply Forall_cons in Hown as [Hx Hown].
        apply Forall_cons in Hown as [_ Hown].
        apply Forall_app_2; [done|by constructor].
      - rewrite list_lookup_insert_ne in Hq by done.
        exact (tree_owned _ T _ _ Hq). }
    eapply Forall_impl; [exact Hown|]. intros c Hc.
    by apply (ownedBy_update s q c previous op v).
  - destruct (decide (q = p)) as [->|Hne].
    + rewrite list_lookup_insert_eq in Hq by done. injection Hq as <-.
      eapply sublist_NoDup; [exact (tree_nodup _ T _ _ Hp)|exact Hsub].
    + rewrite list_lookup_insert_ne in Hq by done.
      exact (tree_nodup _ T _ _ Hq).
Qed.

(** One merging round, run: the content of [current] goes to the end of
    [previous], and [current] leaves the paragraph. *)
Lemma merge_round_run s p done previous current rest op oc :
  Tree s →
  paragraphs s !! p
  = Some {| p_content := done ++ CText previous :: CText current :: rest |} →
  texts s !! previous = Some op → texts s !! current = Some oc →
  let sM := set_texts (λ ts,
              <[previous := {| t_parent := t_parent op;
                               t_content :=
                                 orSpace (t_content op ++ t_content oc) |}]>
                ts) s in
  Text_append previous (t_content oc) s = (Ok tt, sM)
  ∧ ∃ pt, Text_remove current sM
          = (Ok pt,
             set_paragraphs
               (λ ps, <[p := {| p_content :=
                                 done ++ CText previous :: rest |}]> ps) sM).
Proof.
  intros T Hp Hop Hoc sM. split.
  { unfold Text_append.
    rewrite (bind_Ok _ _ _ _ _ (Text_content_Ok _ _ _ Hop)).
    by rewrite (Text_setContent_Ok _ _ _ _ Hop). }
  pose proof (tree_nodup _ T _ _ Hp) as Hnd. cbn [p_content] in Hnd.
  pose proof (tree_owned _ T _ _ Hp) as Hown. cbn [p_content] in Hown.
  pose proof (Tree_NoDup_textOf _ _ _ T Hp) as Hndt. cbn [p_content] in Hndt.
  assert (previous ≠ current) as Hpc.
  { intros ->. apply NoDup_app in Hnd as (_ & _ & Hnd).
    apply NoDup_cons in Hnd as [Hnd _]. apply Hnd, list_elem_of_here. }
  assert (t_parent oc = InParagraph p) as Hpar.
  { apply Forall_app in Hown as [_ Hown].
    apply Forall_cons in Hown as [_ Hown].
    apply Forall_cons in Hown as [(o & Ho & Hpar) _]. congruence. }
  eexists.
  rewrite (Text_remove_after sM p done rest (CText previous) current oc
             previous {| t_parent := t_parent op;
                         t_content := orSpace (t_content op ++ t_content oc) |});
    try done.
  - simpl. by rewrite list_lookup_insert_ne.
  - change (done ++ CText previous :: CText current :: rest)
      with (done ++ [CText previous] ++ CText current :: rest) in Hndt.
    rewrite app_assoc, map_app in Hndt.
    apply NoDup_app in Hndt as (_ & Hdis & _).
    apply Forall_forall. intros a Ha Heq. apply (Hdis (Some current)).
    + rewrite <-Heq. by apply (list_elem_of_fmap_2 (textOf s)).
    + simpl. apply list_elem_of_here.
  - simpl. apply list_lookup_insert_eq. by eapply lookup_lt_Some.
Qed.

(** The place of a caret in the text of a paragraph, counted in
    characters from the start of the paragraph: the text of the elements
    before the caret's run, and the offset in the run. *)
Fixpoint caretPos (s : Model) (cs : list Content) (pt : Point) : option Z :=
  match cs with
  | [] => None
  | c :: cs' =>
      if decide (textOf s c = Some (pt_text pt)) then Some (pt_offset pt)
      else (λ z, jslength (Content_plainText s c) + z) <$> caretPos s cs' pt
  end.

Lemma Content_plainText_update_other s c t0 o0 :
  textOf s c ≠ Some t0 →
  Content_plainText (set_texts (λ ts, <[t0 := o0]> ts) s) c
  = Content_plainText s c.
Proof.
  intros Hne. unfold Content_plainText.
  change (textOf (set_texts _ s) c) with (textOf s c).
  destruct (textOf s c) as [t|]; [|done]. unfold Text_toMarkdown. simpl.
  rewrite list_lookup_insert_ne; [done|congruence].
Qed.

Lemma Content_plainText_update_this s t0 o o0 :
  texts s !! t0 = Some o →
  Content_plainText (set_texts (λ ts, <[t0 := o0]> ts) s) (CText t0)
  = t_content o0.
Proof.
  intros Ho. unfold Content_plainText, Text_toMarkdown. simpl.
  rewrite list_lookup_insert_eq; [done|by eapply lookup_lt_Some].
Qed.

Lemma caretPos_update_other s cs pt t0 o0 :
  Forall (λ c, textOf s c ≠ Some t0) cs →
  caretPos (set_texts (λ ts, <[t0 := o0]> ts) s) cs pt = caretPos s cs pt.
Proof.
  induction 1 as [|c cs Hc _ IH]; [done|]. cbn [caretPos].
  change (textOf (set_texts _ s) c) with (textOf s c).
  by rewrite IH, Content_plainText_update_other.
Qed.

Lemma caretPos_set_paragraphs s f cs pt :
  caretPos (set_paragraphs f s) cs pt = caretPos s cs pt.
Proof. induction cs as [|c cs IH]; [done|]. cbn [caretPos]. by rewrite IH. Qed.

(** A caret outside [current] keeps its place when [current] is merged
    into [previous]. *)
Lemma caretPos_merge s done previous current rest op oc o' cam :
  texts s !! previous = Some op → texts s !! current = Some oc →
  t_content o' = t_content op ++ t_content oc →
  Forall (λ c, textOf s c ≠ Some previous) (done ++ rest) →
  pt_text cam ≠ current →
  caretPos (set_texts (λ ts, <[previous := o']> ts) s)
    (done ++ CText previous :: rest) cam
  = caretPos s (done ++ CText previous :: CText current :: rest) cam.
Proof.
  intros Hop Hoc Ho' [Hd Hr]%Forall_app Hne.
  induction Hd as [|c done Hc _ IH]; cbn [app caretPos].
  - change (textOf (set_texts _ s) (CText previous)) with (Some previous).
    change (textOf s (CText previous)) with (Some previous).
    change (textOf s (CText current)) with (Some current).
    destruct (decide (Some previous = Some (pt_text cam))); [done|].
    rewrite (decide_False (P := Some current = Some (pt_text cam)))
      by congruence.
    rewrite caretPos_update_other by done.
    rewrite (Content_plainText_update_this _ _ _ _ Hop), Ho'.
    unfold Content_plainText, Text_toMarkdown. simpl. rewrite Hop, Hoc.
    destruct (caretPos s rest cam) as [z|]; [|done]. simpl. f_equal.
    unfold jslength. rewrite length_app. lia.
  - change (textOf (set_texts _ s) c) with (textOf s c).
    by rewrite IH, Content_plainText_update_other.
Qed.

(** A caret in [current] goes to [previous], behind what [previous]
    held. *)
Lemma caretPos_merge_here s done previous current rest op o' k :
  texts s !! previous = Some op → previous ≠ current →
  Forall (λ c, textOf s c ≠ Some previous ∧ textOf s c ≠ Some current) done →
  caretPos (set_texts (λ ts, <[previous := o']> ts) s)
    (done ++ CText previous :: rest)
    {| pt_text := previous; pt_offset := jslength (t_content op) + k |}
  = caretPos s (done ++ CText previous :: CText current :: rest)
      {| pt_text := current; pt_offset := k |}.
Proof.
  intros Hop Hne Hd.
  induction Hd as [|c done [Hc1 Hc2] _ IH]; cbn [app caretPos pt_text pt_offset].
  - change (textOf (set_texts _ s) (CText previous)) with (Some previous).
    change (textOf s (CText previous)) with (Some previous).
    change (textOf s (CText current)) with (Some current).
    rewrite (decide_True (P := Some previous = Some previous)) by done.
    rewrite (decide_False (P := Some previous = Some current)) by congruence.
    rewrite (decide_True (P := Some current = Some current)) by done.
    simpl. unfold Content_plainText, Text_toMarkdown. simpl. by rewrite Hop.
  - change (textOf (set_texts _ s) c) with (textOf s c).
    rewrite !decide_False by done.
    by rewrite IH, Content_plainText_update_other.
Qed.

Lemma NoDup_fmap_others {A B} (f : A → B) (l1 l2 : list A) (a : A) :
  NoDup (map f (l1 ++ a :: l2)) → Forall (λ c, f c ≠ f a) (l1 ++ l2).
Proof.
  rewrite map_app. simpl. intros (H1 & H2 & H3)%NoDup_app.
  apply NoDup_cons in H3 as [H3 _].
  apply Forall_app; split; apply Forall_forall; intros c Hc Heq.
  - apply (H2 (f c)); [by apply list_elem_of_fmap_2|].
    rewrite Heq. apply list_elem_of_here.
  - apply H3. rewrite <-Heq. by apply list_elem_of_fmap_2.
Qed.

Lemma NoDup_others {A} (l1 l2 : list A) (a : A) :
  NoDup (l1 ++ a :: l2) → a ∉ l1 ++ l2.
Proof.
  intros (H1 & H2 & H3)%NoDup_app. apply NoDup_cons in H3 as [H3 _].
  intros [Hin|Hin]%elem_of_app; [|done].
  apply (H2 _ Hin), list_elem_of_here.
Qed.

Lemma mergeFrom_keep r r' rs :
  (∀ a, r ≠ RText a) ∨ (∀ b, r' ≠ RText b) →
  mergeFrom r (r' :: rs) = r :: mergeFrom r' rs.
Proof.
  intros [H|H]; destruct r as [a|a ta], r' as [b|b tb]; simpl; try done.
  - by destruct (H a).
  - by destruct (H b).
Qed.

Lemma Content_view_link s l a : Content_view s (CLink l) ≠ RText a.
Proof. simpl. by destruct (links s !! l). Qed.

(** The loop of [mergeConsecutiveTexts] from index [i], with [done] the
    elements before index [i - 1] and [x] the element there: it ends
    within the fuel, the runs from [x] on are merged, and the caret it
    returns is at the place [P] where [cam] was. *)
Lemma mergeLoop_run p cur rest : ∀ s done x fuel cam P,
  Tree s → (∀ t o, texts s !! t = Some o → t_content o ≠ []) →
  paragraphs s !! p = Some {| p_content := done ++ x :: rest |} →
  (length rest < fuel)%nat →
  caretPos s (done ++ x :: rest) cam = Some P →
  (cam = cur
   ∨ ((CText (pt_text cur) ∉ done ++ x :: rest)
      ∧ CText (pt_text cam) ∈ done ++ [x])) →
  ∃ ptF s' po,
    mergeLoop fuel p cur (S (length done)) cam s = (Ok ptF, s')
    ∧ paragraphs s' !! p = Some po
    ∧ caretPos s' (p_content po) ptF = Some P
    ∧ map (Content_view s') (p_content po)
      = map (Content_view s) done
        ++ mergeFrom (Content_view s x) (map (Content_view s) rest)
    ∧ (∀ q, q ≠ p → Paragraph_view s' q = Paragraph_view s q)
    ∧ content s' = content s ∧ cursor s' = cursor s.
Proof.
  induction rest as [|y rest IH];
    intros s done x fuel cam P T Hne Hp Hfuel HP Hcam;
    (destruct fuel as [|fuel]; [simpl in Hfuel; lia|]); cbn [mergeLoop];
    rewrite (bind_Ok _ _ _ _ _ (Paragraph_content_Ok _ _ _ Hp));
    cbn [p_content].
  - replace (S (length done) <? length (done ++ [x]))%nat with false
      by (symmetry; apply Nat.ltb_ge; rewrite length_app; simpl; lia).
    exists cam, s, {| p_content := done ++ [x] |}.
    do 3 (split; [done|]). split; [|done].
    cbn [p_content]. by rewrite map_app.
  - replace (S (length done) <? length (done ++ x :: y :: rest))%nat
      with true
      by (symmetry; apply Nat.ltb_lt; rewrite length_app; simpl; lia).
    replace (S (length done) - 1)%nat with (length done) by lia.
    rewrite (list_lookup_middle done (y :: rest) x (length done) eq_refl).
    replace ((done ++ x :: y :: rest) !! S (length done)) with (Some y).
    2:{ symmetry.
        change (done ++ x :: y :: rest) with (done ++ [x] ++ y :: rest).
        rewrite app_assoc. apply list_lookup_middle.
        rewrite length_app. simpl. lia. }
    assert (((∀ a, Content_view s x ≠ RText a)
             ∨ (∀ b, Content_view s y ≠ RText b)) →
      ∃ ptF s' po,
        mergeLoop fuel p cur (S (length done) + 1) cam s = (Ok ptF, s')
        ∧ paragraphs s' !! p = Some po
        ∧ caretPos s' (p_content po) ptF = Some P
        ∧ map (Content_view s') (p_content po)
          = map (Content_view s) done
            ++ mergeFrom (Content_view s x)
                 (map (Content_view s) (y :: rest))
        ∧ (∀ q, q ≠ p → Paragraph_view s' q = Paragraph_view s q)
        ∧ content s' = content s ∧ cursor s' = cursor s) as Hadv.
    { intros Hkeep.
      destruct (IH s (done ++ [x]) y fuel cam P T Hne) as
        (ptF & s' & po & Hrun & Hpo & HcP & Hview & Hoth & Hc & Hk).
      - by rewrite <-app_assoc.
      - simpl in Hfuel. lia.
      - by rewrite <-app_assoc.
      - destruct Hcam as [->|[Hc1 Hc2]]; [by left|right].
        rewrite <-app_assoc. split; [done|].
        apply elem_of_app. by left.
      - exists ptF, s', po. rewrite length_app, Nat.add_1_r in Hrun.
        replace (S (length done) + 1)%nat with (S (S (length done))) by lia.
        simpl in Hrun. repeat split; try done.
        rewrite Hview, map_app, <-app_assoc. cbn [map app].
        by rewrite mergeFrom_keep. }
    destruct x as [previous|lx];
      [|apply Hadv; left; intros a; apply Content_view_link].
    destruct y as [current|ly];
      [|apply Hadv; right; intros a; apply Content_view_link].
    clear Hadv.
    pose proof (tree_owned _ T _ _ Hp) as Hown. cbn [p_content] in Hown.
    pose proof (Tree_NoDup_textOf _ _ _ T Hp) as Hndt.
    cbn [p_content] in Hndt.
    pose proof (tree_nodup _ T _ _ Hp) as Hnd. cbn [p_content] in Hnd.
    apply Forall_app in Hown as [Hown_d Hown].
    apply Forall_cons in Hown as [(op & Hop & Hpp) Hown].
    apply Forall_cons in Hown as [(oc & Hoc & Hpc) Hown_r].
    destruct (merge_round_run s p done previous current rest op oc T Hp
                Hop Hoc) as [Happ [pt Hrem]].
    rewrite (orSpace_id (t_content op ++ t_content oc)) in Happ, Hrem
      by (intros [E _]%app_eq_nil; by apply (Hne _ _ Hop)).
    rewrite (bind_Ok _ _ _ _ _ (Text_length_Ok _ _ _ Hop)).
    rewrite (bind_Ok _ _ _ _ _ (Text_content_Ok _ _ _ Hoc)).
    rewrite (bind_Ok _ _ _ _ _ Happ), (bind_Ok _ _ _ _ _ Hrem).
    set (o' := {| t_parent := t_parent op;
                  t_content := t_content op ++ t_content oc |}) in *.
    set (sM := set_texts (λ ts, <[previous := o']> ts) s) in *.
    set (s1 := set_paragraphs
      (λ ps, <[p := {| p_content := done ++ CText previous :: rest |}]> ps)
      sM) in *.
    set (cam' := if decide (pt_text cur = current)
                 then {| pt_text := previous;
                         pt_offset := jslength (t_content op)
                                      + pt_offset cam |}
                 else cam).
    assert (previous ≠ current) as Hpcne.
    { intros ->. apply NoDup_app in Hnd as (_ & _ & Hnd).
      apply NoDup_cons in Hnd as [Hnd _]. apply Hnd, list_elem_of_here. }
    assert (Forall (λ c, textOf s c ≠ Some previous) (done ++ rest))
      as Hop_other.
    { pose proof (NoDup_fmap_others _ _ _ _ Hndt) as H.
      apply Forall_app in H as [H1 H2]. apply Forall_cons in H2 as [_ H2].
      by apply Forall_app_2. }
    assert (Forall (λ c, textOf s c ≠ Some current) done) as Hoc_d.
    { change (done ++ CText previous :: CText current :: rest)
        with (done ++ [CText previous] ++ CText current :: rest) in Hndt.
      rewrite app_assoc in Hndt.
      pose proof (NoDup_fmap_others _ _ _ _ Hndt) as H.
      by apply Forall_app in H as [[H _]%Forall_app _]. }
    assert (CText current ∉ done ++ CText previous :: rest) as Hgone.
    { change (done ++ CText previous :: CText current :: rest)
        with (done ++ [CText previous] ++ CText current :: rest) in Hnd.
      rewrite app_assoc in Hnd. apply NoDup_others in Hnd.
      by rewrite <-app_assoc in Hnd. }
    pose proof (lookup_lt_Some _ _ _ Hop) as Hplt.
    pose proof (lookup_lt_Some _ _ _ Hp) as Hpplt.
    destruct (IH s1 done (CText previous) fuel cam' P) as
      (ptF & s' & po & Hrun & Hpo & HcP & Hview & Hoth & Hc & Hk).
    + exact (Tree_merge_round s p done previous current rest op _ T Hp Hop).
    + intros t o Ht. simpl in Ht.
      destruct (decide (t = previous)) as [->|Htne].
      * rewrite list_lookup_insert_eq in Ht by done. injection Ht as <-.
        simpl. intros [E _]%app_eq_nil. by apply (Hne _ _ Hop).
      * rewrite list_lookup_insert_ne in Ht by done. by apply (Hne _ _ Ht).
    + simpl. by apply list_lookup_insert_eq.
    + simpl in Hfuel. lia.
    + unfold s1. rewrite caretPos_set_paragraphs.
      rewrite <-HP. unfold cam'.
      destruct (decide (pt_text cur = current)) as [E|E].
      * assert (cam = cur) as ->.
        { destruct Hcam as [->|[Hc1 _]]; [done|]. exfalso. apply Hc1.
          rewrite E. apply elem_of_app. right.
          apply list_elem_of_further, list_elem_of_here. }
        destruct cur as [ct ck]. simpl in E. subst ct. simpl pt_offset.
        apply (caretPos_merge_here s done previous current rest op o' ck
                 Hop Hpcne).
        apply Forall_app in Hop_other as [Hd _].
        apply Forall_forall. intros c Hin. split.
        -- exact (proj1 (Forall_forall _ _) Hd c Hin).
        -- exact (proj1 (Forall_forall _ _) Hoc_d c Hin).
      * apply (caretPos_merge s done previous current rest op oc o' cam
                 Hop Hoc eq_refl Hop_other).
        destruct Hcam as [->|[_ Hc2]]; [done|]. intros Eq.
        rewrite Eq in Hc2. apply Hgone.
        apply elem_of_app in Hc2 as [Hin|Hin]; apply elem_of_app;
          [by left|right].
        apply list_elem_of_singleton in Hin. rewrite Hin.
        apply list_elem_of_here.
    + unfold cam'. destruct (decide (pt_text cur = current)) as [E|E].
      * right. rewrite E. split; [done|]. simpl. apply elem_of_app. right.
        apply list_elem_of_here.
      * destruct Hcam as [->|[Hc1 Hc2]]; [by left|right]. split; [|done].
        intros Hin. apply Hc1.
        apply elem_of_app in Hin as [Hin|Hin]; apply elem_of_app;
          [by left|right].
        apply elem_of_cons in Hin as [->|Hin]; [apply list_elem_of_here|].
        by do 2 apply list_elem_of_further.
    + exists ptF, s', po. split; [exact Hrun|]. split; [done|].
      split; [done|]. apply Forall_app in Hop_other as [Hd Hr].
      split; [|split; [|split]].
      * rewrite Hview. cbn [map].
        change (Content_view s1) with (Content_view sM).
        replace (map (Content_view sM) done)
          with (map (Content_view s) done).
        2:{ symmetry. apply Forall_fmap_ext_1.
            eapply Forall_impl; [exact Hd|]. intros c Hc0.
            by apply Content_view_update_other. }
        replace (map (Content_view sM) rest)
          with (map (Content_view s) rest).
        2:{ symmetry. apply Forall_fmap_ext_1.
            eapply Forall_impl; [exact Hr|]. intros c Hc0.
            by apply Content_view_update_other. }
        f_equal. unfold Content_view at 1 3 4, Text_toMarkdown.
        rewrite Hop, Hoc. simpl.
        by rewrite list_lookup_insert_eq by done.
      * intros q Hq. rewrite (Hoth q Hq). unfold Paragraph_view. simpl.
        rewrite list_lookup_insert_ne by done.
        destruct (paragraphs s !! q) as [[qc]|] eqn:Hqo; [|done]. simpl.
        apply Forall_fmap_ext_1.
        assert (CText previous
                ∈ done ++ CText previous :: CText current :: rest) as Hin
          by (apply elem_of_app; right; apply list_elem_of_here).
        pose proof (Tree_other_paragraph s p q _ qc previous T
                      (not_eq_sym Hq) Hp Hqo Hin) as Hqs.
        eapply Forall_impl; [exact Hqs|]. intros c Hc0.
        by apply Content_view_update_other.
      * by rewrite Hc.
      * by rewrite Hk.
Qed.

Definition runText (r : Run) : jsstring :=
  match r with
  | RText a => a
  | RLink a _ => a
  end.

(** Two plain runs next to one another. *)
Fixpoint adjacentTexts (rs : list Run) : bool :=
  match rs with
  | [] => false
  | r :: rest =>
      match r, rest with
      | RText _, RText _ :: _ => true
      | _, _ => adjacentTexts rest
      end
  end.

Lemma mergeFrom_text rs : ∀ r,
  concat (map runText (mergeFrom r rs)) = runText r ++ concat (map runText rs).
Proof.
  induction rs as [|cur rs IH]; intros r; simpl; [done|].
  destruct r as [a|a ta], cur as [b|b tb]; simpl; rewrite IH; simpl;
    by rewrite ?app_assoc.
Qed.

Lemma mergeFrom_link a ta rs :
  ∃ rs', mergeFrom (RLink a ta) rs = RLink a ta :: rs'.
Proof. destruct rs as [|cur rs]; simpl; by eexists. Qed.

Lemma mergeFrom_no_adjacent rs : ∀ r, adjacentTexts (mergeFrom r rs) = false.
Proof.
  induction rs as [|cur rs IH]; intros r; [by destruct r|]. simpl.
  destruct r as [a|a ta], cur as [b|b tb]; try apply IH.
  destruct (mergeFrom_link b tb rs) as [rs' E].
  pose proof (IH (RLink b tb)) as H. rewrite E in *. exact H.
Qed.

Lemma plainText_view s p :
  Paragraph_plainText s p = concat (map runText (Paragraph_view s p)).
Proof.
  unfold Paragraph_plainText, Paragraph_view.
  destruct (paragraphs s !! p) as [po|]; [|done]. f_equal.
  rewrite map_map. apply map_ext. intros [t|l]; [done|].
  unfold Content_plainText. simpl. by destruct (links s !! l).
Qed.

Lemma caretPos_same s s' cs pt :
  texts s' = texts s → links s' = links s →
  caretPos s' cs pt = caretPos s cs pt.
Proof.
  intros Ht Hl. induction cs as [|c cs IH]; [done|]. cbn [caretPos].
  rewrite IH. unfold Content_plainText, textOf, Text_toMarkdown.
  by rewrite Ht, Hl.
Qed.

Lemma Content_plainText_ext s s' c :
  ext s s' → resolved s c → Content_plainText s' c = Content_plainText s c.
Proof.
  intros E (t & Ht & [o Ho]). unfold Content_plainText.
  rewrite Ht, (textOf_ext _ _ _ _ E Ht). unfold Text_toMarkdown.
  by rewrite Ho, (prefix_lookup_Some _ _ _ _ Ho (ext_texts _ _ E)).
Qed.

(** A caret in the element behind [pre] stands behind the text of
    [pre]. *)
Lemma caretPos_at s pre c post pt :
  Forall (λ a, textOf s a ≠ Some (pt_text pt)) pre →
  textOf s c = Some (pt_text pt) →
  caretPos s (pre ++ c :: post) pt
  = Some (jslength (concat (map (Content_plainText s) pre)) + pt_offset pt).
Proof.
  intros Hpre Hc. induction Hpre as [|a pre Ha _ IH]; cbn [app caretPos].
  - rewrite decide_True by done. simpl. f_equal.
  - rewrite decide_False by done. rewrite IH. simpl. f_equal.
    unfold jslength. rewrite length_app. lia.
Qed.

(** [mergeConsecutiveTexts(cursor)] on a paragraph of a tree whose runs
    are not empty. *)
Lemma mergeConsecutiveTexts_run s p cs cur P :
  Tree s → (∀ t o, texts s !! t = Some o → t_content o ≠ []) →
  paragraphs s !! p = Some {| p_content := cs |} → cs ≠ [] →
  caretPos s cs cur = Some P →
  ∃ s' po ptF,
    Paragraph_mergeConsecutiveTexts p cur s = (Ok tt, s')
    ∧ paragraphs s' !! p = Some po
    ∧ cursor s' = Some ptF
    ∧ caretPos s' (p_content po) ptF = Some P
    ∧ Paragraph_view s' p = mergeRuns (Paragraph_view s p)
    ∧ (∀ q, q ≠ p → Paragraph_view s' q = Paragraph_view s q)
    ∧ content s' = content s.
Proof.
  intros T Hne Hp Hcs HP. destruct cs as [|x rest]; [done|].
  unfold Paragraph_mergeConsecutiveTexts.
  rewrite (bind_Ok _ _ _ _ _ (Paragraph_content_Ok _ _ _ Hp)).
  cbn [p_content].
  destruct (mergeLoop_run p cur rest s [] x (S (length (x :: rest))) cur P
              T Hne Hp) as
    (ptF & s' & po & Hrun & Hpo & HcP & Hview & Hoth & Hc & Hk);
    [simpl; lia|done|by left|].
  cbn [length app map] in Hrun, Hview.
  assert (Paragraph_view s p = Content_view s x :: map (Content_view s) rest)
    as Hv by (unfold Paragraph_view; by rewrite Hp).
  destruct (length (x :: rest) <? 2)%nat eqn:Hlen.
  - apply Nat.ltb_lt in Hlen. destruct rest as [|y rest]; [|simpl in Hlen; lia].
    exists (set_cursor (Some cur) s), {| p_content := [x] |}, cur.
    split; [by destruct cur|]. split; [done|]. split; [done|].
    split; [by rewrite (caretPos_same s)|]. by rewrite Hv.
  - rewrite (bind_Ok _ _ _ _ _ Hrun).
    exists (set_cursor (Some ptF) s'), po, ptF.
    split; [by destruct ptF|]. split; [done|]. split; [done|].
    split; [by rewrite (caretPos_same s')|].
    split; [|done]. rewrite Hv. unfold Paragraph_view at 1. simpl.
    rewrite Hpo. exact Hview.
Qed.

Lemma mergeRuns_text rs :
  concat (map runText (mergeRuns rs)) = concat (map runText rs).
Proof. destruct rs as [|r rs]; [done|]. apply mergeFrom_text. Qed.

Lemma mergeRuns_no_adjacent rs : adjacentTexts (mergeRuns rs) = false.
Proof. destruct rs as [|r rs]; [done|]. apply mergeFrom_no_adjacent. Qed.

Lemma NoDup_middle {A} (l1 l2 : list A) (a : A) :
  NoDup (l1 ++ a :: l2) ↔ (a ∉ l1 ++ l2) ∧ NoDup (l1 ++ l2).
Proof. by rewrite <-Permutation_middle, NoDup_cons. Qed.

(** X17: [unlink()] with the caret in a link of an attached paragraph
    of a well-formed tree document.  The link becomes a plain run with
    the link's text, and plain runs that then follow one another are
    merged: the paragraph reads as before, no two plain runs of it are
    neighbours, and its runs are the merged runs of the old ones with
    the link turned into text.  The other paragraphs and their order are
    as before, the caret is asked to the place in the paragraph's text
    where it was, and the loop of [mergeConsecutiveTexts] ends: the only
    part of [unlink] that can still fault is the closing
    [updateSelection]. *)
Theorem unlink_unwraps s dom lk p pre post :
  Inv s → Tree s → linkedSelection s = Some lk → p ∈ content s →
  paragraphs s !! p
  = Some {| p_content := pre ++ CLink (lk_link lk) :: post |} →
  let s' := snd (Model_unlink dom s) in
  Paragraph_view s' p
  = mergeRuns (map (Content_view s) pre
               ++ RText (Content_plainText s (CLink (lk_link lk)))
                  :: map (Content_view s) post)
  ∧ Paragraph_plainText s' p = Paragraph_plainText s p
  ∧ adjacentTexts (Paragraph_view s' p) = false
  ∧ (∀ q, q ≠ p → Paragraph_view s' q = Paragraph_view s q)
  ∧ content s' = content s
  ∧ (∃ pt po, cursor s' = Some pt ∧ paragraphs s' !! p = Some po
       ∧ caretPos s' (p_content po) pt
         = Some (jslength (concat (map (Content_plainText s) pre))
                 + lk_cursor lk))
  ∧ ∃ s1, Model_unlink dom s = Model_updateSelection dom s1.
Proof.
  intros HI HT Hlk Hpc Hp. set (l := lk_link lk) in *.
  pose proof (tree_owned s HT p _ Hp) as Hown. cbn [p_content] in Hown.
  pose proof (tree_nodup s HT p _ Hp) as Hnd. cbn [p_content] in Hnd.
  apply Forall_app in Hown as [Hown_pre Hown_l].
  apply Forall_cons in Hown_l as [(lo & o & Hlo & Hlp & Ho & Hpo) Hown_post].
  pose proof (inv_texts _ _ HI _ _ Ho) as Hlc.
  pose proof (lookup_lt_Some _ _ _ Hp) as Hplt.
  set (n := length (texts s)).
  set (new := {| t_parent := InParagraph p; t_content := t_content o |}).
  set (sA := set_texts (λ ts, ts ++ [new]) s).
  set (sB := set_paragraphs
    (λ ps, <[p := {| p_content := pre ++ CText n :: CLink l :: post |}]> ps)
    sA).
  set (sC := set_paragraphs
    (λ ps, <[p := {| p_content := pre ++ CText n :: post |}]> ps) sB).
  assert (CLink l ∉ pre ++ post) as Hl_notin by by apply NoDup_others.
  assert (ext s sC) as Hext.
  { split; [|done|done]. simpl. by eexists. }
  assert (paragraphs sC
          = <[p := {| p_content := pre ++ CText n :: post |}]> (paragraphs s))
    as HpC by (simpl; by rewrite list_insert_insert_eq).
  assert (Forall (λ c, allocated s c) (pre ++ post)) as Halloc.
  { apply Forall_app_2; (eapply Forall_impl; [eassumption|]);
      intros c Hc; by eapply ownedBy_allocated. }
  assert (CText n ∉ pre ++ post) as Hn_notin.
  { intros Hin. rewrite Forall_forall in Halloc.
    specialize (Halloc _ Hin). simpl in Halloc. unfold n in Halloc. lia. }
  assert (texts sC !! n = Some new) as HnC
    by (simpl; by apply list_lookup_middle).
  assert (Tree sC) as HTC.
  { split; intros q qo Hq; rewrite HpC in Hq.
    - destruct (decide (q = p)) as [->|Hne].
      + rewrite list_lookup_insert_eq in Hq by done. injection Hq as <-.
        cbn [p_content]. apply Forall_app_2; [|constructor].
        * eapply Forall_impl; [exact Hown_pre|]. intros c.
          by apply ownedBy_ext.
        * by exists new.
        * eapply Forall_impl; [exact Hown_post|]. intros c.
          by apply ownedBy_ext.
      + rewrite list_lookup_insert_ne in Hq by done.
        eapply Forall_impl; [exact (tree_owned _ HT _ _ Hq)|]. intros c.
        by apply ownedBy_ext.
    - destruct (decide (q = p)) as [->|Hne].
      + rewrite list_lookup_insert_eq in Hq by done. injection Hq as <-.
        cbn [p_content]. apply NoDup_middle. split; [done|].
        by apply NoDup_middle in Hnd as [_ Hnd].
      + rewrite list_lookup_insert_ne in Hq by done.
        exact (tree_nodup _ HT _ _ Hq). }
  assert (∀ t o', texts sC !! t = Some o' → t_content o' ≠ []) as HneC.
  { intros t o' Ht. simpl in Ht.
    apply lookup_app_Some in Ht as [Ht|[_ Ht]];
      [by apply (inv_texts _ _ HI _ _ Ht)|].
    apply list_lookup_singleton_Some in Ht as [_ <-]. exact Hlc. }
  assert (paragraphs sC !! p
          = Some {| p_content := pre ++ CText n :: post |}) as HpC'
    by (rewrite HpC; by apply list_lookup_insert_eq).
  set (P := jslength (concat (map (Content_plainText s) pre))
            + lk_cursor lk).
  assert (caretPos sC (pre ++ CText n :: post)
            {| pt_text := n; pt_offset := lk_cursor lk |} = Some P) as HP.
  { rewrite caretPos_at; [| |done].
    - unfold P. simpl.
      replace (map (Content_plainText sC) pre)
        with (map (Content_plainText s) pre); [done|].
      symmetry. apply Forall_fmap_ext_1.
      eapply Forall_impl; [exact Hown_pre|]. intros c Hc.
      apply Content_plainText_ext; [done|by eapply ownedBy_resolved].
    - eapply Forall_impl; [exact Hown_pre|]. intros c Hc. simpl.
      destruct (ownedBy_resolved _ _ _ Hc) as (t & Ht & [ot Hot]).
      change (textOf sC c) with (textOf s c). rewrite Ht. intros [= ->].
      apply lookup_lt_Some in Hot. unfold n in Hot. lia. }
  destruct (mergeConsecutiveTexts_run sC p _ _ P HTC HneC HpC'
              ltac:(by destruct pre) HP) as
    (s4 & po & ptF & Hrun4 & Hpo4 & Hk4 & HcP & Hview & Hoth & Hc4).
  assert (Model_unlink dom s = Model_updateSelection dom s4) as Hrun.
  { unfold Model_unlink, bind at 1, get. rewrite Hlk. fold l.
    rewrite (bind_Ok _ _ _ _ _ (getLink_Ok _ _ _ Hlo)), Hlp.
    rewrite (bind_Ok _ _ s (t_content o) s).
    2:{ unfold Link_content, Link_text.
        rewrite (bind_Ok _ _ s (l_text lo) s)
          by (by rewrite (bind_Ok _ _ _ _ _ (getLink_Ok _ _ _ Hlo))).
        exact (Text_content_Ok _ _ _ Ho). }
    rewrite (bind_Ok _ _ s n sA)
      by (unfold Text_new, bind, get, modify, ret; simpl;
          by rewrite (orSpace_id (t_content o))).
    rewrite (bind_Ok _ _ sA tt sB).
    2:{ apply (addContentBefore_run sA p pre post (CText n) (CLink l) Hp).
        intros Hin. apply Hl_notin, elem_of_app. by left. }
    rewrite (bind_Ok _ _ sB tt sC).
    2:{ unfold Link_remove.
        rewrite (bind_Ok _ _ sB lo sB) by (by apply getLink_Ok).
        rewrite Hlp. unfold Paragraph_removeContent.
        rewrite (bind_Ok _ _ sB (pre ++ CText n :: CLink l :: post) sB).
        2:{ apply (Paragraph_content_Ok sB p
                     {| p_content := pre ++ CText n :: CLink l :: post |}).
            simpl. by apply list_lookup_insert_eq. }
        rewrite decide_False by (rewrite length_app; simpl; lia).
        rewrite decide_True.
        2:{ apply elem_of_app. right.
            apply list_elem_of_further, list_elem_of_here. }
        unfold setParagraphContent.
        replace (remove (pre ++ CText n :: CLink l :: post) (CLink l))
          with (pre ++ CText n :: post); [done|].
        change (pre ++ CText n :: CLink l :: post)
          with (pre ++ [CText n] ++ CLink l :: post).
        rewrite app_assoc, remove_found; [by rewrite <-app_assoc|].
        intros [Hin|Hin%list_elem_of_singleton]%elem_of_app; [|done].
        apply Hl_notin, elem_of_app. by left. }
    by rewrite (bind_Ok _ _ _ _ _ Hrun4). }
  assert (content s4 ≠ []) as Hcne.
  { rewrite Hc4. simpl. intros E. rewrite E in Hpc.
    by apply elem_of_nil in Hpc. }
  destruct (updateSelection_selections dom s4 Hcne) as (a & b & Hs').
  intros s'. unfold s'. rewrite Hrun, Hs'. clear s'.
  assert (Content_plainText s (CLink l) = t_content o) as Hplain.
  { unfold Content_plainText, textOf. rewrite Hlo. simpl.
    unfold Text_toMarkdown. by rewrite Ho. }
  assert (Paragraph_view (set_selections a b s4) p
          = mergeRuns (map (Content_view s) pre
                       ++ RText (Content_plainText s (CLink l))
                          :: map (Content_view s) post)) as Hv.
  { change (Paragraph_view (set_selections a b s4) p)
      with (Paragraph_view s4 p).
    rewrite Hview. f_equal. unfold Paragraph_view. rewrite HpC'.
    cbn [p_content]. rewrite map_app. cbn [map]. f_equal; [|f_equal].
    - apply Forall_fmap_ext_1. eapply Forall_impl; [exact Hown_pre|].
      intros c Hc. apply Content_view_ext; [done|].
      by eapply ownedBy_resolved.
    - rewrite Hplain. unfold Content_view, Text_toMarkdown.
      by rewrite HnC.
    - apply Forall_fmap_ext_1. eapply Forall_impl; [exact Hown_post|].
      intros c Hc. apply Content_view_ext; [done|].
      by eapply ownedBy_resolved. }
  split; [exact Hv|]. split.
  { rewrite !plainText_view, Hv, mergeRuns_text.
    unfold Paragraph_view. rewrite Hp. cbn [p_content].
    rewrite !map_app. cbn [map]. do 3 f_equal.
    rewrite Hplain. simpl. rewrite Hlo. simpl. unfold Text_toMarkdown.
    by rewrite Ho. }
  split; [rewrite Hv; apply mergeRuns_no_adjacent|].
  split.
  { intros q Hq. change (Paragraph_view (set_selections a b s4) q)
      with (Paragraph_view s4 q).
    rewrite (Hoth q Hq). unfold Paragraph_view.
    rewrite HpC, list_lookup_insert_ne by done.
    destruct (paragraphs s !! q) as [qo|] eqn:Hqo; [|done].
    apply Forall_fmap_ext_1.
    eapply Forall_impl; [exact (tree_owned _ HT _ _ Hqo)|].
    intros c Hc. apply Content_view_ext; [done|].
    by eapply ownedBy_resolved. }
  split; [simpl; by rewrite Hc4|].
  split; [|by exists s4].
  exists ptF, po. split; [exact Hk4|]. split; [exact Hpo4|].
  by rewrite (caretPos_same s4).
Qed.

Lemma unlink_unwraps_witness :
  let lk := {| lk_link := 0; lk_cursor := 1 |} in
  let s := set_selections None (Some lk)
             (documentOf [[mdText "ab"; mdLink "x" [mdText "cd"];
                           mdText "ef"]]) in
  let s' := snd (Model_unlink (caret [0; 0]%nat 3) s) in
  Paragraph_view s' 0 = [RText (lit "abcdef")]
  ∧ Paragraph_plainText s' 0 = Paragraph_plainText s 0
  ∧ adjacentTexts (Paragraph_view s' 0) = false
  ∧ (∀ q, q ≠ 0%nat → Paragraph_view s' q = Paragraph_view s q)
  ∧ content s' = content s
  ∧ (∃ pt po, cursor s' = Some pt ∧ paragraphs s' !! 0%nat = Some po
       ∧ caretPos s' (p_content po) pt = Some 3)
  ∧ ∃ s1, Model_unlink (caret [0; 0]%nat 3) s
          = Model_updateSelection (caret [0; 0]%nat 3) s1.
Proof.
  apply (unlink_unwraps
    (set_selections None (Some {| lk_link := 0; lk_cursor := 1 |})
       (documentOf [[mdText "ab"; mdLink "x" [mdText "cd"]; mdText "ef"]]))
    (caret [0; 0]%nat 3) {| lk_link := 0; lk_cursor := 1 |}
    0%nat [CText 0] [CText 2]).
  - apply InvX_set_selections, Inv_documentOf; [reflexivity|].
    repeat constructor; discriminate.
  - apply Tree_set_selections. by apply Tree_documentOf.
  - reflexivity.
  - apply list_elem_of_here.
  - reflexivity.
Defined.

(** ** Typing *)

(** A host selection from offset [a] to offset [b] of the run at
    [path]. *)
Definition rangeIn (path : list nat) (a b : Z) : DomSelection :=
  {| ds_start := domPoint path a; ds_end := domPoint path b |}.

Lemma Model_getSelection_range s path a b t :
  content s ≠ [] →
  fst (Model_findTextForPath path s) = Ok t →
  Model_getSelection (rangeIn path a b) s
  = (Ok {| sel_start := {| pt_text := t; pt_offset := a |};
           sel_end := {| pt_text := t; pt_offset := b |};
           sel_textBetween := [] |}, s).
Proof.
  intros Hc Ht. unfold Model_getSelection, bind at 1, get.
  rewrite bool_decide_eq_false_2 by (by destruct (content s)).
  simpl whenM. rewrite (bind_Ok _ _ s tt s) by done.
  assert (∀ k, createPoint (domPoint path k) s
               = (Ok {| pt_text := t; pt_offset := k |}, s)) as Hpt.
  { intros k. unfold createPoint, domPoint. cbn [dp_path dp_offset].
    rewrite (bind_Ok _ _ s t s); [done|].
    by rewrite (readonly_run _ s (readonly_Model_findTextForPath path)), Ht. }
  unfold Selection_ofDomSelection, rangeIn. cbn [ds_start ds_end].
  rewrite (bind_Ok _ _ _ _ _ (Hpt a)), (bind_Ok _ _ _ _ _ (Hpt b)).
  unfold Selection_new. cbn [pt_text]. by rewrite decide_True.
Qed.

(** The two getters of a selection within one run. *)
Lemma Text_isInLink_Ok st t o :
  texts st !! t = Some o →
  Text_isInLink t st
  = (Ok (match t_parent o with InLink _ => true | InParagraph _ => false end),
     st).
Proof.
  intros Ho. unfold Text_isInLink.
  by rewrite (bind_Ok _ _ _ _ _ (getText_Ok _ _ _ Ho)).
Qed.

Lemma Selection_linkable_within st t o a b :
  texts st !! t = Some o →
  Selection_linkable {| sel_start := {| pt_text := t; pt_offset := a |};
                        sel_end := {| pt_text := t; pt_offset := b |};
                        sel_textBetween := [] |} st
  = (Ok (match t_parent o with
         | InLink _ => None
         | InParagraph _ =>
             if bool_decide (a = b)
             then match wordAtOffset (t_content o) a with
                  | Some (wstart, wend) =>
                      Some {| ls_text := t; ls_start := wstart;
                              ls_end := wend; ls_cursor := b |}
                  | None => None
                  end
             else Some {| ls_text := t; ls_start := a; ls_end := b;
                          ls_cursor := b |}
         end), st).
Proof.
  intros Ho. unfold Selection_linkable, Selection_isLinkable,
    Selection_isRange.
  cbn [sel_start sel_end pt_text pt_offset].
  rewrite decide_True by done.
  rewrite bool_decide_eq_true_2 by done. cbn [negb orb].
  rewrite (bind_Ok _ _ st
    (negb (match t_parent o with InLink _ => true | InParagraph _ => false end))
    st)
    by (by rewrite (bind_Ok _ _ _ _ _ (Text_isInLink_Ok _ _ _ Ho))).
  destruct (t_parent o) as [p|l]; cbn [negb]; [|done].
  destruct (bool_decide (a = b)); cbn [negb]; [|done].
  rewrite (bind_Ok _ _ _ _ _ (Text_content_Ok _ _ _ Ho)).
  by destruct (wordAtOffset (t_content o) a) as [[wstart wend]|].
Qed.

Lemma Selection_link_within st t o a b :
  texts st !! t = Some o →
  Selection_link {| sel_start := {| pt_text := t; pt_offset := a |};
                    sel_end := {| pt_text := t; pt_offset := b |};
                    sel_textBetween := [] |} st
  = (Ok (match t_parent o with
         | InLink l => Some {| lk_link := l; lk_cursor := b |}
         | InParagraph _ => None
         end), st).
Proof.
  intros Ho. unfold Selection_link, Selection_isLink.
  cbn [sel_start sel_end pt_text pt_offset].
  rewrite decide_True by done.
  rewrite (bind_Ok _ _ _ _ _ (Text_isInLink_Ok _ _ _ Ho)).
  destruct (t_parent o) as [p|l] eqn:Hp; [done|].
  rewrite (bind_Ok _ _ _ _ _ (getText_Ok _ _ _ Ho)). by rewrite Hp.
Qed.

(** X11: what [updateSelection] keeps for a host selection from offset
    [a] to offset [b] of one run [t] of a document that is not empty.
    In the run of a link: no linkable selection, and the linked selection
    of that link with the cursor at [b].  In a plain run: no linked
    selection, and the linkable selection from [a] to [b] for a range,
    that of the word at the caret for a caret, or none when there is no
    word there; its cursor is at [b].  And whatever the host selection,
    when [updateSelection] goes through, the two selections are never
    both kept. *)
Theorem updateSelection_reads s path a b t o :
  content s ≠ [] →
  fst (Model_findTextForPath path s) = Ok t → texts s !! t = Some o →
  Model_updateSelection (rangeIn path a b) s
  = (Ok tt,
     set_selections
       (match t_parent o with
        | InLink _ => None
        | InParagraph _ =>
            if bool_decide (a = b)
            then match wordAtOffset (t_content o) a with
                 | Some (wstart, wend) =>
                     Some {| ls_text := t; ls_start := wstart;
                             ls_end := wend; ls_cursor := b |}
                 | None => None
                 end
            else Some {| ls_text := t; ls_start := a; ls_end := b;
                         ls_cursor := b |}
        end)
       (match t_parent o with
        | InLink l => Some {| lk_link := l; lk_cursor := b |}
        | InParagraph _ => None
        end) s)
  ∧ (∀ dom s', Model_updateSelection dom s = (Ok tt, s') →
       linkableSelection s' = None ∨ linkedSelection s' = None).
Proof.
  intros Hc Ht Ho. split.
  2:{ intros dom s' H.
      by destruct (updateSelection_not_both dom s s' H) as [? _]. }
  unfold Model_updateSelection.
  rewrite (bind_Ok _ _ _ _ _ (Model_getSelection_range s path a b t Hc Ht)).
  rewrite (bind_Ok _ _ _ _ _ (Selection_linkable_within s t o a b Ho)).
  match goal with
  | |- context [modify (λ st, set_selections ?L _ st)] => set (able := L)
  end.
  rewrite (bind_Ok _ _ s tt (set_selections able (linkedSelection s) s))
    by done.
  by rewrite (bind_Ok _ _ _ _ _
    (Selection_link_within (set_selections able (linkedSelection s) s)
       t o a b Ho)).
Qed.

Lemma updateSelection_reads_witness :
  let s := documentOf [[mdText "ab"; mdLink "x" [mdText "cd"]]] in
  Model_updateSelection (rangeIn [0; 1; 0]%nat 1 2) s
  = (Ok tt,
     set_selections None (Some {| lk_link := 0%nat; lk_cursor := 2 |}) s)
  ∧ (∀ dom s', Model_updateSelection dom s = (Ok tt, s') →
       linkableSelection s' = None ∨ linkedSelection s' = None).
Proof.
  apply (updateSelection_reads
           (documentOf [[mdText "ab"; mdLink "x" [mdText "cd"]]])
           [0; 1; 0]%nat 1 2 1%nat
           {| t_parent := InLink 0; t_content := lit "cd" |}).
  - discriminate.
  - reflexivity.
  - reflexivity.
Defined.

(** A caret in a run that holds only a space keeps neither selection. *)
Example updateSelection_keeps_nothing :
  let s := documentOf [[mdText " "]] in
  Model_updateSelection (rangeIn [0; 0]%nat 0 0) s
  = (Ok tt, set_selections None None s).
Proof. by vm_compute. Qed.

Lemma Text_insertChar_run st t o ch offset :
  texts st !! t = Some o →
  0 <= offset <= jslength (t_content o) →
  ch ≠ [] →
  Text_insertChar t ch offset st
  = (Ok {| pt_text := t; pt_offset := offset + 1 |},
     set_texts (λ ts,
       <[t := {| t_parent := t_parent o;
                 t_content := take (Z.to_nat offset) (t_content o) ++ ch
                              ++ drop (Z.to_nat offset) (t_content o) |}]> ts)
       st).
Proof.
  intros Ht Ho Hch. unfold Text_insertChar.
  rewrite (bind_Ok _ _ _ _ _ (Text_content_Ok _ _ _ Ht)).
  rewrite (bind_Ok _ _ _ _ _ (Text_setContent_Ok _ _ _ _ Ht)).
  rewrite (within_run _ _ Ho).
  unfold ret. rewrite substring_prefix, substring_suffix.
  unfold jslength in Ho. rewrite !clamp_in by lia.
  rewrite orSpace_id; [done|].
  intros [_ [E _]%app_eq_nil]%app_eq_nil. done.
Qed.

(** X18: typing at a caret or over a selection inside one run.  With
    the host selection from offset [a] to offset [b] of one run of a
    document that is not empty, and not the whole run, [insertChar(ch)]
    puts [ch] in the place of the characters from [a] up to [b] of that
    run, changes nothing else in the document, and asks the caret to
    offset [a + 1] of the run. *)
Theorem insertChar_types s path a b t o ch :
  content s ≠ [] →
  fst (Model_findTextForPath path s) = Ok t → texts s !! t = Some o →
  0 <= a <= b → b <= jslength (t_content o) →
  ¬ (a = 0 ∧ b = jslength (t_content o)) → ch ≠ [] →
  ∃ s', Model_insertChar ch (rangeIn path a b) s = (Ok tt, s')
    ∧ texts s'
      = <[t := {| t_parent := t_parent o;
                  t_content := take (Z.to_nat a) (t_content o) ++ ch
                               ++ drop (Z.to_nat b) (t_content o) |}]>
          (texts s)
    ∧ links s' = links s ∧ paragraphs s' = paragraphs s
    ∧ content s' = content s
    ∧ cursor s' = Some {| pt_text := t; pt_offset := a + 1 |}.
Proof.
  intros Hc Ht Ho Hab Hb Hwhole Hch. unfold Model_insertChar.
  rewrite (bind_Ok _ _ _ _ _ (Model_getSelection_range s path a b t Hc Ht)).
  unfold Selection_isRange. cbn [sel_start sel_end pt_text pt_offset].
  rewrite bool_decide_eq_true_2 by done. cbn [negb orb].
  destruct (decide (a = b)) as [<-|Hne].
  - rewrite bool_decide_eq_true_2 by done. cbn [negb whenM].
    rewrite (bind_Ok _ _ s tt s) by done.
    rewrite (bind_Ok _ _ _ _ _ (Text_insertChar_run s t o ch a Ho
                                  ltac:(lia) Hch)).
    eexists. split; [reflexivity|]. done.
  - rewrite bool_decide_eq_false_2 by done. cbn [negb whenM].
    destruct (removeRange_inside s t o a b Ho Hab Hb Hwhole)
      as (Hrem & Hlen & Hrest).
    set (rest := take (Z.to_nat a) (t_content o)
                 ++ drop (Z.to_nat b) (t_content o)) in *.
    set (o1 := {| t_parent := t_parent o; t_content := rest |}) in *.
    set (s1 := set_texts (λ ts, <[t := o1]> ts) s) in *.
    rewrite (bind_Ok _ _ s tt s1).
    2:{ unfold Selection_remove. cbn [sel_start sel_end pt_text pt_offset].
        rewrite decide_True by done. unfold bind at 1. by rewrite Hrem. }
    assert (texts s1 !! t = Some o1) as Ho1
      by (simpl; apply list_lookup_insert_eq; by eapply lookup_lt_Some).
    assert (jslength (take (Z.to_nat a) (t_content o)) = a) as Hta
      by (unfold jslength in *; rewrite length_take; lia).
    rewrite (bind_Ok _ _ _ _ _ (Text_insertChar_run s1 t o1 ch a Ho1
                                  ltac:(simpl; lia) Hch)).
    eexists. split; [reflexivity|]. split; [|done]. simpl.
    rewrite list_insert_insert_eq. do 2 f_equal. unfold rest.
    unfold jslength in Hta.
    rewrite take_app_length', drop_app_length' by lia. done.
Qed.

Lemma insertChar_types_witness :
  let s := documentOf [[mdText "hello"]] in
  ∃ s', Model_insertChar (lit "X") (rangeIn [0; 0]%nat 1 3) s = (Ok tt, s')
    ∧ texts s'
      = <[0%nat := {| t_parent := InParagraph 0;
                      t_content := take 1 (lit "hello") ++ lit "X"
                                   ++ drop 3 (lit "hello") |}]> (texts s)
    ∧ links s' = links s ∧ paragraphs s' = paragraphs s
    ∧ content s' = content s
    ∧ cursor s' = Some {| pt_text := 0%nat; pt_offset := 1 + 1 |}.
Proof.
  apply (insertChar_types (documentOf [[mdText "hello"]]) [0; 0]%nat 1 3
           0%nat {| t_parent := InParagraph 0; t_content := lit "hello" |}
           (lit "X")).
  - discriminate.
  - reflexivity.
  - reflexivity.
  - lia.
  - unfold jslength. simpl. lia.
  - intros [E _]. discriminate.
  - discriminate.
Defined.

(** Removing the run of an element [c] that has an element before it in
    its paragraph: a plain run leaves the paragraph, and so does a link
    whose run is removed. *)
Lemma Text_remove_element s p pre post x c t xt xo :
  ownedBy s p c → textOf s c = Some t →
  paragraphs s !! p = Some {| p_content := pre ++ x :: c :: post |} →
  Forall (λ a, textOf s a ≠ Some t) (pre ++ [x]) →
  textOf s x = Some xt → texts s !! xt = Some xo →
  Text_remove t s
  = (Ok (Some {| pt_text := xt; pt_offset := jslength (t_content xo) |}),
     set_paragraphs (λ ps, <[p := {| p_content := pre ++ x :: post |}]> ps) s).
Proof.
  intros Hown Hc Hp Hne Hx Hxo. destruct c as [t'|l].
  { simpl in Hc. injection Hc as ->. destruct Hown as (o & Ho & Hpar).
    by apply (Text_remove_after s p pre post x t o xt xo). }
  destruct Hown as (lo & o & Hlo & Hlp & Ho & Hpo).
  simpl in Hc. rewrite Hlo in Hc. simpl in Hc. injection Hc as Hlt.
  rewrite Hlt in Ho.
  assert (textOf s (CLink l) = Some t) as HcL
    by (simpl; by rewrite Hlo, <-Hlt).
  pose proof Hne as Hne'. apply Forall_app in Hne' as [Hpre Hxne].
  rewrite Forall_singleton in Hxne.
  assert (Text_getPrecedingText t s = (Ok (Some xt), s)) as Hprev.
  { unfold Text_getPrecedingText.
    rewrite (bind_Ok _ _ _ _ _ (getText_Ok _ _ _ Ho)), Hpo.
    unfold Link_getPrecedingText.
    rewrite (bind_Ok _ _ _ _ _ (getLink_Ok _ _ _ Hlo)), Hlp, Hlt.
    unfold Paragraph_getPrecedingText.
    rewrite (bind_Ok _ _ _ _ _ (Paragraph_content_Ok _ _ _ Hp)).
    unfold bind at 1, get. cbn [p_content]. unfold previousOfMapped.
    rewrite (previousFrom_found pre post x (CLink l) (textOf s) (Some t));
      [|done|done|done].
    by rewrite (bind_Ok _ _ _ _ _ (Content_text_Ok _ _ _ Hx)). }
  unfold Text_remove. rewrite (bind_Ok _ _ _ _ _ Hprev).
  rewrite (bind_Ok _ _ _ _ _ (getText_Ok _ _ _ Ho)), Hpo.
  rewrite (bind_Ok _ _ s tt
    (set_paragraphs (λ ps, <[p := {| p_content := pre ++ x :: post |}]> ps) s)).
  - by rewrite (bind_Ok _ _ _ _ _
      (Text_length_Ok (set_paragraphs _ s) _ xo Hxo)).
  - unfold Link_removeContent.
    rewrite (bind_Ok _ _ _ _ _ (getLink_Ok _ _ _ Hlo)).
    rewrite decide_True by done. unfold Link_remove.
    rewrite (bind_Ok _ _ _ _ _ (getLink_Ok _ _ _ Hlo)), Hlp.
    unfold Paragraph_removeContent.
    rewrite (bind_Ok _ _ _ _ _ (Paragraph_content_Ok _ _ _ Hp)).
    cbn [p_content].
    rewrite decide_False by (rewrite length_app; simpl; lia).
    rewrite decide_True.
    2:{ apply elem_of_app. right. apply list_elem_of_further,
          list_elem_of_here. }
    unfold setParagraphContent.
    replace (remove (pre ++ x :: CLink l :: post) (CLink l))
      with (pre ++ x :: post); [done|].
    change (pre ++ x :: CLink l :: post)
      with (pre ++ [x] ++ CLink l :: post).
    rewrite app_assoc, remove_found; [by rewrite <-app_assoc|].
    intros Hin. rewrite Forall_forall in Hne. by apply (Hne _ Hin).
Qed.

(** X19: typing over a whole run.  When the host selection covers all
    of a run, plain or of a link, that has an element before it in its
    paragraph, [insertChar(ch)] takes the element out of the paragraph
    and then inserts [ch] into the run that was removed: the typed
    character reaches no paragraph of the document, and the caret is
    asked into the removed run. *)
Theorem insertChar_over_whole_run s path t o p pre x c post ch :
  Inv s → Tree s → content s ≠ [] →
  fst (Model_findTextForPath path s) = Ok t → texts s !! t = Some o →
  paragraphs s !! p = Some {| p_content := pre ++ x :: c :: post |} →
  textOf s c = Some t → ch ≠ [] →
  ∃ s',
    Model_insertChar ch (rangeIn path 0 (jslength (t_content o))) s
    = (Ok tt, s')
    ∧ Paragraph_view s' p = map (Content_view s) (pre ++ x :: post)
    ∧ (∀ q, q ≠ p → Paragraph_view s' q = Paragraph_view s q)
    ∧ content s' = content s
    ∧ Text_toMarkdown s' t = ch ++ t_content o
    ∧ cursor s' = Some {| pt_text := t; pt_offset := 1 |}.
Proof.
  intros HI HT Hc Ht Ho Hp Hct Hch.
  pose proof (inv_texts _ _ HI _ _ Ho) as Hlen.
  assert (0 < jslength (t_content o)) as Hpos
    by (unfold jslength; destruct (t_content o); [done|simpl; lia]).
  pose proof (tree_owned _ HT _ _ Hp) as Hown. cbn [p_content] in Hown.
  pose proof (Tree_NoDup_textOf _ _ _ HT Hp) as Hndt.
  cbn [p_content] in Hndt.
  change (pre ++ x :: c :: post) with (pre ++ [x] ++ c :: post) in Hndt.
  rewrite app_assoc in Hndt.
  pose proof (NoDup_fmap_others _ _ _ _ Hndt) as Hothers.
  rewrite Hct, <-app_assoc in Hothers. simpl in Hothers.
  assert (ownedBy s p x ∧ ownedBy s p c) as [Hox Hoc].
  { apply Forall_app in Hown as [_ Hown].
    apply Forall_cons in Hown as [Hx Hown].
    by apply Forall_cons in Hown as [Hc0 _]. }
  destruct (ownedBy_resolved _ _ _ Hox) as (xt & Hxt & [xo Hxo]).
  set (s1 := set_paragraphs
    (λ ps, <[p := {| p_content := pre ++ x :: post |}]> ps) s).
  set (o' := {| t_parent := t_parent o;
                t_content := take (Z.to_nat 0) (t_content o) ++ ch
                             ++ drop (Z.to_nat 0) (t_content o) |}).
  set (s2 := set_texts (λ ts, <[t := o']> ts) s1).
  exists (set_cursor (Some {| pt_text := t; pt_offset := 0 + 1 |}) s2).
  pose proof (lookup_lt_Some _ _ _ Hp) as Hplt.
  pose proof (lookup_lt_Some _ _ _ Ho) as Htlt.
  split.
  { unfold Model_insertChar.
    rewrite (bind_Ok _ _ _ _ _
               (Model_getSelection_range s path 0 _ t Hc Ht)).
    unfold Selection_isRange. cbn [sel_start sel_end pt_text pt_offset].
    rewrite bool_decide_eq_true_2 by done.
    rewrite (bool_decide_eq_false_2 (0 = jslength (t_content o))) by lia.
    cbn [negb orb whenM].
    rewrite (bind_Ok _ _ s tt s1).
    2:{ unfold Selection_remove. cbn [sel_start sel_end pt_text pt_offset].
        rewrite decide_True by done.
        rewrite (bind_Ok _ _ s
          (Some {| pt_text := xt; pt_offset := jslength (t_content xo) |})
          s1); [done|].
        unfold Text_removeRange.
        rewrite (bind_Ok _ _ _ _ _ (Text_content_Ok _ _ _ Ho)).
        replace (0 <? 0) with false by done.
        rewrite (proj2 (Z.ltb_ge _ _)) by lia.
        rewrite Z.eqb_refl, Z.eqb_refl. cbn [orb andb].
        rewrite (Text_remove_element s p pre post x c t xt xo); try done.
        apply Forall_app in Hothers as [H1 H2].
        apply Forall_cons in H2 as [H2 _].
        apply Forall_app_2; [done|by constructor]. }
    by rewrite (bind_Ok _ _ _ _ _ (Text_insertChar_run s1 t o ch 0 Ho
                                     ltac:(lia) Hch)). }
  assert (∀ a, textOf s a ≠ Some t →
               Content_view s2 a = Content_view s a) as Hsame.
  { intros a Ha. change (Content_view s2 a)
      with (Content_view (set_texts (λ ts, <[t := o']> ts) s) a).
    by apply Content_view_update_other. }
  split.
  { unfold Paragraph_view. simpl.
    rewrite list_lookup_insert_eq by done. cbn [p_content].
    apply Forall_fmap_ext_1.
    eapply Forall_impl; [exact Hothers|]. intros a Ha. by apply Hsame. }
  split.
  { intros q Hq. unfold Paragraph_view. simpl.
    rewrite list_lookup_insert_ne by done.
    destruct (paragraphs s !! q) as [qo|] eqn:Hqo; [|done].
    apply Forall_fmap_ext_1.
    eapply Forall_impl; [exact (tree_owned _ HT _ _ Hqo)|].
    intros a Ha. apply Hsame. intros Heq.
    by destruct (ownedBy_textOf_inj _ _ _ _ _ _ Ha Hoc Heq Hct). }
  split; [done|]. split; [|done].
  unfold Text_toMarkdown. simpl.
  by rewrite list_lookup_insert_eq by done.
Qed.

Lemma insertChar_over_whole_run_witness :
  let s := documentOf [[mdText "ab"; mdLink "x" [mdText "cd"]]] in
  ∃ s',
    Model_insertChar (lit "Z") (rangeIn [0; 1; 0]%nat 0 2) s = (Ok tt, s')
    ∧ Paragraph_view s' 0 = [RText (lit "ab")]
    ∧ (∀ q, q ≠ 0%nat → Paragraph_view s' q = Paragraph_view s q)
    ∧ content s' = content s
    ∧ Text_toMarkdown s' 1 = lit "Zcd"
    ∧ cursor s' = Some {| pt_text := 1%nat; pt_offset := 1 |}.
Proof.
  apply (insertChar_over_whole_run
    (documentOf [[mdText "ab"; mdLink "x" [mdText "cd"]]]) [0; 1; 0]%nat
    1%nat {| t_parent := InLink 0; t_content := lit "cd" |} 0%nat
    [] (CText 0) (CLink 0) [] (lit "Z")).
  - apply Inv_documentOf; [reflexivity|]. repeat constructor; discriminate.
  - by apply Tree_documentOf.
  - discriminate.
  - reflexivity.
  - reflexivity.
  - reflexivity.
  - reflexivity.
  - discriminate.
Defined.

(** ** Deleting a selection inside a paragraph *)

Lemma NoDup_bounded_length (us : list nat) (n : nat) :
  NoDup us → Forall (λ u, (u < n)%nat) us → (length us ≤ n)%nat.
Proof.
  intros Hnd Hb. transitivity (length (seq 0 n)); [|by rewrite length_seq].
  apply submseteq_length, NoDup_submseteq; [done|]. intros x Hx.
  apply elem_of_seq. rewrite Forall_forall in Hb. specialize (Hb _ Hx). lia.
Qed.

Lemma ownedBy_same s s' p c :
  texts s' = texts s → links s' = links s → ownedBy s p c → ownedBy s' p c.
Proof. intros Ht Hl. destruct c; simpl; by rewrite Ht, ?Hl. Qed.

(** The run before the run of [c] is the run of the element before
    [c], when [c] is not the first element of its paragraph. *)
Lemma Text_getPrecedingText_behind s p front c post t x xt :
  ownedBy s p c → textOf s c = Some t →
  paragraphs s !! p = Some {| p_content := front ++ c :: post |} →
  Forall (λ a, textOf s a ≠ Some t) front →
  last front = Some x → textOf s x = Some xt →
  Text_getPrecedingText t s = (Ok (Some xt), s).
Proof.
  intros Hown Hc Hp Hne Hlast Hx.
  apply last_Some in Hlast as [pre ->]. rewrite <-app_assoc in Hp.
  apply Forall_app in Hne as [Hpre Hxne]. rewrite Forall_singleton in Hxne.
  assert (Paragraph_getPrecedingText p t s = (Ok (Some xt), s)) as Hprev.
  { unfold Paragraph_getPrecedingText.
    rewrite (bind_Ok _ _ _ _ _ (Paragraph_content_Ok _ _ _ Hp)).
    unfold bind at 1, get. cbn [p_content]. unfold previousOfMapped.
    rewrite (previousFrom_found pre post x c (textOf s) (Some t));
      [|done|done|done].
    by rewrite (bind_Ok _ _ _ _ _ (Content_text_Ok _ _ _ Hx)). }
  unfold Text_getPrecedingText. destruct c as [t'|l].
  - simpl in Hc. injection Hc as ->. destruct Hown as (o & Ho & Hpar).
    by rewrite (bind_Ok _ _ _ _ _ (getText_Ok _ _ _ Ho)), Hpar.
  - destruct Hown as (lo & o & Hlo & Hlp & Ho & Hpo).
    simpl in Hc. rewrite Hlo in Hc. simpl in Hc. injection Hc as Hlt.
    rewrite Hlt in Ho.
    rewrite (bind_Ok _ _ _ _ _ (getText_Ok _ _ _ Ho)), Hpo.
    unfold Link_getPrecedingText.
    by rewrite (bind_Ok _ _ _ _ _ (getLink_Ok _ _ _ Hlo)), Hlp, Hlt.
Qed.

Lemma Text_remove_element_behind s p front c post t :
  ownedBy s p c → textOf s c = Some t →
  paragraphs s !! p = Some {| p_content := front ++ c :: post |} →
  Forall (λ a, textOf s a ≠ Some t) front →
  Forall (resolved s) front → front ≠ [] →
  ∃ pt, Text_remove t s
        = (Ok pt,
           set_paragraphs
             (λ ps, <[p := {| p_content := front ++ post |}]> ps) s).
Proof.
  intros Hown Hc Hp Hne Hres Hfront.
  destruct (last front) as [x|] eqn:Hlast;
    [|by apply last_None in Hlast].
  apply last_Some in Hlast as [pre ->]. rewrite <-app_assoc in Hp.
  apply Forall_app in Hres as [_ Hx]. rewrite Forall_singleton in Hx.
  destruct Hx as (xt & Hxt & [xo Hxo]). eexists.
  rewrite (Text_remove_element s p pre post x c t xt xo); try done.
  by rewrite <-app_assoc.
Qed.

(** The loop of the [Selection] constructor, walking back from the end
    of the selection to its start through the elements [mid] between
    them: it collects their runs, last first. *)
Lemma betweenLoop_run s p ts mid : ∀ front cE post acc fuel,
  paragraphs s !! p = Some {| p_content := front ++ mid ++ cE :: post |} →
  Forall (ownedBy s p) (front ++ mid ++ cE :: post) →
  NoDup (map (textOf s) (front ++ mid ++ cE :: post)) →
  last front ≫= textOf s = Some ts →
  (length mid < fuel)%nat →
  betweenLoop fuel ts (last (front ++ mid) ≫= textOf s) acc s
  = (Ok (acc ++ rev (omap (textOf s) mid)), s).
Proof.
  induction mid as [|m mid IH] using rev_ind;
    intros front cE post acc fuel Hp Hown Hnd Hts Hfuel;
    (destruct fuel as [|fuel]; [simpl in Hfuel; lia|]); cbn [betweenLoop].
  - rewrite app_nil_r, Hts. rewrite decide_True by done.
    simpl. by rewrite app_nil_r.
  - rewrite app_assoc, last_snoc. cbn [mbind option_bind].
    rewrite <-!app_assoc in Hp, Hown, Hnd. cbn [app] in Hp, Hown, Hnd.
    assert (ownedBy s p m) as Hm.
    { apply Forall_app in Hown as [_ Hown].
      apply Forall_app in Hown as [_ Hown].
      by apply Forall_cons in Hown as [Hm _]. }
    destruct (ownedBy_resolved _ _ _ Hm) as (u & Hu & _). rewrite Hu.
    rewrite (app_assoc front mid) in Hp, Hown, Hnd.
    pose proof (NoDup_fmap_others _ _ _ _ Hnd) as Hoth.
    rewrite Hu in Hoth. apply Forall_app in Hoth as [Hfm _].
    destruct (last front) as [cS|] eqn:HcS; [|done]. simpl in Hts.
    assert (u ≠ ts) as Huts.
    { intros ->. apply Forall_app in Hfm as [Hf _].
      apply last_Some in HcS as [pre ->].
      apply Forall_app in Hf as [_ Hf]. rewrite Forall_singleton in Hf.
      done. }
    rewrite decide_False by congruence.
    assert (∃ x, last (front ++ mid) = Some x) as [x Hx].
    { destruct (last (front ++ mid)) eqn:E; [by eexists|].
      apply last_None in E. apply app_eq_nil in E as [-> _]. done. }
    assert (resolved s x) as (xt & Hxt & _).
    { apply (ownedBy_resolved s p). apply Forall_app in Hown as [Hown _].
      rewrite Forall_forall in Hown. apply Hown.
      apply last_Some in Hx as [l' ->]. apply elem_of_app. right.
      apply list_elem_of_here. }
    rewrite (bind_Ok _ _ _ _ _
      (Text_getPrecedingText_behind s p (front ++ mid) m (cE :: post) u x xt
         Hm Hu Hp Hfm Hx Hxt)).
    rewrite <-app_assoc in Hp, Hown, Hnd.
    pose proof (IH front m (cE :: post) (acc ++ [u]) fuel Hp Hown Hnd) as HIH.
    rewrite HcS, Hx in HIH. cbn [mbind option_bind] in HIH.
    rewrite Hxt in HIH. rewrite HIH;
      [|done|rewrite length_app in Hfuel; simpl in Hfuel; lia].
    rewrite omap_app, rev_app_distr. simpl. rewrite Hu.
    simpl. by rewrite <-app_assoc.
Qed.

(** Removing the runs between the ends of a selection, last first, takes
    their elements out of the paragraph and changes nothing else. *)
Lemma remove_between_run p mid : ∀ s front cE post,
  paragraphs s !! p = Some {| p_content := front ++ mid ++ cE :: post |} →
  Forall (ownedBy s p) (front ++ mid ++ cE :: post) →
  NoDup (map (textOf s) (front ++ mid ++ cE :: post)) →
  front ≠ [] →
  ∃ s',
    forOf (rev (omap (textOf s) mid)) (λ text, Text_remove text ;;; ret tt) s
    = (Ok tt, s')
    ∧ texts s' = texts s ∧ links s' = links s ∧ content s' = content s
    ∧ cursor s' = cursor s
    ∧ paragraphs s'
      = <[p := {| p_content := front ++ cE :: post |}]> (paragraphs s).
Proof.
  induction mid as [|m mid IH] using rev_ind;
    intros s front cE post Hp Hown Hnd Hfront.
  - exists s. simpl. repeat split; try done. by rewrite list_insert_id.
  - rewrite <-!app_assoc in Hp, Hown, Hnd. cbn [app] in Hp, Hown, Hnd.
    rewrite (app_assoc front mid) in Hp, Hown, Hnd.
    pose proof Hown as Hown'.
    apply Forall_app in Hown' as [Hown_f Hown_r].
    apply Forall_cons in Hown_r as [Hm Hown_r].
    destruct (ownedBy_resolved _ _ _ Hm) as (u & Hu & _).
    pose proof (NoDup_fmap_others _ _ _ _ Hnd) as Hoth.
    rewrite Hu in Hoth. apply Forall_app in Hoth as [Hfm _].
    destruct (Text_remove_element_behind s p (front ++ mid) m (cE :: post) u
                Hm Hu Hp Hfm) as [pt Hrem].
    { eapply Forall_impl; [exact Hown_f|]. intros c.
      apply ownedBy_resolved. }
    { intros [E _]%app_eq_nil. done. }
    set (s1 := set_paragraphs
      (λ ps, <[p := {| p_content := (front ++ mid) ++ cE :: post |}]> ps) s)
      in *.
    destruct (IH s1 front cE post) as (s' & Hrun & Ht & Hl & Hc & Hk & Hps).
    + simpl. rewrite <-app_assoc. apply list_lookup_insert_eq.
      by eapply lookup_lt_Some.
    + rewrite app_assoc. apply Forall_app_2; [exact Hown_f|exact Hown_r].
    + rewrite map_app in Hnd. cbn [map] in Hnd.
      apply NoDup_middle in Hnd as [_ Hnd].
      rewrite app_assoc, map_app. exact Hnd.
    + done.
    + exists s'. split.
      * rewrite omap_app, rev_app_distr. simpl omap. rewrite Hu.
        cbn [rev app forOf].
        rewrite (bind_Ok _ _ s tt s1)
          by (by rewrite (bind_Ok _ _ _ _ _ Hrem)).
        exact Hrun.
      * rewrite Ht, Hl, Hc, Hk, Hps. repeat split; try done. simpl.
        by rewrite list_insert_insert_eq.
Qed.

Lemma omap_textOf_resolved s cs :
  Forall (resolved s) cs →
  map (textOf s) cs = map Some (omap (textOf s) cs)
  ∧ length (omap (textOf s) cs) = length cs
  ∧ Forall (λ u, (u < length (texts s))%nat) (omap (textOf s) cs).
Proof.
  induction 1 as [|c cs (t & Ht & [o Ho]) _ (IH1 & IH2 & IH3)]; [done|].
  change (omap (textOf s) (c :: cs))
    with (match textOf s c with
          | Some y => y :: omap (textOf s) cs
          | None => omap (textOf s) cs
          end).
  cbn [map]. rewrite Ht. cbn [map length]. rewrite IH1.
  split; [done|]. split; [by rewrite IH2|].
  constructor; [|done]. by eapply lookup_lt_Some.
Qed.

(** The selection the model reads when the host selection runs from
    offset [a] of the run of [cS] to offset [b] of the run of a later
    element [cE] of the same paragraph. *)
Lemma Model_getSelection_span s p pre cS mid cE post ts te pathS pathE a b :
  Tree s → content s ≠ [] →
  paragraphs s !! p
  = Some {| p_content := pre ++ cS :: mid ++ cE :: post |} →
  textOf s cS = Some ts → textOf s cE = Some te →
  fst (Model_findTextForPath pathS s) = Ok ts →
  fst (Model_findTextForPath pathE s) = Ok te →
  Model_getSelection
    {| ds_start := domPoint pathS a; ds_end := domPoint pathE b |} s
  = (Ok {| sel_start := {| pt_text := ts; pt_offset := a |};
           sel_end := {| pt_text := te; pt_offset := b |};
           sel_textBetween := rev (omap (textOf s) mid) |}, s)
  ∧ ts ≠ te.
Proof.
  intros HT Hc Hp HcS HcE HpS HpE.
  pose proof (tree_owned _ HT _ _ Hp) as Hown. cbn [p_content] in Hown.
  pose proof (Tree_NoDup_textOf _ _ _ HT Hp) as Hnd. cbn [p_content] in Hnd.
  change (pre ++ cS :: mid ++ cE :: post)
    with (pre ++ [cS] ++ mid ++ cE :: post) in Hp, Hown, Hnd.
  rewrite app_assoc in Hp, Hown, Hnd. set (front := pre ++ [cS]) in *.
  assert (last front ≫= textOf s = Some ts) as Hlast
    by (unfold front; by rewrite last_snoc).
  assert (Forall (resolved s) (front ++ mid ++ cE :: post)) as Hres.
  { eapply Forall_impl; [exact Hown|]. intros c. apply ownedBy_resolved. }
  assert (ownedBy s p cE) as HoE.
  { apply Forall_app in Hown as [_ Hown].
    apply Forall_app in Hown as [_ Hown].
    by apply Forall_cons in Hown as [H _]. }
  pose proof Hnd as Hnd'. rewrite app_assoc in Hnd'.
  pose proof (NoDup_fmap_others _ _ _ _ Hnd') as Hoth.
  rewrite HcE in Hoth. apply Forall_app in Hoth as [Hfm _].
  assert (ts ≠ te) as Hne.
  { intros ->. apply Forall_app in Hfm as [Hf _]. unfold front in Hf.
    apply Forall_app in Hf as [_ Hf]. rewrite Forall_singleton in Hf.
    done. }
  split; [|done].
  unfold Model_getSelection, bind at 1, get.
  rewrite bool_decide_eq_false_2 by (by destruct (content s)).
  simpl whenM. rewrite (bind_Ok _ _ s tt s) by done.
  assert (∀ path k t, fst (Model_findTextForPath path s) = Ok t →
            createPoint (domPoint path k) s
            = (Ok {| pt_text := t; pt_offset := k |}, s)) as Hpt.
  { intros path k t Ht. unfold createPoint, domPoint.
    cbn [dp_path dp_offset]. rewrite (bind_Ok _ _ s t s); [done|].
    by rewrite (readonly_run _ s (readonly_Model_findTextForPath path)), Ht. }
  unfold Selection_ofDomSelection. cbn [ds_start ds_end].
  rewrite (bind_Ok _ _ _ _ _ (Hpt _ a _ HpS)),
    (bind_Ok _ _ _ _ _ (Hpt _ b _ HpE)).
  unfold Selection_new. cbn [pt_text]. rewrite decide_False by done.
  unfold bind at 1, get.
  assert (∃ x, last (front ++ mid) = Some x) as [x Hx].
  { destruct (last (front ++ mid)) eqn:E; [by eexists|].
    apply last_None in E. apply app_eq_nil in E as [E _].
    by apply app_eq_nil in E as [_ E]. }
  assert (resolved s x) as (xt & Hxt & _).
  { rewrite Forall_forall in Hres. apply Hres.
    apply last_Some in Hx as [l' Hl']. rewrite app_assoc, Hl'.
    apply elem_of_app. left. apply elem_of_app. right.
    apply list_elem_of_here. }
  rewrite app_assoc in Hp.
  rewrite (bind_Ok _ _ _ _ _
    (Text_getPrecedingText_behind s p (front ++ mid) cE post te x xt
       HoE HcE Hp Hfm Hx Hxt)).
  rewrite <-app_assoc in Hp.
  pose proof (betweenLoop_run s p ts mid front cE post []
                (S (length (texts s))) Hp Hown Hnd Hlast) as Hloop.
  rewrite Hx in Hloop. cbn [mbind option_bind] in Hloop.
  rewrite Hxt in Hloop.
  assert (length mid < S (length (texts s)))%nat as Hfuel.
  { apply Forall_app in Hres as [_ Hres].
    apply Forall_app in Hres as [Hres _].
    destruct (omap_textOf_resolved s mid Hres) as (Hmap & Hlen & Hlt).
    rewrite <-Hlen. apply Nat.lt_succ_r, NoDup_bounded_length; [|done].
    rewrite !map_app in Hnd. apply NoDup_app in Hnd as (_ & _ & Hnd).
    apply NoDup_app in Hnd as (Hnd & _ & _). rewrite Hmap in Hnd.
    exact (NoDup_fmap_1 Some _ Hnd). }
  by rewrite (bind_Ok _ _ _ _ _ (Hloop Hfuel)).
Qed.

Lemma textOf_same s s' c : links s' = links s → textOf s' c = textOf s c.
Proof. intros Hl. destruct c; simpl; by rewrite ?Hl. Qed.

Lemma Content_plainText_at s c t o :
  textOf s c = Some t → texts s !! t = Some o →
  Content_plainText s c = t_content o.
Proof.
  intros Hc Ho. unfold Content_plainText, Text_toMarkdown. by rewrite Hc, Ho.
Qed.

(** X20: Delete or Backspace with a selection inside one paragraph.
    With the host selection from offset [a] of the run of an element to
    offset [b] of the run of a later element of the same paragraph,
    behind the start of the first run and before the end of the last,
    [removeNextChar] and [removePreviousChar] do the same: the elements
    between the two leave the paragraph, the first run keeps its
    characters up to [a] and the last run its characters from [b] on, so
    the paragraph reads as before without the selected text; nothing
    else changes, and the caret is asked to offset [a] of the first
    run. *)
Theorem delete_selection_in_paragraph
    s p pre cS mid cE post ts te oS oE pathS pathE a b :
  Tree s → content s ≠ [] →
  paragraphs s !! p
  = Some {| p_content := pre ++ cS :: mid ++ cE :: post |} →
  textOf s cS = Some ts → textOf s cE = Some te →
  texts s !! ts = Some oS → texts s !! te = Some oE →
  fst (Model_findTextForPath pathS s) = Ok ts →
  fst (Model_findTextForPath pathE s) = Ok te →
  0 < a <= jslength (t_content oS) → 0 <= b < jslength (t_content oE) →
  let dom := {| ds_start := domPoint pathS a; ds_end := domPoint pathE b |} in
  ∃ s',
    Model_removeNextChar dom s = (Ok tt, s')
    ∧ Model_removePreviousChar dom s = (Ok tt, s')
    ∧ paragraphs s'
      = <[p := {| p_content := pre ++ cS :: cE :: post |}]> (paragraphs s)
    ∧ texts s'
      = <[te := {| t_parent := t_parent oE;
                   t_content := drop (Z.to_nat b) (t_content oE) |}]>
          (<[ts := {| t_parent := t_parent oS;
                      t_content := take (Z.to_nat a) (t_content oS) |}]>
             (texts s))
    ∧ links s' = links s ∧ content s' = content s
    ∧ Paragraph_plainText s' p
      = concat (map (Content_plainText s) pre)
        ++ take (Z.to_nat a) (t_content oS)
        ++ drop (Z.to_nat b) (t_content oE)
        ++ concat (map (Content_plainText s) post)
    ∧ cursor s' = Some {| pt_text := ts; pt_offset := a |}.
Proof.
  intros HT Hc Hp HcS HcE HoS HoE HpS HpE Ha Hb dom.
  destruct (Model_getSelection_span s p pre cS mid cE post ts te pathS pathE
              a b HT Hc Hp HcS HcE HpS HpE) as [Hsel Hne].
  fold dom in Hsel.
  pose proof (tree_owned _ HT _ _ Hp) as Hown. cbn [p_content] in Hown.
  pose proof (Tree_NoDup_textOf _ _ _ HT Hp) as Hnd. cbn [p_content] in Hnd.
  pose proof Hnd as Hnd0.
  change (pre ++ cS :: mid ++ cE :: post)
    with (pre ++ [cS] ++ mid ++ cE :: post) in Hp, Hown, Hnd.
  rewrite app_assoc in Hp, Hown, Hnd.
  destruct (remove_between_run p mid s (pre ++ [cS]) cE post Hp Hown Hnd)
    as (s1 & Hrun1 & Ht1 & Hl1 & Hc1 & Hk1 & Hp1);
    [by destruct pre|].
  rewrite <-app_assoc in Hp1. cbn [app] in Hp1.
  assert (ownedBy s p cS ∧ ownedBy s p cE) as [HownS HownE].
  { apply Forall_app in Hown as [Hf Hown].
    apply Forall_app in Hf as [_ Hf]. rewrite Forall_singleton in Hf.
    apply Forall_app in Hown as [_ Hown].
    by apply Forall_cons in Hown as [HE _]. }
  set (oS' := {| t_parent := t_parent oS;
                 t_content := take (Z.to_nat a) (t_content oS) ++
                   drop (Z.to_nat (jslength (t_content oS))) (t_content oS) |}).
  set (s2 := set_texts (λ ts0, <[ts := oS']> ts0) s1).
  set (oE' := {| t_parent := t_parent oE;
                 t_content := take (Z.to_nat 0) (t_content oE) ++
                   drop (Z.to_nat b) (t_content oE) |}).
  set (s3 := set_texts (λ ts0, <[te := oE']> ts0) s2).
  assert (texts s1 !! ts = Some oS) as HoS1 by by rewrite Ht1.
  assert (texts s2 !! te = Some oE) as HoE2
    by (simpl; rewrite Ht1; by rewrite list_lookup_insert_ne).
  assert (Selection_remove
            {| sel_start := {| pt_text := ts; pt_offset := a |};
               sel_end := {| pt_text := te; pt_offset := b |};
               sel_textBetween := rev (omap (textOf s) mid) |} s
          = (Ok (Some {| pt_text := ts; pt_offset := a |}), s3)) as Hrem.
  { unfold Selection_remove. cbn [sel_start sel_end sel_textBetween
                                   pt_text pt_offset].
    rewrite decide_False by done.
    rewrite (bind_Ok _ _ _ _ _ Hrun1).
    rewrite (bind_Ok _ _ s1 (Some {| pt_text := ts; pt_offset := a |}) s2).
    2:{ unfold Text_removeAfter.
        rewrite (bind_Ok _ _ _ _ _ (Text_length_Ok _ _ _ HoS1)).
        by destruct (removeRange_inside s1 ts oS a (jslength (t_content oS))
                       HoS1) as [-> _]; try lia. }
    rewrite (bind_Ok _ _ s2 (Some {| pt_text := te; pt_offset := 0 |}) s3).
    2:{ unfold Text_removeBefore.
        by destruct (removeRange_inside s2 te oE 0 b HoE2) as [-> _];
          try lia. }
    assert (∀ c, ownedBy s p c → ownedBy s3 p c) as Hown3.
    { intros c Hc0. apply (ownedBy_update s2 p c te oE _ HoE2).
      apply (ownedBy_update s1 p c ts oS _ HoS1).
      by apply (ownedBy_same s). }
    assert (∀ c, textOf s3 c = textOf s c) as Htx3
      by (intros c; by apply textOf_same).
    rewrite (bind_Ok _ _ s3 p s3).
    2:{ apply (Text_containingParagraph_owned s3 p cS ts);
          [by apply Hown3|by rewrite Htx3]. }
    rewrite (bind_Ok _ _ s3 p s3).
    2:{ apply (Text_containingParagraph_owned s3 p cE te);
          [by apply Hown3|by rewrite Htx3]. }
    unfold Paragraph_combineWith. by rewrite decide_True. }
  exists (set_cursor (Some {| pt_text := ts; pt_offset := a |}) s3).
  assert (Selection_isRange
            {| sel_start := {| pt_text := ts; pt_offset := a |};
               sel_end := {| pt_text := te; pt_offset := b |};
               sel_textBetween := rev (omap (textOf s) mid) |} = true)
    as Hrange.
  { unfold Selection_isRange. cbn [sel_start sel_end pt_text].
    by rewrite bool_decide_eq_false_2. }
  split.
  { unfold Model_removeNextChar. rewrite (bind_Ok _ _ _ _ _ Hsel), Hrange.
    by rewrite (bind_Ok _ _ _ _ _ Hrem). }
  split.
  { unfold Model_removePreviousChar.
    rewrite (bind_Ok _ _ _ _ _ Hsel), Hrange.
    by rewrite (bind_Ok _ _ _ _ _ Hrem). }
  assert (take (Z.to_nat a) (t_content oS) ++
            drop (Z.to_nat (jslength (t_content oS))) (t_content oS)
          = take (Z.to_nat a) (t_content oS)) as EqS.
  { rewrite drop_ge, app_nil_r; [done|]. unfold jslength. lia. }
  assert (texts s3
          = <[te := {| t_parent := t_parent oE;
                       t_content := drop (Z.to_nat b) (t_content oE) |}]>
              (<[ts := {| t_parent := t_parent oS;
                          t_content := take (Z.to_nat a) (t_content oS) |}]>
                 (texts s))) as Ht3.
  { simpl. rewrite Ht1. unfold oE', oS'. by rewrite EqS. }
  split; [exact Hp1|]. split; [exact Ht3|].
  split; [exact Hl1|]. split; [exact Hc1|]. split; [|done].
  pose proof (lookup_lt_Some _ _ _ Hp) as Hplt.
  pose proof (lookup_lt_Some _ _ _ HoS) as HtSlt.
  pose proof (lookup_lt_Some _ _ _ HoE) as HtElt.
  assert (Forall (λ c, textOf s c ≠ Some ts) (pre ++ post)
          ∧ Forall (λ c, textOf s c ≠ Some te) (pre ++ post)) as [HnS HnE].
  { split.
    - pose proof (NoDup_fmap_others _ _ _ _ Hnd0) as H. rewrite HcS in H.
      apply Forall_app in H as [H1 H2]. apply Forall_app in H2 as [_ H2].
      apply Forall_cons in H2 as [_ H2]. by apply Forall_app_2.
    - change (pre ++ cS :: mid ++ cE :: post)
        with (pre ++ (cS :: mid) ++ cE :: post) in Hnd0.
      rewrite app_assoc in Hnd0.
      pose proof (NoDup_fmap_others _ _ _ _ Hnd0) as H. rewrite HcE in H.
      apply Forall_app in H as [H1 H2]. apply Forall_app in H1 as [H1 _].
      by apply Forall_app_2. }
  assert (∀ c, c ∈ pre ++ post →
            Content_plainText s3 c = Content_plainText s c) as Hsame.
  { intros c Hin. rewrite Forall_forall in Hown, HnS, HnE.
    assert (ownedBy s p c) as Hoc.
    { apply Hown. apply elem_of_app in Hin as [Hin|Hin].
      - apply elem_of_app. left. apply elem_of_app. by left.
      - apply elem_of_app. right. apply elem_of_app. right.
        by apply list_elem_of_further. }
    destruct (ownedBy_resolved _ _ _ Hoc) as (t & Htc & [o Ho]).
    rewrite (Content_plainText_at s c t o Htc Ho).
    apply (Content_plainText_at s3 c t o).
    - by rewrite (textOf_same s s3).
    - rewrite Ht3. specialize (HnS _ Hin). specialize (HnE _ Hin).
      rewrite !list_lookup_insert_ne by congruence. done. }
  unfold Paragraph_plainText.
  change (paragraphs (set_cursor _ s3)) with (paragraphs s1).
  rewrite Hp1, list_lookup_insert_eq by done. cbn [p_content].
  rewrite map_app. cbn [map]. rewrite concat_app. cbn [concat].
  change (Content_plainText (set_cursor _ s3))
    with (Content_plainText s3).
  f_equal; [|f_equal; [|f_equal]].
  - f_equal. apply Forall_fmap_ext_1, Forall_forall. intros c Hin.
    apply Hsame, elem_of_app. by left.
  - apply (Content_plainText_at s3 cS ts
             {| t_parent := t_parent oS;
                t_content := take (Z.to_nat a) (t_content oS) |});
      [by rewrite (textOf_same s s3)|].
    rewrite Ht3, list_lookup_insert_ne by done.
    by apply list_lookup_insert_eq.
  - apply (Content_plainText_at s3 cE te
             {| t_parent := t_parent oE;
                t_content := drop (Z.to_nat b) (t_content oE) |});
      [by rewrite (textOf_same s s3)|].
    rewrite Ht3. apply list_lookup_insert_eq. by rewrite length_insert.
  - f_equal. apply Forall_fmap_ext_1, Forall_forall. intros c Hin.
    apply Hsame, elem_of_app. by right.
Qed.

Lemma delete_selection_in_paragraph_witness :
  let s := documentOf [[mdText "abc"; mdLink "x" [mdText "de"];
                        mdText "fgh"]] in
  let dom := {| ds_start := domPoint [0; 0]%nat 1;
                ds_end := domPoint [0; 2]%nat 2 |} in
  ∃ s',
    Model_removeNextChar dom s = (Ok tt, s')
    ∧ Model_removePreviousChar dom s = (Ok tt, s')
    ∧ paragraphs s'
      = <[0%nat := {| p_content := [CText 0; CText 2] |}]> (paragraphs s)
    ∧ texts s'
      = <[2%nat := {| t_parent := InParagraph 0;
                      t_content := drop 2 (lit "fgh") |}]>
          (<[0%nat := {| t_parent := InParagraph 0;
                         t_content := take 1 (lit "abc") |}]> (texts s))
    ∧ links s' = links s ∧ content s' = content s
    ∧ Paragraph_plainText s' 0 = lit "ah"
    ∧ cursor s' = Some {| pt_text := 0%nat; pt_offset := 1 |}.
Proof.
  apply (delete_selection_in_paragraph
    (documentOf [[mdText "abc"; mdLink "x" [mdText "de"]; mdText "fgh"]])
    0%nat [] (CText 0) [CLink 0] (CText 2) [] 0%nat 2%nat
    {| t_parent := InParagraph 0; t_content := lit "abc" |}
    {| t_parent := InParagraph 0; t_content := lit "fgh" |}
    [0; 0]%nat [0; 2]%nat 1 2).
  - by apply Tree_documentOf.
  - discriminate.
  - reflexivity.
  - reflexivity.
  - reflexivity.
  - reflexivity.
  - reflexivity.
  - reflexivity.
  - reflexivity.
  - unfold jslength. simpl. lia.
  - unfold jslength. simpl. lia.
Defined.

(** ** Deleting across runs of one paragraph *)

Lemma nextOfMapped_found {A B} `{EqDecision B} (pre post : list A) (c n : A)
    (f : A → B) (y : B) :
  Forall (λ a, f a ≠ y) pre → f c = y →
  nextOfMapped (pre ++ c :: n :: post) f y = Some n.
Proof.
  intros Hpre Hc. induction Hpre as [|a pre Ha _ IH]; simpl.
  - by rewrite decide_True.
  - by rewrite decide_False.
Qed.

(** The run behind the run of [c] is the run of the element behind
    [c], when [c] is not the last element of its paragraph. *)
Lemma Text_getFollowingText_behind s p pre c n post t tn :
  ownedBy s p c → textOf s c = Some t →
  paragraphs s !! p = Some {| p_content := pre ++ c :: n :: post |} →
  Forall (λ a, textOf s a ≠ Some t) pre → textOf s n = Some tn →
  Text_getFollowingText t s = (Ok (Some tn), s).
Proof.
  intros Hown Hc Hp Hne Hn.
  assert (Paragraph_getFollowingText p t s = (Ok (Some tn), s)) as Hnext.
  { unfold Paragraph_getFollowingText.
    rewrite (bind_Ok _ _ _ _ _ (Paragraph_content_Ok _ _ _ Hp)).
    unfold bind at 1, get. cbn [p_content].
    rewrite (nextOfMapped_found pre post c n (textOf s) (Some t));
      [|done|done].
    by rewrite (bind_Ok _ _ _ _ _ (Content_text_Ok _ _ _ Hn)). }
  unfold Text_getFollowingText. destruct c as [t'|l].
  - simpl in Hc. injection Hc as ->. destruct Hown as (o & Ho & Hpar).
    by rewrite (bind_Ok _ _ _ _ _ (getText_Ok _ _ _ Ho)), Hpar.
  - destruct Hown as (lo & o & Hlo & Hlp & Ho & Hpo).
    simpl in Hc. rewrite Hlo in Hc. simpl in Hc. injection Hc as Hlt.
    rewrite Hlt in Ho.
    rewrite (bind_Ok _ _ _ _ _ (getText_Ok _ _ _ Ho)), Hpo.
    unfold Link_getFollowingText.
    by rewrite (bind_Ok _ _ _ _ _ (getLink_Ok _ _ _ Hlo)), Hlp, Hlt.
Qed.

(** X21: Delete at the end of a run and Backspace at the start of a
    run, with the neighbouring run in the same paragraph.  Delete at or
    behind the end of the run of [c] removes the first character of the
    next run and returns the start of that run; when the next run has
    one character at most, its element leaves the paragraph instead and
    the end of the run of [c] is returned.  Backspace at or before the
    start of the run of [n] removes the last character of the run before
    it, when that run has two characters or more, and returns its new
    end. *)
Theorem delete_across_runs s p pre c n post t tn o on :
  Tree s →
  paragraphs s !! p = Some {| p_content := pre ++ c :: n :: post |} →
  textOf s c = Some t → textOf s n = Some tn →
  texts s !! t = Some o → texts s !! tn = Some on →
  (∀ offset, jslength (t_content o) <= offset →
     Text_removeNextChar t offset s
     = if jslength (t_content on) <=? 1
       then (Ok (Some {| pt_text := t;
                         pt_offset := jslength (t_content o) |}),
             set_paragraphs
               (λ ps, <[p := {| p_content := pre ++ c :: post |}]> ps) s)
       else (Ok (Some {| pt_text := tn; pt_offset := 0 |}),
             set_texts (λ ts,
               <[tn := {| t_parent := t_parent on;
                          t_content := drop 1 (t_content on) |}]> ts) s))
  ∧ (∀ offset, offset <= 0 → 2 <= jslength (t_content o) →
       Text_removePreviousChar tn offset s
       = (Ok (Some {| pt_text := t;
                      pt_offset := jslength (t_content o) - 1 |}),
          set_texts (λ ts,
            <[t := {| t_parent := t_parent o;
                      t_content :=
                        take (Z.to_nat (jslength (t_content o) - 1))
                          (t_content o) |}]> ts) s)).
Proof.
  intros HT Hp Hc Hn Ho Hon.
  pose proof (tree_owned _ HT _ _ Hp) as Hown. cbn [p_content] in Hown.
  pose proof (Tree_NoDup_textOf _ _ _ HT Hp) as Hnd. cbn [p_content] in Hnd.
  assert (ownedBy s p c ∧ ownedBy s p n) as [Hoc Hown_n].
  { apply Forall_app in Hown as [_ Hown].
    apply Forall_cons in Hown as [H1 Hown].
    by apply Forall_cons in Hown as [H2 _]. }
  assert (Forall (λ a, textOf s a ≠ Some t) pre) as Hpre_t.
  { pose proof (NoDup_fmap_others _ _ _ _ Hnd) as H. rewrite Hc in H.
    by apply Forall_app in H as [H _]. }
  assert (Forall (λ a, textOf s a ≠ Some tn) (pre ++ [c])) as Hfront_n.
  { change (pre ++ c :: n :: post) with (pre ++ [c] ++ n :: post) in Hnd.
    rewrite app_assoc in Hnd.
    pose proof (NoDup_fmap_others _ _ _ _ Hnd) as H. rewrite Hn in H.
    by apply Forall_app in H as [H _]. }
  pose proof (Text_getFollowingText_behind s p pre c n post t tn Hoc Hc Hp
                Hpre_t Hn) as Hnext.
  assert (Text_getPrecedingText tn s = (Ok (Some t), s)) as Hprev.
  { apply (Text_getPrecedingText_behind s p (pre ++ [c]) n post tn c t);
      try done.
    - by rewrite <-app_assoc.
    - by rewrite last_snoc. }
  pose proof (Text_containingParagraph_owned s p c t Hoc Hc) as Hpt.
  pose proof (Text_containingParagraph_owned s p n tn Hown_n Hn) as Hpn.
  split.
  - intros offset Hoff. unfold Text_removeNextChar.
    rewrite (bind_Ok _ _ _ _ _ (Text_length_Ok _ _ _ Ho)).
    rewrite (proj2 (Z.leb_le _ _)) by done.
    rewrite (bind_Ok _ _ _ _ _ Hnext), (bind_Ok _ _ _ _ _ Hpn),
      (bind_Ok _ _ _ _ _ Hpt).
    rewrite decide_True by done. unfold Text_removeFirstCharacter.
    rewrite (bind_Ok _ _ _ _ _ (Text_length_Ok _ _ _ Hon)).
    destruct (jslength (t_content on) <=? 1) eqn:Hlen.
    + by apply (Text_remove_element s p pre post c n tn t o).
    + apply Z.leb_gt in Hlen.
      by destruct (removeRange_inside s tn on 0 1 Hon) as [-> _]; try lia.
  - intros offset Hoff Hlen. unfold Text_removePreviousChar.
    rewrite (proj2 (Z.leb_le _ _)) by done.
    rewrite (bind_Ok _ _ _ _ _ Hprev), (bind_Ok _ _ _ _ _ Hpt),
      (bind_Ok _ _ _ _ _ Hpn).
    rewrite decide_True by done. unfold Text_removeLastCharacter.
    rewrite (bind_Ok _ _ _ _ _ (Text_length_Ok _ _ _ Ho)).
    rewrite (proj2 (Z.leb_gt _ _)) by lia.
    destruct (removeRange_inside s t o (jslength (t_content o) - 1)
                (jslength (t_content o)) Ho) as [-> _]; try lia.
    rewrite drop_ge, app_nil_r; [done|]. unfold jslength. lia.
Qed.

Lemma delete_across_runs_witness :
  let s := documentOf [[mdText "ab"; mdLink "x" [mdText "cd"]]] in
  (∀ offset, 2 <= offset →
     Text_removeNextChar 0 offset s
     = (Ok (Some {| pt_text := 1%nat; pt_offset := 0 |}),
        set_texts (λ ts,
          <[1%nat := {| t_parent := InLink 0;
                        t_content := lit "d" |}]> ts) s))
  ∧ (∀ offset, offset <= 0 → 2 <= 2 →
       Text_removePreviousChar 1 offset s
       = (Ok (Some {| pt_text := 0%nat; pt_offset := 1 |}),
          set_texts (λ ts,
            <[0%nat := {| t_parent := InParagraph 0;
                          t_content := lit "a" |}]> ts) s)).
Proof.
  apply (delete_across_runs
    (documentOf [[mdText "ab"; mdLink "x" [mdText "cd"]]]) 0%nat
    [] (CText 0) (CLink 0) [] 0%nat 1%nat
    {| t_parent := InParagraph 0; t_content := lit "ab" |}
    {| t_parent := InLink 0; t_content := lit "cd" |}).
  - by apply Tree_documentOf.
  - reflexivity.
  - reflexivity.
  - reflexivity.
  - reflexivity.
  - reflexivity.
Defined.

(** ** The tree under editing *)

(** A computation that keeps the object graph a tree, also when it
    faults half way. *)
Definition keeps {A} (m : M A) : Prop := triple Tree m (λ _, Tree) Tree.

Definition keepsQ {A} (m : M A) (Q : A → Model → Prop) : Prop :=
  triple Tree m (λ a st, Tree st ∧ Q a st) Tree.

Lemma keeps_ret {A} (a : A) : keeps (ret a).
Proof. by apply triple_ret. Qed.

Lemma keeps_throw {A} f : keeps (@throw A f).
Proof. by apply triple_throw. Qed.

Lemma keeps_get : keeps get.
Proof. by apply triple_get. Qed.

Lemma keeps_bind {A B} (m : M A) (k : A → M B) :
  keeps m → (∀ a, keeps (k a)) → keeps (bind m k).
Proof. intros Hm Hk. eapply triple_bind; [exact Hm|exact Hk]. Qed.

Lemma keeps_modify f : (∀ st, Tree st → Tree (f st)) → keeps (modify f).
Proof. intros H. by apply triple_modify. Qed.

Lemma keeps_readonly {A} (m : M A) : readonly m → keeps m.
Proof.
  intros H st I. specialize (H st).
  destruct (m st) as [[a|f] st']; simpl in *; by subst.
Qed.

Lemma keeps_forOf {A} (xs : list A) body :
  (∀ x, keeps (body x)) → keeps (forOf xs body).
Proof. intros H. apply triple_forOf. intros x _. apply H. Qed.

Lemma keepsQ_bind {A B} (m : M A) (Q : A → Model → Prop) (k : A → M B) :
  keepsQ m Q →
  (∀ a, triple (λ st, Tree st ∧ Q a st) (k a) (λ _, Tree) Tree) →
  keeps (bind m k).
Proof. intros Hm Hk. eapply triple_bind; [exact Hm|exact Hk]. Qed.

Lemma keepsQ_keeps {A} (m : M A) Q : keepsQ m Q → keeps m.
Proof. intros H. eapply triple_post; [exact H|]. by intros a st [? _]. Qed.

Lemma Tree_set_cursor s c : Tree s → Tree (set_cursor c s).
Proof. intros [H1 H2]. by split. Qed.

Lemma Tree_set_content s f : Tree s → Tree (set_content f s).
Proof. intros [H1 H2]. by split. Qed.

Create HintDb keeps.

#[export] Hint Resolve keeps_ret keeps_throw keeps_get : keeps.

#[export] Hint Extern 5 (keeps _) =>
  apply keeps_readonly; solve [eauto with rel typeclass_instances] : keeps.

#[export] Hint Extern 1 (keeps (modify _)) =>
  apply keeps_modify; intros;
  first [ by apply Tree_set_cursor | by apply Tree_set_selections
        | by apply Tree_set_content ] : keeps.

Ltac keeps_step :=
  match goal with
  | |- triple Tree ?m _ Tree => change (keeps m)
  | |- keeps _ => solve [eauto with keeps]
  | |- keeps (bind _ _) => apply keeps_bind; [|intros]
  | |- keeps (whenM ?b _) => destruct b; simpl
  | |- keeps (forOf _ _) => apply keeps_forOf; intros
  | |- keeps (match ?x with _ => _ end) => destruct x
  | |- keeps (if ?b then _ else _) => destruct b
  | |- keeps _ => solve [eauto with keeps]
  end.

Ltac keeps_go := repeat first [keeps_step | progress rel_unfold].

(** An element that names [p] as its paragraph and is in no paragraph
    yet. *)
Definition newIn (st : Model) (p : nat) (c : Content) : Prop :=
  ownedBy st p c ∧ ∀ q qo, paragraphs st !! q = Some qo → c ∉ p_content qo.

Lemma Tree_allocated s q qo c :
  Tree s → paragraphs s !! q = Some qo → c ∈ p_content qo → allocated s c.
Proof.
  intros T Hq Hc. pose proof (tree_owned _ T _ _ Hq) as H.
  rewrite Forall_forall in H. by eapply ownedBy_allocated, H.
Qed.

Lemma Tree_ext s s' :
  ext s s' → paragraphs s' = paragraphs s → Tree s → Tree s'.
Proof.
  intros E Hp [H1 H2]. split; intros q qo Hq; rewrite Hp in Hq.
  - eapply Forall_impl; [exact (H1 _ _ Hq)|]. intros c. by apply ownedBy_ext.
  - exact (H2 _ _ Hq).
Qed.

(** Putting a list of owned, pairwise different elements in the place of
    the content of a paragraph. *)
Lemma Tree_paragraph_update s p cs :
  Tree s → Forall (ownedBy s p) cs → NoDup cs →
  Tree (set_paragraphs (λ ps, <[p := {| p_content := cs |}]> ps) s).
Proof.
  intros [H1 H2] Hown Hnd. split; intros q qo Hq; simpl in Hq;
    apply list_lookup_insert_Some in Hq as [(-> & <- & Hlt)|[Hne Hq]];
    simpl; eauto.
Qed.

Lemma Tree_text_update s t o v :
  texts s !! t = Some o → Tree s →
  Tree (set_texts (λ ts,
          <[t := {| t_parent := t_parent o; t_content := v |}]> ts) s).
Proof.
  intros Ho [H1 H2]. split; intros q qo Hq; simpl in Hq; [|eauto].
  eapply Forall_impl; [exact (H1 _ _ Hq)|]. intros c.
  by apply ownedBy_update.
Qed.

Lemma keepsQ_Text_new p v :
  keepsQ (Text_new (InParagraph p) v) (λ t st, newIn st p (CText t)).
Proof.
  intros st T. simpl.
  assert (ext st (set_texts (λ ts, ts ++
            [{| t_parent := InParagraph p; t_content := orSpace v |}]) st))
    as E by (split; [by eexists|done|done]).
  split; [by apply (Tree_ext st)|]. split.
  - eexists. split; [by apply list_lookup_middle|done].
  - intros q qo Hq Hin.
    pose proof (Tree_allocated _ _ _ _ T Hq Hin) as H. simpl in H. lia.
Qed.

Lemma keeps_Text_new parent v : keeps (Text_new parent v).
Proof.
  intros st T. simpl. apply (Tree_ext st); [|done|done].
  split; [by eexists|done|done].
Qed.
#[export] Hint Resolve keeps_Text_new : keeps.

Lemma keeps_Text_setContent t v : keeps (Text_setContent t v).
Proof.
  intros st T. unfold Text_setContent, bind, getText.
  destruct (texts st !! t) as [o|] eqn:E; simpl; [|done].
  by apply Tree_text_update.
Qed.
#[export] Hint Resolve keeps_Text_setContent : keeps.

Lemma keepsQ_Link_new parent v target :
  keepsQ (Link_new parent v target) (λ l st, newIn st parent (CLink l)).
Proof.
  intros st T. simpl.
  set (x := {| t_parent := InLink (length (links st));
               t_content := orSpace v |}).
  set (lo := {| l_parent := parent; l_text := length (texts st);
                l_target := target |}).
  assert (ext st (set_links (λ ls, ls ++ [lo])
                    (set_texts (λ ts, ts ++ [x]) st))) as E
    by (split; [by eexists|by eexists|done]).
  split; [by apply (Tree_ext st)|]. split.
  - exists lo, x. simpl. repeat split.
    + by apply list_lookup_middle.
    + by apply list_lookup_middle.
  - intros q qo Hq Hin.
    pose proof (Tree_allocated _ _ _ _ T Hq Hin) as H. simpl in H. lia.
Qed.

Lemma keeps_Link_new parent v target : keeps (Link_new parent v target).
Proof. eapply keepsQ_keeps, keepsQ_Link_new. Qed.
#[export] Hint Resolve keeps_Link_new : keeps.

Lemma keepsQ_Content_copyToParent c parent :
  keepsQ (Content_copyToParent c parent) (λ c' st, newIn st parent c').
Proof.
  unfold keepsQ. destruct c as [t|l]; simpl.
  - eapply triple_bind; [|intros t'; apply triple_ret; intros st H; exact H].
    unfold Text_copyToParent.
    eapply triple_bind; [apply keeps_readonly; rel_go|].
    intros s. apply keepsQ_Text_new.
  - eapply triple_bind; [|intros l'; apply triple_ret; intros st H; exact H].
    unfold Link_copyToParent.
    eapply triple_bind; [apply keeps_readonly; rel_go|].
    intros s. eapply triple_bind; [apply keeps_readonly; rel_go|].
    intros lo. apply keepsQ_Link_new.
Qed.

Lemma keeps_Paragraph_new : keeps Paragraph_new.
Proof.
  intros st [H1 H2]. simpl. split; intros q qo Hq; simpl in Hq;
    apply lookup_app_Some in Hq as [Hq|[_ Hq]]; eauto;
    apply list_lookup_singleton_Some in Hq as [_ <-]; constructor.
Qed.
#[export] Hint Resolve keeps_Paragraph_new : keeps.

Lemma insertBefore_NoDup {A} `{EqDecision A} (arr : list A) item ref arr' :
  insertBefore arr item ref = Some arr' →
  NoDup arr → item ∉ arr → NoDup arr'.
Proof.
  revert arr'. induction arr as [|a arr IH]; intros arr'; simpl; [done|].
  intros H Hnd Hin. apply NoDup_cons in Hnd as [Ha Hnd].
  apply not_elem_of_cons in Hin as [Hia Hin].
  destruct (decide (a = ref)) as [->|Hne].
  - injection H as <-. apply NoDup_cons. split; [|by apply NoDup_cons].
    by apply not_elem_of_cons.
  - destruct (insertBefore arr item ref) as [r|] eqn:E; [|done].
    injection H as <-. apply NoDup_cons. split; [|by apply IH].
    intros [->|Hr]%(insertBefore_elem _ _ _ _ _ E); done.
Qed.

Lemma remove_NoDup {A} `{EqDecision A} (arr : list A) item :
  NoDup arr → NoDup (remove arr item).
Proof.
  induction 1 as [|a arr Ha Hnd IH]; simpl; [constructor|].
  destruct (decide (a = item)); [done|]. apply NoDup_cons. split; [|done].
  by intros Hin%remove_elem.
Qed.

(** Adding a new element of [p] to [p] leaves a tree. *)
Lemma triple_keeps_addContent p c :
  triple (λ st, Tree st ∧ newIn st p c) (Paragraph_addContent p c)
    (λ _, Tree) Tree.
Proof.
  intros st [T [Hown Hnew]]. unfold Paragraph_addContent, Paragraph_content,
    bind, getParagraph.
  destruct (paragraphs st !! p) as [po|] eqn:E; simpl; [|done].
  apply Tree_paragraph_update; [done| |].
  - apply Forall_app_2; [exact (tree_owned _ T _ _ E)|by constructor].
  - apply NoDup_app. split; [exact (tree_nodup _ T _ _ E)|].
    split; [|apply NoDup_singleton].
    intros x Hx ->%list_elem_of_singleton. by apply (Hnew _ _ E).
Qed.

Lemma triple_keeps_addContentBefore p c ref :
  triple (λ st, Tree st ∧ newIn st p c) (Paragraph_addContentBefore p c ref)
    (λ _, Tree) Tree.
Proof.
  intros st [T [Hown Hnew]]. unfold Paragraph_addContentBefore,
    Paragraph_content, bind, getParagraph.
  destruct (paragraphs st !! p) as [po|] eqn:E; simpl; [|done].
  destruct (insertBefore (p_content po) c ref) as [cs'|] eqn:Ei; simpl;
    [|done].
  apply Tree_paragraph_update; [done| |].
  - apply Forall_forall. intros x Hx.
    apply (insertBefore_elem _ _ _ _ _ Ei) in Hx as [->|Hx]; [done|].
    pose proof (tree_owned _ T _ _ E) as H. rewrite Forall_forall in H.
    auto.
  - eapply insertBefore_NoDup; [exact Ei|exact (tree_nodup _ T _ _ E)|].
    by apply (Hnew _ _ E).
Qed.

Lemma keeps_Model_removeContent p : keeps (Model_removeContent p).
Proof. unfold Model_removeContent. keeps_go. Qed.
#[export] Hint Resolve keeps_Model_removeContent : keeps.

Lemma keeps_Paragraph_removeContent p c :
  keeps (Paragraph_removeContent p c).
Proof.
  intros st T. unfold Paragraph_removeContent, Paragraph_content, bind,
    getParagraph.
  destruct (paragraphs st !! p) as [po|] eqn:E; simpl; [|done].
  destruct (decide (length (p_content po) = 1%nat)).
  { by apply keeps_Model_removeContent. }
  destruct (decide (c ∈ p_content po)); simpl; [|done].
  apply Tree_paragraph_update; [done| |].
  - apply Forall_forall. intros x Hx%remove_elem.
    pose proof (tree_owned _ T _ _ E) as H. rewrite Forall_forall in H.
    auto.
  - apply remove_NoDup. exact (tree_nodup _ T _ _ E).
Qed.
#[export] Hint Resolve keeps_Paragraph_removeContent : keeps.

Lemma keeps_copy_and_add c p :
  keeps (c' <- Content_copyToParent c p;; Paragraph_addContent p c').
Proof.
  eapply keepsQ_bind; [apply keepsQ_Content_copyToParent|].
  intros c'. apply triple_keeps_addContent.
Qed.

Lemma keeps_new_and_add p v :
  keeps (t <- Text_new (InParagraph p) v;; Paragraph_addContent p (CText t)).
Proof.
  eapply keepsQ_bind; [apply keepsQ_Text_new|].
  intros c'. apply triple_keeps_addContent.
Qed.

Lemma keeps_new_and_addBefore p v ref :
  keeps (t <- Text_new (InParagraph p) v;;
         Paragraph_addContentBefore p (CText t) ref).
Proof.
  eapply keepsQ_bind; [apply keepsQ_Text_new|].
  intros t. apply triple_keeps_addContentBefore.
Qed.
#[export] Hint Resolve keeps_copy_and_add keeps_new_and_add
  keeps_new_and_addBefore : keeps.

Lemma keeps_Text_remove t : keeps (Text_remove t).
Proof. keeps_go. Qed.
#[export] Hint Resolve keeps_Text_remove : keeps.

Lemma keeps_Content_remove c : keeps (Content_remove c).
Proof. keeps_go. Qed.
#[export] Hint Resolve keeps_Content_remove : keeps.

Lemma keeps_Text_removeRange t a b : keeps (Text_removeRange t a b).
Proof. keeps_go. Qed.
#[export] Hint Resolve keeps_Text_removeRange : keeps.

Lemma keeps_Text_insertChar t ch offset : keeps (Text_insertChar t ch offset).
Proof. keeps_go. Qed.
#[export] Hint Resolve keeps_Text_insertChar : keeps.

Lemma keeps_combineLoop this lastOfThis firstChild cs :
  keeps (combineLoop this lastOfThis firstChild cs).
Proof.
  revert firstChild. induction cs as [|c cs IH]; intros firstChild; simpl.
  - keeps_go.
  - apply keeps_bind; [|auto]. keeps_go.
Qed.
#[export] Hint Resolve keeps_combineLoop : keeps.

Lemma keeps_Paragraph_combineWith this paragraph :
  keeps (Paragraph_combineWith this paragraph).
Proof. keeps_go. Qed.
#[export] Hint Resolve keeps_Paragraph_combineWith : keeps.

Lemma keeps_Paragraph_appendText p s : keeps (Paragraph_appendText p s).
Proof. keeps_go. Qed.
#[export] Hint Resolve keeps_Paragraph_appendText : keeps.

Lemma keeps_splitLoop prepending fromText fromOffset cs acc :
  keeps (splitLoop prepending fromText fromOffset cs acc).
Proof.
  revert acc. induction cs as [|c cs IH]; intros acc; simpl.
  - keeps_go.
  - apply keeps_bind; [keeps_go|]. intros ct.
    destruct (decide (ct = fromText)); [keeps_go|].
    eapply keepsQ_bind; [apply keepsQ_Content_copyToParent|].
    intros c'. eapply triple_bind; [apply triple_keeps_addContent|].
    intros u. apply IH.
Qed.
#[export] Hint Resolve keeps_splitLoop : keeps.

Lemma keeps_Paragraph_splitTo this N fromText fromOffset :
  keeps (Paragraph_splitTo this N fromText fromOffset).
Proof. keeps_go. Qed.
#[export] Hint Resolve keeps_Paragraph_splitTo : keeps.

Lemma keeps_mergeLoop fuel p cur i cam : keeps (mergeLoop fuel p cur i cam).
Proof.
  revert i cam. induction fuel as [|fuel IH]; intros i cam; simpl.
  - keeps_go.
  - apply keeps_bind; [keeps_go|]. intros cs.
    destruct (i <? length cs)%nat; [|keeps_go].
    destruct (cs !! (i - 1)%nat) as [[previous|]|]; auto.
    destruct (cs !! i) as [[current|]|]; auto.
    keeps_go.
Qed.
#[export] Hint Resolve keeps_mergeLoop : keeps.

Lemma keeps_Paragraph_mergeConsecutiveTexts p cur :
  keeps (Paragraph_mergeConsecutiveTexts p cur).
Proof. keeps_go. Qed.
#[export] Hint Resolve keeps_Paragraph_mergeConsecutiveTexts : keeps.

Lemma keeps_Selection_remove s : keeps (Selection_remove s).
Proof. keeps_go. Qed.
#[export] Hint Resolve keeps_Selection_remove : keeps.

Lemma keeps_Text_removeNextChar t offset :
  keeps (Text_removeNextChar t offset).
Proof. keeps_go. Qed.
#[export] Hint Resolve keeps_Text_removeNextChar : keeps.

Lemma keeps_Text_removePreviousChar t offset :
  keeps (Text_removePreviousChar t offset).
Proof. keeps_go. Qed.
#[export] Hint Resolve keeps_Text_removePreviousChar : keeps.

Lemma keeps_seed :
  keeps (
    newParagraph <- Paragraph_new;;
    newText <- Text_new (InParagraph newParagraph) [];;
    Paragraph_addContent newParagraph (CText newText);;;
    Model_addParagraph newParagraph;;;
    Model_moveCursor (Some {| pt_text := newText; pt_offset := 0 |})).
Proof.
  apply keeps_bind; [keeps_go|]. intros np.
  eapply keepsQ_bind; [apply keepsQ_Text_new|]. intros nt.
  eapply triple_bind; [apply triple_keeps_addContent|]. intros u.
  keeps_go.
Qed.

Lemma keeps_Model_getSelection dom : keeps (Model_getSelection dom).
Proof.
  unfold Model_getSelection. apply keeps_bind; [keeps_go|]. intros st.
  apply keeps_bind; [|intros; keeps_go].
  destruct (bool_decide _); simpl; [apply keeps_seed|keeps_go].
Qed.
#[export] Hint Resolve keeps_Model_getSelection : keeps.

Lemma keeps_Model_updateSelection dom : keeps (Model_updateSelection dom).
Proof. keeps_go. Qed.
#[export] Hint Resolve keeps_Model_updateSelection : keeps.

Lemma keeps_Model_insertChar ch dom : keeps (Model_insertChar ch dom).
Proof. keeps_go. Qed.

Lemma keeps_Model_removeNextChar dom : keeps (Model_removeNextChar dom).
Proof. keeps_go. Qed.

Lemma keeps_Model_removePreviousChar dom :
  keeps (Model_removePreviousChar dom).
Proof. keeps_go. Qed.

Lemma keeps_Model_insertNewParagraph dom :
  keeps (Model_insertNewParagraph dom).
Proof. keeps_go. Qed.

(** A new run for [p] while another new element [c0] waits to be put
    into its paragraph. *)
Lemma keepsQ_Text_new_frame p v p0 c0 :
  triple (λ st, Tree st ∧ newIn st p0 c0) (Text_new (InParagraph p) v)
    (λ t st, Tree st ∧ newIn st p (CText t) ∧ newIn st p0 c0 ∧ c0 ≠ CText t)
    Tree.
Proof.
  intros st [T [Hown Hnew]].
  pose proof (keepsQ_Text_new p v st T) as H. simpl in *.
  destruct H as [T' N']. split; [done|]. split; [done|].
  assert (ext st (set_texts (λ ts, ts ++
            [{| t_parent := InParagraph p; t_content := orSpace v |}]) st))
    as E by (split; [by eexists|done|done]).
  split; [split|].
  - by apply (ownedBy_ext st).
  - exact Hnew.
  - intros ->. apply ownedBy_allocated in Hown. simpl in Hown. lia.
Qed.

Lemma triple_keeps_addContentBefore_frame p c ref p0 c0 :
  triple (λ st, Tree st ∧ newIn st p c ∧ newIn st p0 c0 ∧ c0 ≠ c)
    (Paragraph_addContentBefore p c ref)
    (λ _ st, Tree st ∧ newIn st p0 c0) Tree.
Proof.
  intros st (T & N & [Hown0 Hnew0] & Hne).
  pose proof (triple_keeps_addContentBefore p c ref st (conj T N)) as H.
  unfold Paragraph_addContentBefore, Paragraph_content, bind, getParagraph
    in *.
  destruct (paragraphs st !! p) as [po|] eqn:E; simpl in *; [|done].
  destruct (insertBefore (p_content po) c ref) as [cs'|] eqn:Ei; simpl in *;
    [|done].
  split; [done|]. split; [exact Hown0|].
  intros q qo Hq Hin.
  apply list_lookup_insert_Some in Hq as [(-> & <- & Hlt)|[Hqne Hq]].
  - simpl in Hin.
    apply (insertBefore_elem _ _ _ _ _ Ei) in Hin as [->|Hin]; [done|].
    by apply (Hnew0 _ _ E).
  - by apply (Hnew0 _ _ Hq).
Qed.

Lemma keeps_Model_link target dom : keeps (Model_link target dom).
Proof.
  unfold Model_link. apply keeps_bind; [keeps_go|]. intros st0.
  destruct (linkableSelection st0) as [ls|]; [|keeps_go].
  apply keeps_bind; [keeps_go|]. intros paragraph.
  apply keeps_bind; [keeps_go|]. intros c.
  eapply keepsQ_bind; [apply keepsQ_Link_new|]. intros selectionAsLink.
  eapply (triple_bind _ _
    (λ _ st, Tree st ∧ newIn st paragraph (CLink selectionAsLink))).
  { destruct (0 <? ls_start ls); simpl; [|by apply triple_ret].
    eapply (triple_bind _ _
      (λ _ st, Tree st ∧ newIn st paragraph (CLink selectionAsLink))).
    { apply triple_readonly; [rel_go| |]; intros st a H _; by destruct H. }
    intros c1. eapply triple_bind; [apply keepsQ_Text_new_frame|].
    intros t. apply triple_keeps_addContentBefore_frame. }
  intros u. eapply triple_bind; [apply triple_keeps_addContentBefore|].
  intros u'. keeps_go.
Qed.

Lemma keeps_Model_unlink dom : keeps (Model_unlink dom).
Proof.
  unfold Model_unlink. apply keeps_bind; [keeps_go|]. intros st0.
  destruct (linkedSelection st0) as [lk|]; [|keeps_go].
  apply keeps_bind; [keeps_go|]. intros lo.
  apply keeps_bind; [apply keeps_readonly; rel_go|]. intros c.
  eapply keepsQ_bind; [apply keepsQ_Text_new|]. intros linkAsText.
  eapply triple_bind; [apply triple_keeps_addContentBefore|].
  intros u. keeps_go.
Qed.

Lemma keeps_perform op : keeps (perform op).
Proof.
  destruct op; simpl.
  - apply keeps_Model_insertChar.
  - apply keeps_Model_insertNewParagraph.
  - apply keeps_Model_removeNextChar.
  - apply keeps_Model_removePreviousChar.
  - keeps_go.
  - apply keeps_Model_link.
  - apply keeps_Model_unlink.
  - apply keeps_Model_updateSelection.
  - apply keeps_modify. intros st. apply Tree_set_selections.
Qed.

Lemma Tree_performAll ops : ∀ st, Tree st → Tree (performAll ops st).
Proof.
  induction ops as [|op ops IH]; intros st T; simpl; [done|].
  apply IH. pose proof (keeps_perform op st T) as H.
  by destruct (perform op st) as [[[]|f] st'].
Qed.

(** X22: the object graph stays a tree under editing.  Whatever edit
    operations and selection changes follow one another from a document
    whose object graph is a tree, faulting or not, every element of
    every paragraph keeps naming its paragraph as parent, the run of
    every link keeps naming its link, no element is twice in a
    paragraph, and so the elements of a paragraph have pairwise
    different runs. *)
Theorem edits_keep_tree st ops :
  Tree st →
  Tree (performAll ops st)
  ∧ ∀ p po, paragraphs (performAll ops st) !! p = Some po →
      NoDup (map (textOf (performAll ops st)) (p_content po)).
Proof.
  intros T. pose proof (Tree_performAll ops st T) as T'.
  split; [done|]. intros p po Hp. by apply (Tree_NoDup_textOf _ p).
Qed.

Lemma edits_keep_tree_witness :
  let ops := [InsertNewParagraph (caret [0; 0]%nat 1);
              RemovePreviousChar (caret [1; 0]%nat 0);
              UpdateSelection (caret [0; 0]%nat 1);
              Link_ (lit "x") (caret [0; 0; 0]%nat 1);
              Unlink (caret [0; 0]%nat 1)] in
  let s := performAll ops (documentOf [[mdText "ab"]]) in
  Tree s
  ∧ ∀ p po, paragraphs s !! p = Some po →
      NoDup (map (textOf s) (p_content po)).
Proof.
  apply (edits_keep_tree (documentOf [[mdText "ab"]])).
  by apply Tree_documentOf.
Defined.
